(* ===== verification/_CoqProject ===== *)
-Q . S2P
Prelude.v
GoInt.v
GoString.v
GoSort.v
Sha256.v
GoFloat.v
GoDuration.v
GoAny.v
Hashing.v
Json.v
JsonPrint.v
JsonFuel.v
GoHttp.v
Model.v
Cache.v
Router.v
Breaker.v
Keys.v
Base64.v
Etcd.v
EtcdSync.v
Lifecycle.v
Convergence.v
EtcdHttp.v
EtcdWire.v
StreamSync.v
FileRegistry.v
Registry.v
Tests.v
Secrets.v
Metrics.v
Pool.v
PoolSync.v
PoolDrain.v
PoolReap.v
AcquireSync.v
Api.v
ApiConns.v
Serve.v
EndToEnd.v
DualWrite.v
Fleet.v
Config.v
Main.v
Typing.v
