(* ===== verification/Prelude.v ===== *)
(** * Verification of pg-shard-router

    pg-shard-router is an HTTP service that sends statements to sharded
    PostgreSQL databases. A request carries a shard key; the key is hashed to
    a virtual bucket; a shard map says which shard owns the bucket and, while
    the bucket moves, from where and to where; the statement is executed on
    the shard or shards this gives, through a pool of connections guarded by a
    circuit breaker per shard. The shard map comes from etcd, by an initial
    load, a watch and a periodic reconciliation, or from a JSON file.

    ** The files and the code they model

    Paths are under [src/]. This file holds the results of fallible functions,
    the database of hints [go] and the automation all the others use.

    Go and its standard library, as far as the program uses them:
    - [GoInt]: [int], [int32], decimal printing and [strconv.Atoi].
    - [GoString]: bytes; [HasPrefix], [Split], [TrimSpace], [ToUpper],
      [Replacer], the verbs [%q] and [%d].
    - [GoSort]: the order of strings and [sort.Strings].
    - [GoFloat]: [float64] read from a literal and printed with [%v].
    - [GoDuration]: [time.ParseDuration].
    - [GoAny]: values of type [any] and their text under [%v].
    - [Sha256], [Base64]: [crypto/sha256], [encoding/base64].
    - [Json], [JsonFuel], [JsonPrint]: [encoding/json], its termination, and
      the round trip of the messages exchanged with etcd.
    - [GoHttp]: [net/url] and the mux of [net/http], as of Go 1.22: escapes,
      queries, cleaned paths, patterns of a method and literal segments.

    The program:
    - [Hashing]: [internal/hashing/hash.go]. [BucketFor] and the golden
      vectors of [testdata/golden_vectors.json].
    - [Model]: [internal/model/types.go]. The records of the shard map and
      their JSON form.
    - [Cache]: [internal/cache/mapping.go]. A [Mapping] is two maps and a
      revision; a pointer to one is a location of a [Memory], and the store is
      the pointer this memory publishes. Mutation in place and sharing are
      therefore visible.
    - [Router]: [internal/router/router.go]. [Resolve] and [ReadEndpoint],
      their errors, and the table of migration states they implement.
    - [Breaker]: [internal/breaker/breaker.go]. One record per breaker, one
      step per method, since every method holds the mutex.
    - [Keys]: [internal/registry/keys.go] and the range a prefix selects.
    - [Etcd]: [internal/registry/etcd.go], the contents of a mapping: [applyKV],
      the full load, one watch batch; and what a key-space denotes.
    - [EtcdSync]: the same file, the goroutines: [watchLoop], [reconcileLoop],
      [loadAll] and the requests that hold a snapshot, as a step relation whose
      steps are the accesses to shared memory.
    - [Lifecycle]: [Close] of the same file, and the control flow of the two loops
      around those accesses: the context, [sleepOrDone], the ticker, the batches
      that have arrived and are not read. Every step is zero or one step of
      [EtcdSync].
    - [Convergence]: the same loops against the history of the key-space, when etcd
      answers as it documents.
    - [EtcdHttp]: [internal/registry/etcdhttp.go]: failover, authentication,
      Range and Watch; and [Start] of the etcd registry.
    - [EtcdWire]: the messages etcd documents, and what the client makes of
      them.
    - [StreamSync]: the channel of [watchPrefix]: its decoding goroutine against the
      loop of [watchLoop] that reads it.
    - [FileRegistry]: [internal/registry/file.go].
    - [Registry]: [internal/registry/registry.go]. The interface as a class with
      laws; the two registries are its instances.
    - [Tests]: the tests of the repository ([*_test.go]), as booleans, and that the
      model passes them.
    - [Secrets]: [internal/secrets/provider.go]. The interface [Provider] and the
      provider that reads the environment.
    - [Pool]: [internal/pool/manager.go], the critical sections of [poolFor],
      [Acquire], [reapOnce] and [Close], and their composition for one caller.
    - [PoolSync]: the same file, any number of callers, the reaper and [Close]
      interleaved at the mutex.
    - [PoolDrain]: the same file, [Close] of the manager and of the driver's
      pools against the goroutines that hold connections.
    - [PoolReap]: the same file, the reaper against the goroutines that hold
      connections.
    - [AcquireSync]: the same file, [Acquire] of any number of goroutines against
      the breaker, between its two sections.
    - [Metrics]: [internal/metrics/metrics.go].
    - [Api]: [internal/api/server.go], every handler and the goroutines of a dual
      write, over a class [Backend] of what the connections do; [pool_backend]
      implements the class with [Pool].
    - [ApiConns]: the handlers behind a ledger of the connections they take.
    - [Serve]: [routes] and [Handler] of the same file: from an HTTP request to its
      reply.
    - [EndToEnd]: all of the above from the key-space of etcd to the statements a
      database is sent.
    - [DualWrite]: many requests, and the goroutines of their dual writes, in any
      order.
    - [Fleet]: several instances of the service on one key-space, and the requests
      they answer.
    - [Config]: [internal/config/config.go], and [run] of
      [cmd/shard-router/main.go] up to the HTTP server.
    - [Main]: [main] and the whole of [run], with its deferred calls.
    - [Typing]: the records in memory fit the types the code declares.

    The components meet where the code meets: [Api] calls [Router] on the
    snapshot of [Cache] and [Pool] through [Backend]; [Pool] calls [Breaker] and
    [Secrets]; [EtcdSync] runs the updates of [Etcd] on the memory of [Cache];
    [EtcdHttp] produces the responses and batches [Etcd] consumes; [Config]
    chooses a [Registry].

    ** What the theorems show

    Routing. [resolve_refines_table]: [Resolve] computes the table of
    migration states, on success and on every error.
    [resolve_success_safe]: what a caller may rely on.
    [migration_step_covered]: the shard read after a step of a migration was in
    the write set before it, if both shards stay registered. [fleet_reads_writes]:
    what one instance of the service has acknowledged is seen by the reads of the
    others, as long as the bucket keeps its owner, and the owner its endpoint, and
    nothing is lost on the way to the maps (see below); a migration changes the
    owner once ([owner_changes_at_cutover]), and the
    lemma [cutover_not_fenced] shows what may happen there. Lemmas:
    [resolve_local]; [reads_follow_consistency];
    [dual_state_inactive_source_fails], a branch the comment promises and the
    code does not reach; [bucket_in_range], [golden_vectors_reproduced],
    [large_json_number_not_decimal], the hash of a key.

    Building the shard map. [applyKV_effect]: one key-value, on every branch.
    [watch_equals_reload]: loading and then watching gives what a later load
    gives; [malformed_put_diverges]: except after a value that does not decode.
    [start_loads_keyspace], [watch_delivers], [range_selects_prefix],
    [post_failover], [expired_token_fails_once]: the client, from bytes to
    batches. [file_matches_etcd], and the lemma [file_start_loads]: the file
    registry agrees with the etcd registry.

    Concurrency of the shard map. [sync_refines_atomic]: under every
    interleaving the store holds what an atomic specification has published on the
    same responses and batches: whole loads and whole batches.
    [snapshot_immutable]: a request's snapshot never changes.
    [map_converges]: the map is as recent as the watch and ends equal to the
    key-space, if no reconciliation is overtaken by the watch and no stream ends
    between the responses of a catch-up; [reconciliation_heals]: a reconciliation
    repairs what was lost to either; the lemma [routes_by_history]: with or without
    such losses, a request is routed by records that did exist. What they suppose
    of etcd is what it documents: a stream delivers every change from the revision
    asked for, in order, in batches that split no revision, and the header of a
    batch may name a later revision than its last event. They also suppose that
    every value decodes and that no bucket has two keys. The lemma
    [partial_batch_skips] shows what is lost when a stream ends within a catch-up.
    [stream_handed_over]: the channel of the watch loses and reorders
    nothing, and neither of its goroutines is left behind.
    The lemma [outage_keeps_snapshot]: an outage changes nothing.
    [batch_published]: a batch the watch has taken is published after a bounded
    number of its own steps. [closed_registry_stops]: after [Close] both
    goroutines end. The lemma [reconciliation_loses_update]: two writers of the
    store can undo a batch. [service_well_typed]: in every reachable state of a started
    service, with either registry, the records are values of their types.

    Failing fast. [breaker_refines_history]: the state of a breaker is a
    function of its history of calls; [breaker_fails_fast],
    [tripped_shard_answers_503]; [dead_shard_bounded]: how much a shard that does
    not answer is asked, whatever the interleaving of the attempts. The lemmas
    [breakers_independent], and [half_open_admits_all] and [late_report]: where a
    breaker lets more through than announced.

    Pools. [pools_owned_once]: under every interleaving a pool has exactly one
    owner until it is closed, once; the lemma [close_leaks_late_pool]: a pool
    created while [Close] runs outlives it. [close_drains],
    [close_waits_for_statement]: [Close] does not deadlock with the goroutines
    that use the pools, and waits for the connections that are out.
    [reaper_waits_alone]: the reaper waits for them too, without the mutex.
    [acquire_reports], and the lemmas [reap_closes_idle], [pool_key_injective] and
    [env_key_canonical].

    The service. [statements_follow_history]: each statement that reaches a
    database goes where a record etcd held for its bucket sends it, under every
    interleaving with the synchronisation and with the other requests (their effects
    are among the answers of the backend, which is any one).
    [query_executes_where_routed]: statements reach only the shards of the routing
    decision, the primary first. [writes_exactly_once]: a write is sent once to
    each shard of its write set, whatever the order of requests and goroutines;
    the lemma [dual_writes_reordered]: not in the same order to each.
    [connections_returned]: a request gives back every connection it takes.
    [only_query_executes], [route_and_query_agree]: what the routes do.
    [query_accounted], [load_reads_back], [started_service_routes],
    [main_cleans_up], and the lemmas [redirect_ends], [metrics_page_canonical],
    [metrics_count], [health_watches_one_bucket] and [go_tests_pass].

    ** Conventions

    A Go integer is a [Z]; wherever it is computed with, the wrap-around of its
    width is written. A Go string is a string of bytes. A function that returns
    an error is a [result] over the type of the errors it can return, or an
    [option] where every caller only tests the error. A panic is a case of its
    own ([None] of a handler, a constructor of the error type).

    What lies outside the repository is a parameter: the outcome of an HTTP
    exchange ([Network]), the driver ([Driver]) and the database
    ([Database]), the text of JSON errors ([JsonErrors]), the tables of
    package [unicode] ([UnicodeTables]), the bytes of the file, the
    environment. Clock readings are arguments. Go visits a map in an
    unspecified order: a loop over a map takes the order as an argument, and
    the theorems hold for every permutation.

    ** Fuel

    - [format_uint] has [log2 n + 1] steps, and each digit takes more than three
      bits ([format_fuel]).
    - Scanners of strings ([trim_left_go], [scan_skip_space], [parse_string],
      [parse_terms], [watch_batches_go]) have one step more than the length, or
      as many as it, and consume a byte per step.
    - The JSON parser has [2 * length + 2] steps; [JsonFuel] proves that more
      steps never change its result.
    - [decimal_exponent] has 330 steps in each direction: a float lies between
      [10 ^ -324] and [10 ^ 309]. [shortest_go] has 17: seventeen digits always
      identify a [float64].
    - Everything else is structural: the failover loop goes through the list of
      endpoints, a batch through its events. The endless loops
      of the goroutines are steps of a relation, without fuel.

    ** What is not modelled

    - The parsing of HTTP itself, TLS, the delivery of signals and the inside
      of [http.Server]: work of Go's library. A request is its method, escaped
      path, raw query and body; how the server ends is an argument of [Main].
    - Contexts and timeouts: a cancelled call is one of the failures the
      parameters may return.
    - Logging, which no state depends on.
    - The token shared by the two goroutines of the etcd registry without
      synchronisation: [EtcdHttp] is the client of one goroutine, and [EtcdSync]
      lets etcd answer anything.
    - Real time in the loops: a pause may end and a tick may come at any time. *)

From stdpp Require Export base gmap strings list fin_maps option sorting.
From Stdlib Require Export ZArith Lia.
From Stdlib Require Import Ascii.

#[global] Open Scope Z_scope.

(** Concatenation computes on a first argument in constructor form. *)
#[global] Arguments String.append !s1 s2 : simpl nomatch.

(** ** Results of fallible Go functions

    A Go function of type [(T, error)] is a [result E T], where [E] is the
    type of the errors its package can return. *)
Inductive result (E A : Type) : Type :=
| Ok (a : A)
| Err (e : E).
Arguments Ok {E A} a.
Arguments Err {E A} e.

#[global] Instance result_ret E : MRet (result E) := λ A a, Ok a.
#[global] Instance result_bind E : MBind (result E) := λ A B f r,
  match r with Ok a => f a | Err e => Err e end.

Definition map_err {E F A} (f : E → F) (r : result E A) : result F A :=
  match r with Ok a => Ok a | Err e => Err (f e) end.

Definition is_ok {E A} (r : result E A) : bool :=
  match r with Ok _ => true | Err _ => false end.

Lemma bind_ok {E A B} (f : A → result E B) (r : result E A) (b : B) :
  mbind f r = Ok b ↔ ∃ a, r = Ok a ∧ f a = Ok b.
Proof. destruct r; cbn; naive_solver. Qed.

(** ** Automation shared by the components *)
Create HintDb go.

(** Splits every [match] of the goal and of the hypotheses on its scrutinee
    and removes the absurd and the trivial branches. *)
Ltac case_matches :=
  repeat (case_match; simplify_eq/=; try done).

(** Turns boolean comparisons of integers into propositions and calls [lia]. *)
Ltac zb :=
  repeat match goal with
  | H : (_ =? _) = true |- _ => apply Z.eqb_eq in H
  | H : (_ =? _) = false |- _ => apply Z.eqb_neq in H
  | H : (_ <? _) = true |- _ => apply Z.ltb_lt in H
  | H : (_ <? _) = false |- _ => apply Z.ltb_ge in H
  | H : (_ <=? _) = true |- _ => apply Z.leb_le in H
  | H : (_ <=? _) = false |- _ => apply Z.leb_gt in H
  | H : (_ && _)%bool = true |- _ => apply andb_true_iff in H as [? ?]
  | H : (_ || _)%bool = false |- _ => apply orb_false_iff in H as [? ?]
  end; try lia.
