(* ===== verification/GoInt.v ===== *)
(** * Go's integers and their decimal text

    The part of the language and of package [strconv] that the router uses:
    the 64-bit [int]/[int64], the 32-bit [int32], the decimal printer behind
    [%d], and [strconv.Atoi]. A Go integer is a [Z] in the range of its type. *)

From S2P Require Import Prelude.
From Stdlib Require Import Ascii.

(** ** Machine-width integers *)

(** The value of a [w]-bit two's complement integer after wrap-around. *)
Definition wrap (w z : Z) : Z := (z + 2 ^ (w - 1)) mod 2 ^ w - 2 ^ (w - 1).

Definition int64_min : Z := - 2 ^ 63.
Definition int64_max : Z := 2 ^ 63 - 1.
Definition in_int64 (z : Z) : bool := (int64_min <=? z) && (z <=? int64_max).

(** [int] is 64 bits wide on the platforms the service is built for. *)
Definition wrap64 : Z → Z := wrap 64.
(** The conversion [int32(x)]. *)
Definition wrap32 : Z → Z := wrap 32.

Lemma wrap_range w z : 0 < w → - 2 ^ (w - 1) ≤ wrap w z < 2 ^ (w - 1).
Proof.
  intros Hw. unfold wrap.
  assert (2 ^ w = 2 * 2 ^ (w - 1)) as E.
  { rewrite <-Z.pow_succ_r by lia. f_equal. lia. }
  assert (0 < 2 ^ (w - 1)) by (apply Z.pow_pos_nonneg; lia).
  pose proof (Z.mod_pos_bound (z + 2 ^ (w - 1)) (2 ^ w)). lia.
Qed.

Lemma wrap_id w z : 0 < w → - 2 ^ (w - 1) ≤ z < 2 ^ (w - 1) → wrap w z = z.
Proof.
  intros Hw Hz. unfold wrap.
  assert (2 ^ w = 2 * 2 ^ (w - 1)) as E.
  { rewrite <-Z.pow_succ_r by lia. f_equal. lia. }
  rewrite Z.mod_small; lia.
Qed.

Lemma in_int64_spec z : in_int64 z = true ↔ - 2 ^ 63 ≤ z < 2 ^ 63.
Proof. unfold in_int64, int64_min, int64_max. rewrite andb_true_iff, !Z.leb_le. lia. Qed.

Lemma wrap64_id z : - 2 ^ 63 ≤ z < 2 ^ 63 → wrap64 z = z.
Proof. intros. exact (wrap_id 64 z ltac:(lia) ltac:(lia)). Qed.

Lemma wrap64_in z : in_int64 (wrap64 z) = true.
Proof. apply in_int64_spec. exact (wrap_range 64 z ltac:(lia)). Qed.

(** ** Bytes and digits *)

(** The value of a byte. *)
Definition code (c : ascii) : Z := Z.of_N (N_of_ascii c).
(** The byte of value [z mod 256]. *)
Definition chr (z : Z) : ascii := ascii_of_N (Z.to_N (z mod 256)).

Lemma code_range c : 0 ≤ code c < 256.
Proof. unfold code. pose proof (N_ascii_bounded c). lia. Qed.

Lemma code_chr z : code (chr z) = z mod 256.
Proof.
  unfold code, chr. pose proof (Z.mod_pos_bound z 256 ltac:(lia)).
  rewrite N_ascii_embedding; lia.
Qed.

Lemma chr_code c : chr (code c) = c.
Proof.
  unfold chr, code. pose proof (N_ascii_bounded c).
  rewrite Z.mod_small by lia. by rewrite N2Z.id, ascii_N_embedding.
Qed.

Lemma code_inj c d : code c = code d → c = d.
Proof. intros E. by rewrite <-(chr_code c), E, chr_code. Qed.

Definition is_digit (c : ascii) : bool := (48 <=? code c) && (code c <=? 57).
Definition digit_val (c : ascii) : Z := code c - 48.
Definition digit_chr (d : Z) : ascii := chr (48 + d).

Lemma digit_val_chr d : 0 ≤ d < 10 → digit_val (digit_chr d) = d.
Proof. intros. unfold digit_val, digit_chr. rewrite code_chr, Z.mod_small; lia. Qed.

Lemma is_digit_chr d : 0 ≤ d < 10 → is_digit (digit_chr d) = true.
Proof.
  intros. unfold is_digit, digit_chr. rewrite code_chr, Z.mod_small by lia.
  apply andb_true_iff; split; apply Z.leb_le; lia.
Qed.

Lemma is_digit_val c : is_digit c = true → 0 ≤ digit_val c < 10.
Proof. unfold is_digit, digit_val. intros; zb. Qed.

(** ** Decimal output: [strconv.FormatInt(z, 10)], the verb [%d] *)

(** Writes the digits of [n] in front of [acc]; [fuel] bounds their number. *)
Fixpoint digits_go (fuel : nat) (n : Z) (acc : string) : string :=
  match fuel with
  | O => acc
  | S fuel =>
      let acc := String (digit_chr (n mod 10)) acc in
      if n / 10 =? 0 then acc else digits_go fuel (n / 10) acc
  end.

(** Each digit removes more than three bits, so [log2 n + 1] digits suffice. *)
Definition format_uint (n : Z) : string := digits_go (S (Z.to_nat (Z.log2 n))) n "".

Definition format_int (z : Z) : string :=
  if z <? 0 then String "-" (format_uint (- z)) else format_uint z.

(** ** Decimal input *)

(** The value of a run of digits read after a prefix of value [v]; [None] when
    a byte is not a digit. *)
Fixpoint parse_digits (v : Z) (s : string) : option Z :=
  match s with
  | EmptyString => Some v
  | String c s => if is_digit c then parse_digits (10 * v + digit_val c) s else None
  end.

(** What [strconv.Atoi] reports: [ErrSyntax] or [ErrRange]. *)
Inductive num_error : Type := ErrSyntax | ErrRange.

#[global] Instance num_error_eq_dec : EqDecision num_error.
Proof. solve_decision. Defined.

Definition parse_magnitude (neg : bool) (s : string) : result num_error Z :=
  match s with
  | EmptyString => Err ErrSyntax
  | _ =>
      match parse_digits 0 s with
      | None => Err ErrSyntax
      | Some v =>
          let z := if neg then - v else v in
          if in_int64 z then Ok z else Err ErrRange
      end
  end.

(** [strconv.Atoi] (and [strconv.ParseInt(s, 10, 64)]): an optional sign, then
    one or more decimal digits, within the range of an [int]. *)
Definition atoi (s : string) : result num_error Z :=
  match s with
  | String c s' =>
      if Ascii.eqb c "-" then parse_magnitude true s'
      else if Ascii.eqb c "+" then parse_magnitude false s'
      else parse_magnitude false s
  | EmptyString => Err ErrSyntax
  end.

(** ** Printing then parsing *)

Lemma parse_digits_go fuel n acc v :
  0 ≤ n < 10 ^ Z.of_nat fuel →
  fuel ≠ O →
  parse_digits 0 (digits_go fuel n acc) = Some v ↔ parse_digits n acc = Some v.
Proof.
  revert n acc. induction fuel as [|fuel IH]; intros n acc Hn Hf; [done|].
  cbn [digits_go].
  pose proof (Z.mod_pos_bound n 10 ltac:(lia)).
  pose proof (Z.div_mod n 10 ltac:(lia)) as E.
  destruct (Z.eqb_spec (n / 10) 0) as [Z0|Z0].
  - cbn [parse_digits]. rewrite is_digit_chr, digit_val_chr by lia.
    by replace (10 * 0 + n mod 10) with n by lia.
  - rewrite Nat2Z.inj_succ, Z.pow_succ_r in Hn by lia.
    assert (0 ≤ n / 10 < 10 ^ Z.of_nat fuel).
    { split; [apply Z.div_pos; lia|apply Z.div_lt_upper_bound; lia]. }
    destruct fuel as [|fuel]; [cbn in *; lia|].
    rewrite IH by done. cbn [parse_digits].
    rewrite is_digit_chr, digit_val_chr by lia. by rewrite <-E.
Qed.

Lemma format_fuel n : 0 ≤ n → n < 10 ^ Z.of_nat (S (Z.to_nat (Z.log2 n))).
Proof.
  intros Hn. pose proof (Z.log2_nonneg n).
  rewrite Nat2Z.inj_succ, Z2Nat.id by done.
  destruct (Z.eq_dec n 0) as [->|]; [done|].
  eapply Z.lt_le_trans; [apply Z.log2_spec; lia|].
  apply Z.pow_le_mono_l. lia.
Qed.

Lemma parse_format_uint n : 0 ≤ n → parse_digits 0 (format_uint n) = Some n.
Proof. intros. apply parse_digits_go; [|done|done]. split; [done|by apply format_fuel]. Qed.

(** The text of a number is not empty and holds only digits. *)
Fixpoint all_digits (s : string) : bool :=
  match s with EmptyString => true | String c s => is_digit c && all_digits s end.

Lemma digits_go_all fuel n acc :
  all_digits acc = true → all_digits (digits_go fuel n acc) = true.
Proof.
  revert n acc. induction fuel as [|fuel IH]; intros n acc Hacc; [done|]. cbn [digits_go].
  assert (all_digits (String (digit_chr (n mod 10)) acc) = true).
  { cbn. rewrite is_digit_chr; [done|]. apply Z.mod_pos_bound. lia. }
  case_match; auto.
Qed.

Lemma digits_go_cons fuel n acc : ∃ c s, digits_go (S fuel) n acc = String c s.
Proof.
  revert n acc. induction fuel as [|fuel IH]; intros n acc.
  - cbn. case_match; eauto.
  - set (m := S fuel) in *. cbn [digits_go]. case_match; eauto.
Qed.

Lemma format_uint_digits n : all_digits (format_uint n) = true.
Proof. by apply digits_go_all. Qed.

Lemma format_uint_cons n : ∃ c s, format_uint n = String c s ∧ is_digit c = true.
Proof.
  pose proof (format_uint_digits n) as H. unfold format_uint in *.
  destruct (digits_go_cons (Z.to_nat (Z.log2 n)) n "") as (c & s & E).
  rewrite E in *. exists c, s. split; [done|]. by apply andb_true_iff in H as [-> _].
Qed.

Lemma is_digit_not_sign c : is_digit c = true → Ascii.eqb c "-" = false ∧ Ascii.eqb c "+" = false.
Proof.
  intros H. split; apply Ascii.eqb_neq; intros ->; by vm_compute in H.
Qed.

Lemma atoi_minus s : atoi (String "-" s) = parse_magnitude true s.
Proof. done. Qed.

Lemma atoi_digits c s :
  is_digit c = true → atoi (String c s) = parse_magnitude false (String c s).
Proof. intros D. unfold atoi. by destruct (is_digit_not_sign c D) as [-> ->]. Qed.

Lemma parse_magnitude_format (neg : bool) (n : Z) :
  0 ≤ n → in_int64 (if neg then - n else n) = true →
  parse_magnitude neg (format_uint n) = Ok (if neg then - n else n).
Proof.
  intros Hn Hr. unfold parse_magnitude. rewrite parse_format_uint by done.
  destruct (format_uint_cons n) as (c & s & -> & _). by rewrite Hr.
Qed.

(** [strconv.Atoi] reads back every [int] printed with [%d]. *)
Lemma atoi_format_int z : in_int64 z = true → atoi (format_int z) = Ok z.
Proof.
  intros Hz. unfold format_int. destruct (Z.ltb_spec z 0).
  - rewrite atoi_minus, (parse_magnitude_format true); rewrite ?Z.opp_involutive; auto with lia.
  - destruct (format_uint_cons z) as (c & s & E & D).
    rewrite E, atoi_digits, <-E by done. by apply (parse_magnitude_format false).
Qed.

Lemma format_int_inj z1 z2 :
  in_int64 z1 = true → in_int64 z2 = true → format_int z1 = format_int z2 → z1 = z2.
Proof.
  intros H1 H2 E. apply atoi_format_int in H1, H2. congruence.
Qed.

(** A successful [Atoi] yields an [int]. *)
Lemma atoi_in_range s z : atoi s = Ok z → in_int64 z = true.
Proof.
  unfold atoi, parse_magnitude. intros. case_matches.
Qed.

(** Leading zeros do not change the value of a number. *)
Fixpoint zeros (n : nat) : string :=
  match n with O => "" | S n => String "0" (zeros n) end.

Lemma parse_digits_zeros n s : parse_digits 0 (zeros n +:+ s) = parse_digits 0 s.
Proof. by induction n. Qed.

Lemma atoi_zeros n z :
  0 ≤ z → in_int64 z = true → atoi (zeros n +:+ format_int z) = Ok z.
Proof.
  intros Hz Hr. unfold format_int. destruct (Z.ltb_spec z 0); [lia|].
  assert (∃ c s, zeros n +:+ format_uint z = String c s ∧ is_digit c = true) as (c & s & E & D).
  { destruct n; [apply format_uint_cons|]. eexists _, _. by split. }
  rewrite E, atoi_digits, <-E by done. unfold parse_magnitude.
  rewrite parse_digits_zeros, parse_format_uint by done. rewrite Hr. by rewrite E.
Qed.
