(* ===== verification/GoString.v ===== *)
(** * Go's strings

    A Go string is a sequence of bytes, a [string] here. This file models the
    functions of packages [strings], [strconv] and [fmt] that the router
    calls: [HasPrefix], [TrimPrefix], [Split], [TrimSpace], [ToUpper], a
    byte-for-byte [Replacer], the verb [%q] and scanning with [%d].

    [ToUpper] and [%q] consult the tables of package [unicode] on a string
    that is not ASCII: those tables are the class [UnicodeTables]. *)

From S2P Require Import Prelude GoInt.
From Stdlib Require Import Ascii.

(** ** Lengths and concatenation *)

Lemma string_app_nil_r s : s +:+ "" = s.
Proof. induction s; cbn; congruence. Qed.

Lemma string_app_assoc s1 s2 s3 : (s1 +:+ s2) +:+ s3 = s1 +:+ s2 +:+ s3.
Proof. induction s1; cbn; congruence. Qed.

Lemma string_app_cons c s1 s2 : String c s1 +:+ s2 = String c (s1 +:+ s2).
Proof. done. Qed.

#[export] Hint Rewrite string_app_nil_r string_app_assoc : go.

Lemma string_app_inj_l s1 s2 s3 : s1 +:+ s2 = s1 +:+ s3 → s2 = s3.
Proof. induction s1; cbn; naive_solver. Qed.

(** ** Predicates on all the bytes of a string *)
Fixpoint str_forall (P : ascii → bool) (s : string) : bool :=
  match s with EmptyString => true | String c s => P c && str_forall P s end.

Definition str_no (c : ascii) (s : string) : bool := str_forall (λ d, negb (Ascii.eqb d c)) s.

Lemma str_forall_app P s1 s2 :
  str_forall P (s1 +:+ s2) = str_forall P s1 && str_forall P s2.
Proof. induction s1 as [|c s1 IH]; cbn; [done|]. by rewrite IH, andb_assoc. Qed.

Lemma str_forall_impl (P Q : ascii → bool) s :
  (∀ c, P c = true → Q c = true) → str_forall P s = true → str_forall Q s = true.
Proof.
  intros HPQ. induction s as [|c s IH]; cbn; [done|].
  rewrite !andb_true_iff. naive_solver.
Qed.

Lemma all_digits_forall s : all_digits s = str_forall is_digit s.
Proof. induction s as [|c s IH]; cbn; congruence. Qed.

(** Two strings split at a separator that occurs in neither first part. *)
Lemma str_split_inj c s1 s2 t1 t2 :
  str_no c s1 = true → str_no c s2 = true →
  s1 +:+ String c t1 = s2 +:+ String c t2 → s1 = s2 ∧ t1 = t2.
Proof.
  unfold str_no. revert s2. induction s1 as [|d s1 IH]; intros [|e s2]; cbn.
  - naive_solver.
  - intros _ [H _]%andb_true_iff [= <- _]. by rewrite Ascii.eqb_refl in H.
  - intros [H _]%andb_true_iff _ [= -> _]. by rewrite Ascii.eqb_refl in H.
  - intros [_ H1]%andb_true_iff [_ H2]%andb_true_iff [= -> E].
    by destruct (IH s2 H1 H2 E) as [-> ->].
Qed.

(** ** [strings.HasPrefix] and [strings.TrimPrefix] *)

(** [Some r] when [s = p ++ r]. *)
Fixpoint strip_prefix (p s : string) : option string :=
  match p, s with
  | EmptyString, _ => Some s
  | String c p, String d s => if Ascii.eqb c d then strip_prefix p s else None
  | String _ _, EmptyString => None
  end.

Definition has_prefix (s p : string) : bool :=
  match strip_prefix p s with Some _ => true | None => false end.

Definition trim_prefix (s p : string) : string :=
  match strip_prefix p s with Some r => r | None => s end.

Lemma strip_prefix_some p s r : strip_prefix p s = Some r ↔ s = p +:+ r.
Proof.
  revert s. induction p as [|c p IH]; intros [|d s]; cbn; [naive_solver..|].
  destruct (Ascii.eqb_spec c d) as [->|N]; [rewrite IH|]; naive_solver.
Qed.

Lemma strip_prefix_app p r : strip_prefix p (p +:+ r) = Some r.
Proof. by apply strip_prefix_some. Qed.

Lemma has_prefix_iff s p : has_prefix s p = true ↔ ∃ r, s = p +:+ r.
Proof.
  unfold has_prefix. destruct (strip_prefix p s) as [r|] eqn:E.
  - apply strip_prefix_some in E. naive_solver.
  - split; [done|]. intros [r Hr%strip_prefix_some]. congruence.
Qed.

Lemma trim_prefix_app p r : trim_prefix (p +:+ r) p = r.
Proof. unfold trim_prefix. by rewrite strip_prefix_app. Qed.

(** ** [strings.Split] with a one-byte separator *)
Fixpoint split_on (c : ascii) (s : string) : list string :=
  match s with
  | EmptyString => [""]
  | String d s =>
      if Ascii.eqb d c then "" :: split_on c s
      else match split_on c s with
           | p :: ps => String d p :: ps
           | [] => [String d ""]
           end
  end.

(** [strings.Join]. *)
Fixpoint join_with (c : ascii) (ps : list string) : string :=
  match ps with
  | [] => ""
  | [p] => p
  | p :: ps => p +:+ String c (join_with c ps)
  end.

Lemma split_on_cons c s : ∃ p ps, split_on c s = p :: ps.
Proof. destruct s as [|d s]; cbn; [eauto|]. repeat case_match; eauto. Qed.

Lemma split_on_app c p s :
  str_no c p = true → split_on c (p +:+ String c s) = p :: split_on c s.
Proof.
  unfold str_no. induction p as [|d p IH]; cbn; [by rewrite Ascii.eqb_refl|].
  intros [H1 H2]%andb_true_iff. apply negb_true_iff in H1. by rewrite H1, IH.
Qed.

Lemma split_on_single c p : str_no c p = true → split_on c p = [p].
Proof.
  unfold str_no. induction p as [|d p IH]; cbn; [done|].
  intros [H1 H2]%andb_true_iff. apply negb_true_iff in H1. by rewrite H1, IH.
Qed.

Lemma split_join c ps :
  ps ≠ [] → Forall (λ p, str_no c p = true) ps → split_on c (join_with c ps) = ps.
Proof.
  intros Hne H. induction H as [|p ps Hp Hps IH]; [done|].
  destruct ps as [|q ps]; [by apply split_on_single|].
  change (join_with c (p :: q :: ps)) with (p +:+ String c (join_with c (q :: ps))).
  rewrite split_on_app, IH; done.
Qed.

(** ** White space: [unicode.IsSpace], [strings.TrimSpace] *)

Definition is_ascii_space (c : ascii) : bool :=
  ((9 <=? code c) && (code c <=? 13)) || (code c =? 32).

(** The UTF-8 encodings of the white-space runes outside ASCII: U+0085,
    U+00A0, U+1680, U+2000 to U+200A, U+2028, U+2029, U+202F, U+205F, U+3000. *)
Definition wide_space (c1 c2 c3 : Z) : bool :=
  ((c1 =? 225) && (c2 =? 154) && (c3 =? 128))
  || ((c1 =? 226) && (c2 =? 128)
      && (((128 <=? c3) && (c3 <=? 138)) || (c3 =? 168) || (c3 =? 169) || (c3 =? 175)))
  || ((c1 =? 226) && (c2 =? 129) && (c3 =? 159))
  || ((c1 =? 227) && (c2 =? 128) && (c3 =? 128)).

(** Removes one white-space rune from the front of a string. *)
Definition strip_space (s : string) : option string :=
  match s with
  | EmptyString => None
  | String c s1 =>
      if is_ascii_space c then Some s1
      else match s1 with
           | EmptyString => None
           | String d s2 =>
               if (code c =? 194) && ((code d =? 133) || (code d =? 160)) then Some s2
               else match s2 with
                    | EmptyString => None
                    | String e s3 => if wide_space (code c) (code d) (code e) then Some s3 else None
                    end
           end
  end.

Fixpoint trim_left_go (fuel : nat) (s : string) : string :=
  match fuel with
  | O => s
  | S fuel => match strip_space s with Some r => trim_left_go fuel r | None => s end
  end.

(** Every rune takes at least a byte: the length is enough fuel. *)
Definition trim_left (s : string) : string := trim_left_go (String.length s) s.

Definition all_space (s : string) : bool := bool_decide (trim_left s = "").

(** Removes the longest suffix made of white-space runes. *)
Fixpoint trim_right (s : string) : string :=
  match s with
  | EmptyString => ""
  | String c s' => if all_space s then "" else String c (trim_right s')
  end.

Definition trim_space (s : string) : string := trim_right (trim_left s).

(** ** Scanning an integer: [fmt.Sscanf(s, "%d", &n)] *)

(** The scanner skips white space but refuses a line feed; [None] is its
    error. *)
Fixpoint scan_skip_space (fuel : nat) (s : string) : option string :=
  match fuel with
  | O => Some s
  | S fuel =>
      match s with
      | String c _ =>
          if code c =? 10 then None
          else match strip_space s with
               | Some r => scan_skip_space fuel r
               | None => Some s
               end
      | EmptyString => Some s
      end
  end.

(** The longest run of digits at the front of a string. *)
Fixpoint digit_prefix (s : string) : string :=
  match s with
  | String c s => if is_digit c then String c (digit_prefix s) else ""
  | EmptyString => ""
  end.

(** Text after the number is left unread, which is not an error. *)
Definition sscanf_d (s : string) : option Z :=
  s ← scan_skip_space (S (String.length s)) s;
  let tok := match s with
             | String c r =>
                 if Ascii.eqb c "-" || Ascii.eqb c "+" then String c (digit_prefix r)
                 else digit_prefix s
             | EmptyString => ""
             end in
  match atoi tok with Ok z => Some z | Err _ => None end.

Lemma digit_prefix_all s t :
  all_digits s = true →
  match t with String c _ => is_digit c = false | EmptyString => True end →
  digit_prefix (s +:+ t) = s.
Proof.
  intros Hs Ht. induction s as [|c s IH]; cbn in *.
  - destruct t as [|c t]; [done|]. cbn. by rewrite Ht.
  - apply andb_true_iff in Hs as [Hc Hs]. by rewrite Hc, IH.
Qed.

Lemma is_digit_not_space c s : is_digit c = true → strip_space (String c s) = None ∧ code c ≠ 10.
Proof.
  unfold is_digit. intros H. zb. split; [|lia]. unfold strip_space, is_ascii_space, wide_space.
  repeat match goal with |- context [?a =? ?b] => destruct (Z.eqb_spec a b); try lia end; cbn.
  repeat match goal with |- context [?a <=? ?b] => destruct (Z.leb_spec a b); try lia end; cbn.
  by repeat case_match.
Qed.

(** [%d] reads the number a printed identifier starts with, and ignores what
    follows when it does not continue the number. *)
Lemma sscanf_d_format n t :
  0 ≤ n → in_int64 n = true →
  match t with String c _ => is_digit c = false | EmptyString => True end →
  sscanf_d (format_int n +:+ t) = Some n.
Proof.
  intros Hn Hr Ht. unfold format_int.
  destruct (Z.ltb_spec n 0); [lia|].
  destruct (format_uint_cons n) as (c & s & E & D).
  pose proof (format_uint_digits n) as Hall. rewrite E in *.
  destruct (is_digit_not_space c (s +:+ t) D) as [Hs Hc].
  unfold sscanf_d. rewrite string_app_cons. cbn [scan_skip_space].
  rewrite (proj2 (Z.eqb_neq _ _) Hc), Hs. cbn -[atoi digit_prefix].
  destruct (is_digit_not_sign c D) as [-> ->]. cbn [orb].
  rewrite <-string_app_cons, digit_prefix_all by done.
  rewrite atoi_digits, <-E by done.
  by rewrite (parse_magnitude_format false n Hn Hr).
Qed.

Lemma parse_digits_all acc s v : parse_digits acc s = Some v → all_digits s = true.
Proof.
  revert acc. induction s as [|c s IH]; intros acc; cbn; [done|].
  destruct (is_digit c); [|done]. apply IH.
Qed.

Lemma parse_magnitude_digits (neg : bool) s z : parse_magnitude neg s = Ok z → all_digits s = true.
Proof.
  unfold parse_magnitude. destruct s as [|c s]; [done|].
  destruct (parse_digits 0 (String c s)) as [v|] eqn:E; [|done].
  intros _. by eapply parse_digits_all.
Qed.

Lemma digit_prefix_whole s : all_digits s = true → digit_prefix s = s.
Proof. intros H. rewrite <-(string_app_nil_r s) at 1. by apply digit_prefix_all. Qed.

Lemma sign_not_space c s :
  c = "-"%char ∨ c = "+"%char → strip_space (String c s) = None ∧ code c ≠ 10.
Proof. intros [->| ->]; (split; [by destruct s as [|? [|? ?]]|done]). Qed.

(** Whatever [Atoi] reads, [%d] reads as the same number. *)
Lemma sscanf_d_atoi s z : atoi s = Ok z → sscanf_d s = Some z.
Proof.
  intros E. destruct s as [|c s]; [done|].
  assert (strip_space (String c s) = None ∧ code c ≠ 10
          ∧ (if Ascii.eqb c "-" || Ascii.eqb c "+" then String c (digit_prefix s)
             else digit_prefix (String c s)) = String c s) as (Hs & Hc & Etok).
  { unfold atoi in E.
    destruct (Ascii.eqb_spec c "-") as [->|N1]; [|destruct (Ascii.eqb_spec c "+") as [->|N2]].
    1-2: apply parse_magnitude_digits in E; cbn [orb];
      refine (conj _ (conj _ _)); [apply sign_not_space; auto..|by rewrite digit_prefix_whole].
    apply parse_magnitude_digits in E. cbn [orb].
    assert (is_digit c = true) as Hd by (cbn in E; by apply andb_true_iff in E as [? _]).
    destruct (is_digit_not_space c s Hd).
    refine (conj _ (conj _ _)); [done..|by apply digit_prefix_whole]. }
  unfold sscanf_d. cbn [scan_skip_space String.length].
  rewrite (proj2 (Z.eqb_neq _ _) Hc), Hs. cbn [mbind option_bind].
  by rewrite Etok, E.
Qed.

(** ** The tables of package [unicode] *)

(** What [strings.ToUpper] and [strconv.Quote] return on a string with a byte
    outside ASCII, where they need the tables of package [unicode]. *)
Class UnicodeTables := {
  unicode_to_upper : string → string;
  unicode_quote : string → string;
}.

Definition is_ascii : string → bool := str_forall (λ c, code c <? 128).

Fixpoint str_map (f : ascii → ascii) (s : string) : string :=
  match s with EmptyString => "" | String c s => String (f c) (str_map f s) end.

Definition upper_byte (c : ascii) : ascii :=
  if (97 <=? code c) && (code c <=? 122) then chr (code c - 32) else c.

(** [strings.ToUpper]. *)
Definition to_upper `{UnicodeTables} (s : string) : string :=
  if is_ascii s then str_map upper_byte s else unicode_to_upper s.

Definition hex_digit (d : Z) : ascii := if d <? 10 then chr (48 + d) else chr (87 + d).

(** One byte of a quoted ASCII string. *)
Definition quote_byte (c : ascii) : string :=
  let n := code c in
  if n =? 34 then String (chr 92) (String c "")
  else if n =? 92 then String c (String c "")
  else if n =? 7 then String (chr 92) "a"
  else if n =? 8 then String (chr 92) "b"
  else if n =? 9 then String (chr 92) "t"
  else if n =? 10 then String (chr 92) "n"
  else if n =? 11 then String (chr 92) "v"
  else if n =? 12 then String (chr 92) "f"
  else if n =? 13 then String (chr 92) "r"
  else if (n <? 32) || (n =? 127) then
    String (chr 92) (String "x" (String (hex_digit (n / 16)) (String (hex_digit (n mod 16)) "")))
  else String c "".

Fixpoint str_concat_map (f : ascii → string) (s : string) : string :=
  match s with EmptyString => "" | String c s => f c +:+ str_concat_map f s end.

(** [strconv.Quote], the verb [%q]. *)
Definition quote `{UnicodeTables} (s : string) : string :=
  if is_ascii s
  then String (chr 34) (str_concat_map quote_byte s +:+ String (chr 34) "")
  else unicode_quote s.

Lemma str_map_app f s1 s2 : str_map f (s1 +:+ s2) = str_map f s1 +:+ str_map f s2.
Proof. induction s1; cbn; congruence. Qed.

Lemma str_map_id f s : str_forall (λ c, Ascii.eqb (f c) c) s = true → str_map f s = s.
Proof.
  induction s as [|c s IH]; cbn; [done|].
  intros [E%Ascii.eqb_eq H]%andb_true_iff. by rewrite E, IH.
Qed.

Lemma str_map_map f g s : str_map f (str_map g s) = str_map (λ c, f (g c)) s.
Proof. induction s; cbn; congruence. Qed.

Lemma str_map_ext f g s : (∀ c, f c = g c) → str_map f s = str_map g s.
Proof. intros E. induction s; cbn; congruence. Qed.

Lemma str_forall_map P f s : str_forall P (str_map f s) = str_forall (λ c, P (f c)) s.
Proof. induction s; cbn; congruence. Qed.

(** A property of every byte, checked on the 256 of them. *)
Lemma all_bytes (P : ascii → bool) :
  forallb (λ n, P (chr (Z.of_nat n))) (seq 0 256) = true → ∀ c, P c = true.
Proof.
  intros H c. pose proof (code_range c).
  rewrite <-(chr_code c), <-(Z2Nat.id (code c)) by lia.
  rewrite forallb_forall in H. apply H, in_seq. lia.
Qed.
