(* ===== verification/GoSort.v ===== *)
(** * The order of strings, and [sort.Strings]

    Go compares strings byte by byte. [sort.Strings] gives the increasing
    permutation of a list, which does not depend on the algorithm. *)

From S2P Require Import Prelude GoInt GoString.
From Stdlib Require Import Ascii.

(** Lexicographic order on bytes, [bytes.Compare(a, b) < 0]. *)
Fixpoint bytes_lt (s t : string) : bool :=
  match s, t with
  | _, EmptyString => false
  | EmptyString, String _ _ => true
  | String c s, String d t =>
      (code c <? code d) || ((code c =? code d) && bytes_lt s t)
  end.

Definition bytes_le (s t : string) : Prop := bytes_lt t s = false.
#[export] Instance bytes_le_dec s t : Decision (bytes_le s t).
Proof. unfold bytes_le. apply _. Defined.

(** [sort.Strings]. *)
Definition sort_strings (l : list string) : list string := merge_sort bytes_le l.

(** ** Lemmas *)

Lemma bytes_lt_asym s t : bytes_lt s t = true → bytes_lt t s = false.
Proof.
  revert t. induction s as [|c s IH]; intros [|d t]; cbn; try done.
  rewrite !orb_true_iff, orb_false_iff, !andb_true_iff, Z.ltb_lt, Z.eqb_eq.
  intros [H|[E H]].
  - rewrite (proj2 (Z.ltb_ge _ _)), (proj2 (Z.eqb_neq _ _)) by lia. done.
  - rewrite (proj2 (Z.ltb_ge _ _)) by lia. by rewrite IH, andb_false_r.
Qed.

Lemma bytes_le_cons c s d t :
  bytes_le (String c s) (String d t) ↔ code c < code d ∨ (code c = code d ∧ bytes_le s t).
Proof.
  unfold bytes_le. cbn. rewrite orb_false_iff, andb_false_iff, Z.ltb_ge, Z.eqb_neq.
  destruct (Z.lt_trichotomy (code c) (code d)) as [?|[?|?]]; (split; [intros [? [?|?]]|intros [?|[? ?]]]);
    try (split; [lia|]); intuition lia.
Qed.

#[export] Instance bytes_le_total : Total bytes_le.
Proof.
  intros s t. unfold bytes_le. destruct (bytes_lt t s) eqn:E; [|by left].
  right. by apply bytes_lt_asym.
Qed.

#[export] Instance bytes_le_trans : Transitive bytes_le.
Proof.
  intros s t u. revert t u. induction s as [|c s IH]; intros [|d t] [|e u]; try done.
  rewrite !bytes_le_cons. intros [?|[? ?]] [?|[? ?]]; [left; lia..|right; split; [lia|by eapply IH]].
Qed.

#[export] Instance bytes_le_antisym : AntiSymm (=) bytes_le.
Proof.
  intros s. induction s as [|c s IH]; intros [|d t]; try done.
  rewrite !bytes_le_cons. intros [?|[E ?]] [?|[? ?]]; try lia.
  apply code_inj in E as ->. f_equal. by apply IH.
Qed.

Lemma sort_strings_perm keys : sort_strings keys ≡ₚ keys.
Proof. apply merge_sort_Permutation. Qed.

Lemma sort_strings_sorted keys : StronglySorted bytes_le (sort_strings keys).
Proof. apply StronglySorted_merge_sort; apply _. Qed.

Lemma sort_strings_perm_eq keys keys' : keys ≡ₚ keys' → sort_strings keys = sort_strings keys'.
Proof.
  intros E. apply (StronglySorted_unique bytes_le); [apply sort_strings_sorted..|].
  by rewrite !sort_strings_perm.
Qed.
