(* ===== verification/Sha256.v ===== *)
(** * SHA-256

    [crypto/sha256.Sum256] of Go's standard library (FIPS 180-4), executable:
    32-bit words are integers modulo [2 ^ 32], bytes are integers below 256. *)

From S2P Require Import Prelude GoInt.
From Stdlib Require Import Ascii.

Definition w32 (z : Z) : Z := z mod 2 ^ 32.
Definition add32 (x y : Z) : Z := w32 (x + y).
Definition rotr (x n : Z) : Z := Z.lor (Z.shiftr x n) (w32 (Z.shiftl x (32 - n))).
Definition not32 (x : Z) : Z := 2 ^ 32 - 1 - x.

Definition ch (x y z : Z) : Z := Z.lxor (Z.land x y) (Z.land (not32 x) z).
Definition maj (x y z : Z) : Z := Z.lxor (Z.land x y) (Z.lxor (Z.land x z) (Z.land y z)).
Definition big_sigma0 (x : Z) : Z := Z.lxor (rotr x 2) (Z.lxor (rotr x 13) (rotr x 22)).
Definition big_sigma1 (x : Z) : Z := Z.lxor (rotr x 6) (Z.lxor (rotr x 11) (rotr x 25)).
Definition small_sigma0 (x : Z) : Z := Z.lxor (rotr x 7) (Z.lxor (rotr x 18) (Z.shiftr x 3)).
Definition small_sigma1 (x : Z) : Z := Z.lxor (rotr x 17) (Z.lxor (rotr x 19) (Z.shiftr x 10)).

(** The constants are the first 32 bits of the fractional parts of the cube
    roots (for the rounds) and of the square roots (for the initial value) of
    the first primes. *)
Definition primes : list Z :=
  filter (λ p, forallb (λ d, negb (p mod d =? 0)) (seqZ 2 (p - 2))) (seqZ 2 310).

(** The integer cube root of [z], bit by bit from [2 ^ n]. *)
Fixpoint cube_root (n : nat) (z r : Z) : Z :=
  let r' := r + 2 ^ Z.of_nat n in
  let r := if r' * r' * r' <=? z then r' else r in
  match n with O => r | S n => cube_root n z r end.

Definition round_constants : list Z :=
  Eval vm_compute in map (λ p, w32 (cube_root 34 (p * 2 ^ 96) 0)) primes.

(** The eight words of the chaining value. *)
Record digest := Digest { d0 : Z; d1 : Z; d2 : Z; d3 : Z; d4 : Z; d5 : Z; d6 : Z; d7 : Z }.

Definition initial_digest : digest :=
  Eval vm_compute in
    match map (λ p, w32 (Z.sqrt (p * 2 ^ 64))) (take 8 primes) with
    | [a; b; c; d; e; f; g; h] => Digest a b c d e f g h
    | _ => Digest 0 0 0 0 0 0 0 0
    end.

(** ** Padding *)

(** The [n] low bytes of [z], most significant first. *)
Fixpoint be_bytes (n : nat) (z : Z) : list Z :=
  match n with
  | O => []
  | S n => (z / 2 ^ (8 * Z.of_nat n)) mod 256 :: be_bytes n z
  end.

Fixpoint be_value (bs : list Z) (acc : Z) : Z :=
  match bs with [] => acc | b :: bs => be_value bs (256 * acc + b) end.

(** A 1 bit, zeros up to 56 modulo 64 bytes, the length in bits. *)
Definition pad (msg : list Z) : list Z :=
  let n := Z.of_nat (length msg) in
  msg ++ 128 :: replicate (Z.to_nat ((55 - n) mod 64)) 0 ++ be_bytes 8 (8 * n).

Fixpoint chunks {A} (fuel k : nat) (l : list A) : list (list A) :=
  match fuel, l with
  | S fuel, _ :: _ => take k l :: chunks fuel k (drop k l)
  | _, _ => []
  end.

(** ** Compression *)

(** Extends the schedule; [w] holds it in reverse, last word first. *)
Fixpoint schedule_go (n : nat) (w : list Z) : list Z :=
  match n with
  | O => w
  | S n =>
      let x := w32 (small_sigma1 (nth 1 w 0) + nth 6 w 0
                    + small_sigma0 (nth 14 w 0) + nth 15 w 0) in
      schedule_go n (x :: w)
  end.

Definition schedule (block : list Z) : list Z :=
  rev (schedule_go 48 (rev (map (λ b, be_value b 0) (chunks 16 4 block)))).

Definition round (s : digest) (kw : Z * Z) : digest :=
  let t1 := w32 (d7 s + big_sigma1 (d4 s) + ch (d4 s) (d5 s) (d6 s) + fst kw + snd kw) in
  let t2 := w32 (big_sigma0 (d0 s) + maj (d0 s) (d1 s) (d2 s)) in
  Digest (add32 t1 t2) (d0 s) (d1 s) (d2 s) (add32 (d3 s) t1) (d4 s) (d5 s) (d6 s).

Definition compress (h : digest) (block : list Z) : digest :=
  let r := foldl round h (zip round_constants (schedule block)) in
  Digest (add32 (d0 h) (d0 r)) (add32 (d1 h) (d1 r)) (add32 (d2 h) (d2 r))
    (add32 (d3 h) (d3 r)) (add32 (d4 h) (d4 r)) (add32 (d5 h) (d5 r))
    (add32 (d6 h) (d6 r)) (add32 (d7 h) (d7 r)).

Definition digest_bytes (h : digest) : list Z :=
  concat (map (be_bytes 4) [d0 h; d1 h; d2 h; d3 h; d4 h; d5 h; d6 h; d7 h]).

Definition bytes_of (s : string) : list Z := map code (String.list_ascii_of_string s).

(** [sha256.Sum256]: 32 bytes. *)
Definition sum256 (s : string) : list Z :=
  let m := pad (bytes_of s) in
  digest_bytes (foldl compress initial_digest (chunks (length m) 64 m)).

(** ** Shape of a digest *)

Lemma be_bytes_length n z : length (be_bytes n z) = n.
Proof. induction n; cbn; congruence. Qed.

Lemma be_bytes_range n z : Forall (λ b, 0 ≤ b < 256) (be_bytes n z).
Proof. induction n; cbn; constructor; [apply Z.mod_pos_bound; lia|done]. Qed.

Lemma sum256_length s : length (sum256 s) = 32%nat.
Proof. done. Qed.

Lemma sum256_range s : Forall (λ b, 0 ≤ b < 256) (sum256 s).
Proof.
  unfold sum256, digest_bytes. generalize (foldl compress initial_digest (chunks (length (pad (bytes_of s))) 64 (pad (bytes_of s)))).
  intros h. cbn [map concat]. rewrite app_nil_r.
  repeat (apply Forall_app; split); apply be_bytes_range.
Qed.

Lemma be_value_range bs acc k :
  Forall (λ b, 0 ≤ b < 256) bs → 0 ≤ acc < 2 ^ k → 0 ≤ k →
  0 ≤ be_value bs acc < 2 ^ (k + 8 * Z.of_nat (length bs)).
Proof.
  intros H. revert acc k. induction H as [|b bs Hb Hbs IH]; intros acc k Ha Hk; cbn [be_value length].
  - by rewrite Z.mul_0_r, Z.add_0_r.
  - replace (k + 8 * Z.of_nat (S (length bs))) with ((k + 8) + 8 * Z.of_nat (length bs)) by lia.
    apply IH; [|lia]. rewrite Z.pow_add_r by lia. change (2 ^ 8) with 256. nia.
Qed.

(** Two digests of the standard: one block, and a message of two blocks. *)
Example sum256_abc :
  take 8 (sum256 "abc") = [0xba; 0x78; 0x16; 0xbf; 0x8f; 0x01; 0xcf; 0xea].
Proof. by vm_compute. Qed.

Example sum256_two_blocks :
  take 8 (sum256 "abcdbcdecdefdefgefghfghighijhijkijkljklmklmnlmnomnopnopq")
  = [0x24; 0x8d; 0x6a; 0x61; 0xd2; 0x06; 0x38; 0xb8].
Proof. by vm_compute. Qed.
