(* ===== verification/GoFloat.v ===== *)
(** * Go's [float64]: reading a literal, printing with [%v]

    A JSON number decoded into an [any] is a [float64], and [fmt.Sprintf("%v")]
    prints it with [strconv.FormatFloat(f, 'g', -1, 64)]: the shortest decimal
    that reads back as the same float, in exponent form when the exponent is
    below -4 or at least 6. Both directions are executable, over the
    binary64 floats of [SpecFloat]. *)

From S2P Require Import Prelude GoInt GoString.
From Stdlib Require Import Ascii.
From Stdlib Require Export SpecFloat.

Abbreviation float64 := spec_float.

Definition float_eqb (f g : float64) : bool :=
  match f, g with
  | S754_zero s, S754_zero t => Bool.eqb s t
  | S754_infinity s, S754_infinity t => Bool.eqb s t
  | S754_nan, S754_nan => true
  | S754_finite s m e, S754_finite t n d => Bool.eqb s t && Pos.eqb m n && Z.eqb e d
  | _, _ => false
  end.

(** ** Reading: [strconv.ParseFloat(s, 64)] *)

(** The binary64 float nearest to [m * 10 ^ e], ties to even. Exponents far
    outside the range of binary64 are decided without computing the power. *)
Definition decimal_to_float (neg : bool) (m e : Z) : float64 :=
  let nd := Z.of_nat (String.length (format_uint m)) in
  match m with
  | Zpos p =>
      if 310 <? nd + e then S754_infinity neg
      else if nd + e <? -330 then S754_zero neg
      else if 0 <=? e then
        binary_normalize 53 1024 (if neg then - (m * 10 ^ e) else m * 10 ^ e) 0 neg
      else SFdiv 53 1024 (S754_finite neg p 0) (S754_finite false (Z.to_pos (10 ^ (- e))) 0)
  | _ => S754_zero neg
  end.

(** The digits at the front of a literal, as a value, with their number. *)
Fixpoint read_digits (v n : Z) (s : string) : Z * Z * string :=
  match s with
  | String c r => if is_digit c then read_digits (10 * v + digit_val c) (n + 1) r else (v, n, s)
  | EmptyString => (v, n, s)
  end.

Definition read_exponent (s : string) : Z :=
  match s with
  | String c r =>
      if Ascii.eqb c "e" || Ascii.eqb c "E" then
        match r with
        | String d r' =>
            if Ascii.eqb d "-" then - (fst (fst (read_digits 0 0 r')))
            else if Ascii.eqb d "+" then fst (fst (read_digits 0 0 r'))
            else fst (fst (read_digits 0 0 r))
        | EmptyString => 0
        end
      else 0
  | EmptyString => 0
  end.

(** A literal of the JSON grammar; the only error left is an overflow. *)
Definition parse_float (s : string) : result num_error float64 :=
  let '(neg, s) := match s with
                   | String c r => if Ascii.eqb c "-" then (true, r) else (false, s)
                   | EmptyString => (false, s)
                   end in
  let '(m, _, s) := read_digits 0 0 s in
  let '(m, k, s) := match s with
                    | String c r => if Ascii.eqb c "." then read_digits m 0 r else (m, 0, s)
                    | EmptyString => (m, 0, s)
                    end in
  match decimal_to_float neg m (read_exponent s - k) with
  | S754_infinity _ => Err ErrRange
  | f => Ok f
  end.

(** ** Printing *)

(** [num / den < 10 ^ d]. *)
Definition lt_pow10 (num den d : Z) : bool :=
  if 0 <=? d then num <? den * 10 ^ d else num * 10 ^ (- d) <? den.

(** The decimal exponent [d] of [v = num / den]: [10 ^ (d - 1) <= v < 10 ^ d].
    [2 ^ 1024 < 10 ^ 309] and [10 ^ -324 < 2 ^ -1074] bound the two searches. *)
Fixpoint exponent_up (fuel : nat) (num den d : Z) : Z :=
  match fuel with
  | O => d
  | S fuel => if lt_pow10 num den d then d else exponent_up fuel num den (d + 1)
  end.
Fixpoint exponent_down (fuel : nat) (num den d : Z) : Z :=
  match fuel with
  | O => d
  | S fuel => if lt_pow10 num den (d - 1) then exponent_down fuel num den (d - 1) else d
  end.
Definition decimal_exponent (num den : Z) : Z :=
  if lt_pow10 num den 0 then exponent_down 330 num den 0 else exponent_up 330 num den 1.

(** [v * 10 ^ (nd - dp)] as a fraction: its integer part has [nd] digits. *)
Definition scaled (num den dp nd : Z) : Z * Z :=
  if 0 <=? nd - dp then (num * 10 ^ (nd - dp), den) else (num, den * 10 ^ (dp - nd)).

(** The [nd]-digit decimal nearest to the float among those that read back as
    the float, as an integer scaled by [10 ^ (nd - dp)]. *)
Definition short_candidate (f : float64) (num den dp nd : Z) : option Z :=
  let '(n, d) := scaled num den dp nd in
  let lo := n / d in
  let rem := n mod d in
  let ok c := float_eqb (decimal_to_float false c (dp - nd)) f in
  let near := if 2 * rem <=? d then lo else lo + 1 in
  let far := if 2 * rem <=? d then lo + 1 else lo in
  if ok near then Some near else if ok far then Some far else None.

Fixpoint shortest_go (fuel : nat) (f : float64) (num den dp nd : Z) : Z * Z :=
  match fuel with
  | O => let '(n, d) := scaled num den dp nd in (n / d, nd)
  | S fuel =>
      match short_candidate f num den dp nd with
      | Some c => (c, nd)
      | None => shortest_go fuel f num den dp (nd + 1)
      end
  end.

(** Removes the zeros at the end, but keeps one digit. *)
Fixpoint strip_zeros (s : string) : string :=
  match s with
  | EmptyString => ""
  | String c r =>
      match strip_zeros r with
      | EmptyString => if Ascii.eqb c "0" then "" else String c ""
      | r' => String c r'
      end
  end.

(** The shortest digits of a positive float, and the position of the decimal
    point relative to the first of them. *)
Definition shortest (m : positive) (e : Z) : string * Z :=
  let f := S754_finite false m e in
  let '(num, den) := if 0 <=? e then (Zpos m * 2 ^ e, 1) else (Zpos m, 2 ^ (- e)) in
  let dp := decimal_exponent num den in
  let '(c, nd) := shortest_go 17 f num den dp 1 in
  let ds := format_uint c in
  (strip_zeros ds, dp + (Z.of_nat (String.length ds) - nd)).

(** The exponent has at least two digits. *)
Definition format_exponent (e : Z) : string :=
  let ds := format_uint (Z.abs e) in
  String (if e <? 0 then "-"%char else "+"%char)
    (if Z.abs e <? 10 then String "0" ds else ds).

Definition format_e (ds : string) (dp : Z) : string :=
  match ds with
  | EmptyString => "0e" +:+ format_exponent (dp - 1)
  | String c r =>
      String c (match r with EmptyString => "" | _ => String "." r end)
      +:+ String "e" (format_exponent (dp - 1))
  end.

Definition format_f (ds : string) (dp : Z) : string :=
  let nd := Z.of_nat (String.length ds) in
  if dp <=? 0 then "0." +:+ zeros (Z.to_nat (- dp)) +:+ ds
  else if nd <=? dp then ds +:+ zeros (Z.to_nat (dp - nd))
  else String.substring 0 (Z.to_nat dp) ds
       +:+ String "." (String.substring (Z.to_nat dp) (String.length ds) ds).

(** [%g] with the shortest precision. *)
Definition format_g (ds : string) (dp : Z) : string :=
  let exp := dp - 1 in
  if (exp <? -4) || (6 <=? exp) then format_e ds dp else format_f ds dp.

(** [fmt.Sprintf("%v", f)]. *)
Definition format_float (f : float64) : string :=
  match f with
  | S754_nan => "NaN"
  | S754_infinity s => if s then "-Inf" else "+Inf"
  | S754_zero s => if s then "-0" else "0"
  | S754_finite s m e =>
      let '(ds, dp) := shortest m e in
      let t := format_g ds dp in
      if s then String "-" t else t
  end.

Definition read_back (s : string) : option string :=
  match parse_float s with Ok f => Some (format_float f) | Err _ => None end.

Example print_integers :
  map read_back ["0"; "42"; "-7"; "999999"; "1000000"; "1234567"; "9007199254740993"; "1e400"]
  = [Some "0"; Some "42"; Some "-7"; Some "999999"; Some "1e+06"; Some "1.234567e+06";
     Some "9.007199254740992e+15"; None].
Proof. by vm_compute. Qed.

Example print_fractions :
  map read_back ["0.1"; "3.5"; "0.0001"; "0.00001"; "2.5e-7"; "1e21"; "123456.75"; "5e-324";
                 "1.7976931348623157e308"; "5.684341886080802e-14"]
  = [Some "0.1"; Some "3.5"; Some "0.0001"; Some "1e-05"; Some "2.5e-07"; Some "1e+21";
     Some "123456.75"; Some "5e-324"; Some "1.7976931348623157e+308";
     Some "5.684341886080802e-14"].
Proof. by vm_compute. Qed.

(** ** Floats of at least a million are printed with an exponent *)

Lemma exponent_up_ge fuel num den d : d ≤ exponent_up fuel num den d.
Proof.
  revert d. induction fuel as [|fuel IH]; intros d; cbn [exponent_up]; [lia|].
  case_match; [lia|]. specialize (IH (d + 1)). lia.
Qed.

Lemma lt_pow10_false num den d :
  0 < den → 0 ≤ d → den * 10 ^ d ≤ num → lt_pow10 num den d = false.
Proof.
  intros Hd H0 H. unfold lt_pow10. rewrite (proj2 (Z.leb_le 0 d) H0). by apply Z.ltb_ge.
Qed.

Lemma exponent_up_min fuel num den d k :
  0 < den → 0 ≤ d → d ≤ k < d + Z.of_nat fuel → den * 10 ^ k ≤ num →
  k < exponent_up fuel num den d.
Proof.
  intros Hden. revert d. induction fuel as [|fuel IH]; intros d Hd Hk H; [lia|].
  cbn [exponent_up].
  assert (10 ^ d ≤ 10 ^ k) by (apply Z.pow_le_mono_r; lia).
  rewrite lt_pow10_false by nia.
  destruct (Z.eq_dec k d) as [->|].
  - pose proof (exponent_up_ge fuel num den (d + 1)). lia.
  - apply IH; lia.
Qed.

(** A value of at least [10 ^ k] has a decimal exponent above [k]. *)
Lemma decimal_exponent_gt num den k :
  0 < den → 0 ≤ k ≤ 300 → den * 10 ^ k ≤ num → k < decimal_exponent num den.
Proof.
  intros Hden Hk H. unfold decimal_exponent.
  assert (1 ≤ 10 ^ k) by (change 1 with (10 ^ 0) at 1; apply Z.pow_le_mono_r; lia).
  rewrite lt_pow10_false by (cbn; nia).
  destruct (Z.eq_dec k 0) as [->|].
  - pose proof (exponent_up_ge 330 num den 1). lia.
  - apply exponent_up_min; lia.
Qed.

Lemma exponent_up_pred fuel num den d :
  0 < den → 0 ≤ d - 1 → lt_pow10 num den (d - 1) = false →
  den * 10 ^ (exponent_up fuel num den d - 1) ≤ num.
Proof.
  intros Hden. revert d. induction fuel as [|fuel IH]; intros d Hd H; cbn [exponent_up].
  - unfold lt_pow10 in H. rewrite (proj2 (Z.leb_le 0 _) Hd) in H. zb.
  - case_match eqn:E.
    + unfold lt_pow10 in H. rewrite (proj2 (Z.leb_le 0 _) Hd) in H. zb.
    + apply IH; [lia|]. by replace (d + 1 - 1) with d by lia.
Qed.

Lemma scaled_digits num den dp nd n d :
  0 < den → 1 ≤ nd → 1 ≤ dp → den * 10 ^ (dp - 1) ≤ num →
  scaled num den dp nd = (n, d) → 0 < d ∧ d * 10 ^ (nd - 1) ≤ n.
Proof.
  intros Hden Hnd Hdp H. unfold scaled.
  destruct (Z.leb_spec 0 (nd - dp)); intros [= <- <-].
  - split; [done|]. replace (nd - 1) with ((dp - 1) + (nd - dp)) by lia.
    rewrite Z.pow_add_r by lia. assert (0 < 10 ^ (nd - dp)) by (apply Z.pow_pos_nonneg; lia). nia.
  - assert (0 < 10 ^ (dp - nd)) by (apply Z.pow_pos_nonneg; lia).
    split; [nia|]. rewrite <-Z.mul_assoc, <-Z.pow_add_r by lia.
    by replace (dp - nd + (nd - 1)) with (dp - 1) by lia.
Qed.

Lemma short_candidate_digits f num den dp nd c :
  0 < den → 1 ≤ nd → 1 ≤ dp → den * 10 ^ (dp - 1) ≤ num →
  short_candidate f num den dp nd = Some c → 10 ^ (nd - 1) ≤ c.
Proof.
  intros Hden Hnd Hdp H. unfold short_candidate.
  destruct (scaled num den dp nd) as [n d] eqn:E.
  destruct (scaled_digits _ _ _ _ _ _ Hden Hnd Hdp H E) as [Hd Hn].
  assert (10 ^ (nd - 1) ≤ n / d) by (apply Z.div_le_lower_bound; done).
  intros. case_matches; lia.
Qed.

Lemma shortest_go_digits fuel f num den dp nd c k :
  0 < den → 1 ≤ nd → 1 ≤ dp → den * 10 ^ (dp - 1) ≤ num →
  shortest_go fuel f num den dp nd = (c, k) → 10 ^ (k - 1) ≤ c.
Proof.
  intros Hden Hnd Hdp H. revert nd Hnd. induction fuel as [|fuel IH]; intros nd Hnd; cbn [shortest_go].
  - destruct (scaled num den dp nd) as [n d] eqn:E.
    destruct (scaled_digits _ _ _ _ _ _ Hden Hnd Hdp H E) as [Hd Hn].
    intros [= <- <-]. by apply Z.div_le_lower_bound.
  - case_match eqn:E; [|intros; eapply (IH (nd + 1)); [lia|done]].
    intros [= <- <-]. exact (short_candidate_digits _ _ _ _ _ _ Hden Hnd Hdp H E).
Qed.

Lemma parse_digits_bound s v r :
  0 ≤ v → parse_digits v s = Some r → r < (v + 1) * 10 ^ Z.of_nat (String.length s).
Proof.
  revert v. induction s as [|c s IH]; intros v Hv; cbn [parse_digits String.length].
  - intros [= ->]. change (10 ^ Z.of_nat 0) with 1. lia.
  - case_match eqn:D; [|done]. apply is_digit_val in D. intros H%IH; [|lia].
    rewrite Nat2Z.inj_succ, Z.pow_succ_r by lia.
    assert (0 < 10 ^ Z.of_nat (String.length s)) by (apply Z.pow_pos_nonneg; lia). nia.
Qed.

(** A number of at least [10 ^ (k - 1)] has at least [k] digits. *)
Lemma format_uint_length n k :
  0 ≤ n → 10 ^ (k - 1) ≤ n → k ≤ Z.of_nat (String.length (format_uint n)).
Proof.
  intros Hn Hk. pose proof (parse_digits_bound _ 0 n ltac:(lia) (parse_format_uint n Hn)) as B.
  destruct (Z.le_gt_cases k (Z.of_nat (String.length (format_uint n)))) as [|G]; [done|exfalso].
  assert (10 ^ Z.of_nat (String.length (format_uint n)) ≤ 10 ^ (k - 1))
    by (apply Z.pow_le_mono_r; lia).
  lia.
Qed.

(** The value of [m * 2 ^ e] is at least [10 ^ k]. *)
Definition float_ge_pow10 (m : positive) (e k : Z) : Prop :=
  if 0 <=? e then 10 ^ k ≤ Zpos m * 2 ^ e else 2 ^ (- e) * 10 ^ k ≤ Zpos m.

Lemma shortest_point m e k ds dp :
  0 ≤ k ≤ 300 → float_ge_pow10 m e k → shortest m e = (ds, dp) → k < dp.
Proof.
  intros Hk. unfold float_ge_pow10, shortest.
  set (nd0 := if 0 <=? e then (Zpos m * 2 ^ e, 1) else (Zpos m, 2 ^ (- e))).
  intros Hge. assert (∃ num den, nd0 = (num, den) ∧ 0 < den ∧ den * 10 ^ k ≤ num) as
    (num & den & -> & Hden & Hnum).
  { unfold nd0. destruct (Z.leb_spec 0 e); eexists _, _; (split; [done|]).
    - split; [done|]. by rewrite Z.mul_1_l.
    - split; [apply Z.pow_pos_nonneg; lia|done]. }
  pose proof (decimal_exponent_gt num den k Hden Hk Hnum) as Hdp.
  assert (den * 10 ^ (decimal_exponent num den - 1) ≤ num) as Hmin.
  { unfold decimal_exponent. destruct (lt_pow10 num den 0) eqn:E.
    - exfalso. assert (1 ≤ 10 ^ k) by (change 1 with (10 ^ 0) at 1; apply Z.pow_le_mono_r; lia).
      rewrite lt_pow10_false in E; [done|done|lia|cbn; nia].
    - by apply exponent_up_pred. }
  destruct (shortest_go _ _ _ _ _ _) as [c nd] eqn:E. intros [= <- <-].
  apply shortest_go_digits in E; [|done|lia..|done].
  assert (0 ≤ c) by (assert (0 ≤ 10 ^ (nd - 1)) by (apply Z.pow_nonneg; lia); lia).
  pose proof (format_uint_length c nd ltac:(done) E). lia.
Qed.

Lemma all_digits_app s t : all_digits (s +:+ t) = all_digits s && all_digits t.
Proof. by rewrite !all_digits_forall, str_forall_app. Qed.

(** Such a float is printed with an exponent: the text is not a run of digits. *)
Lemma format_float_large m e :
  float_ge_pow10 m e 6 → all_digits (format_float (S754_finite false m e)) = false.
Proof.
  intros Hge. unfold format_float. destruct (shortest m e) as [ds dp] eqn:E.
  apply (shortest_point _ _ 6) in E; [|lia|done].
  unfold format_g. rewrite (proj2 (Z.ltb_ge (dp - 1) (-4))), (proj2 (Z.leb_le 6 (dp - 1))) by lia.
  cbn [orb]. unfold format_e. destruct ds as [|c r].
  - by rewrite all_digits_app.
  - rewrite string_app_cons. cbn [all_digits]. rewrite all_digits_app.
    cbn [all_digits]. by rewrite !andb_false_r.
Qed.
