(* ===== verification/GoDuration.v ===== *)
(** * [time.ParseDuration]

    A duration is an [int64] number of nanoseconds. The text is an optional
    sign and a sequence of decimal numbers with units; a fraction is scaled in
    [float64], as in package [time]. [None] is an error. *)

From S2P Require Import Prelude GoInt GoString GoFloat.
From Stdlib Require Import Ascii.

Definition two63 : Z := 2 ^ 63.

(** [leadingInt]: the number, as a [uint64] of at most 2^63, and the rest. *)
Fixpoint leading_int (x : Z) (s : string) : option (Z * string) :=
  match s with
  | String c r =>
      if is_digit c then
        if two63 / 10 <? x then None
        else let x := 10 * x + digit_val c in
             if two63 <? x then None else leading_int x r
      else Some (x, s)
  | EmptyString => Some (x, s)
  end.

Definition float_of (z : Z) : float64 := binary_normalize 53 1024 z 0 false.
Definition fmul : float64 → float64 → float64 := SFmul 53 1024.
Definition fdiv : float64 → float64 → float64 := SFdiv 53 1024.

(** The conversion to [uint64] of a float that is not negative. *)
Definition float_trunc (f : float64) : Z :=
  match f with
  | S754_finite false m e => if 0 <=? e then Zpos m * 2 ^ e else Zpos m / 2 ^ (- e)
  | _ => 0
  end.

(** [leadingFraction]: digits that would overflow are dropped. *)
Fixpoint leading_fraction (x : Z) (scale : float64) (overflow : bool) (s : string)
    : Z * float64 * string :=
  match s with
  | String c r =>
      if is_digit c then
        if overflow then leading_fraction x scale true r
        else if (two63 - 1) / 10 <? x then leading_fraction x scale true r
        else let y := 10 * x + digit_val c in
             if two63 <? y then leading_fraction x scale true r
             else leading_fraction y (fmul scale (float_of 10)) false r
      else (x, scale, s)
  | EmptyString => (x, scale, s)
  end.

Fixpoint leading_unit (s : string) : string * string :=
  match s with
  | String c r =>
      if Ascii.eqb c "." || is_digit c then ("", s)
      else let '(u, r) := leading_unit r in (String c u, r)
  | EmptyString => ("", "")
  end.

(** [unitMap]; the micro sign may be U+00B5 or U+03BC. *)
Definition unit_of (u : string) : option Z :=
  if decide (u = "ns") then Some 1
  else if decide (u = "us") then Some 1000
  else if decide (u = String (chr 194) (String (chr 181) "s")) then Some 1000
  else if decide (u = String (chr 206) (String (chr 188) "s")) then Some 1000
  else if decide (u = "ms") then Some 1000000
  else if decide (u = "s") then Some 1000000000
  else if decide (u = "m") then Some 60000000000
  else if decide (u = "h") then Some 3600000000000
  else None.

Definition starts_number (s : string) : bool :=
  match s with String c _ => Ascii.eqb c "." || is_digit c | EmptyString => false end.

(** The part after the point: value, scale, rest, whether it has digits. *)
Definition parse_fraction (s : string) : Z * float64 * string * bool :=
  match s with
  | String c r =>
      if Ascii.eqb c "." then
        let '(f, scale, rest) := leading_fraction 0 (float_of 1) false r in
        (f, scale, rest, negb (String.eqb r rest))
      else (0, float_of 1, s, false)
  | EmptyString => (0, float_of 1, s, false)
  end.

(** One number with its unit, in nanoseconds. *)
Definition parse_term (s : string) : option (Z * string) :=
  if starts_number s then
    '(v, s1) ← leading_int 0 s;
    let pre := negb (String.eqb s s1) in
    let '(f, scale, s2, post) := parse_fraction s1 in
    if pre || post then
      let '(u, s3) := leading_unit s2 in
      if decide (u = "") then None
      else
        unit ← unit_of u;
        if two63 / unit <? v then None
        else
          let v := v * unit in
          if 0 <? f then
            let v := v + float_trunc (fmul (float_of f) (fdiv (float_of unit) scale)) in
            if two63 <? v then None else Some (v, s3)
          else Some (v, s3)
    else None
  else None.

(** The loop; [d] is a [uint64]. *)
Fixpoint parse_terms (fuel : nat) (d : Z) (s : string) : option Z :=
  match fuel with
  | O => None
  | S fuel =>
      match s with
      | EmptyString => Some d
      | _ =>
          '(v, s) ← parse_term s;
          let d := (d + v) mod 2 ^ 64 in
          if two63 <? d then None else parse_terms fuel d s
      end
  end.

(** A term takes at least a byte. *)
Definition ParseDuration (s : string) : option Z :=
  let '(neg, s) := match s with
                   | String c r =>
                       if Ascii.eqb c "-" then (true, r)
                       else if Ascii.eqb c "+" then (false, r) else (false, s)
                   | EmptyString => (false, s)
                   end in
  if decide (s = "0") then Some 0
  else if decide (s = "") then None
  else
    d ← parse_terms (S (String.length s)) 0 s;
    if (neg : bool) then Some (wrap64 (- wrap64 d))
    else if two63 - 1 <? d then None else Some d.

Example durations :
  map ParseDuration ["5s"; "1m30s"; "1.5h"; "-60s"; "0"; ""; "10"; "1d"; ".5s"; "."; "100ms2us"; "+1ns"]
  = [Some 5000000000; Some 90000000000; Some 5400000000000; Some (-60000000000); Some 0; None; None;
     None; Some 500000000; None; Some 100002000; Some 1].
Proof. by vm_compute. Qed.

Example duration_limits :
  map ParseDuration ["9223372036854775807ns"; "9223372036854775808ns"; "-9223372036854775808ns";
                     "9223372036854775809ns"; "3000000h"; "0.1s"]
  = [Some (2 ^ 63 - 1); None; Some (- 2 ^ 63); None; None; Some 100000000].
Proof. by vm_compute. Qed.

(** ** Whole seconds *)

Lemma parse_digits_ge acc s v : 0 ≤ acc → parse_digits acc s = Some v → acc ≤ v.
Proof.
  revert acc. induction s as [|c s IH]; intros acc Ha; cbn; [intros [= ->]; lia|].
  destruct (is_digit c) eqn:Hc; [|done]. apply is_digit_val in Hc. intros H%IH; lia.
Qed.

Lemma leading_int_digits acc s v rest :
  0 ≤ acc → parse_digits acc s = Some v → v ≤ two63 →
  match rest with String c _ => is_digit c = false | EmptyString => True end →
  leading_int acc (s +:+ rest) = Some (v, rest).
Proof.
  intros Ha Hp Hv Hr. revert acc Ha Hp. induction s as [|c s IH]; intros acc Ha Hp.
  - injection Hp as ->. destruct rest as [|c rest]; [done|]. cbn. by rewrite Hr.
  - rewrite string_app_cons. cbn [leading_int]. cbn in Hp.
    destruct (is_digit c) eqn:Hc; [|done]. apply is_digit_val in Hc.
    pose proof (parse_digits_ge (10 * acc + digit_val c) s v ltac:(lia) Hp) as Hge. unfold two63 in *.
    rewrite (proj2 (Z.ltb_ge (2 ^ 63 / 10) acc)) by (apply Z.div_le_lower_bound; lia).
    rewrite (proj2 (Z.ltb_ge (2 ^ 63) (10 * acc + digit_val c))) by lia.
    apply IH; [lia|done].
Qed.

(** A whole number of seconds is read back from its text. *)
Lemma ParseDuration_seconds n :
  0 ≤ n ≤ 9223372036 → ParseDuration (format_int n +:+ "s") = Some (n * 1000000000).
Proof.
  intros Hn. unfold format_int. rewrite (proj2 (Z.ltb_ge n 0)) by lia.
  destruct (format_uint_cons n) as (c & t & E & Hc).
  pose proof (parse_format_uint n ltac:(lia)) as Hp.
  assert (leading_int 0 (format_uint n +:+ "s") = Some (n, "s")) as Hl.
  { apply leading_int_digits; [lia|done|unfold two63; lia|done]. }
  rewrite E, string_app_cons in *. unfold ParseDuration.
  destruct (is_digit_not_sign c Hc) as [-> ->].
  assert (∀ a, String c (t +:+ "s") = String a "" → False) as Hne.
  { intros a [= _ H]. by destruct t. }
  rewrite !decide_False by (intros H; solve [by apply Hne in H | done]).
  cbn [parse_terms]. unfold parse_term. cbn [starts_number]. rewrite Hc, orb_true_r, Hl.
  cbn [mbind option_bind].
  assert (String.eqb (String c (t +:+ "s")) "s" = false) as ->.
  { apply String.eqb_neq. intros H. by apply Hne in H. }
  change (parse_fraction "s") with (0, float_of 1, "s", false). cbn [negb orb].
  change (leading_unit "s") with ("s", ""). cbv beta iota. rewrite decide_False by done.
  change (unit_of "s") with (Some 1000000000). cbn [mbind option_bind].
  assert (two63 / 1000000000 = 9223372036) as -> by by vm_compute.
  rewrite (proj2 (Z.ltb_ge 9223372036 n)), (proj2 (Z.ltb_ge 0 0)) by lia. cbn [mbind option_bind].
  rewrite Z.mod_small by lia. unfold two63.
  rewrite (proj2 (Z.ltb_ge (2 ^ 63) _)) by lia. cbn [String.length parse_terms mbind option_bind].
  by rewrite (proj2 (Z.ltb_ge (2 ^ 63 - 1) _)) by lia.
Qed.
