(* ===== verification/GoAny.v ===== *)
(** * Go's [any], and [fmt.Sprintf("%v")]

    A shard key is an [any]: a string from the query of [/v1/route], or
    whatever [encoding/json] builds for the field [shard_key] of [/v1/query]
    ([nil], [bool], [float64], [string], [[]any], [map[string]any]); the
    tests also pass [int]s. *)

From S2P Require Import Prelude GoInt GoString GoFloat.
From Stdlib Require Import Ascii.

(** A map is listed in the order of its keys, which is the order [fmt] prints
    it in. *)
Inductive go_any : Type :=
| ANil
| ABool (b : bool)
| AInt (z : Z)
| AFloat (f : float64)
| AString (s : string)
| ASlice (l : list go_any)
| AMap (kvs : list (string * go_any)).

(** [fmt.Sprintf("%v", a)]. *)
Fixpoint sprint_v (a : go_any) : string :=
  match a with
  | ANil => "<nil>"
  | ABool b => if b then "true" else "false"
  | AInt z => format_int z
  | AFloat f => format_float f
  | AString s => s
  | ASlice l => "[" +:+ join_with " "%char (map sprint_v l) +:+ "]"
  | AMap kvs =>
      "map[" +:+ join_with " "%char (map (λ '(k, v), k +:+ ":" +:+ sprint_v v) kvs) +:+ "]"
  end.

Definition is_nil (a : go_any) : bool := match a with ANil => true | _ => false end.

Example sprint_nested :
  sprint_v (ASlice [AInt (-3); AString "a b"; AMap [("k", ABool true); ("z", ANil)]])
  = "[-3 a b map[k:true z:<nil>]]".
Proof. by vm_compute. Qed.
