(* ===== verification/Hashing.v ===== *)
(** * Package [hashing]: a shard key to its virtual bucket

    [internal/hashing/hash.go]: SHA-256 of the text of the key, the first
    eight bytes as a big-endian [uint64], modulo the number of buckets. *)

From S2P Require Import Prelude GoInt GoString GoFloat GoAny Sha256.

Definition DefaultBucketCount : Z := 1024.

(** The bytes that are hashed. *)
Definition key_text (shardKey : go_any) : string := sprint_v shardKey.

(** [binary.BigEndian.Uint64(digest[:8])] of the digest of [raw]. *)
Definition digest64 (raw : string) : Z := be_value (take 8 (sum256 raw)) 0.

Definition BucketFor (shardKey : go_any) (bucketCount : Z) : Z :=
  let bucketCount := if bucketCount <=? 0 then DefaultBucketCount else bucketCount in
  wrap64 (digest64 (key_text shardKey) mod bucketCount).

(** The number of buckets in use for a configured count. *)
Definition effective_count (bucketCount : Z) : Z :=
  if bucketCount <=? 0 then DefaultBucketCount else bucketCount.

Lemma effective_count_pos c : 0 < effective_count c.
Proof. unfold effective_count, DefaultBucketCount. case_match; zb. Qed.

Lemma digest64_range raw : 0 ≤ digest64 raw < 2 ^ 64.
Proof.
  unfold digest64.
  assert (length (take 8 (sum256 raw)) = 8)%nat as L
    by (rewrite length_take, sum256_length; done).
  pose proof (be_value_range (take 8 (sum256 raw)) 0 0
    (Forall_take _ 8 _ (sum256_range raw)) ltac:(lia) ltac:(lia)) as H.
  by rewrite L in H.
Qed.

(** On an [int] bucket count the conversion to [int] never wraps. *)
Lemma BucketFor_mod k c :
  in_int64 c = true → BucketFor k c = digest64 (key_text k) mod effective_count c.
Proof.
  intros Hc%in_int64_spec. unfold BucketFor. fold (effective_count c).
  pose proof (effective_count_pos c).
  assert (effective_count c < 2 ^ 63) by (unfold effective_count, DefaultBucketCount; case_match; lia).
  pose proof (Z.mod_pos_bound (digest64 (key_text k)) (effective_count c)).
  apply wrap64_id. lia.
Qed.

Lemma BucketFor_range k c :
  in_int64 c = true → 0 ≤ BucketFor k c < effective_count c.
Proof.
  intros Hc. rewrite BucketFor_mod by done.
  apply Z.mod_pos_bound, effective_count_pos.
Qed.

(** ** Properties *)

(** Every shard key falls into one of the configured buckets: the result
    is in [[0, n)], where [n] is the bucket count, or 1024 when the count is
    not positive. *)
Lemma bucket_in_range (k : go_any) (c : Z) :
  in_int64 c = true →
  0 ≤ BucketFor k c < (if c <=? 0 then 1024 else c).
Proof. apply BucketFor_range. Qed.

Lemma bucket_in_range_witness :
  in_int64 16 = true ∧ 0 ≤ BucketFor (AString "tenant-abc") 16 < 16.
Proof. split; [done|]. apply (bucket_in_range (AString "tenant-abc") 16). done. Defined.

(** The vectors of [testdata/golden_vectors.json]. *)
Definition golden_vectors : list (string * Z * Z) :=
  [("1", 1024, 225); ("42", 1024, 653); ("tenant-abc", 1024, 330);
   ("9223372036854775807", 1024, 703); ("0", 1024, 824); ("1000000", 1024, 337);
   ("merchant-9F3A", 1024, 375); ("wallet-000123", 1024, 456)].

(** The bucket function reproduces every golden vector of the
    repository. *)
Lemma golden_vectors_reproduced :
  Forall (λ '(k, c, b), BucketFor (AString k) c = b) golden_vectors.
Proof. by repeat constructor; vm_compute. Qed.

(** A JSON number decoded by [/v1/query] is a [float64], and from one
    million on its text is not a decimal integer: the key is hashed in
    exponent form, unlike the same number sent as a string. *)
Lemma large_json_number_not_decimal (m : positive) (e z : Z) :
  float_ge_pow10 m e 6 → 0 ≤ z →
  key_text (AFloat (S754_finite false m e)) ≠ key_text (AInt z).
Proof.
  intros Hge Hz E. pose proof (format_float_large m e Hge) as H.
  change (format_float (S754_finite false m e) = format_int z) in E.
  rewrite E in H. unfold format_int in H.
  destruct (Z.ltb_spec z 0); [lia|]. by rewrite format_uint_digits in H.
Qed.

(** Tenant 1000000, as a JSON number and as a string, on 1024 buckets. *)
Lemma large_json_number_not_decimal_witness :
  key_text (AFloat (S754_finite false 8589934592000000 (-33))) ≠ key_text (AInt 1000000)
  ∧ BucketFor (AFloat (decimal_to_float false 1000000 0)) 1024
    ≠ BucketFor (AString "1000000") 1024.
Proof.
  split; [|by vm_compute].
  apply (large_json_number_not_decimal 8589934592000000 (-33) 1000000); [by vm_compute|lia].
Defined.
