(* ===== verification/Json.v ===== *)
(** * [encoding/json]: parsing and decoding

    [parse] is the syntax of [json.Unmarshal], [parse_first] that of one
    [Decoder.Decode] on a stream. The [decode_*] functions store a parsed value
    into a Go variable of the given type; [None] is a decoding error, after
    which every caller of this program drops the value. *)

From S2P Require Import Prelude GoInt GoString GoFloat GoAny.
From Stdlib Require Import Ascii.

(** A number keeps its literal, an object the order of its members and their
    duplicates. *)
Inductive json : Type :=
| JNull
| JBool (b : bool)
| JNum (lit : string)
| JStr (s : string)
| JArr (l : list json)
| JObj (kvs : list (string * json)).

(** ** UTF-8 *)

Definition cont (c : ascii) : bool := (128 <=? code c) && (code c <=? 191).
Definition between (lo hi : Z) (c : ascii) : bool := (lo <=? code c) && (code c <=? hi).

(** The longest valid encoding of one rune outside ASCII at the front. *)
Definition utf8_rune (s : string) : option (string * string) :=
  match s with
  | String a (String b r) =>
      if between 194 223 a && cont b then Some (String a (String b ""), r)
      else match r with
           | String c r =>
               if (between 224 224 a && between 160 191 b
                   || between 225 236 a && cont b
                   || between 237 237 a && between 128 159 b
                   || between 238 239 a && cont b) && cont c
               then Some (String a (String b (String c "")), r)
               else match r with
                    | String d r =>
                        if (between 240 240 a && between 144 191 b
                            || between 241 243 a && cont b
                            || between 244 244 a && between 128 143 b) && cont c && cont d
                        then Some (String a (String b (String c (String d ""))), r)
                        else None
                    | EmptyString => None
                    end
           | EmptyString => None
           end
  | _ => None
  end.

(** U+FFFD, written for each byte that is not part of a valid rune. *)
Definition replacement : string := String (chr 239) (String (chr 191) (String (chr 189) "")).

Definition encode_rune (r : Z) : string :=
  if r <? 128 then String (chr r) ""
  else if r <? 2048 then String (chr (192 + r / 64)) (String (chr (128 + r mod 64)) "")
  else if (55296 <=? r) && (r <=? 57343) then replacement
  else if r <? 65536 then
    String (chr (224 + r / 4096)) (String (chr (128 + r / 64 mod 64)) (String (chr (128 + r mod 64)) ""))
  else
    String (chr (240 + r / 262144)) (String (chr (128 + r / 4096 mod 64))
      (String (chr (128 + r / 64 mod 64)) (String (chr (128 + r mod 64)) ""))).

(** ** Scanning *)

Definition is_ws (c : ascii) : bool :=
  (code c =? 32) || (code c =? 9) || (code c =? 10) || (code c =? 13).

Fixpoint skip_ws (s : string) : string :=
  match s with
  | String c r => if is_ws c then skip_ws r else s
  | EmptyString => ""
  end.

Definition hex_val (c : ascii) : option Z :=
  if is_digit c then Some (digit_val c)
  else if between 97 102 c then Some (code c - 87)
  else if between 65 70 c then Some (code c - 55)
  else None.

Definition hex4 (s : string) : option (Z * string) :=
  match s with
  | String a (String b (String c (String d r))) =>
      a ← hex_val a; b ← hex_val b; c ← hex_val c; d ← hex_val d;
      Some (4096 * a + 256 * b + 16 * c + d, r)
  | _ => None
  end.

Definition backslash : ascii := chr 92.
Definition dquote : ascii := chr 34.

(** The rune of an escape [\u] whose digits start [s]: a high surrogate takes
    the low surrogate that follows it, a lone surrogate is replaced. *)
Definition unicode_escape (s : string) : option (string * string) :=
  '(r, s1) ← hex4 s;
  if (55296 <=? r) && (r <? 56320) then
    match s1 with
    | String b (String u s2) =>
        if Ascii.eqb b backslash && Ascii.eqb u "u" then
          match hex4 s2 with
          | Some (r2, s3) =>
              if (56320 <=? r2) && (r2 <=? 57343)
              then Some (encode_rune (65536 + (r - 55296) * 1024 + (r2 - 56320)), s3)
              else Some (replacement, s1)
          | None => Some (replacement, s1)
          end
        else Some (replacement, s1)
    | _ => Some (replacement, s1)
    end
  else Some (encode_rune r, s1).

Definition simple_escape (c : ascii) : option ascii :=
  if Ascii.eqb c dquote || Ascii.eqb c backslash || Ascii.eqb c "/" then Some c
  else if Ascii.eqb c "b" then Some (chr 8)
  else if Ascii.eqb c "f" then Some (chr 12)
  else if Ascii.eqb c "n" then Some (chr 10)
  else if Ascii.eqb c "r" then Some (chr 13)
  else if Ascii.eqb c "t" then Some (chr 9)
  else None.

(** The contents of a string literal, from after its opening quote. *)
Fixpoint parse_string (fuel : nat) (s : string) : option (string * string) :=
  match fuel with
  | O => None
  | S fuel =>
      match s with
      | EmptyString => None
      | String c r =>
          if Ascii.eqb c dquote then Some ("", r)
          else if Ascii.eqb c backslash then
            match r with
            | EmptyString => None
            | String e r =>
                '(x, r) ← (if Ascii.eqb e "u" then unicode_escape r
                           else x ← simple_escape e; Some (String x "", r));
                '(t, r) ← parse_string fuel r; Some (x +:+ t, r)
            end
          else if code c <? 32 then None
          else if code c <? 128 then '(t, r) ← parse_string fuel r; Some (String c t, r)
          else match utf8_rune s with
               | Some (x, r) => '(t, r) ← parse_string fuel r; Some (x +:+ t, r)
               | None => '(t, r) ← parse_string fuel r; Some (replacement +:+ t, r)
               end
      end
  end.

Fixpoint span_digits (s : string) : string * string :=
  match s with
  | String c r => if is_digit c then let '(d, r) := span_digits r in (String c d, r) else ("", s)
  | EmptyString => ("", "")
  end.

(** One or more digits. *)
Definition digits1 (s : string) : option (string * string) :=
  let '(d, r) := span_digits s in
  match d with EmptyString => None | _ => Some (d, r) end.

(** [0], or a run of digits that does not start with [0]. *)
Definition parse_int_part (s : string) : option (string * string) :=
  match s with
  | String c r => if Ascii.eqb c "0" then Some ("0", r) else digits1 s
  | EmptyString => None
  end.

Definition parse_frac (s : string) : option (string * string) :=
  match s with
  | String c r =>
      if Ascii.eqb c "." then '(d, r) ← digits1 r; Some (String c d, r) else Some ("", s)
  | EmptyString => Some ("", "")
  end.

Definition parse_exp (s : string) : option (string * string) :=
  match s with
  | String c r =>
      if Ascii.eqb c "e" || Ascii.eqb c "E" then
        match r with
        | String g r' =>
            if Ascii.eqb g "+" || Ascii.eqb g "-"
            then '(d, r) ← digits1 r'; Some (String c (String g d), r)
            else '(d, r) ← digits1 r; Some (String c d, r)
        | EmptyString => None
        end
      else Some ("", s)
  | EmptyString => Some ("", "")
  end.

Definition parse_number (s : string) : option (string * string) :=
  let '(sign, s) := match s with
                    | String c r => if Ascii.eqb c "-" then ("-", r) else ("", s)
                    | EmptyString => ("", s)
                    end in
  '(i, s) ← parse_int_part s;
  '(f, s) ← parse_frac s;
  '(e, s) ← parse_exp s;
  Some (sign +:+ i +:+ f +:+ e, s).

Definition max_depth : nat := Z.to_nat 10000.

(** One value at the front of [s]. [fuel] bounds the number of calls, and
    [depth] counts the arrays and objects that may still be opened. *)
Fixpoint parse_value (fuel depth : nat) (s : string) : option (json * string) :=
  match fuel with
  | O => None
  | S fuel =>
      match skip_ws s with
      | EmptyString => None
      | String c r =>
          if Ascii.eqb c dquote then
            '(t, r) ← parse_string (S (String.length r)) r; Some (JStr t, r)
          else if Ascii.eqb c "[" then
            match depth with
            | O => None
            | S depth =>
                match skip_ws r with
                | String d r' =>
                    if Ascii.eqb d "]" then Some (JArr [], r')
                    else '(l, r) ← parse_elems fuel depth r; Some (JArr l, r)
                | EmptyString => None
                end
            end
          else if Ascii.eqb c "{" then
            match depth with
            | O => None
            | S depth =>
                match skip_ws r with
                | String d r' =>
                    if Ascii.eqb d "}" then Some (JObj [], r')
                    else '(l, r) ← parse_members fuel depth r; Some (JObj l, r)
                | EmptyString => None
                end
            end
          else if Ascii.eqb c "n" then r ← strip_prefix "ull" r; Some (JNull, r)
          else if Ascii.eqb c "t" then r ← strip_prefix "rue" r; Some (JBool true, r)
          else if Ascii.eqb c "f" then r ← strip_prefix "alse" r; Some (JBool false, r)
          else '(n, r) ← parse_number (String c r); Some (JNum n, r)
      end
  end
with parse_elems (fuel depth : nat) (s : string) : option (list json * string) :=
  match fuel with
  | O => None
  | S fuel =>
      '(v, r) ← parse_value fuel depth s;
      match skip_ws r with
      | String c r =>
          if Ascii.eqb c "," then '(l, r) ← parse_elems fuel depth r; Some (v :: l, r)
          else if Ascii.eqb c "]" then Some ([v], r)
          else None
      | EmptyString => None
      end
  end
with parse_members (fuel depth : nat) (s : string) : option (list (string * json) * string) :=
  match fuel with
  | O => None
  | S fuel =>
      match skip_ws s with
      | String q r =>
          if Ascii.eqb q dquote then
            '(k, r) ← parse_string (S (String.length r)) r;
            match skip_ws r with
            | String c r =>
                if Ascii.eqb c ":" then
                  '(v, r) ← parse_value fuel depth r;
                  match skip_ws r with
                  | String c r =>
                      if Ascii.eqb c "," then
                        '(l, r) ← parse_members fuel depth r; Some ((k, v) :: l, r)
                      else if Ascii.eqb c "}" then Some ([(k, v)], r)
                      else None
                  | EmptyString => None
                  end
                else None
            | EmptyString => None
            end
          else None
      | EmptyString => None
      end
  end.

(** Between two bytes read there are at most two calls. *)
Definition parse_fuel (s : string) : nat := 2 * String.length s + 2.

Definition parse_first (s : string) : option (json * string) :=
  parse_value (parse_fuel s) max_depth s.

Definition parse (s : string) : option json :=
  '(v, r) ← parse_first s;
  match skip_ws r with EmptyString => Some v | _ => None end.

(** ** Decoding into Go values *)

(** Case folding of a member name: ASCII letters, and the two runes outside
    ASCII that fold to one (the long s and the Kelvin sign). *)
Fixpoint fold_name (s : string) : string :=
  match s with
  | EmptyString => ""
  | String a r =>
      if code a <? 128 then String (upper_byte a) (fold_name r)
      else match r with
           | String b r' =>
               if (code a =? 197) && (code b =? 191) then String "S" (fold_name r')
               else match r' with
                    | String c r'' =>
                        if (code a =? 226) && (code b =? 132) && (code c =? 170)
                        then String "K" (fold_name r'')
                        else String a (fold_name r)
                    | EmptyString => String a (fold_name r)
                    end
           | EmptyString => String a ""
           end
  end.

(** The field of a struct, among those with the given JSON names, that a
    member is stored into: the exact name first, else the folded one. *)
Definition match_field (names : list string) (k : string) : option string :=
  if bool_decide (k ∈ names) then Some k
  else head (filter (λ n, fold_name n = fold_name k) names).

Definition decode_string (cur : string) (v : json) : option string :=
  match v with JStr s => Some s | JNull => Some cur | _ => None end.

Definition decode_bool (cur : bool) (v : json) : option bool :=
  match v with JBool b => Some b | JNull => Some cur | _ => None end.

(** [int] and [int64]. *)
Definition decode_int (cur : Z) (v : json) : option Z :=
  match v with
  | JNum lit => match atoi lit with Ok z => Some z | Err _ => None end
  | JNull => Some cur
  | _ => None
  end.

(** Members are stored in the order of the text; [set cur name v] stores into
    the field of that name. *)
Fixpoint decode_members {A} (names : list string) (set : A → string → json → option A)
    (cur : A) (kvs : list (string * json)) : option A :=
  match kvs with
  | [] => Some cur
  | (k, v) :: kvs =>
      cur ← match match_field names k with Some n => set cur n v | None => Some cur end;
      decode_members names set cur kvs
  end.

Definition decode_struct {A} (names : list string) (set : A → string → json → option A)
    (cur : A) (v : json) : option A :=
  match v with
  | JObj kvs => decode_members names set cur kvs
  | JNull => Some cur
  | _ => None
  end.

(** [map[string]T]: each member is decoded into a fresh element. *)
Fixpoint decode_map_members {A} (dec : json → option A) (cur : gmap string A)
    (kvs : list (string * json)) : option (gmap string A) :=
  match kvs with
  | [] => Some cur
  | (k, v) :: kvs => x ← dec v; decode_map_members dec (<[k := x]> cur) kvs
  end.

Definition decode_map {A} (dec : json → option A) (cur : gmap string A) (v : json)
    : option (gmap string A) :=
  match v with
  | JObj kvs => decode_map_members dec cur kvs
  | JNull => Some ∅
  | _ => None
  end.

(** Inserts into a list sorted by key, replacing an equal key. *)
Fixpoint insert_sorted (k : string) (x : go_any) (l : list (string * go_any))
    : list (string * go_any) :=
  match l with
  | [] => [(k, x)]
  | (k', x') :: l' =>
      match String.compare k k' with
      | Eq => (k, x) :: l'
      | Lt => (k, x) :: l
      | Gt => (k', x') :: insert_sorted k x l'
      end
  end.

Fixpoint option_all {A} (l : list (option A)) : option (list A) :=
  match l with
  | [] => Some []
  | x :: l => x ← x; l ← option_all l; Some (x :: l)
  end.

(** The value [encoding/json] builds for an [any]. *)
Fixpoint decode_any (v : json) : option go_any :=
  match v with
  | JNull => Some ANil
  | JBool b => Some (ABool b)
  | JNum lit => match parse_float lit with Ok f => Some (AFloat f) | Err _ => None end
  | JStr s => Some (AString s)
  | JArr l => l ← option_all (map decode_any l); Some (ASlice l)
  | JObj kvs =>
      l ← option_all (map (λ '(k, v), x ← decode_any v; Some (k, x)) kvs);
      Some (AMap (foldl (λ m '(k, x), insert_sorted k x m) [] l))
  end.
