(* ===== verification/JsonPrint.v ===== *)
(** * [encoding/json]: printing, and printing then parsing

    [encode] is [json.Marshal] on a value whose members are listed in the order
    Go prints them (fields of a struct, sorted keys of a map). The round trip
    is for values made of strings of plain characters, booleans and [null]:
    the shape of the messages exchanged with etcd. *)

From S2P Require Import Prelude GoInt GoString GoFloat GoAny Json.
From Stdlib Require Import Ascii.

(** ** Printing *)

Definition escape (c : ascii) : string := String backslash (String c "").

(** One ASCII byte of a string; [<], [>] and [&] are escaped for HTML. *)
Definition encode_byte (c : ascii) : string :=
  let n := code c in
  if (n =? 34) || (n =? 92) then escape c
  else if n =? 8 then escape "b"
  else if n =? 12 then escape "f"
  else if n =? 10 then escape "n"
  else if n =? 13 then escape "r"
  else if n =? 9 then escape "t"
  else if (n <? 32) || (n =? 60) || (n =? 62) || (n =? 38) then
    String backslash ("u00" +:+ String (hex_digit (n / 16)) (String (hex_digit (n mod 16)) ""))
  else String c "".

(** U+2028 and U+2029 are escaped, invalid bytes replaced. *)
Fixpoint encode_chars (fuel : nat) (s : string) : string :=
  match fuel, s with
  | S fuel, String c r =>
      if code c <? 128 then encode_byte c +:+ encode_chars fuel r
      else match utf8_rune s with
           | Some (x, r) =>
               (if decide (x = encode_rune 8232) then String backslash "u2028"
                else if decide (x = encode_rune 8233) then String backslash "u2029"
                else x) +:+ encode_chars fuel r
           | None => String backslash "ufffd" +:+ encode_chars fuel r
           end
  | _, _ => ""
  end.

Definition encode_string (s : string) : string :=
  String dquote (encode_chars (String.length s) s +:+ String dquote "").

Fixpoint encode (j : json) : string :=
  match j with
  | JNull => "null"
  | JBool b => if b then "true" else "false"
  | JNum lit => lit
  | JStr s => encode_string s
  | JArr l => String "[" (join_with "," (map encode l) +:+ "]")
  | JObj kvs =>
      String "{" (join_with "," (map (λ '(k, v), encode_string k +:+ String ":" (encode v)) kvs)
                  +:+ "}")
  end.

(** ** Printing then parsing *)

(** A character that prints as itself. *)
Definition plain (c : ascii) : bool :=
  (32 <=? code c) && (code c <? 128)
  && negb (existsb (Z.eqb (code c)) [34; 92; 60; 62; 38]).
Definition plain_string : string → bool := str_forall plain.

(** Values the round trip is stated for, within a nesting depth. *)
Fixpoint printable (depth : nat) (j : json) {struct j} : bool :=
  match j with
  | JNull | JBool _ => true
  | JNum _ => false
  | JStr s => plain_string s
  | JArr l => match depth with O => false | S d => forallb (printable d) l end
  | JObj kvs =>
      match depth with
      | O => false
      | S d => forallb (λ '(k, v), plain_string k && printable d v) kvs
      end
  end.

Fixpoint json_ind' (P : json → Prop)
    (Hnull : P JNull) (Hbool : ∀ b, P (JBool b)) (Hnum : ∀ lit, P (JNum lit))
    (Hstr : ∀ s, P (JStr s)) (Harr : ∀ l, Forall P l → P (JArr l))
    (Hobj : ∀ kvs, Forall (λ kv, P kv.2) kvs → P (JObj kvs)) (j : json) : P j :=
  match j with
  | JNull => Hnull
  | JBool b => Hbool b
  | JNum lit => Hnum lit
  | JStr s => Hstr s
  | JArr l => Harr l
      ((fix go l : Forall P l := match l with
        | [] => Forall_nil_2 P
        | x :: l => Forall_cons_2 P x l (json_ind' P Hnull Hbool Hnum Hstr Harr Hobj x) (go l)
        end) l)
  | JObj kvs => Hobj kvs
      ((fix go l : Forall (λ kv, P kv.2) l := match l with
        | [] => Forall_nil_2 _
        | kv :: l => Forall_cons_2 _ kv l (json_ind' P Hnull Hbool Hnum Hstr Harr Hobj kv.2) (go l)
        end) kvs)
  end.

Lemma length_app (s t : string) :
  String.length (s +:+ t) = (String.length s + String.length t)%nat.
Proof. induction s; cbn; congruence. Qed.

Lemma plain_facts c : plain c = true →
  encode_byte c = String c "" ∧ Ascii.eqb c dquote = false ∧ Ascii.eqb c backslash = false
  ∧ 32 ≤ code c < 128.
Proof.
  unfold plain. rewrite !andb_true_iff, negb_true_iff, Z.leb_le, Z.ltb_lt.
  intros [[Hlo Hhi] Hno]. cbn in Hno. rewrite !orb_false_iff, !Z.eqb_neq in Hno.
  destruct Hno as (N34 & N92 & N60 & N62 & N38 & _).
  split_and!; [|apply Ascii.eqb_neq; intros ->; by vm_compute in N34
               |apply Ascii.eqb_neq; intros ->; by vm_compute in N92|lia|lia].
  unfold encode_byte.
  repeat match goal with |- context [?a =? ?b] => rewrite (proj2 (Z.eqb_neq a b)) by lia end.
  by rewrite (proj2 (Z.ltb_ge _ _)) by lia.
Qed.

Lemma encode_chars_plain s fuel :
  plain_string s = true → (String.length s ≤ fuel)%nat → encode_chars fuel s = s.
Proof.
  unfold plain_string. revert fuel.
  induction s as [|c s IH]; intros [|fuel]; cbn [str_forall String.length]; intros Hp Hf;
    try done; [lia|].
  apply andb_true_iff in Hp as [Hc Hp]. destruct (plain_facts c Hc) as (E & _ & _ & Hr).
  cbn [encode_chars]. rewrite (proj2 (Z.ltb_lt _ _)) by lia.
  rewrite E, IH by (done || lia). done.
Qed.

Lemma encode_string_plain s :
  plain_string s = true → encode_string s = String dquote (s +:+ String dquote "").
Proof. intros. unfold encode_string. by rewrite encode_chars_plain. Qed.

Lemma parse_string_plain s fuel rest :
  plain_string s = true → (String.length s < fuel)%nat →
  parse_string fuel (s +:+ String dquote rest) = Some (s, rest).
Proof.
  unfold plain_string. revert fuel.
  induction s as [|c s IH]; intros [|fuel]; cbn [str_forall String.length]; intros Hp Hf;
    try lia; [done|].
  apply andb_true_iff in Hp as [Hc Hp]. destruct (plain_facts c Hc) as (_ & E1 & E2 & Hr).
  rewrite string_app_cons. cbn [parse_string]. rewrite E1, E2.
  rewrite (proj2 (Z.ltb_ge (code c) 32)), (proj2 (Z.ltb_lt (code c) 128)) by lia.
  by rewrite IH by (done || lia).
Qed.

(** A string literal read where the parser expects one. *)
Lemma parse_quoted s rest :
  plain_string s = true →
  parse_string (S (String.length (s +:+ String dquote rest))) (s +:+ String dquote rest)
  = Some (s, rest).
Proof. intros. apply parse_string_plain; [done|]. rewrite length_app. cbn. lia. Qed.

(** What the parser sees first of a printed value. *)
Lemma encode_head d j :
  printable d j = true →
  ∃ c r, encode j = String c r ∧ is_ws c = false ∧ Ascii.eqb c "]" = false ∧ Ascii.eqb c "}" = false.
Proof.
  destruct j as [|[]|lit|s|l|kvs]; cbn; intros H; try done;
    eexists _, _; (split; [reflexivity|by vm_compute]).
Qed.

Lemma skip_ws_cons c r : is_ws c = false → skip_ws (String c r) = String c r.
Proof. intros E. cbn. by rewrite E. Qed.

Definition value_parses (j : json) : Prop := ∀ d fuel rest,
  printable d j = true → (2 * String.length (encode j) ≤ fuel)%nat →
  parse_value fuel d (encode j +:+ rest) = Some (j, rest).

Lemma join_cons c p q ps : join_with c (p :: q :: ps) = p +:+ String c (join_with c (q :: ps)).
Proof. done. Qed.

Lemma parse_elems_join l : Forall value_parses l → ∀ d fuel rest,
  l ≠ [] → forallb (printable d) l = true →
  (2 * String.length (join_with "," (map encode l)) + 1 ≤ fuel)%nat →
  parse_elems fuel d (join_with "," (map encode l) +:+ String "]" rest) = Some (l, rest).
Proof.
  induction 1 as [|x l Hx Hl IH]; intros d fuel rest Hne Hp Hf; [done|].
  destruct fuel as [|fuel]; [lia|]. cbn [forallb] in Hp. apply andb_true_iff in Hp as [Hpx Hpl].
  destruct l as [|y l].
  - cbn [map join_with] in *. cbn [parse_elems]. by rewrite Hx by (done || lia).
  - rewrite !fmap_cons, join_cons in *. rewrite length_app in Hf. cbn [String.length] in Hf.
    rewrite string_app_assoc, string_app_cons. cbn [parse_elems].
    rewrite Hx by (done || lia).
    cbn [mbind option_bind]. rewrite skip_ws_cons by done.
    rewrite Ascii.eqb_refl. by rewrite (IH d fuel rest) by (done || lia).
Qed.

Definition encode_member (kv : string * json) : string :=
  encode_string kv.1 +:+ String ":" (encode kv.2).

Lemma encode_obj kvs :
  encode (JObj kvs) = String "{" (join_with "," (map encode_member kvs) +:+ "}").
Proof.
  assert (map (λ '(k, v), encode_string k +:+ String ":" (encode v)) kvs = map encode_member kvs)
    as E; [by apply map_ext; intros [k v]|].
  cbn [encode]. by rewrite E.
Qed.

(** One member followed by [rest]. *)
Lemma parse_member k v fuel d rest :
  value_parses v → plain_string k = true → printable d v = true →
  (2 * String.length (encode_member (k, v)) ≤ fuel)%nat →
  parse_members (S fuel) d (encode_member (k, v) +:+ rest) =
    match skip_ws rest with
    | String c r =>
        if Ascii.eqb c "," then '(l, r) ← parse_members fuel d r; Some ((k, v) :: l, r)
        else if Ascii.eqb c "}" then Some ([(k, v)], r)
        else None
    | EmptyString => None
    end.
Proof.
  intros Hv Hk Hp Hf. unfold encode_member in *. cbn [fst snd] in *.
  rewrite encode_string_plain in * by done.
  rewrite length_app in Hf. cbn [String.length] in Hf.
  rewrite !string_app_cons, !string_app_assoc, !string_app_cons. cbn [parse_members].
  rewrite skip_ws_cons, Ascii.eqb_refl by done.
  rewrite parse_quoted by done. cbn [mbind option_bind].
  change ("" +:+ String ":" (encode v +:+ rest)) with (String ":" (encode v +:+ rest)).
  rewrite skip_ws_cons, Ascii.eqb_refl by done.
  by rewrite Hv by (done || lia).
Qed.

Lemma parse_members_join kvs : Forall (λ kv, value_parses kv.2) kvs → ∀ d fuel rest,
  kvs ≠ [] → forallb (λ '(k, v), plain_string k && printable d v) kvs = true →
  (2 * String.length (join_with "," (map encode_member kvs)) + 1 ≤ fuel)%nat →
  parse_members fuel d (join_with "," (map encode_member kvs) +:+ String "}" rest)
  = Some (kvs, rest).
Proof.
  induction 1 as [|[k v] kvs Hx Hl IH]; intros d fuel rest Hne Hp Hf; [done|].
  destruct fuel as [|fuel]; [lia|]. cbn [forallb] in Hp.
  apply andb_true_iff in Hp as [[Hk Hpv]%andb_true_iff Hpl]. cbn [snd] in Hx.
  destruct kvs as [|kv kvs].
  - cbn [map join_with] in *. rewrite parse_member by (done || lia). done.
  - rewrite !fmap_cons, join_cons in *. rewrite length_app in Hf. cbn [String.length] in Hf.
    rewrite string_app_assoc, string_app_cons, parse_member by (done || lia).
    rewrite skip_ws_cons, Ascii.eqb_refl by done.
    by rewrite (IH d fuel rest) by (done || lia).
Qed.

Lemma parse_value_string s fuel d rest :
  plain_string s = true → parse_value (S fuel) d (encode_string s +:+ rest) = Some (JStr s, rest).
Proof.
  intros Hs. rewrite encode_string_plain, !string_app_cons, string_app_assoc by done.
  cbn [parse_value]. rewrite skip_ws_cons, Ascii.eqb_refl by done.
  change (String dquote "" +:+ rest) with (String dquote rest).
  by rewrite parse_quoted.
Qed.

Lemma parse_value_encode j : value_parses j.
Proof.
  induction j as [|[]|lit|s|l IH|kvs IH] using json_ind'; intros d fuel rest Hp Hf;
    try done.
  1-3: destruct fuel as [|fuel]; [cbn in Hf; lia|reflexivity].
  - cbn [encode] in Hf.
    destruct fuel as [|fuel]; [unfold encode_string in Hf; cbn in Hf; lia|].
    by apply parse_value_string.
  - destruct d as [|d]; [done|]. cbn [encode String.length] in Hf.
    destruct fuel as [|fuel]; [lia|]. rewrite length_app in Hf. cbn [String.length] in Hf. cbn [encode printable] in *.
    rewrite string_app_cons, string_app_assoc. cbn [parse_value].
    change ("]" +:+ rest) with (String "]" rest).
    rewrite skip_ws_cons by done. cbn [Ascii.eqb Bool.eqb dquote].
    destruct l as [|x l]; [reflexivity|].
    pose proof Hp as [Hx _]%andb_true_iff.
    destruct (encode_head d x Hx) as (c & r & Ex & Hws & Hc & _).
    assert (∃ r', join_with "," (map encode (x :: l)) +:+ String "]" rest = String c r') as [r' Er'].
    { destruct l as [|y l]; [cbn; rewrite Ex; eauto|].
      rewrite !fmap_cons, join_cons, Ex, !string_app_cons. eauto. }
    change (Ascii.eqb "[" dquote) with false. change (Ascii.eqb "[" "[") with true. cbv iota.
    rewrite Er', skip_ws_cons, Hc, <-Er' by done.
    by rewrite (parse_elems_join (x :: l)) by (done || lia).
  - destruct d as [|d]; [done|]. rewrite encode_obj in *. cbn [String.length] in Hf.
    destruct fuel as [|fuel]; [lia|]. rewrite length_app in Hf.
    cbn [String.length] in Hf. cbn [printable] in Hp.
    rewrite string_app_cons, string_app_assoc. cbn [parse_value].
    change ("}" +:+ rest) with (String "}" rest).
    rewrite skip_ws_cons by done.
    change (Ascii.eqb "{" dquote) with false. change (Ascii.eqb "{" "[") with false.
    change (Ascii.eqb "{" "{") with true. cbv iota.
    destruct kvs as [|[k v] kvs]; [reflexivity|].
    assert (∃ r', join_with "," (map encode_member ((k, v) :: kvs)) +:+ String "}" rest
                  = String dquote r') as [r' Er'].
    { destruct kvs as [|kv kvs]; [|rewrite !fmap_cons, join_cons]; unfold encode_member;
        cbn; unfold encode_string; rewrite ?string_app_cons; eauto. }
    rewrite Er', skip_ws_cons by done. change (Ascii.eqb dquote "}") with false. cbv iota.
    rewrite <-Er'. by rewrite (parse_members_join ((k, v) :: kvs)) by (done || lia).
Qed.

(** What is printed is read back. *)
Lemma parse_first_encode j :
  printable max_depth j = true → parse_first (encode j) = Some (j, "").
Proof.
  intros Hp. unfold parse_first.
  rewrite <-(string_app_nil_r (encode j)) at 2.
  rewrite parse_value_encode; [done|done|].
  unfold parse_fuel. rewrite ?string_app_nil_r. lia.
Qed.

Lemma parse_encode j : printable max_depth j = true → parse (encode j) = Some j.
Proof. intros Hp. unfold parse. by rewrite parse_first_encode. Qed.
