(* ===== verification/JsonFuel.v ===== *)
(** * [encoding/json]: the parser terminates within its fuel

    Every parser of [Json] consumes what it reads, so the fuel of
    [parse_first], computed from the length of the text, is never exhausted:
    more fuel gives the same result. *)

From S2P Require Import Prelude GoInt GoString GoFloat GoAny Json.
From Stdlib Require Import Ascii.

Notation len := String.length.

(** Looks into the hypothesis that a parser returned a result. *)
Ltac parsed H :=
  repeat (match type of H with
  | Some _ = Some _ => injection H as H; subst
  | (_, _) = (_, _) => injection H as H; subst
  | None = Some _ => discriminate H
  | mbind _ (Some _) = Some _ => cbn [mbind option_bind] in H
  | mbind _ ?x = Some _ =>
      let E := fresh "E" in destruct x eqn:E; [cbn [mbind option_bind] in H|discriminate H]
  | (let (_, _) := ?x in _) = Some _ => destruct x
  | (match ?x with _ => _ end) = Some _ => let E := fresh "E" in destruct x eqn:E
  | (match ?x with _ => _ end) = (_, _) => let E := fresh "E" in destruct x eqn:E
  end).

Lemma skip_ws_len s : (len (skip_ws s) ≤ len s)%nat.
Proof. induction s as [|c s IH]; cbn; [lia|]. case_match; cbn in *; lia. Qed.

Lemma strip_prefix_len p s r : strip_prefix p s = Some r → (len r ≤ len s)%nat.
Proof.
  revert s. induction p as [|c p IH]; intros [|d s]; cbn; intros H; parsed H; cbn; try lia.
  apply IH in H. lia.
Qed.

Lemma hex4_len s z r : hex4 s = Some (z, r) → (len r < len s)%nat.
Proof. unfold hex4. intros H. parsed H; cbn; lia. Qed.

Lemma unicode_escape_len s x r : unicode_escape s = Some (x, r) → (len r < len s)%nat.
Proof.
  unfold unicode_escape. intros H.
  destruct (hex4 s) as [[z s1]|] eqn:E; [|done]. apply hex4_len in E.
  cbn [mbind option_bind] in H. parsed H; cbn in *; try lia.
  match goal with E : hex4 _ = Some _ |- _ => apply hex4_len in E end. lia.
Qed.

Lemma utf8_rune_len s x r : utf8_rune s = Some (x, r) → (len r < len s)%nat.
Proof. unfold utf8_rune. intros H. parsed H; cbn; lia. Qed.

Lemma parse_string_len fuel s t r : parse_string fuel s = Some (t, r) → (len r < len s)%nat.
Proof.
  revert s t r. induction fuel as [|fuel IH]; intros s t r; cbn [parse_string]; [done|].
  intros H. destruct s as [|c s]; [done|]. destruct (Ascii.eqb c dquote); [parsed H; cbn; lia|].
  destruct (Ascii.eqb c backslash).
  { destruct s as [|e s]; [done|].
    destruct (if Ascii.eqb e "u" then _ else _) as [[x s']|] eqn:E; [|done].
    cbn [mbind option_bind] in H.
    assert (len s' ≤ len s)%nat as Hs'.
    { destruct (Ascii.eqb e "u"); [apply unicode_escape_len in E; lia|]. parsed E. lia. }
    destruct (parse_string fuel s') as [[t' r']|] eqn:E'; [|done]. apply IH in E'.
    parsed H. cbn. lia. }
  destruct (code c <? 32); [done|]. destruct (code c <? 128).
  { destruct (parse_string fuel s) as [[t' r']|] eqn:E'; [|done]. apply IH in E'.
    parsed H. cbn. lia. }
  destruct (utf8_rune (String c s)) as [[x s']|] eqn:E.
  - apply utf8_rune_len in E.
    destruct (parse_string fuel s') as [[t' r']|] eqn:E'; [|done]. apply IH in E'.
    parsed H. cbn in *. lia.
  - destruct (parse_string fuel s) as [[t' r']|] eqn:E'; [|done]. apply IH in E'.
    parsed H. cbn. lia.
Qed.

Lemma span_digits_len s : (len (span_digits s).2 ≤ len s)%nat.
Proof.
  induction s as [|c s IH]; cbn; [lia|]. destruct (is_digit c); [|cbn; lia].
  destruct (span_digits s). cbn in *. lia.
Qed.

Lemma span_digits_split s : s = (span_digits s).1 +:+ (span_digits s).2.
Proof.
  induction s as [|c s IH]; cbn; [done|]. destruct (is_digit c); [|done].
  destruct (span_digits s). cbn in *. congruence.
Qed.

Lemma digits1_len s d r : digits1 s = Some (d, r) → (len r < len s)%nat.
Proof.
  unfold digits1. intros H. pose proof (span_digits_split s) as E. destruct (span_digits s) as [d' r'].
  cbn in E. destruct d' as [|c d']; [done|]. injection H as _ <-. rewrite E. cbn.
  clear. induction d' as [|c' d' IH]; cbn; lia.
Qed.

Lemma parse_int_part_len s i r : parse_int_part s = Some (i, r) → (len r < len s)%nat.
Proof.
  unfold parse_int_part. destruct s as [|c s]; [done|]. destruct (Ascii.eqb c "0").
  - intros H. parsed H. cbn. lia.
  - apply digits1_len.
Qed.

Lemma parse_frac_len s f r : parse_frac s = Some (f, r) → (len r ≤ len s)%nat.
Proof.
  unfold parse_frac. intros H. destruct s as [|c s]; [parsed H; cbn; lia|].
  destruct (Ascii.eqb c "."); [|parsed H; cbn; lia].
  destruct (digits1 s) as [[d r']|] eqn:E; [|done]. apply digits1_len in E. parsed H. cbn. lia.
Qed.

Lemma parse_exp_len s e r : parse_exp s = Some (e, r) → (len r ≤ len s)%nat.
Proof.
  unfold parse_exp. intros H. destruct s as [|c s]; [parsed H; cbn; lia|].
  destruct (Ascii.eqb c "e" || Ascii.eqb c "E"); [|parsed H; cbn; lia].
  destruct s as [|g s]; [done|].
  destruct (Ascii.eqb g "+" || Ascii.eqb g "-").
  - destruct (digits1 s) as [[d r']|] eqn:E; [|done]. apply digits1_len in E. parsed H. cbn. lia.
  - destruct (digits1 (String g s)) as [[d r']|] eqn:E; [|done]. apply digits1_len in E.
    parsed H. cbn in *. lia.
Qed.

Lemma parse_number_len s n r : parse_number s = Some (n, r) → (len r < len s)%nat.
Proof.
  unfold parse_number.
  destruct (match s with String c r => _ | EmptyString => _ end) as [sign s'] eqn:Es.
  assert (len s' ≤ len s)%nat as Hs'. { destruct s; parsed Es; cbn; lia. }
  intros H.
  destruct (parse_int_part s') as [[i s1]|] eqn:E1; [|done]. apply parse_int_part_len in E1.
  cbn [mbind option_bind] in H.
  destruct (parse_frac s1) as [[f s2]|] eqn:E2; [|done]. apply parse_frac_len in E2.
  cbn [mbind option_bind] in H.
  destruct (parse_exp s2) as [[e s3]|] eqn:E3; [|done]. apply parse_exp_len in E3.
  cbn [mbind option_bind] in H. injection H as _ <-. lia.
Qed.

(** ** Values *)

Definition value_shrinks (fuel : nat) : Prop :=
  ∀ d s v r, parse_value fuel d s = Some (v, r) → (len r < len s)%nat.
Definition elems_shrink (fuel : nat) : Prop :=
  ∀ d s l r, parse_elems fuel d s = Some (l, r) → (len r < len s)%nat.
Definition members_shrink (fuel : nat) : Prop :=
  ∀ d s l r, parse_members fuel d s = Some (l, r) → (len r < len s)%nat.

Lemma skip_ws_shrinks s c r : skip_ws s = String c r → (len r < len s)%nat.
Proof. intros E. pose proof (skip_ws_len s) as H. rewrite E in H. cbn in H. lia. Qed.

(** Adds the lengths that the results of the parsers give. *)
Ltac lengths :=
  repeat match goal with
  | E : skip_ws _ = String _ _ |- _ => apply skip_ws_shrinks in E
  | E : parse_string _ _ = Some _ |- _ => apply parse_string_len in E
  | E : strip_prefix _ _ = Some _ |- _ => apply strip_prefix_len in E
  | E : parse_number _ = Some _ |- _ => apply parse_number_len in E
  | IH : value_shrinks ?f, E : parse_value ?f _ _ = Some _ |- _ => apply IH in E
  | IH : elems_shrink ?f, E : parse_elems ?f _ _ = Some _ |- _ => apply IH in E
  | IH : members_shrink ?f, E : parse_members ?f _ _ = Some _ |- _ => apply IH in E
  end; cbn in *; lia.

Lemma value_shrinks_S fuel : elems_shrink fuel → members_shrink fuel → value_shrinks (S fuel).
Proof.
  intros IHe IHm d s v r H. cbn [parse_value] in H. parsed H; lengths.
Qed.

Lemma elems_shrink_S fuel : value_shrinks fuel → elems_shrink fuel → elems_shrink (S fuel).
Proof. intros IHv IHe d s v r H. cbn [parse_elems] in H. parsed H; lengths. Qed.

Lemma members_shrink_S fuel : value_shrinks fuel → members_shrink fuel → members_shrink (S fuel).
Proof. intros IHv IHm d s v r H. cbn [parse_members] in H. parsed H; lengths. Qed.

Lemma parsers_shrink fuel : value_shrinks fuel ∧ elems_shrink fuel ∧ members_shrink fuel.
Proof.
  induction fuel as [|fuel (IHv & IHe & IHm)]; [by split_and!; intros ?????|].
  split_and!; [by apply value_shrinks_S|by apply elems_shrink_S|by apply members_shrink_S].
Qed.

(** What a value leaves is shorter than the text. *)
Lemma parse_first_len s v r : parse_first s = Some (v, r) → (len r < len s)%nat.
Proof. apply parsers_shrink. Qed.

(** ** More fuel changes nothing *)

Definition enough (n : nat) : Prop := ∀ f1 f2 d s, (len s ≤ n)%nat →
  ((2 * len s + 2 ≤ f1)%nat → (2 * len s + 2 ≤ f2)%nat → parse_value f1 d s = parse_value f2 d s)
  ∧ ((2 * len s + 3 ≤ f1)%nat → (2 * len s + 3 ≤ f2)%nat → parse_elems f1 d s = parse_elems f2 d s)
  ∧ ((2 * len s + 3 ≤ f1)%nat → (2 * len s + 3 ≤ f2)%nat →
     parse_members f1 d s = parse_members f2 d s).

Lemma fuel_value n f1 f2 d s :
  (∀ m, (m < n)%nat → enough m) → (len s ≤ n)%nat →
  (2 * len s + 2 ≤ f1)%nat → (2 * len s + 2 ≤ f2)%nat → parse_value f1 d s = parse_value f2 d s.
Proof.
  intros IH Hs H1 H2. destruct f1 as [|f1]; [lia|]. destruct f2 as [|f2]; [lia|].
  cbn [parse_value]. destruct (skip_ws s) as [|c r] eqn:Es; [done|]. apply skip_ws_shrinks in Es.
  destruct (Ascii.eqb c dquote); [done|].
  assert (∀ d, parse_elems f1 d r = parse_elems f2 d r ∧ parse_members f1 d r = parse_members f2 d r)
    as Hrec.
  { intros d'. split; apply (IH (len r)); lia. }
  destruct (Ascii.eqb c "["); [|destruct (Ascii.eqb c "{"); [|done]];
    (destruct d as [|d]; [done|]); (destruct (skip_ws r) as [|e r'] eqn:Er; [done|]);
    destruct (Hrec d) as [E1 E2]; by rewrite ?E1, ?E2.
Qed.

Lemma fuel_elems n f1 f2 d s :
  (∀ m, (m < n)%nat → enough m) → (len s ≤ n)%nat →
  (2 * len s + 3 ≤ f1)%nat → (2 * len s + 3 ≤ f2)%nat → parse_elems f1 d s = parse_elems f2 d s.
Proof.
  intros IH Hs H1 H2. destruct f1 as [|f1]; [lia|]. destruct f2 as [|f2]; [lia|].
  cbn [parse_elems]. rewrite (fuel_value n f1 f2 d s) by (done || lia).
  destruct (parse_value f2 d s) as [[v r]|] eqn:E; [|done]. apply parsers_shrink in E.
  cbn [mbind option_bind]. destruct (skip_ws r) as [|c r'] eqn:Er; [done|].
  apply skip_ws_shrinks in Er.
  by rewrite (proj1 (proj2 (IH (len r') ltac:(lia) f1 f2 d r' ltac:(lia)))) by lia.
Qed.

Lemma fuel_members n f1 f2 d s :
  (∀ m, (m < n)%nat → enough m) → (len s ≤ n)%nat →
  (2 * len s + 3 ≤ f1)%nat → (2 * len s + 3 ≤ f2)%nat →
  parse_members f1 d s = parse_members f2 d s.
Proof.
  intros IH Hs H1 H2. destruct f1 as [|f1]; [lia|]. destruct f2 as [|f2]; [lia|].
  cbn [parse_members]. destruct (skip_ws s) as [|q r] eqn:Es; [done|]. apply skip_ws_shrinks in Es.
  destruct (Ascii.eqb q dquote); [|done].
  destruct (parse_string _ r) as [[k r1]|] eqn:Ek; [|done]. apply parse_string_len in Ek.
  cbn [mbind option_bind]. destruct (skip_ws r1) as [|c r2] eqn:E2; [done|].
  apply skip_ws_shrinks in E2. destruct (Ascii.eqb c ":"); [|done].
  rewrite (proj1 (IH (len r2) ltac:(lia) f1 f2 d r2 ltac:(lia))) by lia.
  destruct (parse_value f2 d r2) as [[v r3]|] eqn:Ev; [|done]. apply parsers_shrink in Ev.
  cbn [mbind option_bind]. destruct (skip_ws r3) as [|c' r4] eqn:E4; [done|].
  apply skip_ws_shrinks in E4.
  by rewrite (proj2 (proj2 (IH (len r4) ltac:(lia) f1 f2 d r4 ltac:(lia)))) by lia.
Qed.

Lemma fuel_enough n : enough n.
Proof.
  induction n as [n IH] using lt_wf_ind. intros f1 f2 d s Hs.
  split_and!; intros; [by apply (fuel_value n)|by apply (fuel_elems n)|by apply (fuel_members n)].
Qed.

(** The fuel of [parse_first] is enough: any larger amount gives its result. *)
Lemma parse_first_fuel s fuel :
  (parse_fuel s ≤ fuel)%nat → parse_value fuel max_depth s = parse_first s.
Proof.
  intros Hf. unfold parse_first, parse_fuel in *.
  apply (fuel_enough (len s)); lia.
Qed.
