(* ===== verification/GoHttp.v ===== *)
(** * Packages [net/url] and [net/http]: paths, queries and the request mux

    What the service uses of Go's HTTP server: the parsing of a query string,
    and the dispatch of [http.ServeMux] (as of Go 1.22) on patterns made of a
    method and a path of literal segments. A path is the escaped path of the
    request's URL. *)

From S2P Require Import Prelude GoInt GoString GoSort Json.
From Stdlib Require Import Ascii.

(** ** Escapes of URLs *)

(** [url.unescape]; [plus] for the mode of a query, where [+] is a space. *)
Fixpoint url_unescape (plus : bool) (s : string) : option string :=
  match s with
  | EmptyString => Some ""
  | String c r =>
      if Ascii.eqb c "%" then
        match r with
        | String a (String b r) =>
            x ← hex_val a; y ← hex_val b; t ← url_unescape plus r;
            Some (String (chr (16 * x + y)) t)
        | _ => None
        end
      else
        t ← url_unescape plus r;
        Some (String (if plus && Ascii.eqb c "+" then " "%char else c) t)
  end.

Definition hex_upper (d : Z) : ascii := if d <? 10 then chr (48 + d) else chr (55 + d).

Definition percent (c : ascii) : string :=
  String "%" (String (hex_upper (code c / 16)) (String (hex_upper (code c mod 16)) "")).

Definition is_unreserved (c : ascii) : bool :=
  is_digit c || between 65 90 c || between 97 122 c
  || Ascii.eqb c "-" || Ascii.eqb c "_" || Ascii.eqb c "." || Ascii.eqb c "~".

(** [url.QueryEscape]. *)
Definition query_escape : string → string :=
  str_concat_map (λ c, if is_unreserved c then String c ""
                       else if Ascii.eqb c " " then "+" else percent c).

(** The escape of a path in [URL.String]. *)
Definition path_byte (c : ascii) : bool :=
  is_unreserved c || Ascii.eqb c "$" || Ascii.eqb c "&" || Ascii.eqb c "+" || Ascii.eqb c ","
  || Ascii.eqb c "/" || Ascii.eqb c ":" || Ascii.eqb c ";" || Ascii.eqb c "=" || Ascii.eqb c "@".
Definition escape_path : string → string :=
  str_concat_map (λ c, if path_byte c then String c "" else percent c).

(** A header's bytes outside ASCII are escaped. *)
Definition hex_escape_non_ascii : string → string :=
  str_concat_map (λ c, if code c <? 128 then String c "" else
    String "%" (String (hex_digit (code c / 16)) (String (hex_digit (code c mod 16)) ""))).

(** ** [url.ParseQuery] *)

(** [strings.Cut] at a byte. *)
Fixpoint cut (c : ascii) (s : string) : string * string :=
  match s with
  | EmptyString => ("", "")
  | String d r =>
      if Ascii.eqb d c then ("", r) else let '(a, b) := cut c r in (String d a, b)
  end.

Definition query_pair (s : string) : option (string * string) :=
  if negb (str_no ";" s) || bool_decide (s = "") then None
  else let '(k, v) := cut "=" s in
       k ← url_unescape true k; v ← url_unescape true v; Some (k, v).

(** The pairs in order; the ones that do not parse are skipped. *)
Definition parse_query (raw : string) : list (string * string) :=
  omap query_pair (split_on "&" raw).

(** [URL.Query().Get(key)]: the first value, or the empty string. *)
Definition query_get (raw key : string) : string :=
  match list_find (λ kv, kv.1 = key) (parse_query raw) with Some (_, kv) => kv.2 | None => "" end.

(** ** [path.Clean] of a rooted path, and the mux's [cleanPath] *)

(** The segments kept, latest first. *)
Definition clean_step (stack : list string) (seg : string) : list string :=
  if bool_decide (seg = "" ∨ seg = ".") then stack
  else if bool_decide (seg = "..") then tail stack
  else seg :: stack.

Definition clean_segments (p : string) : list string :=
  reverse (foldl clean_step [] (split_on "/" p)).

Definition path_clean (p : string) : string := String "/" (join_with "/" (clean_segments p)).

Fixpoint ends_with_slash (s : string) : bool :=
  match s with
  | EmptyString => false
  | String c EmptyString => Ascii.eqb c "/"
  | String _ r => ends_with_slash r
  end.

Definition cleanPath (p : string) : string :=
  match p with
  | EmptyString => "/"
  | String c _ =>
      let p := if Ascii.eqb c "/" then p else String "/" p in
      let np := path_clean p in
      if ends_with_slash p && negb (bool_decide (np = "/")) then np +:+ "/" else np
  end.

(** ** The mux *)

(** A pattern such as [GET /v1/route]: its method and its segments. *)
Record pattern := mkPattern { PMethod : string; PSegments : list string }.

(** [pathUnescape]. *)
Definition path_unescape (s : string) : string := default s (url_unescape false s).

(** The segments the mux matches; the slash at the end of a path is one. *)
Fixpoint mux_segments (l : list string) : list string :=
  match l with
  | [] => []
  | [s] => [if bool_decide (s = "") then "/" else path_unescape s]
  | s :: l => path_unescape s :: mux_segments l
  end.

Definition path_segments (p : string) : list string :=
  match p with EmptyString => [] | String _ rest => mux_segments (split_on "/" rest) end.

Section mux.
Context {H : Type}.
Variable (table : list (pattern * H)).

Definition find_pattern (method : string) (segs : list string) : option H :=
  snd ∘ snd <$> list_find (λ ph, PMethod ph.1 = method ∧ PSegments ph.1 = segs) table.

(** A pattern for [GET] also matches [HEAD]. *)
Definition mux_match (method path : string) : option H :=
  match find_pattern method (path_segments path) with
  | Some h => Some h
  | None => if decide (method = "HEAD") then find_pattern "GET" (path_segments path) else None
  end.

(** The methods of the patterns that match the path, sorted. *)
Definition allowed_methods (path : string) : list string :=
  let ms := map (λ ph, PMethod ph.1)
              (filter (λ ph, PSegments ph.1 = path_segments path) table) in
  if decide ("GET" ∈ ms) then sort_strings (remove_dups ("HEAD" :: ms))
  else sort_strings (remove_dups ms).

Inductive dispatch : Type :=
| Handle (h : H)
| RedirectTo (location : string)
| MethodNotAllowed (allow : list string)
| NotFound
| BadRequest.

(** [URL.String] of the cleaned path and the query. *)
Definition location_of (path rawQuery : string) : string :=
  hex_escape_non_ascii (escape_path path
    +:+ if decide (rawQuery = "") then "" else String "?" rawQuery).

(** [ServeMux.findHandler]. No pattern ends in a slash, so that nothing is
    redirected to a path with one. *)
Definition find_handler (method path rawQuery : string) : dispatch :=
  if decide (path = "*") then BadRequest
  else
    let clean := if decide (method = "CONNECT") then path else cleanPath path in
    if decide (clean ≠ path) then RedirectTo (location_of clean rawQuery)
    else match mux_match method clean with
         | Some h => Handle h
         | None => match allowed_methods clean with [] => NotFound | ms => MethodNotAllowed ms end
         end.
End mux.
Arguments dispatch : clear implicits.
Arguments Handle {H} h.
Arguments RedirectTo {H} location.
Arguments MethodNotAllowed {H} allow.
Arguments NotFound {H}.
Arguments BadRequest {H}.

(** ** Escaping and back *)

Lemma str_concat_map_app f s t :
  str_concat_map f (s +:+ t) = str_concat_map f s +:+ str_concat_map f t.
Proof. induction s as [|c s IH]; cbn; [done|]. by rewrite IH, string_app_assoc. Qed.

Lemma str_forall_concat_map P f s :
  (∀ c, str_forall P (f c) = true) → str_forall P (str_concat_map f s) = true.
Proof. intros Hf. induction s as [|c s IH]; cbn; [done|]. by rewrite str_forall_app, Hf. Qed.

Definition opt_byte_eqb (o : option ascii) (c : ascii) : bool :=
  match o with Some d => Ascii.eqb d c | None => false end.

Lemma unescape_percent plus c r :
  url_unescape plus (percent c +:+ r) = String c <$> url_unescape plus r.
Proof.
  assert (opt_byte_eqb (x ← hex_val (hex_upper (code c / 16)); y ← hex_val (hex_upper (code c mod 16));
            Some (chr (16 * x + y))) c = true) as Hc.
  { by apply (all_bytes (λ c, opt_byte_eqb (x ← hex_val (hex_upper (code c / 16));
      y ← hex_val (hex_upper (code c mod 16)); Some (chr (16 * x + y))) c)). }
  change (url_unescape plus (percent c +:+ r)) with
    (x ← hex_val (hex_upper (code c / 16)); y ← hex_val (hex_upper (code c mod 16));
     t ← url_unescape plus r; Some (String (chr (16 * x + y)) t)).
  destruct (hex_val (hex_upper (code c / 16))) as [x|]; [|done].
  destruct (hex_val (hex_upper (code c mod 16))) as [y|]; [|done].
  cbn in Hc |- *. apply Ascii.eqb_eq in Hc. rewrite Hc. by destruct (url_unescape plus r).
Qed.

Lemma unescape_plain plus c r :
  Ascii.eqb c "%" = false → plus && Ascii.eqb c "+" = false →
  url_unescape plus (String c r) = String c <$> url_unescape plus r.
Proof. intros Hp Hq. cbn. rewrite Hp, Hq. by destruct (url_unescape plus r). Qed.

Lemma unescape_query_escape s : url_unescape true (query_escape s) = Some s.
Proof.
  induction s as [|c s IH]; [done|]. unfold query_escape in *. cbn [str_concat_map].
  destruct (is_unreserved c) eqn:Hu.
  - assert (negb (is_unreserved c) || (negb (Ascii.eqb c "%") && negb (Ascii.eqb c "+")) = true) as Hc
      by by apply (all_bytes (λ c, negb (is_unreserved c) || (negb (Ascii.eqb c "%") && negb (Ascii.eqb c "+")))).
    rewrite Hu in Hc. cbn in Hc. apply andb_true_iff in Hc as [H1%negb_true_iff H2%negb_true_iff].
    change (String c "" +:+ ?t) with (String c t). rewrite unescape_plain by done. by rewrite IH.
  - destruct (Ascii.eqb c " ") eqn:Hs.
    + apply Ascii.eqb_eq in Hs as ->. cbn in *. by rewrite IH.
    + rewrite unescape_percent. by rewrite IH.
Qed.

Definition plain_in_query (c : ascii) : bool :=
  negb (Ascii.eqb c "&") && negb (Ascii.eqb c ";") && negb (Ascii.eqb c "=").

Lemma query_escape_plain s : str_forall plain_in_query (query_escape s) = true.
Proof.
  apply str_forall_concat_map. intros c. revert c. by apply all_bytes.
Qed.

Lemma cut_app c k v : str_no c k = true → cut c (k +:+ String c v) = (k, v).
Proof.
  unfold str_no. induction k as [|d k IH]; cbn; [by rewrite Ascii.eqb_refl|].
  intros [H1%negb_true_iff H2]%andb_true_iff. by rewrite H1, IH.
Qed.

(** A query with one parameter is read back. *)
Lemma query_get_escape key v :
  key ≠ "" → str_forall is_unreserved key = true →
  query_get (key +:+ "=" +:+ query_escape v) key = v.
Proof.
  intros Hne Hk.
  assert (str_forall plain_in_query key = true) as Hpk.
  { apply (str_forall_impl is_unreserved); [|done]. intros c Hc.
    assert (negb (is_unreserved c) || plain_in_query c = true) as Hb
      by by apply (all_bytes (λ c, negb (is_unreserved c) || plain_in_query c)).
    by rewrite Hc in Hb. }
  pose proof (query_escape_plain v) as Hpv.
  assert (∀ c s, str_forall plain_in_query s = true → plain_in_query c = false → str_no c s = true) as Hno.
  { intros c s Hs Hc. apply (str_forall_impl plain_in_query); [|done]. intros d Hd.
    apply negb_true_iff, Ascii.eqb_neq. congruence. }
  assert (∀ c, c = "&"%char ∨ c = ";"%char → str_no c (key +:+ "=" +:+ query_escape v) = true) as Hall.
  { intros c Hc. unfold str_no. rewrite !str_forall_app. fold (str_no c key) (str_no c (query_escape v)).
    rewrite !Hno by (done || by destruct Hc as [->| ->]). by destruct Hc as [->| ->]. }
  assert (url_unescape true key = Some key) as Eu.
  { rewrite <-(unescape_query_escape key) at 1. f_equal. clear -Hk. revert Hk.
    unfold query_escape. induction key as [|c key IH]; cbn; [done|].
    intros [Hc Hk]%andb_true_iff. rewrite Hc. cbn. by rewrite <-IH. }
  unfold query_get, parse_query. rewrite split_on_single by auto. cbn [omap list_omap].
  unfold query_pair. rewrite Hall by auto. rewrite bool_decide_false by (by destruct key). cbn [negb orb].
  change ("=" +:+ query_escape v) with (String "=" (query_escape v)).
  rewrite cut_app by by apply Hno. rewrite Eu, unescape_query_escape. cbn.
  by rewrite decide_True.
Qed.

(** ** Cleaned paths *)

Definition good_segment (s : string) : Prop :=
  s ≠ "" ∧ s ≠ "." ∧ s ≠ ".." ∧ str_no "/" s = true.

(** The shape of a cleaned path: good segments, maybe a slash at the end. *)
Definition clean_form (p : string) : Prop :=
  ∃ segs (slash : bool), Forall good_segment segs ∧ (slash = true → segs ≠ [])
    ∧ p = String "/" (join_with "/" segs +:+ if slash then "/" else "").

Lemma split_on_no c s : Forall (λ p, str_no c p = true) (split_on c s).
Proof.
  induction s as [|d s IH]; cbn; [by repeat constructor|].
  destruct (Ascii.eqb d c) eqn:E; [by constructor|].
  destruct (split_on c s) as [|p ps]; [by repeat constructor; cbn; rewrite E|].
  apply Forall_cons in IH as [Hp Hps]. constructor; [|done]. unfold str_no in *. cbn. by rewrite E.
Qed.

Lemma clean_step_good segs : ∀ stack,
  Forall (λ p, str_no "/" p = true) segs → Forall good_segment stack →
  Forall good_segment (foldl clean_step stack segs).
Proof.
  induction segs as [|s segs IH]; intros stack Hs Hst; [done|].
  apply Forall_cons in Hs as [Hn Hs]. cbn. apply IH; [done|]. unfold clean_step.
  case_bool_decide; [done|]. case_bool_decide; [by apply Forall_tail|].
  constructor; [|done]. unfold good_segment. naive_solver.
Qed.

Lemma clean_segments_good p : Forall good_segment (clean_segments p).
Proof.
  unfold clean_segments. apply Forall_reverse, clean_step_good; [apply split_on_no|constructor].
Qed.

Lemma clean_step_push segs : ∀ stack,
  Forall good_segment segs → foldl clean_step stack segs = reverse segs ++ stack.
Proof.
  induction segs as [|s segs IH]; intros stack Hs; [done|].
  apply Forall_cons in Hs as [(H1 & H2 & H3 & _) Hs]. cbn [foldl].
  unfold clean_step at 2. rewrite !bool_decide_false by naive_solver.
  rewrite IH by done. by rewrite reverse_cons, <-app_assoc.
Qed.

Lemma join_with_snoc c l : l ≠ [] → join_with c (l ++ [""]) = join_with c l +:+ String c "".
Proof.
  induction l as [|x [|y l] IH]; [done|done|]. intros _.
  change (join_with c ((x :: y :: l) ++ [""])) with (x +:+ String c (join_with c ((y :: l) ++ [""]))).
  rewrite IH by done. cbn [join_with]. by rewrite !string_app_assoc.
Qed.

Lemma ends_with_slash_app s t : t ≠ "" → ends_with_slash (s +:+ t) = ends_with_slash t.
Proof.
  intros Ht. induction s as [|c s IH]; [done|]. cbn. rewrite IH.
  by destruct s; [destruct t|].
Qed.

Lemma ends_with_slash_no s : str_no "/" s = true → ends_with_slash s = false.
Proof.
  unfold str_no. induction s as [|c s IH]; cbn; [done|]. intros [Hc%negb_true_iff Hs]%andb_true_iff.
  destruct s; [done|by apply IH].
Qed.

Lemma ends_with_slash_join segs :
  Forall good_segment segs → segs ≠ [] → ends_with_slash (String "/" (join_with "/" segs)) = false.
Proof.
  intros Hs Hne. induction Hs as [|s segs (H1 & _ & _ & Hn) Hs IH]; [done|].
  change (String "/" ?t) with ("/" +:+ t). rewrite ends_with_slash_app by (by destruct s, segs).
  destruct segs as [|t segs]; [by apply ends_with_slash_no|].
  change (join_with "/" (s :: t :: segs)) with (s +:+ String "/" (join_with "/" (t :: segs))).
  rewrite ends_with_slash_app by done. by apply IH.
Qed.

Lemma clean_segments_join segs (slash : bool) :
  Forall good_segment segs → (slash = true → segs ≠ []) →
  clean_segments (String "/" (join_with "/" segs +:+ if slash then "/" else "")) = segs.
Proof.
  intros Hs Hslash. unfold clean_segments. change (split_on "/" (String "/" ?t)) with ("" :: split_on "/" t).
  assert (Forall (λ p, str_no "/" p = true) segs) as Hno.
  { eapply Forall_impl; [done|]. by intros s (_ & _ & _ & ?). }
  assert (∃ l, split_on "/" (join_with "/" segs +:+ if slash then "/" else "") = l
               ∧ (l = segs ∨ l = segs ++ [""] ∨ (l = [""] ∧ segs = []))) as (l & -> & Hl).
  { eexists. split; [done|]. destruct slash.
    - right; left. rewrite <-join_with_snoc by auto. apply split_join; [by destruct segs|].
      apply Forall_app. by repeat constructor.
    - rewrite string_app_nil_r. destruct segs as [|s segs]; [auto|]. left. by apply split_join. }
  cbn [foldl]. change (clean_step [] "") with (@nil string).
  destruct Hl as [->|[->|[-> ->]]]; [| |done].
  - by rewrite clean_step_push, app_nil_r, reverse_involutive.
  - rewrite foldl_app, (clean_step_push segs), app_nil_r by done.
    change (reverse (reverse segs) = segs). apply reverse_involutive.
Qed.

Lemma clean_form_fixed p : clean_form p → cleanPath p = p.
Proof.
  intros (segs & slash & Hs & Hslash & ->). unfold cleanPath. change (Ascii.eqb "/" "/") with true. cbv iota.
  unfold path_clean. rewrite clean_segments_join by done. destruct slash.
  - specialize (Hslash eq_refl).
    change (String "/" (join_with "/" segs +:+ "/")) with (String "/" (join_with "/" segs) +:+ "/").
    rewrite ends_with_slash_app by done. rewrite bool_decide_false; [done|].
    destruct Hs as [|s segs (Hne & _) _]; [done|]. destruct segs, s; done.
  - rewrite string_app_nil_r. destruct segs as [|s segs]; [done|].
    by rewrite ends_with_slash_join.
Qed.

Lemma cleanPath_form p : clean_form (cleanPath p).
Proof.
  destruct p as [|c p]; [by exists [], false|]. unfold cleanPath.
  set (p' := if Ascii.eqb c "/" then _ else _).
  pose proof (clean_segments_good p') as Hg. unfold path_clean.
  destruct (ends_with_slash p' && _) eqn:E.
  - exists (clean_segments p'), true. split; [done|]. split; [|done].
    intros _ En. by rewrite En, andb_false_r in E.
  - exists (clean_segments p'), false. by rewrite string_app_nil_r.
Qed.

(** Escaping keeps a path clean. *)
Lemma escape_path_nil s : escape_path s = "" → s = "".
Proof. destruct s as [|c s]; [done|]. unfold escape_path. cbn. by destruct (path_byte c). Qed.

Lemma escape_path_dot s t :
  escape_path s = String "." t → ∃ r, s = String "." r ∧ escape_path r = t.
Proof.
  destruct s as [|c s]; [done|]. unfold escape_path. cbn [str_concat_map].
  destruct (path_byte c); cbn; [|done]. intros [= -> <-]. eauto.
Qed.

Lemma escape_good s : good_segment s → good_segment (escape_path s).
Proof.
  intros (H1 & H2 & H3 & Hn). split_and!.
  - by intros ?%escape_path_nil.
  - by intros (r & -> & ->%escape_path_nil)%escape_path_dot.
  - by intros (r & -> & (q & -> & ->%escape_path_nil)%escape_path_dot)%escape_path_dot.
  - clear H1 H2 H3. revert Hn. unfold str_no, escape_path.
    induction s as [|c s IH]; cbn [str_forall str_concat_map]; [done|].
    intros [Hc Hs]%andb_true_iff. rewrite str_forall_app, IH by done. rewrite andb_true_r.
    destruct (path_byte c); [cbn; by rewrite Hc|].
    revert c Hc. intros c _. revert c. by apply all_bytes.
Qed.

Lemma escape_join segs :
  escape_path (join_with "/" segs) = join_with "/" (map escape_path segs).
Proof.
  induction segs as [|s [|t segs] IH]; [done|done|].
  change (join_with "/" (s :: t :: segs)) with (s +:+ "/" +:+ join_with "/" (t :: segs)).
  unfold escape_path in *. rewrite !str_concat_map_app, IH. done.
Qed.

Lemma escape_clean_form p : clean_form p → clean_form (escape_path p).
Proof.
  intros (segs & slash & Hs & Hslash & ->). exists (map escape_path segs), slash. split_and!.
  - apply Forall_map. by eapply Forall_impl; [|apply escape_good].
  - intros E Hn. apply Hslash in E. by destruct segs.
  - change (String "/" ?t) with ("/" +:+ t). unfold escape_path. rewrite !str_concat_map_app.
    fold escape_path. rewrite <-escape_join. by destruct slash.
Qed.
