(* ===== verification/Model.v ===== *)
(** * Package [model]: the data of the shard registry

    [internal/model/types.go]: the constants, the records stored under
    [/sharding/], their JSON form (the struct tags) and
    [ParseReadConsistency]. The string types of the package stay strings: a
    registry may hold any text in a status or a state. *)

From S2P Require Import Prelude GoInt GoString GoAny Json.

(** ** Constants *)

Definition ShardActive : string := "ACTIVE".
Definition ShardMaintenance : string := "MAINTENANCE".
Definition ShardDraining : string := "DRAINING".
Definition ShardRetired : string := "RETIRED".

Definition StateActiveSource : string := "ACTIVE_SOURCE".
Definition StateCopying : string := "COPYING".
Definition StateDualWrite : string := "DUAL_WRITE".
Definition StateCDCCatchup : string := "CDC_CATCHUP".
Definition StateVerifying : string := "VERIFYING".
Definition StateCutover : string := "CUTOVER".
Definition StateDrainingSrc : string := "DRAINING_SOURCE".
Definition StateActiveDest : string := "ACTIVE_DEST".

Definition ReadStrong : string := "STRONG".
Definition ReadYourWrites : string := "READ_YOUR_WRITES".
Definition ReadEventual : string := "EVENTUAL".

(** ** Records *)

Record Endpoint := mkEndpoint { Host : string; Port : Z; Database : string }.

Record ShardDef := mkShardDef {
  ShardID : string;
  Status : string;
  Writer : Endpoint;
  Reader : option Endpoint;
  CredentialRef : string;
  Region : string;
}.

Record BucketDef := mkBucketDef {
  BucketID : Z;
  BShardID : string;
  DestShardID : string;
  State : string;
  MappingVersion : Z;
}.

#[global] Instance Endpoint_eq_dec : EqDecision Endpoint.
Proof. solve_decision. Defined.
#[global] Instance ShardDef_eq_dec : EqDecision ShardDef.
Proof. solve_decision. Defined.
#[global] Instance BucketDef_eq_dec : EqDecision BucketDef.
Proof. solve_decision. Defined.

(** The zero values of the structs. *)
Definition zero_endpoint : Endpoint := mkEndpoint "" 0 "".
Definition zero_shard : ShardDef := mkShardDef "" "" zero_endpoint None "" "".
Definition zero_bucket : BucketDef := mkBucketDef 0 "" "" "" 0.

(** ** Operations *)

(** [Endpoint.String]. *)
Definition endpoint_string (e : Endpoint) : string :=
  Host e +:+ ":" +:+ format_int (Port e) +:+ "/" +:+ Database e.

Definition endpoint_empty (e : Endpoint) : bool := bool_decide (Host e = "").

Definition ParseReadConsistency (s : string) : string :=
  if decide (s = ReadYourWrites) then ReadYourWrites
  else if decide (s = ReadEventual) then ReadEventual
  else ReadStrong.

(** ** JSON form: the struct tags *)

Definition endpoint_fields : list string := ["host"; "port"; "database"].

Definition set_endpoint (e : Endpoint) (name : string) (v : json) : option Endpoint :=
  if decide (name = "host") then
    x ← decode_string (Host e) v; Some (mkEndpoint x (Port e) (Database e))
  else if decide (name = "port") then
    x ← decode_int (Port e) v; Some (mkEndpoint (Host e) x (Database e))
  else
    x ← decode_string (Database e) v; Some (mkEndpoint (Host e) (Port e) x).

Definition decode_endpoint : Endpoint → json → option Endpoint :=
  decode_struct endpoint_fields set_endpoint.

(** A pointer field: [null] clears it, an object is decoded into the value it
    points to, or into a new one. *)
Definition decode_endpoint_ptr (cur : option Endpoint) (v : json) : option (option Endpoint) :=
  match v with
  | JNull => Some None
  | _ => e ← decode_endpoint (default zero_endpoint cur) v; Some (Some e)
  end.

Definition shard_fields : list string :=
  ["shard_id"; "status"; "writer"; "reader"; "credential_ref"; "region"].

Definition set_shard (d : ShardDef) (name : string) (v : json) : option ShardDef :=
  let '(mkShardDef sid st w r cr rg) := d in
  if decide (name = "shard_id") then x ← decode_string sid v; Some (mkShardDef x st w r cr rg)
  else if decide (name = "status") then x ← decode_string st v; Some (mkShardDef sid x w r cr rg)
  else if decide (name = "writer") then x ← decode_endpoint w v; Some (mkShardDef sid st x r cr rg)
  else if decide (name = "reader") then x ← decode_endpoint_ptr r v; Some (mkShardDef sid st w x cr rg)
  else if decide (name = "credential_ref") then x ← decode_string cr v; Some (mkShardDef sid st w r x rg)
  else x ← decode_string rg v; Some (mkShardDef sid st w r cr x).

Definition decode_shard : ShardDef → json → option ShardDef :=
  decode_struct shard_fields set_shard.

Definition bucket_fields : list string :=
  ["bucket_id"; "shard_id"; "dest_shard_id"; "state"; "mapping_version"].

Definition set_bucket (b : BucketDef) (name : string) (v : json) : option BucketDef :=
  let '(mkBucketDef id sid dst st mv) := b in
  if decide (name = "bucket_id") then x ← decode_int id v; Some (mkBucketDef x sid dst st mv)
  else if decide (name = "shard_id") then x ← decode_string sid v; Some (mkBucketDef id x dst st mv)
  else if decide (name = "dest_shard_id") then x ← decode_string dst v; Some (mkBucketDef id sid x st mv)
  else if decide (name = "state") then x ← decode_string st v; Some (mkBucketDef id sid dst x mv)
  else x ← decode_int mv v; Some (mkBucketDef id sid dst st x).

Definition decode_bucket : BucketDef → json → option BucketDef :=
  decode_struct bucket_fields set_bucket.

(** [json.Unmarshal(value, &def)] into a fresh variable. *)
Definition unmarshal_shard (value : string) : option ShardDef :=
  j ← parse value; decode_shard zero_shard j.
Definition unmarshal_bucket (value : string) : option BucketDef :=
  j ← parse value; decode_bucket zero_bucket j.

(** ** JSON text of the examples *)

(** Writes a JSON text with single quotes, which no example contains. *)
Definition js : string → string := str_map (λ c, if Ascii.eqb c (chr 39) then chr 34 else c).

Example unmarshal_shard_example :
  unmarshal_shard (js "{'shard_id':'shard-01','status':'ACTIVE','writer':{'host':'pg-shard01-rw.internal','port':6432,'database':'payment'},'credential_ref':'secret/payment/postgresql','region':'jakarta'}")
  = Some (mkShardDef "shard-01" "ACTIVE" (mkEndpoint "pg-shard01-rw.internal" 6432 "payment") None
            "secret/payment/postgresql" "jakarta").
Proof. by vm_compute. Qed.

Example unmarshal_edge_cases :
  map unmarshal_bucket
    [js "{'shard_id':'a','SHARD_ID':'b', 'state':null, 'x':[1,{}]}"; "null"; "not json"; "[]";
     js "{'bucket_id':1.5}"; js " { 'mapping_version' : -3 } "; js "{'shard_id':'\u00e9\n'} x"]
  = [Some (mkBucketDef 0 "b" "" "" 0); Some zero_bucket; None; None; None;
     Some (mkBucketDef 0 "" "" "" (-3)); None].
Proof. by vm_compute. Qed.

(** The consistency a caller gets is one of the three, and any text other than
    the two weaker ones means [STRONG]. *)
Lemma ParseReadConsistency_cases s :
  (ParseReadConsistency s = ReadYourWrites ∧ s = ReadYourWrites)
  ∨ (ParseReadConsistency s = ReadEventual ∧ s = ReadEventual)
  ∨ (ParseReadConsistency s = ReadStrong ∧ s ≠ ReadYourWrites ∧ s ≠ ReadEventual).
Proof. unfold ParseReadConsistency. repeat case_decide; naive_solver. Qed.
