(* ===== verification/Cache.v ===== *)
(** * Package [cache]: snapshots of the shard map and the atomic store

    [internal/cache/mapping.go]. A pointer to a [Mapping] is a location of a memory of
    mappings, so that sharing and in-place mutation are visible: the registry
    builds a snapshot in place before it publishes it, requests read the one
    the store points to. *)

From S2P Require Import Prelude GoInt Model.

Record Mapping := mkMapping {
  Revision : Z;
  Shards : gmap string ShardDef;
  Buckets : gmap Z BucketDef;
}.

Definition empty_mapping : Mapping := mkMapping 0 ∅ ∅.

(** [make(map[K]V, n)] followed by [for k, v := range m { out[k] = v }]. *)
Definition copy_map {K A} `{Countable K} (m : gmap K A) : gmap K A :=
  foldr (λ '(k, v) out, <[k := v]> out) ∅ (map_to_list m).

(** [Mapping.Clone]: the contents of the new mapping. *)
Definition Clone (m : Mapping) : Mapping :=
  mkMapping (Revision m) (copy_map (Shards m)) (copy_map (Buckets m)).

Lemma copy_map_id {K A} `{Countable K} (m : gmap K A) : copy_map m = m.
Proof.
  unfold copy_map. rewrite <-(list_to_map_to_list m) at 2.
  induction (map_to_list m) as [|[k v] l IH]; cbn; [done|]. by rewrite IH.
Qed.

Lemma Clone_id m : Clone m = m.
Proof. destruct m. unfold Clone. cbn. by rewrite !copy_map_id. Qed.

(** ** Mappings up to their revision *)

#[export] Instance mapping_equiv : Equiv Mapping :=
  λ m1 m2, Shards m1 = Shards m2 ∧ Buckets m1 = Buckets m2.

#[export] Instance mapping_equivalence : Equivalence (≡@{Mapping}).
Proof.
  split; [by split|by intros ?? [??]; split|by intros ??? [??] [??]; split; etrans].
Qed.

(** ** The memory of mappings, and the store *)

Abbreviation loc := positive.

(** [heap] holds the allocated mappings, [fresh] is above all of them, and
    [ptr] is the pointer of the [Store], [None] for [nil]. *)
Record Memory := mkMemory { heap : gmap loc Mapping; fresh : loc; ptr : option loc }.

Definition NewStore : Memory := mkMemory ∅ 1 None.

(** [&Mapping{...}] and the result of [Clone]. *)
Definition alloc (m : Mapping) (s : Memory) : loc * Memory :=
  (fresh s, mkMemory (<[fresh s := m]> (heap s)) (Pos.succ (fresh s)) (ptr s)).

(** Mutation of the mapping at [l] in place. *)
Definition write (l : loc) (m : Mapping) (s : Memory) : Memory :=
  mkMemory (<[l := m]> (heap s)) (fresh s) (ptr s).

(** [Store.Load], and the mapping a pointer shows. *)
Definition Load (s : Memory) : option loc := ptr s.
Definition deref (s : Memory) (l : loc) : option Mapping := heap s !! l.
Definition current (s : Memory) : option Mapping := l ← ptr s; heap s !! l.

(** [Store.Swap]. *)
Definition Swap (l : loc) (s : Memory) : Memory := mkMemory (heap s) (fresh s) (Some l).

(** [Store.Ready]. *)
Definition Ready (s : Memory) : bool := match ptr s with Some _ => true | None => false end.

(** ** Well-formed memories: pointers are allocated *)

Definition mem_wf (s : Memory) : Prop :=
  (∀ l, is_Some (heap s !! l) → (l < fresh s)%positive)
  ∧ (∀ l, ptr s = Some l → is_Some (heap s !! l)).

Lemma NewStore_wf : mem_wf NewStore.
Proof.
  split; cbn; intros l; [|done]. rewrite lookup_empty. by intros [??].
Qed.

Lemma alloc_fresh s : mem_wf s → heap s !! fresh s = None.
Proof.
  intros [H _]. destruct (heap s !! fresh s) eqn:E; [|done].
  specialize (H (fresh s) ltac:(by rewrite E)). lia.
Qed.

Lemma alloc_wf m s : mem_wf s → mem_wf (snd (alloc m s)).
Proof.
  intros [H1 H2]. split; cbn; intros l.
  - destruct (decide (fresh s = l)) as [<-|]; [lia|].
    rewrite lookup_insert_ne by done. intros ?%H1. lia.
  - intros Hl%H2. destruct (decide (fresh s = l)) as [<-|];
      [by rewrite lookup_insert_eq|by rewrite lookup_insert_ne].
Qed.

Lemma write_wf l m s : mem_wf s → is_Some (heap s !! l) → mem_wf (write l m s).
Proof.
  intros [H1 H2] Hl. split; cbn; intros k.
  - destruct (decide (l = k)) as [<-|]; [auto|]. rewrite lookup_insert_ne by done. apply H1.
  - intros Hk%H2. destruct (decide (l = k)) as [<-|];
      [by rewrite lookup_insert_eq|by rewrite lookup_insert_ne].
Qed.

Lemma Swap_wf l s : mem_wf s → is_Some (heap s !! l) → mem_wf (Swap l s).
Proof. intros [H1 H2] Hl. split; [exact H1|]. cbn. by intros k [= <-]. Qed.

Lemma alloc_other m s l : l ≠ fresh s → heap (snd (alloc m s)) !! l = heap s !! l.
Proof. intros. cbn. by rewrite lookup_insert_ne. Qed.

Lemma alloc_current m s : mem_wf s → current (snd (alloc m s)) = current s.
Proof.
  intros Hw. pose proof (alloc_fresh s Hw) as Hf. unfold current. cbn.
  destruct (ptr s) as [l|] eqn:E; cbn; [|done].
  rewrite lookup_insert_ne; [done|]. intros <-.
  apply Hw in E. rewrite Hf in E.
  by destruct E.
Qed.

#[export] Hint Resolve NewStore_wf alloc_wf write_wf Swap_wf : go.
