(* ===== verification/Router.v ===== *)
(** * Package [router]: routing a shard key

    [internal/router/router.go]. [Resolve] is a pure function of the snapshot
    the store holds, the bucket count and the key. The file ends with an
    abstract specification of routing (the table of the guide, section 10.1),
    proved to be what [Resolve] computes, and with the safety of a migration. *)

From S2P Require Import Prelude GoInt GoString GoAny Hashing Model Cache.

(** ** Errors *)

Inductive RouterError : Type :=
| ErrNoMapping
| ErrShardUnavailable (shardID : string)
| ErrUnknownBucket (bucketID : Z)
| ErrUnknownShard (shardID : string) (bucketID : Z).

#[global] Instance RouterError_eq_dec : EqDecision RouterError.
Proof. solve_decision. Defined.

(** [err.Error()]. *)
Definition router_error_text `{UnicodeTables} (e : RouterError) : string :=
  match e with
  | ErrNoMapping => "shard router: no shard mapping loaded yet"
  | ErrShardUnavailable id => "shard router: shard " +:+ quote id +:+ " is not ACTIVE"
  | ErrUnknownBucket b => "shard router: bucket " +:+ format_int b +:+ " has no shard assignment"
  | ErrUnknownShard id b =>
      "shard router: bucket " +:+ format_int b +:+ " references unknown shard " +:+ quote id
  end.

(** ** The outcome of routing *)

Record Resolved := mkResolved {
  RBucketID : Z;
  ReadShard : ShardDef;
  WriteShards : list ShardDef;
  RMigrationState : string;
}.

(** [r.WriteShards[0]]; [None] is the panic on an empty slice. *)
Definition PrimaryWriteShard (r : Resolved) : option ShardDef := head (WriteShards r).

Definition ReadEndpoint (r : Resolved) (consistency : string) : Endpoint :=
  if decide (consistency = ReadEventual) then
    match Reader (ReadShard r) with
    | Some reader => reader
    | None => Writer (ReadShard r)
    end
  else Writer (ReadShard r).

(** ** The router *)

Record Router := mkRouter { bucketCount : Z }.

Definition New (bucketCount : Z) : Router :=
  mkRouter (if bucketCount <=? 0 then DefaultBucketCount else bucketCount).

Lemma New_positive n : 0 < bucketCount (New n).
Proof. unfold New. cbn. destruct (Z.leb_spec n 0); [done|lia]. Qed.

Definition BucketCount (r : Router) : Z := bucketCount r.

(** The first shard of the list that is not [ACTIVE]. *)
Fixpoint first_inactive (shards : list ShardDef) : option ShardDef :=
  match shards with
  | [] => None
  | ws :: shards =>
      if decide (Status ws ≠ ShardActive) then Some ws else first_inactive shards
  end.

(** [Resolve]; [m] is the snapshot read from the store. *)
Definition Resolve (r : Router) (m : option Mapping) (shardKey : go_any)
    : result RouterError Resolved :=
  match m with
  | None => Err ErrNoMapping
  | Some m =>
      let bucketID := BucketFor shardKey (bucketCount r) in
      match Buckets m !! bucketID with
      | None => Err (ErrUnknownBucket bucketID)
      | Some bucket =>
          match Shards m !! BShardID bucket with
          | None => Err (ErrUnknownShard (BShardID bucket) bucketID)
          | Some source =>
              let res := mkResolved bucketID source [source] (State bucket) in
              res ←
                (if decide (State bucket ∈ [StateDualWrite; StateCDCCatchup; StateVerifying]) then
                   match Shards m !! DestShardID bucket with
                   | Some dest =>
                       Ok (mkResolved bucketID source (WriteShards res ++ [dest]) (State bucket))
                   | None => Ok res
                   end
                 else if decide (State bucket ∈ [StateCutover; StateDrainingSrc; StateActiveDest]) then
                   match Shards m !! DestShardID bucket with
                   | Some dest => Ok (mkResolved bucketID dest [dest] (State bucket))
                   | None => Err (ErrUnknownShard (DestShardID bucket) bucketID)
                   end
                 else Ok res);
              match first_inactive (WriteShards res) with
              | Some ws => Err (ErrShardUnavailable (ShardID ws))
              | None =>
                  if decide (Status (ReadShard res) ≠ ShardActive)
                  then Err (ErrShardUnavailable (ShardID (ReadShard res)))
                  else Ok res
              end
          end
      end
  end.

(** ** Specification: the routing table

    [routes m b rd ws]: under the mapping [m] a bucket record [b] sends reads
    to [rd] and writes to [ws], whatever the shards' status. *)

Definition dual_state (st : string) : Prop :=
  st = StateDualWrite ∨ st = StateCDCCatchup ∨ st = StateVerifying.
Definition dest_state (st : string) : Prop :=
  st = StateCutover ∨ st = StateDrainingSrc ∨ st = StateActiveDest.

Inductive routes (m : Mapping) (b : BucketDef) : ShardDef → list ShardDef → Prop :=
| routes_source src :
    ¬ dual_state (State b) → ¬ dest_state (State b) →
    Shards m !! BShardID b = Some src →
    routes m b src [src]
| routes_dual src dst :
    dual_state (State b) →
    Shards m !! BShardID b = Some src → Shards m !! DestShardID b = Some dst →
    routes m b src [src; dst]
| routes_degraded src :
    dual_state (State b) →
    Shards m !! BShardID b = Some src → Shards m !! DestShardID b = None →
    routes m b src [src]
| routes_dest src dst :
    dest_state (State b) →
    Shards m !! BShardID b = Some src → Shards m !! DestShardID b = Some dst →
    routes m b dst [dst].

Definition active (d : ShardDef) : Prop := Status d = ShardActive.

(** Every outcome of routing the key [k] over [n] buckets, with the condition
    for each error. *)
Inductive route_outcome (n : Z) (k : go_any)
    : option Mapping → result RouterError Resolved → Prop :=
| outcome_no_mapping :
    route_outcome n k None (Err ErrNoMapping)
| outcome_unknown_bucket m :
    Buckets m !! BucketFor k n = None →
    route_outcome n k (Some m) (Err (ErrUnknownBucket (BucketFor k n)))
| outcome_unknown_source m b :
    Buckets m !! BucketFor k n = Some b → Shards m !! BShardID b = None →
    route_outcome n k (Some m) (Err (ErrUnknownShard (BShardID b) (BucketFor k n)))
| outcome_unknown_dest m b src :
    Buckets m !! BucketFor k n = Some b → Shards m !! BShardID b = Some src →
    dest_state (State b) → Shards m !! DestShardID b = None →
    route_outcome n k (Some m) (Err (ErrUnknownShard (DestShardID b) (BucketFor k n)))
| outcome_unavailable m b rd pre d post :
    Buckets m !! BucketFor k n = Some b → routes m b rd (pre ++ d :: post) →
    Forall active pre → ¬ active d →
    route_outcome n k (Some m) (Err (ErrShardUnavailable (ShardID d)))
| outcome_resolved m b rd ws :
    Buckets m !! BucketFor k n = Some b → routes m b rd ws → Forall active ws →
    route_outcome n k (Some m) (Ok (mkResolved (BucketFor k n) rd ws (State b))).

(** ** Lemmas *)

Lemma first_inactive_none l : first_inactive l = None ↔ Forall active l.
Proof.
  unfold active. induction l as [|d l IH]; cbn; [by split; [constructor|]|].
  rewrite Forall_cons, <-IH. case_decide; naive_solver.
Qed.

Lemma first_inactive_some l d :
  first_inactive l = Some d ↔ ∃ pre post, l = pre ++ d :: post ∧ Forall active pre ∧ ¬ active d.
Proof.
  unfold active. induction l as [|e l IH]; cbn.
  - split; [done|]. intros (pre & post & E & _). by destruct pre.
  - case_decide as He.
    + split; [intros [= <-]; by exists [], l|].
      intros ([|e' pre] & post & [= <- ->] & Hp & Hd); [done|]. by inversion Hp.
    + rewrite IH. split.
      * intros (pre & post & -> & Hp & Hd). exists (e :: pre), post. eauto.
      * intros ([|e' pre] & post & [= <- ->] & Hp & Hd); [done|].
        inversion Hp; subst. by exists pre, post.
Qed.

Lemma dual_state_elem st :
  st ∈ [StateDualWrite; StateCDCCatchup; StateVerifying] ↔ dual_state st.
Proof. unfold dual_state. rewrite !elem_of_cons, elem_of_nil. tauto. Qed.
Lemma dest_state_elem st :
  st ∈ [StateCutover; StateDrainingSrc; StateActiveDest] ↔ dest_state st.
Proof. unfold dest_state. rewrite !elem_of_cons, elem_of_nil. tauto. Qed.

Lemma dual_dest_false st : dual_state st → dest_state st → False.
Proof. unfold dual_state, dest_state. intros [->|[->| ->]] [?|[?|?]]; done. Qed.

Lemma routes_shape m b rd ws : routes m b rd ws → ∃ tl, ws = rd :: tl ∧ (length tl ≤ 1)%nat.
Proof. destruct 1; eexists; cbn; eauto. Qed.

Lemma routes_active m b rd ws : routes m b rd ws → Forall active ws → active rd.
Proof. intros (tl & -> & _)%routes_shape. by inversion 1. Qed.

Lemma routes_functional m b rd ws rd' ws' :
  routes m b rd ws → routes m b rd' ws' → rd = rd' ∧ ws = ws'.
Proof. destruct 1; inversion 1; simplify_eq; eauto; exfalso; by eauto using dual_dest_false. Qed.

(** The checks after the table. *)
Definition check_active (id : Z) (st : string) (rd : ShardDef) (ws : list ShardDef)
    : result RouterError Resolved :=
  match first_inactive ws with
  | Some d => Err (ErrShardUnavailable (ShardID d))
  | None =>
      if decide (Status rd ≠ ShardActive) then Err (ErrShardUnavailable (ShardID rd))
      else Ok (mkResolved id rd ws st)
  end.

Lemma check_active_outcome n k m b rd ws :
  Buckets m !! BucketFor k n = Some b → routes m b rd ws →
  route_outcome n k (Some m) (check_active (BucketFor k n) (State b) rd ws).
Proof.
  intros Hb Hr. unfold check_active. destruct (first_inactive ws) as [d|] eqn:E.
  - apply first_inactive_some in E as (pre & post & -> & Hp & Hd).
    by eapply outcome_unavailable.
  - apply first_inactive_none in E. pose proof (routes_active _ _ _ _ Hr E).
    case_decide; [done|]. by eapply outcome_resolved.
Qed.

Lemma Resolve_outcome r m k : route_outcome (bucketCount r) k m (Resolve r m k).
Proof.
  destruct m as [m|]; [|constructor]. cbn [Resolve].
  destruct (Buckets m !! BucketFor k (bucketCount r)) as [b|] eqn:Hb; [|by constructor].
  destruct (Shards m !! BShardID b) as [src|] eqn:Hs; [|by eapply outcome_unknown_source].
  destruct (decide (State b ∈ [StateDualWrite; _; _])) as [Hd|Hd]; rewrite dual_state_elem in Hd.
  { destruct (Shards m !! DestShardID b) as [dst|] eqn:Ht;
      apply (check_active_outcome _ _ _ b); try done; [by constructor|by eapply routes_degraded]. }
  destruct (decide (State b ∈ [StateCutover; _; _])) as [Hc|Hc]; rewrite dest_state_elem in Hc.
  - destruct (Shards m !! DestShardID b) as [dst|] eqn:Ht; [|by eapply outcome_unknown_dest].
    apply (check_active_outcome _ _ _ b); [done|by eapply routes_dest].
  - apply (check_active_outcome _ _ _ b); [done|by constructor].
Qed.

Lemma routes_source_registered m b rd ws :
  routes m b rd ws → is_Some (Shards m !! BShardID b).
Proof. destruct 1; eauto. Qed.

Lemma routes_no_missing_dest m b rd ws :
  routes m b rd ws → dest_state (State b) → is_Some (Shards m !! DestShardID b).
Proof. destruct 1; eauto; intros; exfalso; eauto using dual_dest_false. Qed.

Lemma decide_elem {B} `{Decision P} (x y : B) : P → (if decide P then x else y) = x.
Proof. intros. by case_decide. Qed.

Lemma decide_not_elem {B} `{Decision P} (x y : B) : ¬ P → (if decide P then x else y) = y.
Proof. intros. by case_decide. Qed.

(** On a routable bucket [Resolve] is the table followed by the checks. *)
Lemma Resolve_routes r m k b rd ws :
  Buckets m !! BucketFor k (bucketCount r) = Some b → routes m b rd ws →
  Resolve r (Some m) k = check_active (BucketFor k (bucketCount r)) (State b) rd ws.
Proof.
  intros Hb Hr. cbn [Resolve]. rewrite Hb.
  destruct Hr as [src Hd Hc Hs|src dst Hd Hs Ht|src Hd Hs Ht|src dst Hc Hs Ht]; rewrite Hs.
  - rewrite decide_not_elem by by rewrite dual_state_elem.
    by rewrite decide_not_elem by by rewrite dest_state_elem.
  - rewrite decide_elem by by rewrite dual_state_elem. by rewrite Ht.
  - rewrite decide_elem by by rewrite dual_state_elem. by rewrite Ht.
  - rewrite decide_not_elem by (rewrite dual_state_elem; eauto using dual_dest_false).
    rewrite decide_elem by by rewrite dest_state_elem. by rewrite Ht.
Qed.

Lemma check_active_ok id st rd ws :
  Forall active ws → active rd → check_active id st rd ws = Ok (mkResolved id rd ws st).
Proof.
  intros H Hrd. unfold check_active. apply first_inactive_none in H as ->.
  by case_decide.
Qed.

Lemma Resolve_has_mapping r m k : Resolve r (Some m) k ≠ Err ErrNoMapping.
Proof. intros E. pose proof (Resolve_outcome r (Some m) k) as H. rewrite E in H. inversion H. Qed.

Lemma route_outcome_Resolve r m k o : route_outcome (bucketCount r) k m o → Resolve r m k = o.
Proof.
  destruct 1 as [|m Hb|m b Hb Hs|m b src Hb Hs Hc Ht|m b rd pre d post Hb Hr Hp Hd|m b rd ws Hb Hr Ha].
  - done.
  - cbn. by rewrite Hb.
  - cbn. by rewrite Hb, Hs.
  - cbn [Resolve]. rewrite Hb, Hs.
    rewrite decide_not_elem by (rewrite dual_state_elem; eauto using dual_dest_false).
    rewrite decide_elem by by rewrite dest_state_elem. by rewrite Ht.
  - rewrite (Resolve_routes r m k b rd (pre ++ d :: post)) by done. unfold check_active.
    by rewrite (proj2 (first_inactive_some (pre ++ d :: post) d)) by eauto.
  - rewrite (Resolve_routes r m k b rd ws) by done.
    apply check_active_ok; [done|by eapply routes_active].
Qed.

Lemma Resolve_ok r m k res :
  Resolve r m k = Ok res →
  ∃ mp b, m = Some mp ∧ Buckets mp !! BucketFor k (bucketCount r) = Some b
    ∧ routes mp b (ReadShard res) (WriteShards res) ∧ Forall active (WriteShards res)
    ∧ RBucketID res = BucketFor k (bucketCount r) ∧ RMigrationState res = State b.
Proof.
  intros H. pose proof (Resolve_outcome r m k) as Ho. rewrite H in Ho.
  inversion Ho; subst; cbn. eauto 10.
Qed.

Lemma Resolve_shape r m k res :
  Resolve r m k = Ok res →
  ∃ tl, WriteShards res = ReadShard res :: tl ∧ (length tl ≤ 1)%nat.
Proof. intros (mp & b & _ & _ & Hr & _)%Resolve_ok. by eapply routes_shape. Qed.

Lemma routes_registered m b rd ws d :
  routes m b rd ws → d ∈ ws → ∃ id, Shards m !! id = Some d.
Proof. destruct 1; rewrite ?elem_of_cons, elem_of_nil; naive_solver. Qed.

(** Two mappings that agree on the shards a bucket names route it alike. *)
Lemma routes_agree m1 m2 b rd ws :
  Shards m1 !! BShardID b = Shards m2 !! BShardID b →
  Shards m1 !! DestShardID b = Shards m2 !! DestShardID b →
  routes m1 b rd ws → routes m2 b rd ws.
Proof.
  intros Es Et. destruct 1; rewrite ?Es, ?Et in *;
    [by constructor|by constructor|by eapply routes_degraded|by eapply routes_dest].
Qed.

Lemma route_outcome_agree n k m1 m2 o :
  (∀ b, Buckets m1 !! BucketFor k n = Some b →
     Shards m1 !! BShardID b = Shards m2 !! BShardID b
     ∧ Shards m1 !! DestShardID b = Shards m2 !! DestShardID b) →
  Buckets m1 !! BucketFor k n = Buckets m2 !! BucketFor k n →
  route_outcome n k (Some m1) o → route_outcome n k (Some m2) o.
Proof.
  intros Hs Eb H. inversion H as [|m Hb|m b Hb Hsrc|m b src Hb Hsrc Hc Ht|m b rd pre d post Hb Hr Hp Hd|m b rd ws Hb Hr Ha];
    subst; try destruct (Hs _ Hb) as [E1 E2]; rewrite Eb in Hb;
    rewrite ?E1, ?E2 in *.
  - by constructor.
  - by eapply outcome_unknown_source.
  - by eapply outcome_unknown_dest.
  - eapply outcome_unavailable; [done| |done|done]. by eapply routes_agree.
  - eapply outcome_resolved; [done| |done]. by eapply routes_agree.
Qed.

(** Routing does not look at the revision: mappings with the same records are
    interchangeable. *)
#[export] Instance Resolve_proper r : Proper ((≡@{option Mapping}) ==> (=) ==> (=)) (Resolve r).
Proof.
  intros ?? E k ? <-. destruct E as [m1 m2 [Es Eb]|]; [|done].
  symmetry. apply route_outcome_Resolve.
  apply (route_outcome_agree _ _ m1 m2); [|by rewrite Eb|apply Resolve_outcome].
  intros b _. by rewrite Es.
Qed.

(** ** The states of a migration *)

(** The order in which the guide walks a bucket through a migration. *)
Definition migration_order : list string :=
  [StateActiveSource; StateCopying; StateDualWrite; StateCDCCatchup; StateVerifying;
   StateCutover; StateDrainingSrc; StateActiveDest].

Definition migration_next (st st' : string) : Prop :=
  ∃ i, migration_order !! i = Some st ∧ migration_order !! S i = Some st'.

(** The same bucket, between the same two shards, in another state. *)
Definition set_state (b : BucketDef) (st : string) : BucketDef :=
  mkBucketDef (BucketID b) (BShardID b) (DestShardID b) st (MappingVersion b).

Definition put_bucket (id : Z) (b : BucketDef) (m : Mapping) : Mapping :=
  mkMapping (Revision m) (Shards m) (<[id := b]> (Buckets m)).

Definition is_dual (st : string) : bool :=
  bool_decide (st ∈ [StateDualWrite; StateCDCCatchup; StateVerifying]).
Definition is_dest (st : string) : bool :=
  bool_decide (st ∈ [StateCutover; StateDrainingSrc; StateActiveDest]).

Definition state_reads (st : string) (src dst : ShardDef) : ShardDef :=
  if is_dest st then dst else src.
Definition state_writes (st : string) (src dst : ShardDef) : list ShardDef :=
  if is_dest st then [dst] else if is_dual st then [src; dst] else [src].

Lemma routes_both m b src dst rd ws :
  Shards m !! BShardID b = Some src → Shards m !! DestShardID b = Some dst →
  routes m b rd ws → rd = state_reads (State b) src dst ∧ ws = state_writes (State b) src dst.
Proof.
  intros Hs Ht Hr. unfold state_reads, state_writes, is_dest, is_dual.
  destruct Hr; simplify_eq; repeat case_bool_decide;
    rewrite ?dual_state_elem, ?dest_state_elem in *; try done;
    exfalso; eauto using dual_dest_false.
Qed.

(** Along the order, what a state reads was written in the state before. *)
Lemma migration_next_covered st st' src dst :
  migration_next st st' → state_reads st' src dst ∈ state_writes st src dst.
Proof.
  intros (i & H1 & H2).
  destruct i as [|[|[|[|[|[|[|[|i]]]]]]]]; simplify_eq/=;
    unfold state_reads, state_writes; simpl; set_solver.
Qed.

(** ** A small map for the examples: two shards, one bucket *)

Definition ex_shard (id status : string) : ShardDef :=
  mkShardDef id status (mkEndpoint ("pg-" +:+ id +:+ "-rw") 6432 "payment")
    (Some (mkEndpoint ("pg-" +:+ id +:+ "-ro") 6432 "payment")) "secret/payment" "jakarta".

Definition ex_bucket (st : string) : BucketDef := mkBucketDef 0 "s1" "s2" st 0.

Definition ex_mapping (st status1 status2 : string) : Mapping :=
  mkMapping 7 {[ "s1" := ex_shard "s1" status1; "s2" := ex_shard "s2" status2 ]}
    {[ 0 := ex_bucket st ]}.

(** ** Properties *)

(** C1: [Resolve] refines the routing table of the guide: on every snapshot
    and key it returns the outcome of the table, and only that outcome, each
    error included. *)
Theorem resolve_refines_table (r : Router) (m : option Mapping) (k : go_any)
    (o : result RouterError Resolved) :
  Resolve r m k = o ↔ route_outcome (bucketCount r) k m o.
Proof.
  split; [intros <-; apply Resolve_outcome|apply route_outcome_Resolve].
Qed.

(** C16: a resolved request is safe to execute: the bucket is in range, the
    write set has one or two entries headed by the shard that serves the
    reads, so [PrimaryWriteShard] does not panic, and every shard in it is
    registered and [ACTIVE]. *)
Theorem resolve_success_safe (c : Z) (m : Mapping) (k : go_any) (res : Resolved) :
  in_int64 c = true → Resolve (New c) (Some m) k = Ok res →
  0 ≤ RBucketID res < effective_count c
  ∧ PrimaryWriteShard res = Some (ReadShard res)
  ∧ (1 ≤ length (WriteShards res) ≤ 2)%nat
  ∧ ∀ d, d ∈ WriteShards res → Status d = ShardActive ∧ ∃ id, Shards m !! id = Some d.
Proof.
  intros Hc H. pose proof (Resolve_shape _ _ _ _ H) as (tl & Hw & Hl).
  apply Resolve_ok in H as (mp & b & [= <-] & _ & Hr & Ha & -> & _).
  refine (conj _ (conj _ (conj _ _))).
  - change (bucketCount (New c)) with (effective_count c).
    pose proof (BucketFor_range k (effective_count c)) as B.
    assert (effective_count (effective_count c) = effective_count c) as E.
    { pose proof (effective_count_pos c). unfold effective_count at 1. case_match; [zb|done]. }
    rewrite E in B. apply B. apply in_int64_spec in Hc. apply in_int64_spec.
    unfold effective_count, DefaultBucketCount. case_match; lia.
  - unfold PrimaryWriteShard. by rewrite Hw.
  - rewrite Hw. cbn. lia.
  - intros d Hd. split; [|by eapply routes_registered].
    by apply (proj1 (Forall_forall _ _) Ha).
Qed.

Lemma resolve_success_safe_witness :
  ∃ res, Resolve (New 1) (Some (ex_mapping StateVerifying ShardActive ShardActive))
           (AString "tenant-1") = Ok res
    ∧ PrimaryWriteShard res = Some (ReadShard res).
Proof.
  eexists. split; [by vm_compute|].
  by apply (resolve_success_safe 1 (ex_mapping StateVerifying ShardActive ShardActive)
              (AString "tenant-1")); vm_compute.
Defined.

(** C21: a step of a migration reads where writes have been going. When a bucket
    moves to the next state of the guide's order, both of its shards being
    registered before and after the step, the shard that serves the reads in the
    new state was in the write set of the old one: a write routed by the old state
    was addressed to it, first or as a secondary. *)
Theorem migration_step_covered (r : Router) (m : Mapping) (k : go_any) (b : BucketDef)
    (src dst : ShardDef) (st st' : string) (res res' : Resolved) :
  migration_next st st' →
  Shards m !! BShardID b = Some src → Shards m !! DestShardID b = Some dst →
  Resolve r (Some (put_bucket (BucketFor k (bucketCount r)) (set_state b st) m)) k = Ok res →
  Resolve r (Some (put_bucket (BucketFor k (bucketCount r)) (set_state b st') m)) k = Ok res' →
  ReadShard res' ∈ WriteShards res.
Proof.
  intros Hn Hs Ht (m1 & b1 & [= <-] & Hb & Hr & _)%Resolve_ok (m2 & b2 & [= <-] & Hb' & Hr' & _)%Resolve_ok.
  cbn in Hb, Hb'. rewrite lookup_insert_eq in Hb, Hb'. simplify_eq.
  destruct (routes_both (put_bucket _ (set_state b st) m) (set_state b st) src dst _ _ Hs Ht Hr) as [_ ->].
  destruct (routes_both (put_bucket _ (set_state b st') m) (set_state b st') src dst _ _ Hs Ht Hr') as [-> _].
  by apply migration_next_covered.
Qed.

Lemma migration_step_covered_witness :
  ∃ res, ReadShard res = ex_shard "s2" ShardActive
    ∧ ReadShard res ∈ [ex_shard "s1" ShardActive; ex_shard "s2" ShardActive].
Proof.
  eexists (mkResolved 0 (ex_shard "s2" ShardActive) [ex_shard "s2" ShardActive] StateCutover).
  split; [done|].
  apply (migration_step_covered (New 1) (ex_mapping StateVerifying ShardActive ShardActive)
           (AString "tenant-1") (ex_bucket StateVerifying)
           (ex_shard "s1" ShardActive) (ex_shard "s2" ShardActive) StateVerifying StateCutover
           (mkResolved 0 (ex_shard "s1" ShardActive)
              [ex_shard "s1" ShardActive; ex_shard "s2" ShardActive] StateVerifying));
    [by exists 4%nat|by vm_compute..].
Defined.

(** Routing a key depends only on its own bucket record and on the two
    shards the record names: an update of the map elsewhere, or of the
    revision, never reroutes it. *)
Lemma resolve_local (r : Router) (m1 m2 : Mapping) (k : go_any) :
  Buckets m1 !! BucketFor k (bucketCount r) = Buckets m2 !! BucketFor k (bucketCount r) →
  (∀ b, Buckets m1 !! BucketFor k (bucketCount r) = Some b →
     Shards m1 !! BShardID b = Shards m2 !! BShardID b
     ∧ Shards m1 !! DestShardID b = Shards m2 !! DestShardID b) →
  Resolve r (Some m1) k = Resolve r (Some m2) k.
Proof.
  intros Eb Es. symmetry. apply route_outcome_Resolve.
  by apply (route_outcome_agree _ _ m1 m2); [| |apply Resolve_outcome].
Qed.

Lemma resolve_local_witness :
  let m := ex_mapping StateCopying ShardActive ShardActive in
  let m' := mkMapping 8 (<["s9" := ex_shard "s9" ShardRetired]> (Shards m))
              (<[5 := ex_bucket StateCutover]> (Buckets m)) in
  Resolve (New 1) (Some m) (AString "tenant-1") = Resolve (New 1) (Some m') (AString "tenant-1").
Proof.
  intros m m'. apply (resolve_local (New 1) m m' (AString "tenant-1")); [by vm_compute|].
  intros b Hb. assert (b = ex_bucket StateCopying) as -> by (vm_compute in Hb; by injection Hb as <-).
  split; by vm_compute.
Defined.

(** A read that is not [EVENTUAL] goes to the writer endpoint of the
    primary write shard, so it sees the writes this router has executed; an
    [EVENTUAL] read goes to an endpoint of the same shard. *)
Lemma reads_follow_consistency (r : Router) (m : option Mapping) (k : go_any)
    (res : Resolved) (c : string) :
  Resolve r m k = Ok res →
  ∃ p, PrimaryWriteShard res = Some p
    ∧ (c ≠ ReadEventual → ReadEndpoint res (ParseReadConsistency c) = Writer p)
    ∧ (c = ReadEventual →
       ReadEndpoint res (ParseReadConsistency c) = default (Writer p) (Reader p)).
Proof.
  intros (tl & Hw & _)%Resolve_shape. exists (ReadShard res).
  unfold PrimaryWriteShard, ReadEndpoint. rewrite Hw. split_and!; [done|..]; intros Hc.
  - destruct (ParseReadConsistency_cases c) as [[-> _]|[[_ ?]|[-> _]]]; done.
  - subst c. cbn. by destruct (Reader (ReadShard res)).
Qed.

Lemma reads_follow_consistency_witness :
  ∃ res, Resolve (New 1) (Some (ex_mapping StateCutover ShardDraining ShardActive))
           (AString "tenant-1") = Ok res
    ∧ ReadEndpoint res (ParseReadConsistency "") = Writer (ex_shard "s2" ShardActive).
Proof.
  eexists. split; [by vm_compute|].
  destruct (reads_follow_consistency (New 1)
              (Some (ex_mapping StateCutover ShardDraining ShardActive)) (AString "tenant-1")
              (mkResolved 0 (ex_shard "s2" ShardActive) [ex_shard "s2" ShardActive] StateCutover) "")
    as (p & Hp & Hs & _); [by vm_compute|].
  injection Hp as <-. by apply Hs.
Defined.

(** In the dual-write states a source that is not [ACTIVE] is an outage:
    the request fails, although the comment above the check says that a
    draining source is expected during a migration. *)
Lemma dual_state_inactive_source_fails (r : Router) (m : Mapping) (k : go_any)
    (b : BucketDef) (src : ShardDef) :
  Buckets m !! BucketFor k (bucketCount r) = Some b → dual_state (State b) →
  Shards m !! BShardID b = Some src → Status src ≠ ShardActive →
  Resolve r (Some m) k = Err (ErrShardUnavailable (ShardID src)).
Proof.
  intros Hb Hd Hs Ha. apply route_outcome_Resolve.
  destruct (Shards m !! DestShardID b) as [dst|] eqn:Ht.
  - by apply (outcome_unavailable _ _ m b src [] src [dst]); [|by constructor| |].
  - by apply (outcome_unavailable _ _ m b src [] src []); [|by eapply routes_degraded| |].
Qed.

Lemma dual_state_inactive_source_fails_witness :
  Resolve (New 1) (Some (ex_mapping StateDualWrite ShardDraining ShardActive)) (AString "tenant-1")
  = Err (ErrShardUnavailable "s1").
Proof.
  apply (dual_state_inactive_source_fails (New 1)
           (ex_mapping StateDualWrite ShardDraining ShardActive) (AString "tenant-1")
           (ex_bucket StateDualWrite) (ex_shard "s1" ShardDraining));
    [by vm_compute|by left|by vm_compute|done].
Defined.

(** From the cutover on, the source shard only has to be registered, in
    whatever status; the destination must be registered and [ACTIVE], else
    the request fails and is not sent to the source. *)
Lemma cutover_depends_on_dest (r : Router) (m : Mapping) (k : go_any)
    (b : BucketDef) (src : ShardDef) :
  Buckets m !! BucketFor k (bucketCount r) = Some b → dest_state (State b) →
  Shards m !! BShardID b = Some src →
  Resolve r (Some m) k =
    match Shards m !! DestShardID b with
    | None => Err (ErrUnknownShard (DestShardID b) (BucketFor k (bucketCount r)))
    | Some dst =>
        if decide (Status dst = ShardActive)
        then Ok (mkResolved (BucketFor k (bucketCount r)) dst [dst] (State b))
        else Err (ErrShardUnavailable (ShardID dst))
    end.
Proof.
  intros Hb Hc Hs. apply route_outcome_Resolve.
  destruct (Shards m !! DestShardID b) as [dst|] eqn:Ht; [|by eapply outcome_unknown_dest].
  assert (routes m b dst [dst]) as Hr by by eapply routes_dest.
  case_decide.
  - by eapply outcome_resolved; [| |constructor].
  - by apply (outcome_unavailable _ _ m b dst [] dst []).
Qed.

Lemma cutover_depends_on_dest_witness :
  Resolve (New 1) (Some (ex_mapping StateCutover ShardRetired ShardMaintenance)) (AString "tenant-1")
  = Err (ErrShardUnavailable "s2").
Proof.
  rewrite (cutover_depends_on_dest (New 1) (ex_mapping StateCutover ShardRetired ShardMaintenance)
             (AString "tenant-1") (ex_bucket StateCutover) (ex_shard "s1" ShardRetired));
    [by vm_compute|by vm_compute|by left|by vm_compute].
Defined.
