(* ===== verification/Breaker.v ===== *)
(** * Package [breaker]: one circuit breaker per shard

    [internal/breaker/breaker.go]. Every method holds the mutex for its whole
    body, so a method is one atomic step on the breaker. Instants are integers
    in nanoseconds; the clock a method reads is an argument.

    The state a breaker is in is characterised by its history of calls
    ([history_state]): a specification without the fields of the struct. *)

From S2P Require Import Prelude GoInt.

(** ** Time *)

(** [time.Since]: the difference of two instants, saturated to a [Duration]. *)
Definition time_since (now t : Z) : Z := Z.max int64_min (Z.min int64_max (now - t)).

Definition second : Z := 1000000000.

(** ** The breaker *)

Inductive BState : Type := Closed | Open | HalfOpen.

#[global] Instance BState_eq_dec : EqDecision BState.
Proof. solve_decision. Defined.

Definition bstate_string (s : BState) : string :=
  match s with Open => "OPEN" | HalfOpen => "HALF_OPEN" | Closed => "CLOSED" end.

Inductive BreakerError : Type := ErrOpen.

Record Breaker := mkBreaker {
  state : BState;
  consecutiveFails : Z;
  openedAt : Z;
  FailureThreshold : Z;
  ResetTimeout : Z;
}.

Definition New : Breaker := mkBreaker Closed 0 0 5 (10 * second).

Definition Allow (now : Z) (b : Breaker) : result BreakerError unit * Breaker :=
  match state b with
  | Open =>
      if ResetTimeout b <=? time_since now (openedAt b)
      then (Ok (), mkBreaker HalfOpen (consecutiveFails b) (openedAt b)
                     (FailureThreshold b) (ResetTimeout b))
      else (Err ErrOpen, b)
  | _ => (Ok (), b)
  end.

Definition Success (b : Breaker) : Breaker :=
  mkBreaker Closed 0 (openedAt b) (FailureThreshold b) (ResetTimeout b).

Definition Failure (now : Z) (b : Breaker) : Breaker :=
  let fails := wrap64 (consecutiveFails b + 1) in
  if bool_decide (state b = HalfOpen) || (FailureThreshold b <=? fails)
  then mkBreaker Open fails now (FailureThreshold b) (ResetTimeout b)
  else mkBreaker (state b) fails (openedAt b) (FailureThreshold b) (ResetTimeout b).

(** ** The registry of breakers

    Entries are never removed nor replaced, so the pointer [For] returns is
    the key it was asked for: a method called through it updates that entry. *)

Abbreviation Registry := (gmap string Breaker).

Definition NewRegistry : Registry := ∅.

Definition For (shardID : string) (r : Registry) : Breaker * Registry :=
  match r !! shardID with
  | Some b => (b, r)
  | None => (New, <[shardID := New]> r)
  end.

(** A method called on the breaker of a shard. *)
Definition on_breaker (shardID : string) (f : Breaker → Breaker) (r : Registry) : Registry :=
  alter f shardID r.

Definition Snapshot (r : Registry) : gmap string BState := state <$> r.

(** A caller obtains the breaker of a shard and calls a method on it. *)
Definition use_breaker (shardID : string) (f : Breaker → Breaker) (r : Registry) : Registry :=
  on_breaker shardID f (snd (For shardID r)).

(** ** Histories *)

Inductive event : Type :=
| EAllow (now : Z)
| ESuccess
| EFailure (now : Z).

Definition step (b : Breaker) (e : event) : Breaker :=
  match e with
  | EAllow now => snd (Allow now b)
  | ESuccess => Success b
  | EFailure now => Failure now b
  end.

(** The breaker after a history, written with the latest call first. *)
Definition after (h : list event) : Breaker := foldr (λ e b, step b e) New h.

(** The failures since the last success. *)
Fixpoint failures (h : list event) : Z :=
  match h with
  | [] => 0
  | EAllow _ :: h => failures h
  | ESuccess :: _ => 0
  | EFailure _ :: h => 1 + failures h
  end.

(** The instant of the last failure since the last success. *)
Fixpoint last_failure (h : list event) : option Z :=
  match h with
  | [] => None
  | EAllow _ :: h => last_failure h
  | ESuccess :: _ => None
  | EFailure t :: _ => Some t
  end.

(** Whether a call was let through since, [timeout] after the last failure. *)
Fixpoint probed (timeout : Z) (h : list event) : bool :=
  match h with
  | EAllow now :: h =>
      probed timeout h
      || match last_failure h with Some t => timeout <=? time_since now t | None => false end
  | _ => false
  end.

(** The state as a function of the history: closed below five failures since
    the last success; from then on open, or half-open once a call has come
    ten seconds after the last failure. *)
Definition history_state (h : list event) : BState :=
  if failures h <? 5 then Closed
  else if probed (10 * second) h then HalfOpen else Open.

(** ** Lemmas *)

Lemma failures_nonneg h : 0 ≤ failures h ≤ Z.of_nat (length h).
Proof. induction h as [|[] h IH]; cbn [failures length]; lia. Qed.

Lemma last_failure_some h : 0 < failures h → is_Some (last_failure h).
Proof. induction h as [|[] h IH]; cbn [failures last_failure]; intros; eauto; lia. Qed.

(** What the struct holds after a history: the simulation relation. *)
Record agrees (h : list event) (b : Breaker) : Prop := {
  agrees_state : state b = history_state h;
  agrees_fails : consecutiveFails b = failures h;
  agrees_opened : 5 ≤ failures h → last_failure h = Some (openedAt b);
  agrees_threshold : FailureThreshold b = 5;
  agrees_timeout : ResetTimeout b = 10 * second;
}.

Lemma agrees_new : agrees [] New.
Proof. by constructor. Qed.

Lemma agrees_success h b : agrees h b → agrees (ESuccess :: h) (Success b).
Proof. intros []. by constructor. Qed.

Lemma agrees_failure h b now :
  Z.of_nat (length h) < int64_max → agrees h b → agrees (EFailure now :: h) (Failure now b).
Proof.
  intros Hlen [Hs Hf Ho Ht Hr]. pose proof (failures_nonneg h) as Hn.
  unfold int64_max in Hlen.
  assert (wrap64 (consecutiveFails b + 1) = 1 + failures h) as Hw
    by (rewrite Hf, wrap64_id; lia).
  unfold Failure. rewrite Hw, Hs, Ht. unfold history_state.
  destruct (Z.leb_spec 5 (1 + failures h)) as [Hge|Hlt].
  - rewrite orb_true_r. constructor; cbn [state consecutiveFails openedAt FailureThreshold ResetTimeout failures last_failure]; try done.
    unfold history_state. cbn [failures probed]. by rewrite (proj2 (Z.ltb_ge _ _)).
  - rewrite (proj2 (Z.ltb_lt (failures h) 5)) by lia. cbn [bool_decide orb].
    constructor; cbn [state consecutiveFails openedAt FailureThreshold ResetTimeout failures last_failure]; try done; [|lia].
    unfold history_state. cbn [failures]. by rewrite (proj2 (Z.ltb_lt _ _)).
Qed.

Lemma history_state_allow h now :
  history_state (EAllow now :: h) =
    match history_state h with
    | Open =>
        match last_failure h with
        | Some t => if 10 * second <=? time_since now t then HalfOpen else Open
        | None => Open
        end
    | s => s
    end.
Proof.
  unfold history_state. cbn [failures probed]. case_match; [done|].
  destruct (probed (10 * second) h); cbn [orb]; [done|].
  destruct (last_failure h); [|done]. by case_match.
Qed.

Lemma history_state_open h : history_state h = Open → 5 ≤ failures h.
Proof. unfold history_state. intros. case_match; [done|]. zb. Qed.

Lemma agrees_allow h b now : agrees h b → agrees (EAllow now :: h) (snd (Allow now b)).
Proof.
  intros [Hs Hf Ho Ht Hr]. pose proof (history_state_allow h now) as Ha.
  unfold Allow. rewrite Hs in *. destruct (history_state h) eqn:E.
  - constructor; cbn [snd failures last_failure]; by rewrite ?Ha.
  - apply history_state_open in E. specialize (Ho E). rewrite Ho in Ha. rewrite Hr.
    case_match; constructor; cbn [snd failures last_failure state consecutiveFails openedAt FailureThreshold ResetTimeout]; by rewrite ?Ha.
  - constructor; cbn [snd failures last_failure]; by rewrite ?Ha.
Qed.

Lemma after_agrees h : Z.of_nat (length h) ≤ int64_max → agrees h (after h).
Proof.
  induction h as [|e h IH]; cbn [length]; intros Hlen; [apply agrees_new|].
  assert (agrees h (after h)) as Hh by (apply IH; lia).
  destruct e; cbn [after foldr step]; fold (after h);
    [by apply agrees_allow|by apply agrees_success|apply agrees_failure; [lia|done]].
Qed.

(** A tripped breaker, before and after the timeout. *)
Lemma tripped_allow h now t :
  Z.of_nat (length h) ≤ int64_max →
  5 ≤ failures h → probed (10 * second) h = false → last_failure h = Some t →
  (time_since now t < 10 * second → Allow now (after h) = (Err ErrOpen, after h))
  ∧ (10 * second ≤ time_since now t →
     fst (Allow now (after h)) = Ok () ∧ state (snd (Allow now (after h))) = HalfOpen).
Proof.
  intros Hlen Hf Hp Ht. destruct (after_agrees h Hlen) as [Hs _ Ho _ Hr].
  assert (state (after h) = Open) as Hopen.
  { rewrite Hs. unfold history_state. by rewrite (proj2 (Z.ltb_ge _ _) Hf), Hp. }
  specialize (Ho Hf). rewrite Ht in Ho. injection Ho as Ho.
  unfold Allow. rewrite Hopen, Hr, <-Ho.
  split; intros H; [by rewrite (proj2 (Z.leb_gt _ _) H)|by rewrite (proj2 (Z.leb_le _ _) H)].
Qed.

(** ** Properties *)

(** C8: the breaker implements its specification by history: after any
    sequence of calls its state is the one computed from the failures since
    the last success and from the time of the last of them. *)
Theorem breaker_refines_history (h : list event) :
  Z.of_nat (length h) ≤ int64_max → state (after h) = history_state h.
Proof. intros H. apply (agrees_state _ _ (after_agrees h H)). Qed.

Lemma breaker_refines_history_witness :
  state (after [EFailure 5; EFailure 4; EFailure 3; EFailure 2; ESuccess; EFailure 1; EFailure 0])
  = Closed
  ∧ state (after [EAllow (11 * second); EFailure 5; EFailure 4; EFailure 3; EFailure 2; EFailure 1])
    = HalfOpen.
Proof. split; by rewrite breaker_refines_history. Defined.

(** C37: a tripped breaker fails fast: after five failures since the last
    success, a call that comes less than ten seconds after the last failure
    (and no later call was let through before it) is refused with [ErrOpen]
    and leaves the breaker as it is; from ten seconds on it is let through
    and the breaker is half-open. *)
Theorem breaker_fails_fast (h : list event) (now t : Z) :
  Z.of_nat (length h) ≤ int64_max →
  5 ≤ failures h → probed (10 * second) h = false → last_failure h = Some t →
  (time_since now t < 10 * second → Allow now (after h) = (Err ErrOpen, after h))
  ∧ (10 * second ≤ time_since now t →
     fst (Allow now (after h)) = Ok () ∧ state (snd (Allow now (after h))) = HalfOpen).
Proof.
  intros. by apply tripped_allow.
Qed.

Lemma breaker_fails_fast_witness :
  let h := [EFailure 5; EFailure 4; EFailure 3; EFailure 2; EFailure 1] in
  fst (Allow 6 (after h)) = Err ErrOpen ∧ fst (Allow (10 * second + 5) (after h)) = Ok ().
Proof.
  intros h. split.
  - destruct (breaker_fails_fast h 6 5) as [H _]; [done..|]. by rewrite H.
  - destruct (breaker_fails_fast h (10 * second + 5) 5) as [_ H]; [done..|]. by apply H.
Defined.

(** A half-open breaker does not limit the probes: it lets every call
    through, whatever their number, until one of them reports its outcome
    (the comment on [ResetTimeout] announces a single probe). *)
Lemma half_open_admits_all (b : Breaker) (nows : list Z) (now : Z) :
  state b = HalfOpen →
  let b' := foldl (λ b t, snd (Allow t b)) b nows in
  b' = b ∧ Allow now b' = (Ok (), b).
Proof.
  intros Hb b'. assert (b' = b) as ->.
  { unfold b'. induction nows as [|t nows IH]; [done|]. cbn. unfold Allow at 2. by rewrite Hb. }
  split; [done|]. unfold Allow. by rewrite Hb.
Qed.

Lemma half_open_admits_all_witness :
  let b := after [EAllow (11 * second); EFailure 5; EFailure 4; EFailure 3; EFailure 2; EFailure 1] in
  Allow 11 (foldl (λ b t, snd (Allow t b)) b [1; 2; 3]) = (Ok (), b).
Proof. intros b. by apply (half_open_admits_all b [1; 2; 3] 11). Defined.

(** A call that was admitted before the breaker opened reports afterwards: its
    success closes the breaker at once, its failure starts the waiting time
    again, and neither waits for the half-open state. *)
Lemma late_report (h : list event) (now t : Z) :
  state (after h) = Open → FailureThreshold (after h) <= wrap64 (consecutiveFails (after h) + 1) →
  fst (Allow now (after (ESuccess :: h))) = Ok ()
  ∧ state (after (EFailure t :: h)) = Open ∧ openedAt (after (EFailure t :: h)) = t.
Proof.
  intros Ho Hf%Z.leb_le. split; [reflexivity|]. change (after (EFailure t :: h)) with (Failure t (after h)).
  unfold Failure. by rewrite Hf, orb_true_r.
Qed.

(** Six calls are admitted, five of them fail and the sixth one succeeds. *)
Lemma late_report_witness :
  let h := [EFailure 5; EFailure 4; EFailure 3; EFailure 2; EFailure 1;
            EAllow 0; EAllow 0; EAllow 0; EAllow 0; EAllow 0; EAllow 0] in
  fst (Allow 7 (after h)) = Err ErrOpen ∧ fst (Allow 7 (after (ESuccess :: h))) = Ok ().
Proof.
  intros h. split; [vm_compute; reflexivity|].
  destruct (late_report h 7 6) as [H _]; [vm_compute; reflexivity|vm_compute; discriminate|exact H].
Defined.

(** ** Registry lemmas *)

Lemma For_lookup id r : snd (For id r) !! id = Some (fst (For id r)).
Proof. unfold For. destruct (r !! id) eqn:E; cbn; [done|]. by rewrite lookup_insert_eq. Qed.

Lemma For_other id id' r : id ≠ id' → snd (For id r) !! id' = r !! id'.
Proof. intros. unfold For. destruct (r !! id); cbn; [done|]. by rewrite lookup_insert_ne. Qed.

Lemma For_existing id r b : r !! id = Some b → For id r = (b, r).
Proof. intros E. unfold For. by rewrite E. Qed.

Lemma on_breaker_other id id' f r : id ≠ id' → on_breaker id f r !! id' = r !! id'.
Proof. intros. by apply lookup_alter_ne. Qed.

Lemma on_breaker_lookup id f r b : r !! id = Some b → on_breaker id f r !! id = Some (f b).
Proof. intros E. unfold on_breaker. by rewrite lookup_alter_eq, E. Qed.

Lemma use_breaker_other id id' f r : id ≠ id' → use_breaker id f r !! id' = r !! id'.
Proof. intros. unfold use_breaker. by rewrite on_breaker_other, For_other. Qed.

Lemma use_breaker_lookup id f r : use_breaker id f r !! id = Some (f (default New (r !! id))).
Proof.
  unfold use_breaker. rewrite (on_breaker_lookup _ _ _ _ (For_lookup id r)).
  unfold For. by destruct (r !! id).
Qed.

(** The registry after calls on the breakers of several shards, latest first. *)
Definition registry_after (calls : list (string * event)) : Registry :=
  foldr (λ '(id, e) r, use_breaker id (λ b, step b e) r) NewRegistry calls.

(** The calls on one shard. *)
Definition calls_on (id : string) (calls : list (string * event)) : list event :=
  map snd (filter (λ c, c.1 = id) calls).

(** Breakers are independent: however the calls on several shards
    interleave, the breaker of a shard is the one its own calls lead to; a
    shard without calls has none. *)
Lemma breakers_independent (calls : list (string * event)) (id : string) :
  registry_after calls !! id =
    match calls_on id calls with
    | [] => None
    | h => Some (after h)
    end.
Proof.
  induction calls as [|[id' e] calls IH]; [done|].
  cbn [registry_after foldr]. fold (registry_after calls).
  unfold calls_on. rewrite filter_cons. case_decide as Hid; cbn in Hid.
  - subst id'. rewrite use_breaker_lookup, IH. cbn [map snd]. fold (calls_on id calls).
    by destruct (calls_on id calls).
  - by rewrite use_breaker_other.
Qed.

#[export] Hint Rewrite For_other on_breaker_other using done : go.
