(* ===== verification/Keys.v ===== *)
(** * The key-space of the registry

    [internal/registry/keys.go], and [getPrefixRangeEnd] of
    [internal/registry/etcdhttp.go]: the range of keys a prefix selects. *)

From S2P Require Import Prelude GoInt GoString GoSort.
From Stdlib Require Import Ascii.

Definition prefix : string := "/sharding/".
Definition versionKey : string := prefix +:+ "version".
Definition shardsPrefix : string := prefix +:+ "shards/".
Definition bucketsPrefix : string := prefix +:+ "buckets/".
Definition migrationPrefix : string := prefix +:+ "migrations/".

(** [None] is the result [("", false)]. *)
Definition shardIDFromKey (key : string) : option string :=
  if has_prefix key shardsPrefix then Some (trim_prefix key shardsPrefix) else None.

(** [None] is the result [(0, false)]. *)
Definition bucketIDFromKey (key : string) : option Z :=
  if has_prefix key bucketsPrefix then
    match atoi (trim_prefix key bucketsPrefix) with
    | Ok id => Some id
    | Err _ => None
    end
  else None.

(** ** [getPrefixRangeEnd] *)

(** The bytes before the last one below [0xff], that byte incremented, and
    nothing after it; [None] when every byte is [0xff]. *)
Fixpoint increment_last (s : string) : option string :=
  match s with
  | EmptyString => None
  | String c s =>
      match increment_last s with
      | Some e => Some (String c e)
      | None => if code c <? 255 then Some (String (chr (code c + 1)) "") else None
      end
  end.

Definition getPrefixRangeEnd (p : string) : string :=
  match increment_last p with
  | Some e => e
  | None => String (chr 0) ""
  end.

(** ** Lemmas *)

Lemma shardIDFromKey_prefix id : shardIDFromKey (shardsPrefix +:+ id) = Some id.
Proof.
  unfold shardIDFromKey. rewrite trim_prefix_app.
  by rewrite (proj2 (has_prefix_iff (shardsPrefix +:+ id) shardsPrefix)) by eauto.
Qed.

Lemma shardIDFromKey_some key id : shardIDFromKey key = Some id ↔ key = shardsPrefix +:+ id.
Proof.
  split; [|intros ->; apply shardIDFromKey_prefix].
  unfold shardIDFromKey. destruct (has_prefix key shardsPrefix) eqn:E; [|done].
  apply has_prefix_iff in E as [r ->]. rewrite trim_prefix_app. by intros [= ->].
Qed.

Lemma bucketIDFromKey_prefix s :
  bucketIDFromKey (bucketsPrefix +:+ s) = match atoi s with Ok id => Some id | Err _ => None end.
Proof.
  unfold bucketIDFromKey. rewrite trim_prefix_app.
  by rewrite (proj2 (has_prefix_iff (bucketsPrefix +:+ s) bucketsPrefix)) by eauto.
Qed.

Lemma bucketIDFromKey_some key id :
  bucketIDFromKey key = Some id ↔ ∃ s, key = bucketsPrefix +:+ s ∧ atoi s = Ok id.
Proof.
  split.
  - unfold bucketIDFromKey. destruct (has_prefix key bucketsPrefix) eqn:E; [|done].
    apply has_prefix_iff in E as [r ->]. rewrite trim_prefix_app.
    destruct (atoi r) eqn:A; [|done]. intros [= ->]. eauto.
  - intros (s & -> & E). by rewrite bucketIDFromKey_prefix, E.
Qed.

(** A key is never both a shard key and a bucket key. *)
Lemma shard_bucket_disjoint key id : shardIDFromKey key = Some id → bucketIDFromKey key = None.
Proof.
  intros ->%shardIDFromKey_some. destruct (bucketIDFromKey _) as [n|] eqn:E; [|done].
  by apply bucketIDFromKey_some in E as (s & E & _).
Qed.

(** ** The order of keys in etcd *)

(** Whether a key is in the half-open range [[start, range_end)); the range
    end ["\x00"] stands for no upper bound. *)
Definition in_range (start range_end key : string) : bool :=
  negb (bytes_lt key start)
  && (bool_decide (range_end = String (chr 0) "") || bytes_lt key range_end).

Lemma bytes_lt_app_l p s : bytes_lt (p +:+ s) p = false.
Proof.
  induction p as [|c p IH]; cbn; [by destruct s|].
  by rewrite Z.ltb_irrefl, Z.eqb_refl, IH.
Qed.

Lemma increment_last_above p e s : increment_last p = Some e → bytes_lt (p +:+ s) e = true.
Proof.
  revert e. induction p as [|c p IH]; intros e; cbn; [done|].
  destruct (increment_last p) as [e'|] eqn:E.
  - intros [= <-]. rewrite IH by done. by rewrite Z.eqb_refl, orb_true_r.
  - case_match; [|done]. intros [= <-]. cbn. zb.
    pose proof (code_range c). rewrite code_chr, Z.mod_small by lia.
    by rewrite (proj2 (Z.ltb_lt _ _)) by lia.
Qed.

Lemma increment_last_none p key :
  increment_last p = None → bytes_lt key p = false → ∃ r, key = p +:+ r.
Proof.
  revert key. induction p as [|c p IH]; intros key; cbn; [eauto|].
  destruct (increment_last p) eqn:E; [done|]. case_match; [done|]. intros _.
  destruct key as [|d key]; cbn; [done|].
  intros [Hlt Heq]%orb_false_iff. zb.
  pose proof (code_range c). pose proof (code_range d).
  assert (d = c) as -> by (apply code_inj; lia).
  rewrite Z.eqb_refl in Heq. cbn in Heq.
  destruct (IH key) as [r ->]; [done|done|by exists r].
Qed.

Lemma increment_last_between p e key :
  increment_last p = Some e → bytes_lt key p = false → bytes_lt key e = true →
  ∃ r, key = p +:+ r.
Proof.
  revert e key. induction p as [|c p IH]; intros e key; cbn; [done|].
  destruct (increment_last p) as [e'|] eqn:E.
  - intros [= <-]. destruct key as [|d key]; cbn; [done|].
    intros Hge Hlt.
    destruct (Z.ltb_spec (code d) (code c)); [done|]. cbn in Hge.
    destruct (Z.eqb_spec (code d) (code c)) as [Ec|]; cbn in *; [|done].
    apply code_inj in Ec as ->. destruct (IH e' key) as [r ->]; try done. by exists r.
  - case_match; [|done]. intros [= <-]. destruct key as [|d key]; cbn; [done|].
    zb. pose proof (code_range c). rewrite code_chr, Z.mod_small by lia.
    intros Hge Hlt.
    assert (bytes_lt key "" = false) as Hnil by by destruct key as [|].
    rewrite Hnil, andb_false_r, orb_false_r in Hlt. apply Z.ltb_lt in Hlt.
    apply orb_false_iff in Hge as [Hge1 Hge2]. apply Z.ltb_ge in Hge1.
    assert (d = c) as -> by (apply code_inj; lia).
    rewrite Z.eqb_refl in Hge2. cbn in Hge2.
    destruct (increment_last_none p key E Hge2) as [r ->]. by exists r.
Qed.

(** A range end computed from a byte below [0xff] is never ["\x00"]. *)
Lemma increment_last_not_zero p e : increment_last p = Some e → e ≠ String (chr 0) "".
Proof.
  destruct p as [|c p]; cbn; [done|]. pose proof (code_range c).
  destruct (increment_last p) as [e'|] eqn:E.
  - intros [= <-] [= _ ->]. destruct p as [|d p]; [done|]. cbn in E.
    destruct (increment_last p); [done|]. by case_match.
  - case_match; [|done]. intros [= <-] [= E0]. zb.
    apply (f_equal code) in E0. rewrite !code_chr, !Z.mod_small in E0; lia.
Qed.

Lemma in_range_prefix p key : in_range p (getPrefixRangeEnd p) key = has_prefix key p.
Proof.
  apply eq_true_iff_eq. rewrite has_prefix_iff. unfold in_range, getPrefixRangeEnd.
  rewrite andb_true_iff, negb_true_iff. destruct (increment_last p) as [e|] eqn:E.
  - rewrite bool_decide_false by by eapply increment_last_not_zero. cbn [orb]. split.
    + intros [H1 H2]. by eapply increment_last_between.
    + intros [r ->]. split; [apply bytes_lt_app_l|by apply increment_last_above].
  - rewrite bool_decide_true by done. split.
    + intros [H _]. by apply increment_last_none.
    + intros [r ->]. split; [apply bytes_lt_app_l|done].
Qed.

(** ** Properties *)

(** C36: the range [[p, getPrefixRangeEnd(p))] sent to etcd selects exactly
    the keys that start with [p], for every prefix, also one that ends in
    bytes [0xff] or holds nothing else. *)
Theorem range_selects_prefix (p key : string) :
  in_range p (getPrefixRangeEnd p) key = has_prefix key p.
Proof. apply in_range_prefix. Qed.

(** The zero-padded form of an identifier, as in [/sharding/buckets/0527]. *)
Definition bucket_key (pad : nat) (id : Z) : string :=
  bucketsPrefix +:+ zeros pad +:+ format_int id.

(** A bucket identifier is read back from its key, with any number of
    leading zeros; two spellings of one identifier are the same bucket. *)
Lemma bucket_key_roundtrip (pad : nat) (id : Z) :
  0 ≤ id → in_int64 id = true → bucketIDFromKey (bucket_key pad id) = Some id.
Proof.
  intros Hid Hr. unfold bucket_key. rewrite bucketIDFromKey_prefix.
  by rewrite atoi_zeros.
Qed.

Lemma bucket_key_roundtrip_witness :
  bucketIDFromKey "/sharding/buckets/0527" = Some 527.
Proof. by apply (bucket_key_roundtrip 1 527). Defined.
