(* ===== verification/Base64.v ===== *)
(** * [base64.StdEncoding]

    etcd's JSON gateway carries keys and values in base64. [DecodeString]
    returns the bytes decoded before an error together with the error, and the
    watch uses them without looking at it. *)

From S2P Require Import Prelude GoInt GoString.
From Stdlib Require Import Ascii.

(** ** The alphabet *)

Definition char64 (v : Z) : ascii :=
  if v <? 26 then chr (65 + v)
  else if v <? 52 then chr (71 + v)
  else if v <? 62 then chr (v - 4)
  else if v =? 62 then "+"%char else "/"%char.

Definition val64 (c : ascii) : option Z :=
  let n := code c in
  if (65 <=? n) && (n <=? 90) then Some (n - 65)
  else if (97 <=? n) && (n <=? 122) then Some (n - 71)
  else if (48 <=? n) && (n <=? 57) then Some (n + 4)
  else if n =? 43 then Some 62
  else if n =? 47 then Some 63
  else None.

Lemma val64_char64 v : 0 ≤ v < 64 → val64 (char64 v) = Some v.
Proof.
  intros Hv. unfold char64.
  destruct (Z.ltb_spec v 26); [|destruct (Z.ltb_spec v 52); [|destruct (Z.ltb_spec v 62)]].
  4: destruct (Z.eqb_spec v 62) as [->|]; [by vm_compute|replace v with 63 by lia; by vm_compute].
  all: unfold val64; rewrite code_chr, Z.mod_small by lia.
  - rewrite (proj2 (Z.leb_le 65 (65 + v))), (proj2 (Z.leb_le (65 + v) 90)) by lia.
    cbn. f_equal. lia.
  - rewrite (proj2 (Z.leb_gt (71 + v) 90)), (andb_false_r (65 <=? 71 + v)) by lia.
    rewrite (proj2 (Z.leb_le 97 (71 + v))), (proj2 (Z.leb_le (71 + v) 122)) by lia.
    cbn. f_equal. lia.
  - rewrite (proj2 (Z.leb_gt 65 (v - 4))), (proj2 (Z.leb_gt 97 (v - 4))) by lia. cbn.
    rewrite (proj2 (Z.leb_le 48 (v - 4))), (proj2 (Z.leb_le (v - 4) 57)) by lia.
    cbn. f_equal. lia.
Qed.

Definition pad64 : ascii := "="%char.
Definition is_newline (c : ascii) : bool := (code c =? 10) || (code c =? 13).

(** What the decoder needs of the alphabet: no padding, no line break. *)
Lemma char64_plain v :
  0 ≤ v < 64 → Ascii.eqb (char64 v) pad64 = false ∧ is_newline (char64 v) = false.
Proof.
  intros Hv. pose proof (val64_char64 v Hv) as E. split.
  - apply Ascii.eqb_neq. intros C. rewrite C in E. by vm_compute in E.
  - unfold is_newline. destruct (Z.eqb_spec (code (char64 v)) 10) as [C|];
      [|destruct (Z.eqb_spec (code (char64 v)) 13) as [C|]; [|done]].
    all: unfold val64 in E; by rewrite C in E.
Qed.

Lemma char64_not_newline v : 0 ≤ v < 64 → is_newline (char64 v) = false.
Proof. intros. by apply char64_plain. Qed.

(** ** Encoding: three bytes to four characters *)

Fixpoint encode64 (s : string) : string :=
  match s with
  | EmptyString => ""
  | String a EmptyString =>
      let n := code a * 16 in
      String (char64 (n / 64)) (String (char64 (n mod 64)) (String pad64 (String pad64 "")))
  | String a (String b EmptyString) =>
      let n := (code a * 256 + code b) * 4 in
      String (char64 (n / 4096)) (String (char64 (n / 64 mod 64))
        (String (char64 (n mod 64)) (String pad64 "")))
  | String a (String b (String c s)) =>
      let n := code a * 65536 + code b * 256 + code c in
      String (char64 (n / 262144)) (String (char64 (n / 4096 mod 64))
        (String (char64 (n / 64 mod 64)) (String (char64 (n mod 64)) (encode64 s))))
  end.

(** ** Decoding *)

Fixpoint drop_newlines (s : string) : string :=
  match s with
  | EmptyString => ""
  | String c s => if is_newline c then drop_newlines s else String c (drop_newlines s)
  end.

Definition not_empty (s : string) : bool := match s with EmptyString => false | _ => true end.

(** The decoded bytes, and whether there was an error after them. *)
Fixpoint decode64_go (s : string) : string * bool :=
  match s with
  | EmptyString => ("", false)
  | String a (String b (String c (String d s))) =>
      match val64 a, val64 b with
      | Some a, Some b =>
          match val64 c with
          | Some c =>
              match val64 d with
              | Some d =>
                  let n := a * 262144 + b * 4096 + c * 64 + d in
                  let '(t, err) := decode64_go s in
                  (String (chr (n / 65536)) (String (chr (n / 256 mod 256))
                     (String (chr (n mod 256)) t)), err)
              | None =>
                  if Ascii.eqb d pad64 then
                    let n := a * 4096 + b * 64 + c in
                    (String (chr (n / 1024)) (String (chr (n / 4 mod 256)) ""), not_empty s)
                  else ("", true)
              end
          | None =>
              if Ascii.eqb c pad64 && Ascii.eqb d pad64 then
                (String (chr ((a * 64 + b) / 16)) "", not_empty s)
              else ("", true)
          end
      | _, _ => ("", true)
      end
  | _ => ("", true)
  end.

Definition decode64 (s : string) : string * bool := decode64_go (drop_newlines s).

(** ** Round trip *)

Lemma str_ind3 (P : string → Prop) :
  P "" → (∀ a, P (String a "")) → (∀ a b, P (String a (String b ""))) →
  (∀ a b c s, P s → P (String a (String b (String c s)))) → ∀ s, P s.
Proof.
  intros H0 H1 H2 H3.
  refine (fix rec s := match s with
    | EmptyString => H0
    | String a EmptyString => H1 a
    | String a (String b EmptyString) => H2 a b
    | String a (String b (String c s)) => H3 a b c s (rec s)
    end).
Qed.

Lemma code_of_parts a z : z mod 256 = code a → chr z = a.
Proof. intros E. apply code_inj. by rewrite code_chr. Qed.

(** The six-bit digits are in range; [lia] sees the bounds of the bytes. *)
Ltac sextets :=
  repeat match goal with c : ascii |- _ =>
    lazymatch goal with
    | _ : 0 ≤ code c < 256 |- _ => fail
    | _ => pose proof (code_range c)
    end
  end;
  Z.div_mod_to_equations; lia.

Lemma drop_newlines_encode64 s : drop_newlines (encode64 s) = encode64 s.
Proof.
  induction s as [|a|a b|a b c s IH] using str_ind3; cbn [encode64]; [done|..].
  all: cbn [drop_newlines].
  all: rewrite !char64_not_newline by sextets.
  1-2: done. by rewrite IH.
Qed.

Lemma decode64_go_encode64 s : decode64_go (encode64 s) = (s, false).
Proof.
  induction s as [|a|a b|a b c s IH] using str_ind3; cbn [encode64]; [done|..];
    cbn [decode64_go]; rewrite !val64_char64 by sextets.
  - cbn. f_equal. f_equal. apply code_of_parts. sextets.
  - cbn. f_equal. f_equal; [|f_equal]; apply code_of_parts; sextets.
  - rewrite IH. f_equal. f_equal; [|f_equal; [|f_equal]]; apply code_of_parts; sextets.
Qed.

Lemma decode64_encode64 s : decode64 (encode64 s) = (s, false).
Proof. unfold decode64. rewrite drop_newlines_encode64. apply decode64_go_encode64. Qed.
