(* ===== verification/Etcd.v ===== *)
(** * The etcd registry: applying key-values to the shard map

    [internal/registry/etcd.go]: [applyKV], the full load and one batch of the
    watch, as operations on the contents of a mapping. The order in which the
    watch and the reconciliation run is in [EtcdSync].

    The file ends with the consistency of the two ways the map is built: the
    incremental one and the full load compute the same map. *)

From S2P Require Import Prelude GoInt GoString Json Model Cache Keys.

(** ** Data *)

(** [decodedKV]: a key-value of a Range response. *)
Record decodedKV := mkKV { Key : string; Value : string }.

Record watchEvent := mkEvent {
  EType : string;
  EKey : string;
  EValue : string;
  ERevision : Z;
}.

Record watchBatch := mkBatch {
  BRevision : Z;
  Events : list watchEvent;
  Canceled : bool;
  CancelReason : string;
}.

(** ** [applyKV] *)

Inductive ApplyError : Type := ErrDecodeShard | ErrDecodeBucket.

Definition set_shards (f : gmap string ShardDef → gmap string ShardDef) (m : Mapping) : Mapping :=
  mkMapping (Revision m) (f (Shards m)) (Buckets m).
Definition set_buckets (f : gmap Z BucketDef → gmap Z BucketDef) (m : Mapping) : Mapping :=
  mkMapping (Revision m) (Shards m) (f (Buckets m)).

(** [if def.ShardID == "" { def.ShardID = id }]. *)
Definition default_shard_id (id : string) (def : ShardDef) : ShardDef :=
  if decide (ShardID def = "")
  then mkShardDef id (Status def) (Writer def) (Reader def) (CredentialRef def) (Region def)
  else def.

(** [def.BucketID = id]. *)
Definition with_bucket_id (id : Z) (def : BucketDef) : BucketDef :=
  mkBucketDef id (BShardID def) (DestShardID def) (State def) (MappingVersion def).

(** The error, if any, and the mapping as it is left. *)
Definition applyKV (m : Mapping) (key value : string) (deleted : bool)
    : result ApplyError unit * Mapping :=
  match shardIDFromKey key with
  | Some id =>
      if deleted then (Ok (), set_shards (delete id) m)
      else match unmarshal_shard value with
           | None => (Err ErrDecodeShard, m)
           | Some def => (Ok (), set_shards <[id := default_shard_id id def]> m)
           end
  | None =>
      match bucketIDFromKey key with
      | Some id =>
          if deleted then (Ok (), set_buckets (delete id) m)
          else match unmarshal_bucket value with
               | None => (Err ErrDecodeBucket, m)
               | Some def => (Ok (), set_buckets <[id := with_bucket_id id def]> m)
               end
      | None => (Ok (), m)
      end
  end.

(** ** The full load and the watch *)

(** The loop of [loadAll]: an error is logged and the key is skipped. *)
Definition load_kvs (rev : Z) (kvs : list decodedKV) : Mapping :=
  foldl (λ m e, snd (applyKV m (Key e) (Value e) false)) (mkMapping rev ∅ ∅) kvs.

(** One event of a batch; types other than the two are ignored. *)
Definition apply_event (m : Mapping) (ev : watchEvent) : Mapping :=
  if decide (EType ev = "PUT") then snd (applyKV m (EKey ev) (EValue ev) false)
  else if decide (EType ev = "DELETE") then snd (applyKV m (EKey ev) "" true)
  else m.

Definition set_revision (rev : Z) (m : Mapping) : Mapping :=
  if 0 <? rev then mkMapping rev (Shards m) (Buckets m) else m.

(** The mapping a batch leads to from the current one. *)
Definition apply_batch (cur : option Mapping) (batch : watchBatch) : Mapping :=
  let next := match cur with Some m => Clone m | None => mkMapping 0 ∅ ∅ end in
  set_revision (BRevision batch) (foldl apply_event next (Events batch)).

(** The revision the next watch starts from. *)
Definition next_watch_rev (watchRev : Z) (batch : watchBatch) : Z :=
  if 0 <? BRevision batch then wrap64 (BRevision batch + 1) else watchRev.

(** ** One key at a time

    The effect of [applyKV] on the record of one shard or one bucket. *)

(** What a write of [value] (a removal, when [None]) makes of a record. *)
Definition shard_update (id : string) (value : option string) (old : option ShardDef)
    : option ShardDef :=
  match value with
  | None => None
  | Some v => match unmarshal_shard v with
              | Some def => Some (default_shard_id id def)
              | None => old
              end
  end.

Definition bucket_update (id : Z) (value : option string) (old : option BucketDef)
    : option BucketDef :=
  match value with
  | None => None
  | Some v => match unmarshal_bucket v with
              | Some def => Some (with_bucket_id id def)
              | None => old
              end
  end.

(** [applyKV] with the value and the flag in one argument. *)
Definition apply_opt (m : Mapping) (key : string) (value : option string) : Mapping :=
  match value with
  | Some v => snd (applyKV m key v false)
  | None => snd (applyKV m key "" true)
  end.

Lemma apply_opt_revision m key v : Revision (apply_opt m key v) = Revision m.
Proof. unfold apply_opt, applyKV. by repeat case_match. Qed.

Lemma apply_opt_shards m key v id :
  Shards (apply_opt m key v) !! id =
    if decide (key = shardsPrefix +:+ id) then shard_update id v (Shards m !! id)
    else Shards m !! id.
Proof.
  unfold apply_opt, applyKV, shard_update. destruct (shardIDFromKey key) as [id'|] eqn:E.
  - apply shardIDFromKey_some in E as ->.
    destruct (decide (id' = id)) as [->|N].
    + rewrite decide_True by done.
      destruct v as [v|]; [destruct (unmarshal_shard v)|]; cbn;
        by rewrite ?lookup_insert_eq, ?lookup_delete_eq.
    + rewrite decide_False by (intros E%string_app_inj_l; done).
      destruct v as [v|]; [destruct (unmarshal_shard v)|]; cbn;
        by rewrite ?lookup_insert_ne, ?lookup_delete_ne.
  - rewrite decide_False by (intros ->; by rewrite shardIDFromKey_prefix in E).
    destruct (bucketIDFromKey key); [|by destruct v].
    destruct v as [v|]; [by destruct (unmarshal_bucket v)|done].
Qed.

Lemma apply_opt_buckets m key v id :
  Buckets (apply_opt m key v) !! id =
    if decide (bucketIDFromKey key = Some id) then bucket_update id v (Buckets m !! id)
    else Buckets m !! id.
Proof.
  unfold apply_opt, applyKV, bucket_update. destruct (shardIDFromKey key) as [sid|] eqn:E.
  { rewrite (shard_bucket_disjoint _ _ E), decide_False by done.
    destruct v as [v|]; [by destruct (unmarshal_shard v)|done]. }
  destruct (bucketIDFromKey key) as [id'|]; [|by rewrite decide_False; destruct v].
  destruct (decide (id' = id)) as [->|N].
  - rewrite decide_True by done.
    destruct v as [v|]; [destruct (unmarshal_bucket v)|]; cbn;
      by rewrite ?lookup_insert_eq, ?lookup_delete_eq.
  - rewrite decide_False by congruence.
    destruct v as [v|]; [destruct (unmarshal_bucket v)|]; cbn;
      by rewrite ?lookup_insert_ne, ?lookup_delete_ne.
Qed.

(** ** Key-spaces

    A key-space is what etcd stores under [/sharding/]: a finite map from
    keys to values. A mapping [denotes] it when it holds the decoded record
    of every key, and nothing else. *)

Abbreviation keyspace := (gmap string string).

Definition shard_record (ks : keyspace) (id : string) : option ShardDef :=
  v ← ks !! (shardsPrefix +:+ id); def ← unmarshal_shard v; Some (default_shard_id id def).

Definition bucket_record (ks : keyspace) (id : Z) (b : BucketDef) : Prop :=
  ∃ key v def, ks !! key = Some v ∧ bucketIDFromKey key = Some id
    ∧ unmarshal_bucket v = Some def ∧ b = with_bucket_id id def.

Record denotes (ks : keyspace) (m : Mapping) : Prop := {
  denotes_shards : ∀ id, Shards m !! id = shard_record ks id;
  denotes_buckets : ∀ id b, Buckets m !! id = Some b ↔ bucket_record ks id b;
}.

(** No two keys are spellings of one bucket. *)
Definition one_spelling (P : string → Prop) : Prop :=
  ∀ k1 k2 id, P k1 → P k2 → bucketIDFromKey k1 = Some id → bucketIDFromKey k2 = Some id → k1 = k2.

(** A value that decodes, when its key is one the router reads. *)
Definition well_formed (key value : string) : Prop :=
  (is_Some (shardIDFromKey key) → is_Some (unmarshal_shard value))
  ∧ (is_Some (bucketIDFromKey key) → is_Some (unmarshal_bucket value)).

Definition put_key (key : string) (value : option string) (ks : keyspace) : keyspace :=
  match value with Some v => <[key := v]> ks | None => delete key ks end.

Lemma put_key_eq key v ks : put_key key v ks !! key = v.
Proof. destruct v; cbn; by rewrite ?lookup_insert_eq, ?lookup_delete_eq. Qed.

Lemma put_key_ne key key' v ks : key ≠ key' → put_key key v ks !! key' = ks !! key'.
Proof. intros. destruct v; cbn; by rewrite ?lookup_insert_ne, ?lookup_delete_ne. Qed.

Lemma denotes_functional ks m1 m2 :
  denotes ks m1 → denotes ks m2 → Shards m1 = Shards m2 ∧ Buckets m1 = Buckets m2.
Proof.
  intros [S1 B1] [S2 B2]. split; apply map_eq; intros id; [by rewrite S1, S2|].
  apply option_eq. intros b. by rewrite B1, B2.
Qed.

(** The mapping follows the key-space through one write. On a malformed value
    the two part, unless there was no record to keep ([fresh]). *)
Lemma apply_opt_denotes ks m key v :
  one_spelling (λ k, k = key ∨ is_Some (ks !! k)) →
  (∀ s, v = Some s → well_formed key s ∨ ks !! key = None) →
  denotes ks m → denotes (put_key key v ks) (apply_opt m key v).
Proof.
  intros Hone Hwf [Hs Hb]. split.
  - intros id. rewrite apply_opt_shards. unfold shard_record. case_decide as Hk.
    + subst key. rewrite put_key_eq. unfold shard_update. destruct v as [v|]; [|done].
      change (Some v ≫= ?f) with (f v). cbv beta.
      destruct (unmarshal_shard v) eqn:U; [done|]. rewrite Hs. unfold shard_record.
      destruct (Hwf v eq_refl) as [[H _]| ->]; [|done].
      rewrite shardIDFromKey_prefix, U in H. by destruct H.
    + rewrite put_key_ne by done. apply Hs.
  - intros id b. rewrite apply_opt_buckets. unfold bucket_record.
    assert (∀ k v', bucketIDFromKey k = Some id → ks !! k = Some v' →
              bucketIDFromKey key = Some id → k = key) as Huniq.
    { intros k v' Hk Hv Hkey. apply (Hone k key id); eauto. }
    case_decide as Hk.
    + unfold bucket_update. destruct v as [v|].
      * destruct (unmarshal_bucket v) as [def|] eqn:U.
        -- split; [intros [= <-]; exists key, v, def; by rewrite put_key_eq|].
           intros (k & v' & def' & Hv & Hid & Hu & ->).
           destruct (decide (k = key)) as [->|N].
           ++ rewrite put_key_eq in Hv. by simplify_eq.
           ++ rewrite put_key_ne in Hv by done. by destruct N; eauto.
        -- destruct (Hwf v eq_refl) as [[_ H]|Hnone].
           { rewrite Hk, U in H. by destruct H. }
           rewrite Hb. unfold bucket_record. split.
           ++ intros (k & v' & def' & Hv & Hid & _). rewrite (Huniq k v') in Hv by done. congruence.
           ++ intros (k & v' & def' & Hv & Hid & Hu & _). destruct (decide (k = key)) as [->|N].
              ** rewrite put_key_eq in Hv. congruence.
              ** rewrite put_key_ne in Hv by done. by destruct N; eauto.
      * split; [done|]. intros (k & v' & def' & Hv & Hid & _). destruct (decide (k = key)) as [->|N].
        -- by rewrite put_key_eq in Hv.
        -- rewrite put_key_ne in Hv by done. by destruct N; eauto.
    + rewrite Hb. unfold bucket_record.
      split; intros (k & v' & def' & Hv & Hid & Hu & ->); exists k, v', def';
        (split; [|done]); by rewrite put_key_ne in * by congruence.
Qed.

(** ** Sequences of writes *)

Definition ks_update (ks : keyspace) (u : string * option string) : keyspace :=
  put_key u.1 u.2 ks.
Definition map_update (m : Mapping) (u : string * option string) : Mapping :=
  apply_opt m u.1 u.2.

(** Each value written decodes, or is the first one of its key. *)
Fixpoint updates_ok (ks : keyspace) (us : list (string * option string)) : Prop :=
  match us with
  | [] => True
  | u :: us =>
      (∀ s, u.2 = Some s → well_formed u.1 s ∨ ks !! u.1 = None) ∧ updates_ok (ks_update ks u) us
  end.

Lemma ks_update_some ks u k :
  is_Some (ks_update ks u !! k) → k = u.1 ∨ is_Some (ks !! k).
Proof.
  unfold ks_update. destruct (decide (u.1 = k)) as [<-|N]; [by left|].
  rewrite put_key_ne by done. by right.
Qed.

Lemma updates_denotes us ks m :
  one_spelling (λ k, k ∈ us.*1 ∨ is_Some (ks !! k)) → updates_ok ks us →
  denotes ks m → denotes (foldl ks_update ks us) (foldl map_update m us).
Proof.
  revert ks m. induction us as [|u us IH]; intros ks m Hone Hok Hd; [done|].
  destruct Hok as [Hu Hok]. cbn. apply IH; [|done|].
  - intros k1 k2 id H1 H2. apply Hone.
    + destruct H1 as [?|[->|?]%ks_update_some]; cbn; set_solver.
    + destruct H2 as [?|[->|?]%ks_update_some]; cbn; set_solver.
  - apply apply_opt_denotes; [|done|done].
    intros k1 k2 id H1 H2. apply Hone; [destruct H1 as [->|]|destruct H2 as [->|]]; cbn; set_solver.
Qed.

(** ** The full load *)

Definition kv_pair (e : decodedKV) : string * string := (Key e, Value e).
Definition kv_write (e : decodedKV) : string * option string := (Key e, Some (Value e)).

(** A Range response over a key-space: each key once, in any order. *)
Definition range_of (ks : keyspace) (kvs : list decodedKV) : Prop :=
  map kv_pair kvs ≡ₚ map_to_list ks.

Lemma load_kvs_writes rev kvs :
  load_kvs rev kvs = foldl map_update (mkMapping rev ∅ ∅) (map kv_write kvs).
Proof.
  unfold load_kvs. generalize (mkMapping rev ∅ ∅). induction kvs as [|e kvs IH]; intros m; [done|].
  cbn. by rewrite IH.
Qed.

Lemma fresh_writes_ok ks kvs :
  NoDup (map Key kvs) → (∀ e, e ∈ kvs → ks !! Key e = None) →
  updates_ok ks (map kv_write kvs).
Proof.
  revert ks. induction kvs as [|e kvs IH]; intros ks Hnd Hks; [done|]. cbn.
  inversion Hnd as [|? ? Hin Hnd']; subst. split; [right; set_solver|].
  apply IH; [done|]. intros e' He'. unfold ks_update. cbn.
  rewrite lookup_insert_ne; [set_solver|]. intros E. apply Hin. rewrite E.
  by apply list_elem_of_fmap_2.
Qed.

Lemma writes_lookup ks kvs k :
  NoDup (map Key kvs) →
  foldl ks_update ks (map kv_write kvs) !! k =
    match list_to_map (M := gmap string string) (map kv_pair kvs) !! k with Some v => Some v | None => ks !! k end.
Proof.
  revert ks. induction kvs as [|e kvs IH]; intros ks Hnd; [done|].
  inversion Hnd as [|? ? Hin Hnd']; subst. cbn. rewrite IH by done. unfold ks_update. cbn.
  destruct (decide (Key e = k)) as [<-|N].
  - rewrite !lookup_insert_eq. rewrite (not_elem_of_list_to_map_1 (M := gmap string)); [done|].
    rewrite <-list_fmap_compose. exact Hin.
  - by rewrite !lookup_insert_ne.
Qed.

Lemma range_of_keys ks kvs : range_of ks kvs → NoDup (map Key kvs).
Proof.
  intros H. assert (map Key kvs = (map kv_pair kvs).*1) as -> by by rewrite <-list_fmap_compose.
  rewrite H. apply NoDup_fst_map_to_list.
Qed.

Lemma range_of_keyspace ks kvs :
  range_of ks kvs → foldl ks_update ∅ (map kv_write kvs) = ks.
Proof.
  intros H. apply map_eq. intros k. rewrite writes_lookup by by eapply range_of_keys.
  rewrite (list_to_map_proper (map kv_pair kvs) (map_to_list ks)) ; [|
    |exact H].
  - rewrite list_to_map_to_list. by destruct (ks !! k).
  - rewrite H. apply NoDup_fst_map_to_list.
Qed.

Lemma range_of_elem ks kvs k :
  range_of ks kvs →
  k ∈ (map kv_write kvs).*1 ∨ is_Some ((∅ : keyspace) !! k) → is_Some (ks !! k).
Proof.
  intros Hr [Hk|[? ?]]; [|done].
  rewrite <-list_fmap_compose in Hk. apply list_elem_of_fmap in Hk as (e & -> & He).
  assert ((Key e, Value e) ∈ map_to_list ks) as Hin
    by (rewrite <-Hr; by apply (list_elem_of_fmap_2 kv_pair)).
  apply elem_of_map_to_list in Hin. eauto.
Qed.

Lemma empty_denotes rev : denotes ∅ (mkMapping rev ∅ ∅).
Proof.
  split; cbn; intros; [done|].
  split; [done|]. by intros (k & v & def & H & _).
Qed.

Lemma load_kvs_revision rev kvs : Revision (load_kvs rev kvs) = rev.
Proof.
  rewrite load_kvs_writes. change rev with (Revision (mkMapping rev ∅ ∅)) at 2.
  generalize (mkMapping rev ∅ ∅) as m. induction (map kv_write kvs) as [|u us IH]; intros m; [done|].
  cbn [foldl]. rewrite IH. apply apply_opt_revision.
Qed.

Lemma load_denotes ks kvs rev :
  range_of ks kvs → one_spelling (λ k, is_Some (ks !! k)) → denotes ks (load_kvs rev kvs).
Proof.
  intros Hr Hone. rewrite load_kvs_writes, <-(range_of_keyspace ks kvs Hr) at 1.
  apply updates_denotes.
  - intros k1 k2 id H1 H2. apply Hone; by apply (range_of_elem ks kvs).
  - apply fresh_writes_ok; [by eapply range_of_keys|done].
  - apply empty_denotes.
Qed.

(** ** The watch *)

(** What an event does to the key-space it reports on. *)
Definition ks_event (ks : keyspace) (ev : watchEvent) : keyspace :=
  if decide (EType ev = "PUT") then <[EKey ev := EValue ev]> ks
  else if decide (EType ev = "DELETE") then delete (EKey ev) ks
  else ks.

Definition event_well_formed (ev : watchEvent) : Prop :=
  EType ev = "PUT" → well_formed (EKey ev) (EValue ev).

Definition batch_events (bs : list watchBatch) : list watchEvent := concat (map Events bs).

Lemma event_denotes ks m ev :
  one_spelling (λ k, k = EKey ev ∨ is_Some (ks !! k)) → event_well_formed ev →
  denotes ks m → denotes (ks_event ks ev) (apply_event m ev).
Proof.
  intros Hone Hwf Hd. unfold ks_event, apply_event, event_well_formed in *.
  case_decide; [|case_decide; [|done]].
  - apply (apply_opt_denotes ks m (EKey ev) (Some (EValue ev))); [done| |done].
    intros s [= <-]. eauto.
  - by apply (apply_opt_denotes ks m (EKey ev) None).
Qed.

Lemma ks_event_some ks ev k : is_Some (ks_event ks ev !! k) → k = EKey ev ∨ is_Some (ks !! k).
Proof.
  unfold ks_event. intros H. destruct (decide (EKey ev = k)) as [<-|N]; [by left|right].
  repeat case_decide; by rewrite ?lookup_insert_ne, ?lookup_delete_ne in H.
Qed.

Lemma events_denotes evs ks m :
  one_spelling (λ k, k ∈ map EKey evs ∨ is_Some (ks !! k)) → Forall event_well_formed evs →
  denotes ks m → denotes (foldl ks_event ks evs) (foldl apply_event m evs).
Proof.
  revert ks m. induction evs as [|ev evs IH]; intros ks m Hone Hwf Hd; [done|].
  inversion Hwf; subst. cbn. apply IH; [|done|].
  - intros k1 k2 id Hk1 Hk2. apply Hone; cbn;
      [destruct Hk1 as [?|[->|?]%ks_event_some]|destruct Hk2 as [?|[->|?]%ks_event_some]]; set_solver.
  - apply event_denotes; [|done|done]. intros k1 k2 id Hk1 Hk2.
    apply Hone; cbn; [destruct Hk1 as [->|]|destruct Hk2 as [->|]]; set_solver.
Qed.

Lemma ks_events_some evs ks k :
  is_Some (foldl ks_event ks evs !! k) → k ∈ map EKey evs ∨ is_Some (ks !! k).
Proof.
  revert ks. induction evs as [|ev evs IH]; intros ks H; [by right|].
  cbn in *. apply IH in H as [H|[->|H]%ks_event_some]; set_solver.
Qed.

Lemma set_revision_equiv rev m : set_revision rev m ≡ m.
Proof. unfold set_revision. by case_match. Qed.

Lemma denotes_equiv ks m1 m2 : m1 ≡ m2 → denotes ks m1 → denotes ks m2.
Proof. intros [Es Eb] [Hs Hb]. split; intros; [by rewrite <-Es|by rewrite <-Eb]. Qed.

Lemma batch_denotes ks m b :
  one_spelling (λ k, k ∈ map EKey (Events b) ∨ is_Some (ks !! k)) →
  Forall event_well_formed (Events b) → denotes ks m →
  denotes (foldl ks_event ks (Events b)) (apply_batch (Some m) b).
Proof.
  intros. unfold apply_batch. rewrite Clone_id.
  eapply denotes_equiv; [symmetry; apply set_revision_equiv|]. by apply events_denotes.
Qed.

Lemma batches_denotes bs ks m :
  one_spelling (λ k, k ∈ map EKey (batch_events bs) ∨ is_Some (ks !! k)) →
  Forall event_well_formed (batch_events bs) → denotes ks m →
  denotes (foldl ks_event ks (batch_events bs)) (foldl (λ m b, apply_batch (Some m) b) m bs).
Proof.
  revert ks m. induction bs as [|b bs IH]; intros ks m Hone Hwf Hd; [done|].
  unfold batch_events in *. cbn [map concat foldl] in *. rewrite foldl_app.
  apply Forall_app in Hwf as [Hw1 Hw2]. rewrite fmap_app in Hone.
  apply IH; [|done|apply batch_denotes; [|done|done]].
  - intros k1 k2 id Hk1 Hk2. apply Hone; [clear Hk2; rename Hk1 into Hk|clear Hk1; rename Hk2 into Hk].
    all: destruct Hk as [Hk|Hk]; [set_solver|].
    all: apply ks_events_some in Hk; set_solver.
  - intros k1 k2 id Hk1 Hk2. apply Hone; set_solver.
Qed.

(** ** Well-formed mappings *)

(** A bucket record carries the identifier it is stored under, and a shard
    record a non-empty one when its key has one. *)
Record mapping_wf (m : Mapping) : Prop := {
  wf_buckets : ∀ n b, Buckets m !! n = Some b → BucketID b = n;
  wf_shards : ∀ id d, Shards m !! id = Some d → id ≠ "" → ShardID d ≠ "";
}.

Lemma default_shard_id_nonempty id def : id ≠ "" → ShardID (default_shard_id id def) ≠ "".
Proof. unfold default_shard_id. by case_decide. Qed.

Lemma apply_opt_wf m key v : mapping_wf m → mapping_wf (apply_opt m key v).
Proof.
  intros [Hb Hs]. split.
  - intros n b. rewrite apply_opt_buckets. unfold bucket_update. intros H. case_matches; eauto.
  - intros id d. rewrite apply_opt_shards. unfold shard_update. intros H Hid.
    case_matches; eauto using default_shard_id_nonempty.
Qed.

Lemma empty_wf rev : mapping_wf (mkMapping rev ∅ ∅).
Proof. by split. Qed.

Lemma load_wf rev kvs : mapping_wf (load_kvs rev kvs).
Proof.
  rewrite load_kvs_writes. generalize (empty_wf rev). generalize (mkMapping rev ∅ ∅).
  induction kvs as [|e kvs IH]; intros m Hm; [done|]. apply IH. by apply apply_opt_wf.
Qed.

Lemma apply_event_wf m ev : mapping_wf m → mapping_wf (apply_event m ev).
Proof.
  intros Hm. unfold apply_event. repeat case_decide; [|by apply (apply_opt_wf m _ None)|done].
  by apply (apply_opt_wf m _ (Some (EValue ev))).
Qed.

Lemma apply_batch_wf m b : (∀ m', m = Some m' → mapping_wf m') → mapping_wf (apply_batch m b).
Proof.
  intros Hm. unfold apply_batch.
  assert (mapping_wf match m with Some m => Clone m | None => mkMapping 0 ∅ ∅ end) as H.
  { destruct m; [|apply empty_wf]. rewrite Clone_id. eauto. }
  revert H. generalize (match m with Some m => Clone m | None => mkMapping 0 ∅ ∅ end).
  intros m' H. assert (mapping_wf (foldl apply_event m' (Events b))) as [Hb Hs].
  { revert m' H. induction (Events b) as [|ev evs IH]; intros m' H; [done|].
    apply IH. by apply apply_event_wf. }
  unfold set_revision. by case_match.
Qed.

#[export] Hint Resolve apply_opt_wf empty_wf load_wf apply_event_wf apply_batch_wf : go.

(** ** Properties *)

(** C25: [applyKV] changes exactly the record its key names: it stores the
    decoded value under the identifier of the key, or removes it on a
    deletion; on a value that does not decode it reports an error and leaves
    the mapping as it was; every other record and the revision stay. *)
Theorem applyKV_effect (m m' : Mapping) (key value : string) (deleted : bool)
    (r : result ApplyError unit) :
  applyKV m key value deleted = (r, m') →
  Revision m' = Revision m
  ∧ (r ≠ Ok () → m' = m)
  ∧ (∀ id, Shards m' !! id =
       if decide (key = shardsPrefix +:+ id)
       then shard_update id (if deleted then None else Some value) (Shards m !! id)
       else Shards m !! id)
  ∧ (∀ id, Buckets m' !! id =
       if decide (bucketIDFromKey key = Some id)
       then bucket_update id (if deleted then None else Some value) (Buckets m !! id)
       else Buckets m !! id).
Proof.
  intros H. set (v := if deleted then None else Some value).
  assert (m' = apply_opt m key v) as Hm'.
  { unfold v, apply_opt. destruct deleted; [|by rewrite H].
    assert (applyKV m key "" true = applyKV m key value true) as -> by done. by rewrite H. }
  split; [|split].
  - rewrite Hm'. apply apply_opt_revision.
  - clear Hm'. revert H. unfold applyKV. intros. case_matches; congruence.
  - rewrite Hm'. split; intros id; [apply apply_opt_shards|apply apply_opt_buckets].
Qed.

Lemma applyKV_effect_witness :
  Buckets (snd (applyKV empty_mapping "/sharding/buckets/0527" (js "{'shard_id':'shard-03'}") false))
    !! 527 = Some (mkBucketDef 527 "shard-03" "" "" 0).
Proof.
  destruct (applyKV_effect empty_mapping
    (snd (applyKV empty_mapping "/sharding/buckets/0527" (js "{'shard_id':'shard-03'}") false))
    "/sharding/buckets/0527" (js "{'shard_id':'shard-03'}") false (Ok ())) as (_ & _ & _ & H).
  - by vm_compute.
  - rewrite H. by vm_compute.
Defined.

(** C10: the incremental map is the full one: for a key-space in which every
    bucket has one spelling and every value put decodes, applying all the
    batches of a watch to an initial load gives, up to the revision, the map
    that a fresh load of the final key-space builds, whatever the order of the
    keys in the two responses. *)
Theorem watch_equals_reload (ks : keyspace) (kvs kvs' : list decodedKV) (bs : list watchBatch)
    (rev rev' : Z) :
  range_of ks kvs →
  range_of (foldl ks_event ks (batch_events bs)) kvs' →
  one_spelling (λ k, k ∈ map EKey (batch_events bs) ∨ is_Some (ks !! k)) →
  Forall event_well_formed (batch_events bs) →
  foldl (λ m b, apply_batch (Some m) b) (load_kvs rev kvs) bs ≡ load_kvs rev' kvs'.
Proof.
  intros Hr Hr' Hone Hwf. eapply denotes_functional.
  - apply batches_denotes; [done|done|]. apply load_denotes; [done|].
    intros k1 k2 id H1 H2. apply Hone; by right.
  - apply load_denotes; [done|]. intros k1 k2 id H1 H2.
    apply ks_events_some in H1, H2. by apply Hone.
Qed.

Ltac solve_range := first [apply Permutation_refl | apply perm_swap].

Definition ex_value (id : string) : string := js ("{'shard_id':'" +:+ id +:+ "'}").

Lemma watch_equals_reload_witness :
  let b := mkBatch 8 [mkEvent "PUT" "/sharding/buckets/0001" (ex_value "s2") 8;
                      mkEvent "DELETE" "/sharding/shards/s1" "" 8] false "" in
  foldl (λ m b, apply_batch (Some m) b)
    (load_kvs 7 [mkKV "/sharding/buckets/0001" (ex_value "s1"); mkKV "/sharding/shards/s1" (ex_value "s1")])
    [b]
  ≡ load_kvs 9 [mkKV "/sharding/buckets/0001" (ex_value "s2")].
Proof.
  intros b. apply (watch_equals_reload
    {[ "/sharding/buckets/0001" := ex_value "s1"; "/sharding/shards/s1" := ex_value "s1" ]}).
  - vm_compute. solve_range.
  - vm_compute. solve_range.
  - assert (∀ k, k ∈ map EKey (batch_events [b])
               ∨ is_Some (({[ "/sharding/buckets/0001" := ex_value "s1";
                              "/sharding/shards/s1" := ex_value "s1" ]} : keyspace) !! k) →
             k = "/sharding/buckets/0001" ∨ k = "/sharding/shards/s1") as Hkeys.
    { intros k [Hk|[v Hv]]; [cbn in Hk; set_solver|].
      apply lookup_insert_Some in Hv as [[<- _]|[_ [<- _]%lookup_singleton_Some]]; auto. }
    intros k1 k2 id [->| ->]%Hkeys [->| ->]%Hkeys H1 H2; by vm_compute in H1, H2.
  - constructor; [|constructor; [done|constructor]].
    intros _. split; intros [x Hx]; vm_compute in Hx; [done|]. vm_compute. by eexists.
Defined.

(** C40: a malformed value makes the two ways part: after a [PUT] of a value
    that does not decode on a registered shard, the watch keeps routing with
    the old record, while any full load of the new key-space (a restart, the
    next reconciliation) has no such shard. *)
Theorem malformed_put_diverges (ks : keyspace) (m : Mapping) (id value : string) (d : ShardDef)
    (erev rev : Z) (kvs : list decodedKV) :
  denotes ks m → Shards m !! id = Some d → unmarshal_shard value = None →
  let ev := mkEvent "PUT" (shardsPrefix +:+ id) value erev in
  range_of (ks_event ks ev) kvs → one_spelling (λ k, is_Some (ks_event ks ev !! k)) →
  Shards (apply_event m ev) !! id = Some d ∧ Shards (load_kvs rev kvs) !! id = None.
Proof.
  intros Hd Hm Hv ev Hr Hone. split.
  - change (apply_event m ev) with (apply_opt m (shardsPrefix +:+ id) (Some value)).
    rewrite apply_opt_shards, decide_True by done. unfold shard_update. by rewrite Hv.
  - rewrite (denotes_shards _ _ (load_denotes _ _ rev Hr Hone)). unfold shard_record, ks_event.
    cbn [ev EType EKey EValue]. rewrite decide_True, lookup_insert_eq by done.
    change (Some value ≫= ?f) with (f value). cbv beta. by rewrite Hv.
Qed.

Lemma malformed_put_diverges_witness :
  let m := load_kvs 7 [mkKV "/sharding/shards/s1" (ex_value "s1")] in
  let ev := mkEvent "PUT" "/sharding/shards/s1" "oops" 8 in
  is_Some (Shards (apply_event m ev) !! "s1")
  ∧ Shards (load_kvs 8 [mkKV "/sharding/shards/s1" "oops"]) !! "s1" = None.
Proof.
  intros m ev.
  assert (∀ k v (w : string), is_Some (({[k := w]} : keyspace) !! v) → v = k) as Hsing.
  { intros k v w [x [<- _]%lookup_singleton_Some]. done. }
  destruct (malformed_put_diverges {[ "/sharding/shards/s1" := ex_value "s1" ]} m "s1" "oops"
    (mkShardDef "s1" "" zero_endpoint None "" "") 8 8 [mkKV "/sharding/shards/s1" "oops"])
    as [H1 H2].
  - apply load_denotes; [vm_compute; solve_range|]. intros k1 k2 id ->%Hsing ->%Hsing; done.
  - by vm_compute.
  - by vm_compute.
  - vm_compute. solve_range.
  - assert (ks_event {[ "/sharding/shards/s1" := ex_value "s1" ]} ev
            = {[ "/sharding/shards/s1" := "oops" ]}) as E by by vm_compute.
    intros k1 k2 id Hk1 Hk2. fold ev in Hk1, Hk2.
    change (is_Some (ks_event {[ "/sharding/shards/s1" := ex_value "s1" ]} ev !! k1)) in Hk1.
    change (is_Some (ks_event {[ "/sharding/shards/s1" := ex_value "s1" ]} ev !! k2)) in Hk2.
    rewrite E in Hk1, Hk2. apply Hsing in Hk1 as ->, Hk2 as ->. done.
  - split; [by exists (mkShardDef "s1" "" zero_endpoint None "" "")|exact H2].
Defined.
