(* ===== verification/EtcdSync.v ===== *)
(** * The etcd registry: watch and reconciliation running side by side

    [watchLoop], [reconcileLoop] and [loadAll] of [internal/registry/etcd.go]
    as a step relation. Each goroutine has a program counter; a step is one
    access to shared memory: the load of the store's pointer, the allocation of
    a clone, one [applyKV] on the mapping under construction, the swap.
    Requests take pointers out of the store and keep them while they run.
    What etcd answers (batches, range responses, failures, ends of streams) is
    unconstrained. *)

From S2P Require Import Prelude GoInt GoString Json Model Cache Keys Etcd.

(** ** Program counters *)

(** [watchLoop]; [rev] is its variable [watchRev]. *)
Inductive watcher : Type :=
| WIdle (rev : Z)                       (* top of the loop, or sleeping *)
| WStream (rev : Z)                     (* receiving from the channel *)
| WLoaded (rev : Z) (b : watchBatch) (cur : option loc)
| WApply (rev : Z) (b : watchBatch) (cur : option loc) (next : loc) (rest : list watchEvent)
| WStopped.

(** [reconcileLoop], with the body of [loadAll] inlined. *)
Inductive loader : Type :=
| LIdle
| LFill (m : loc) (rest : list decodedKV)
| LStopped.

Record Sys := mkSys {
  mem : Memory;
  watch : watcher;
  recon : loader;
  held : gset loc;       (* pointers that requests have loaded *)
}.

(** [loadAll] run alone, on the response [(kvs, rev)]. *)
Definition loadAll (rev : Z) (kvs : list decodedKV) (s : Memory) : Memory :=
  let '(l, s) := alloc (mkMapping rev ∅ ∅) s in
  Swap l (write l (load_kvs rev kvs) s).

(** The registry when [Start] returns: the initial load is done and both loops
    are about to run. *)
Definition started (rev : Z) (kvs : list decodedKV) : Sys :=
  mkSys (loadAll rev kvs NewStore) (WIdle (wrap64 (rev + 1))) LIdle ∅.

(** The mapping cloned for a batch. *)
Definition base_mapping (s : Memory) (cur : option loc) : option Mapping :=
  match cur with
  | Some c => m ← deref s c; Some (Clone m)
  | None => Some (mkMapping 0 ∅ ∅)
  end.

(** The goroutine of [watchLoop]. *)
Inductive watch_step (s : Memory) : watcher → Memory → watcher → Prop :=
| watch_open rev :
    watch_step s (WIdle rev) s (WStream rev)
| watch_open_failed rev :
    watch_step s (WIdle rev) s (WIdle rev)
| watch_stop rev :
    watch_step s (WIdle rev) s WStopped
| watch_closed rev :
    watch_step s (WStream rev) s (WIdle rev)
| watch_canceled rev b :
    Canceled b = true →
    watch_step s (WStream rev) s (WIdle rev)
| watch_load rev b :
    Canceled b = false →
    watch_step s (WStream rev) s (WLoaded rev b (Load s))
| watch_clone rev b cur m :
    base_mapping s cur = Some m →
    watch_step s (WLoaded rev b cur)
      (snd (alloc m s)) (WApply rev b cur (fst (alloc m s)) (Events b))
| watch_event rev b cur l ev rest m :
    deref s l = Some m →
    watch_step s (WApply rev b cur l (ev :: rest))
      (write l (apply_event m ev) s) (WApply rev b cur l rest)
| watch_swap rev b cur l m :
    deref s l = Some m →
    watch_step s (WApply rev b cur l [])
      (Swap l (write l (set_revision (BRevision b) m) s)) (WStream (next_watch_rev rev b)).

(** The goroutine of [reconcileLoop]. *)
Inductive recon_step (s : Memory) : loader → Memory → loader → Prop :=
| recon_failed :
    recon_step s LIdle s LIdle
| recon_stop :
    recon_step s LIdle s LStopped
| recon_range rev kvs :
    recon_step s LIdle
      (snd (alloc (mkMapping rev ∅ ∅) s)) (LFill (fst (alloc (mkMapping rev ∅ ∅) s)) kvs)
| recon_apply l e rest m :
    deref s l = Some m →
    recon_step s (LFill l (e :: rest))
      (write l (snd (applyKV m (Key e) (Value e) false)) s) (LFill l rest)
| recon_swap l :
    recon_step s (LFill l []) (Swap l s) LIdle.

Inductive sync_step : Sys → Sys → Prop :=
| step_watch s m' w' :
    watch_step (mem s) (watch s) m' w' →
    sync_step s (mkSys m' w' (recon s) (held s))
| step_recon s m' r' :
    recon_step (mem s) (recon s) m' r' →
    sync_step s (mkSys m' (watch s) r' (held s))
| request_load s l :
    Load (mem s) = Some l →
    sync_step s (mkSys (mem s) (watch s) (recon s) ({[l]} ∪ held s))
| request_done s l :
    sync_step s (mkSys (mem s) (watch s) (recon s) (held s ∖ {[l]})).

(** ** Executable form

    A label names the goroutine that moves and what etcd or the request
    brings; [exec] computes the step, [run] a sequence of steps. *)
Inductive label : Type :=
| LOpen | LOpenFailed | LStop | LClosed
| LCanceled (b : watchBatch)
| LBatch (b : watchBatch)
| LClone | LEvent | LPublish
| RFailed | RStop
| RRange (rev : Z) (kvs : list decodedKV)
| RApply | RPublish
| QLoad
| QDone (l : loc).

Definition set_watch (s : Sys) (m : Memory) (w : watcher) : Sys := mkSys m w (recon s) (held s).
Definition set_recon (s : Sys) (m : Memory) (r : loader) : Sys := mkSys m (watch s) r (held s).

Definition exec (s : Sys) (a : label) : option Sys :=
  match a, watch s, recon s with
  | LOpen, WIdle rev, _ => Some (set_watch s (mem s) (WStream rev))
  | LOpenFailed, WIdle rev, _ => Some (set_watch s (mem s) (WIdle rev))
  | LStop, WIdle rev, _ => Some (set_watch s (mem s) WStopped)
  | LClosed, WStream rev, _ => Some (set_watch s (mem s) (WIdle rev))
  | LCanceled b, WStream rev, _ =>
      if Canceled b then Some (set_watch s (mem s) (WIdle rev)) else None
  | LBatch b, WStream rev, _ =>
      if Canceled b then None else Some (set_watch s (mem s) (WLoaded rev b (Load (mem s))))
  | LClone, WLoaded rev b cur, _ =>
      m ← base_mapping (mem s) cur;
      Some (set_watch s (snd (alloc m (mem s)))
              (WApply rev b cur (fst (alloc m (mem s))) (Events b)))
  | LEvent, WApply rev b cur l (ev :: rest), _ =>
      m ← deref (mem s) l;
      Some (set_watch s (write l (apply_event m ev) (mem s)) (WApply rev b cur l rest))
  | LPublish, WApply rev b cur l [], _ =>
      m ← deref (mem s) l;
      Some (set_watch s (Swap l (write l (set_revision (BRevision b) m) (mem s)))
              (WStream (next_watch_rev rev b)))
  | RFailed, _, LIdle => Some (set_recon s (mem s) LIdle)
  | RStop, _, LIdle => Some (set_recon s (mem s) LStopped)
  | RRange rev kvs, _, LIdle =>
      Some (set_recon s (snd (alloc (mkMapping rev ∅ ∅) (mem s)))
              (LFill (fst (alloc (mkMapping rev ∅ ∅) (mem s))) kvs))
  | RApply, _, LFill l (e :: rest) =>
      m ← deref (mem s) l;
      Some (set_recon s (write l (snd (applyKV m (Key e) (Value e) false)) (mem s)) (LFill l rest))
  | RPublish, _, LFill l [] => Some (set_recon s (Swap l (mem s)) LIdle)
  | QLoad, _, _ =>
      l ← Load (mem s); Some (mkSys (mem s) (watch s) (recon s) ({[l]} ∪ held s))
  | QDone l, _, _ => Some (mkSys (mem s) (watch s) (recon s) (held s ∖ {[l]}))
  | _, _, _ => None
  end.

Fixpoint run (s : Sys) (ls : list label) : option Sys :=
  match ls with
  | [] => Some s
  | a :: ls => s ← exec s a; run s ls
  end.

Ltac rewrite_watch := match goal with H : watch _ = _ |- _ => rewrite H end.
Ltac rewrite_recon := match goal with H : recon _ = _ |- _ => rewrite H end.

Lemma exec_step s a s' : exec s a = Some s' → sync_step s s'.
Proof.
  unfold exec, set_watch, set_recon. intros H. destruct a.
  all: repeat match type of H with
  | match ?x with _ => _ end = Some _ => destruct x eqn:?; simplify_eq/=
  | mbind _ ?x = Some _ => destruct x eqn:?; simplify_eq/=
  end; simplify_eq; try done.
  all: try (apply step_watch; rewrite_watch; by econstructor).
  all: try (apply step_recon; rewrite_recon; by econstructor).
  - by apply request_load.
  - apply request_done.
Qed.

Lemma run_steps ls s s' : run s ls = Some s' → rtc sync_step s s'.
Proof.
  revert s. induction ls as [|a ls IH]; intros s; cbn; [intros [= ->]; apply rtc_refl|].
  intros (s1 & E%exec_step & H)%bind_Some. eapply rtc_l; [done|by apply IH].
Qed.

(** Every step has a label. *)
Lemma step_exec s s' : sync_step s s' → ∃ a, exec s a = Some s'.
Proof.
  intros [s0 m' w' Hw|s0 m' r' Hr|s0 l Hl|s0 l].
  - remember (mem s0) as m eqn:Em. remember (watch s0) as w eqn:Ew.
    destruct Hw as [rev|rev|rev|rev|rev b Hc|rev b Hc|rev b cur x Hb|rev b cur l ev rest x Hl|rev b cur l x Hl];
      [exists LOpen|exists LOpenFailed|exists LStop|exists LClosed|exists (LCanceled b)|exists (LBatch b)
      |exists LClone|exists LEvent|exists LPublish];
      unfold exec, set_watch; rewrite <-Ew, <-?Em, ?Hc, ?Hb, ?Hl; done.
  - remember (mem s0) as m eqn:Em. remember (recon s0) as r eqn:Er.
    destruct Hr as [| |rev kvs|l e rest x Hl|l];
      [exists RFailed|exists RStop|exists (RRange rev kvs)|exists RApply|exists RPublish];
      unfold exec, set_recon; rewrite <-Er, <-?Em, ?Hl; by destruct (watch s0).
  - exists QLoad. unfold exec. rewrite Hl. by destruct (watch s0), (recon s0).
  - exists (QDone l). unfold exec. by destruct (watch s0), (recon s0).
Qed.

Lemma steps_run s s' : rtc sync_step s s' → ∃ ls, run s ls = Some s'.
Proof.
  induction 1 as [s|s s1 s' (a & E)%step_exec _ (ls & IH)]; [by exists []|].
  exists (a :: ls). cbn. by rewrite E.
Qed.

Definition reachable (s : Sys) : Prop :=
  ∃ rev kvs, rtc sync_step (started rev kvs) s.

(** ** Specification: updates in one step

    The same labels, read by a registry without interleaving: a response is
    turned into a mapping as a whole when it arrives, a batch is applied as a
    whole to the mapping that is published when it arrives, and publishing
    makes this mapping the current one. [past] holds the mappings that have
    been published, the current one first. *)
Record Spec := mkSpec {
  past : list Mapping;
  updating : option Mapping;     (* by the watch *)
  loading : option Mapping;      (* by the reconciliation *)
}.

Definition spec_started (rev : Z) (kvs : list decodedKV) : Spec := mkSpec [load_kvs rev kvs] None None.

Definition spec_step (sp : Spec) (a : label) : Spec :=
  match a with
  | LBatch b => mkSpec (past sp) (Some (apply_batch (head (past sp)) b)) (loading sp)
  | RRange rev kvs => mkSpec (past sp) (updating sp) (Some (load_kvs rev kvs))
  | LPublish => mkSpec (option_list (updating sp) ++ past sp) None (loading sp)
  | RPublish => mkSpec (option_list (loading sp) ++ past sp) (updating sp) None
  | _ => sp
  end.

Fixpoint spec_run (sp : Spec) (ls : list label) : Spec :=
  match ls with
  | [] => sp
  | a :: ls => spec_run (spec_step sp a) ls
  end.

(** ** Invariant *)

(** The mapping a goroutine is building, which nobody else can see. *)
Definition watch_loc (w : watcher) : option loc :=
  match w with WApply _ _ _ l _ => Some l | _ => None end.
Definition recon_loc (r : loader) : option loc :=
  match r with LFill l _ => Some l | _ => None end.
Definition private (s : Sys) (l : loc) : Prop :=
  watch_loc (watch s) = Some l ∨ recon_loc (recon s) = Some l.

(** A location that shows a snapshot of the history. *)
Definition shows (s : Sys) (h : list Mapping) (l : loc) : Prop :=
  ¬ private s l ∧ ∃ m, heap (mem s) !! l = Some m ∧ m ∈ h.

(** What the watch has read and built on the way to [u], given which locations
    are public. *)
Definition watch_ok (m : Memory) (w : watcher) (u : option Mapping) (public : loc → Prop) : Prop :=
  match w with
  | WLoaded _ b cur =>
      ∃ c m0, cur = Some c ∧ public c ∧ heap m !! c = Some m0 ∧ u = Some (apply_batch (Some m0) b)
  | WApply _ b _ l rest =>
      ∃ m0 pre, u = Some (apply_batch (Some m0) b) ∧ Events b = pre ++ rest
        ∧ heap m !! l = Some (foldl apply_event (Clone m0) pre)
  | _ => True
  end.

(** What the reconciliation has filled in on the way to [v]. *)
Definition recon_ok (m : Memory) (r : loader) (v : option Mapping) : Prop :=
  match r with
  | LFill l rest =>
      ∃ rev pre, v = Some (load_kvs rev (pre ++ rest)) ∧ heap m !! l = Some (load_kvs rev pre)
  | _ => True
  end.

(** The simulation relation between a state and one of the specification. *)
Record sim (s : Sys) (sp : Spec) : Prop := {
  sim_wf : mem_wf (mem s);
  sim_current : ∃ l m, ptr (mem s) = Some l ∧ heap (mem s) !! l = Some m ∧ head (past sp) = Some m
                     ∧ ¬ private s l;
  sim_held : ∀ l, l ∈ held s → shows s (past sp) l;
  sim_watch : watch_ok (mem s) (watch s) (updating sp) (λ l, ¬ private s l);
  sim_recon : recon_ok (mem s) (recon s) (loading sp);
  sim_distinct : ∀ l, watch_loc (watch s) = Some l → recon_loc (recon s) ≠ Some l;
}.

(** ** What one goroutine does to memory

    A goroutine that owns the location [own] only writes there, allocates
    fresh locations, and gives up what it owns when it publishes it. *)
Record frame (m : Memory) (own : option loc) (m' : Memory) (own' : option loc) : Prop := {
  frame_wf : mem_wf m';
  frame_heap : ∀ l, is_Some (heap m !! l) → own ≠ Some l → heap m' !! l = heap m !! l;
  frame_own : ∀ l, own' = Some l → own = Some l ∨ heap m !! l = None;
  frame_ptr : ptr m' = ptr m ∨ (∃ l, own = Some l ∧ ptr m' = Some l ∧ own' = None);
}.

Lemma frame_same m own own' :
  mem_wf m → own' = own ∨ own' = None → frame m own m own'.
Proof. intros Hw Ho. split; [done|done| |by left]. intros l ->. destruct Ho; [by left|done]. Qed.

Lemma frame_alloc m x : mem_wf m → frame m None (snd (alloc x m)) (Some (fst (alloc x m))).
Proof.
  intros Hw. split; [by apply alloc_wf| |  |by left].
  - intros l [y Hl] _. apply alloc_other. intros ->. by rewrite alloc_fresh in Hl.
  - intros l [= <-]. right. by apply alloc_fresh.
Qed.

Lemma frame_write m l x :
  mem_wf m → is_Some (heap m !! l) → frame m (Some l) (write l x m) (Some l).
Proof.
  intros Hw Hl. split; [by apply write_wf| |by left|by left].
  intros k _ Hk. cbn. rewrite lookup_insert_ne; [done|congruence].
Qed.

Lemma frame_swap m l x :
  mem_wf m → is_Some (heap m !! l) → frame m (Some l) (Swap l (write l x m)) None.
Proof.
  intros Hw Hl. split.
  - apply Swap_wf; [by apply write_wf|]. cbn. by rewrite lookup_insert_eq.
  - intros k _ Hk. cbn. rewrite lookup_insert_ne; [done|congruence].
  - done.
  - right. by exists l.
Qed.

Lemma deref_some m l x : deref m l = Some x → is_Some (heap m !! l).
Proof. unfold deref. eauto. Qed.

Lemma watch_frame m w m' w' :
  mem_wf m → watch_step m w m' w' → frame m (watch_loc w) m' (watch_loc w').
Proof.
  intros Hw Hs. destruct Hs; cbn [watch_loc];
    [by apply frame_same; auto..|by apply frame_alloc| |].
  - apply frame_write; eauto using deref_some.
  - apply frame_swap; eauto using deref_some.
Qed.

Lemma recon_frame m r v m' r' :
  mem_wf m → recon_ok m r v → recon_step m r m' r' → frame m (recon_loc r) m' (recon_loc r').
Proof.
  intros Hw Hok Hs. destruct Hs as [| |rev kvs|l e rest x Hl|l]; cbn [recon_loc];
    [by apply frame_same; auto..|by apply frame_alloc| |].
  - apply frame_write; eauto using deref_some.
  - destruct Hok as (rev & pre & _ & Hl). split; [apply Swap_wf; eauto|done|done|right; eauto].
Qed.

(** ** A step and the locations in public view *)

(** Public locations keep their contents and stay public. *)
Definition kept (s s' : Sys) : Prop :=
  ∀ l, is_Some (heap (mem s) !! l) → ¬ private s l →
    heap (mem s') !! l = heap (mem s) !! l ∧ ¬ private s' l.

Lemma kept_watch s m' w' :
  frame (mem s) (watch_loc (watch s)) m' (watch_loc w') →
  kept s (mkSys m' w' (recon s) (held s)).
Proof.
  intros [_ Hheap Hown _] l [x Hl] Hp. unfold private in *. cbn. split.
  - apply Hheap; [eauto|]. intros E. auto.
  - intros [E|E]; [|by auto]. apply Hown in E as [E|E]; [by auto|congruence].
Qed.

Lemma kept_recon s m' r' :
  frame (mem s) (recon_loc (recon s)) m' (recon_loc r') →
  kept s (mkSys m' (watch s) r' (held s)).
Proof.
  intros [_ Hheap Hown _] l [x Hl] Hp. unfold private in *. cbn. split.
  - apply Hheap; [eauto|]. intros E. auto.
  - intros [E|E]; [by auto|]. apply Hown in E as [E|E]; [by auto|congruence].
Qed.

Lemma shows_kept s s' h h' l : kept s s' → (∀ m, m ∈ h → m ∈ h') → shows s h l → shows s' h' l.
Proof.
  intros Hk Hh (Hp & m & Hl & Hm). destruct (Hk l) as [E Hp']; [eauto|done|].
  split; [done|]. exists m. rewrite E. auto.
Qed.

(** The labels of the watch, and those of the reconciliation. *)
Definition watch_label (a : label) : bool :=
  match a with
  | LOpen | LOpenFailed | LStop | LClosed | LCanceled _ | LBatch _ | LClone | LEvent | LPublish => true
  | _ => false
  end.
Definition recon_label (a : label) : bool :=
  match a with RFailed | RStop | RRange _ _ | RApply | RPublish => true | _ => false end.

Lemma exec_watch s a s' :
  exec s a = Some s' → watch_label a = true →
  ∃ m' w', s' = mkSys m' w' (recon s) (held s) ∧ watch_step (mem s) (watch s) m' w'.
Proof.
  unfold exec, set_watch. intros H Ha. destruct a; try done.
  all: repeat match type of H with
  | match ?x with _ => _ end = Some _ => destruct x eqn:?; simplify_eq/=
  | mbind _ ?x = Some _ => destruct x eqn:?; simplify_eq/=
  end; simplify_eq; try done.
  all: eexists _, _; (split; [done|]); by econstructor.
Qed.

Lemma exec_recon s a s' :
  exec s a = Some s' → recon_label a = true →
  ∃ m' r', s' = mkSys m' (watch s) r' (held s) ∧ recon_step (mem s) (recon s) m' r'.
Proof.
  unfold exec, set_recon. intros H Ha. destruct a; try done.
  all: repeat match type of H with
  | match ?x with _ => _ end = Some _ => destruct x eqn:?; simplify_eq/=
  | mbind _ ?x = Some _ => destruct x eqn:?; simplify_eq/=
  end; simplify_eq; try done.
  all: eexists _, _; (split; [done|]); by econstructor.
Qed.

(** A step that publishes nothing keeps the history. *)
Lemma sim_keep s sp s' sp' :
  sim s sp → kept s s' → past sp' = past sp → mem_wf (mem s') → ptr (mem s') = ptr (mem s) →
  (∀ l, l ∈ held s' → l ∈ held s ∨ ptr (mem s) = Some l) →
  watch_ok (mem s') (watch s') (updating sp') (λ l, ¬ private s' l) →
  recon_ok (mem s') (recon s') (loading sp') →
  (∀ l, watch_loc (watch s') = Some l → recon_loc (recon s') ≠ Some l) →
  sim s' sp'.
Proof.
  intros [_ (l & m & Hptr & Hl & Hh & Hp) Hheld _ _ _] Hk Epast Hw Eptr Hin Hwo Hro Hd.
  destruct (Hk l) as [El Hp']; [eauto|done|].
  split; try done; rewrite Epast.
  - exists l, m. rewrite Eptr, El. done.
  - intros k [Hkin|Hkp]%Hin; [eapply shows_kept; eauto|].
    rewrite Hptr in Hkp. injection Hkp as <-. split; [done|]. exists m. rewrite El.
    split; [done|]. by apply head_Some_elem_of.
Qed.

(** A swap adds the snapshot it publishes. *)
Lemma sim_publish s sp s' sp' l x :
  sim s sp → kept s s' → past sp' = x :: past sp → mem_wf (mem s') → ptr (mem s') = Some l →
  heap (mem s') !! l = Some x → ¬ private s' l → held s' = held s →
  watch_ok (mem s') (watch s') (updating sp') (λ l, ¬ private s' l) →
  recon_ok (mem s') (recon s') (loading sp') →
  (∀ l, watch_loc (watch s') = Some l → recon_loc (recon s') ≠ Some l) →
  sim s' sp'.
Proof.
  intros Hs Hk Epast Hw Hptr Hl Hp Hheld Hwo Hro Hd. split; try done; rewrite Epast.
  - by exists l, x.
  - rewrite Hheld. intros k Hin. eapply shows_kept; [done| |by apply (sim_held _ _ Hs)].
    intros m Hm. by right.
Qed.

(** What the reconciliation holds is out of reach of the watch, and conversely. *)
Lemma recon_ok_watch s sp m' w' :
  sim s sp → frame (mem s) (watch_loc (watch s)) m' (watch_loc w') →
  recon_ok m' (recon s) (loading sp) ∧ (∀ l, watch_loc w' = Some l → recon_loc (recon s) ≠ Some l).
Proof.
  intros Hs [_ Hheap Hown _]. pose proof (sim_distinct _ _ Hs) as Hd.
  pose proof (sim_recon _ _ Hs) as Hr. unfold recon_ok in *.
  destruct (recon s) as [|l rest|]; cbn in *; [done| |done].
  destruct Hr as (rev & pre & Hv & Hl). split.
  - exists rev, pre. rewrite Hheap; [done|eauto|]. intros E. by apply Hd in E.
  - intros k Hk [= ->]. apply Hown in Hk as [E|E]; [by apply Hd in E|congruence].
Qed.

Lemma watch_ok_recon s sp m' r' :
  sim s sp → frame (mem s) (recon_loc (recon s)) m' (recon_loc r') →
  watch_ok m' (watch s) (updating sp) (λ l, ¬ private (mkSys m' (watch s) r' (held s)) l)
  ∧ (∀ l, watch_loc (watch s) = Some l → recon_loc r' ≠ Some l).
Proof.
  intros Hs Hf. pose proof (kept_recon s m' r' Hf) as Hk. destruct Hf as [_ Hheap Hown _].
  pose proof (sim_distinct _ _ Hs) as Hd. pose proof (sim_watch _ _ Hs) as Hw.
  unfold watch_ok in *. destruct (watch s) as [| |rev b cur|rev b cur l rest|] eqn:Ew; try done.
  - destruct Hw as (c & m0 & -> & Hc & Hm & Hu). destruct (Hk c) as [E Hp]; [eauto|done|].
    split; [|done]. exists c, m0. by rewrite <-E in Hm.
  - destruct Hw as (m0 & pre & Hu & Hev & Hl). cbn in Hd. split.
    + exists m0, pre. split_and!; [done|done|]. rewrite Hheap; [done|eauto|]. intros E.
      by eapply Hd.
    + cbn. intros k [= ->] Hk'. apply Hown in Hk' as [E|E]; [by eapply Hd|congruence].
Qed.

(** ** The simulation *)

(** A step of the watch; [u] is what the specification has for it afterwards. *)
Lemma sim_watch_keep s sp m' w' u :
  sim s sp → watch_step (mem s) (watch s) m' w' → ptr m' = ptr (mem s) →
  watch_ok m' w' u (λ l, ¬ private (mkSys m' w' (recon s) (held s)) l) →
  sim (mkSys m' w' (recon s) (held s)) (mkSpec (past sp) u (loading sp)).
Proof.
  intros Hs Hstep Hp Hw. pose proof (watch_frame _ _ _ _ (sim_wf _ _ Hs) Hstep) as Hf.
  destruct (recon_ok_watch _ _ _ _ Hs Hf) as [Hro Hdis].
  apply (sim_keep s sp); try done; [by apply kept_watch|apply Hf|by left].
Qed.

Lemma sim_recon_keep s sp m' r' v :
  sim s sp → recon_step (mem s) (recon s) m' r' → ptr m' = ptr (mem s) → recon_ok m' r' v →
  sim (mkSys m' (watch s) r' (held s)) (mkSpec (past sp) (updating sp) v).
Proof.
  intros Hs Hstep Hp Hr.
  pose proof (recon_frame _ _ _ _ _ (sim_wf _ _ Hs) (sim_recon _ _ Hs) Hstep) as Hf.
  destruct (watch_ok_recon _ _ _ _ Hs Hf) as [Hwo Hdis].
  apply (sim_keep s sp); try done; [by apply kept_recon|apply Hf|by left].
Qed.

Lemma spec_same sp : sp = mkSpec (past sp) (updating sp) (loading sp).
Proof. by destruct sp. Qed.

Lemma sim_watch_exec s sp a s' :
  sim s sp → watch_label a = true → exec s a = Some s' → sim s' (spec_step sp a).
Proof.
  intros Hs Ha E. destruct (exec_watch s a s' E Ha) as (m' & w' & -> & Hstep).
  pose proof (sim_watch _ _ Hs) as Hw. pose proof (watch_frame _ _ _ _ (sim_wf _ _ Hs) Hstep) as Hf.
  pose proof (kept_watch s m' w' Hf) as Hk. pose proof (frame_wf _ _ _ _ Hf) as Hwf.
  destruct (recon_ok_watch _ _ _ _ Hs Hf) as [Hro Hdis]. pose proof (sim_distinct _ _ Hs) as Hd.
  pose proof (λ u, sim_watch_keep s sp m' w' u Hs Hstep) as Hkeep. clear Hstep Hf.
  unfold exec, set_watch in E. destruct a; try discriminate Ha; cbn [spec_step];
    destruct (watch s) as [rev|rev|rev b0 cur|rev b0 cur l rest|] eqn:Ew; try done.
  1-4: injection E as <- <-; rewrite (spec_same sp); by apply Hkeep.
  - destruct (Canceled b); [|done]. injection E as <- <-. rewrite (spec_same sp). by apply Hkeep.
  - destruct (Canceled b); [done|]. injection E as <- <-. apply Hkeep; [done|].
    destruct (sim_current _ _ Hs) as (l & x & Hptr & Hl & Hh & Hp).
    exists l, x. split_and!; [done| |done|by rewrite Hh]. apply Hk; eauto.
  - cbn in Hw. destruct Hw as (c & m0 & -> & _ & Hc & Hu). cbn in E. unfold deref in E.
    rewrite Hc in E. cbn in E. injection E as <- <-. rewrite (spec_same sp). apply Hkeep; [done|].
    exists m0, []. split_and!; [done|done|]. cbn. by rewrite lookup_insert_eq.
  - destruct rest as [|ev rest]; [done|]. cbn in Hw. destruct Hw as (m0 & pre & Hu & Hev & Hl).
    unfold deref in E. rewrite Hl in E. cbn in E. injection E as <- <-.
    rewrite (spec_same sp). apply Hkeep; [done|].
    exists m0, (pre ++ [ev]). split_and!; [done|by rewrite Hev, <-app_assoc|].
    cbn. by rewrite lookup_insert_eq, foldl_app.
  - destruct rest as [|ev rest]; [|done]. cbn in Hw. destruct Hw as (m0 & pre & Hu & Hev & Hl).
    rewrite app_nil_r in Hev. unfold deref in E. rewrite Hl in E. cbn in E. injection E as <- <-.
    apply (sim_publish s sp _ _ l (apply_batch (Some m0) b0)); try done.
    + by rewrite Hu.
    + cbn. rewrite lookup_insert_eq. unfold apply_batch. by rewrite Hev.
    + intros [H|H]; [done|]. by apply (Hd l eq_refl).
Qed.

Lemma sim_recon_exec s sp a s' :
  sim s sp → recon_label a = true → exec s a = Some s' → sim s' (spec_step sp a).
Proof.
  intros Hs Ha E. destruct (exec_recon s a s' E Ha) as (m' & r' & -> & Hstep).
  pose proof (sim_recon _ _ Hs) as Hr.
  pose proof (recon_frame _ _ _ _ _ (sim_wf _ _ Hs) Hr Hstep) as Hf.
  pose proof (kept_recon s m' r' Hf) as Hk. pose proof (frame_wf _ _ _ _ Hf) as Hwf.
  destruct (watch_ok_recon _ _ _ _ Hs Hf) as [Hwo Hdis]. pose proof (sim_distinct _ _ Hs) as Hd.
  pose proof (λ v, sim_recon_keep s sp m' r' v Hs Hstep) as Hkeep. clear Hstep Hf.
  assert (exec s a = match a, recon s with
    | RFailed, LIdle => Some (set_recon s (mem s) LIdle)
    | RStop, LIdle => Some (set_recon s (mem s) LStopped)
    | RRange rev kvs, LIdle =>
        Some (set_recon s (snd (alloc (mkMapping rev ∅ ∅) (mem s)))
                (LFill (fst (alloc (mkMapping rev ∅ ∅) (mem s))) kvs))
    | RApply, LFill l (e :: rest) =>
        m ← deref (mem s) l;
        Some (set_recon s (write l (snd (applyKV m (Key e) (Value e) false)) (mem s)) (LFill l rest))
    | RPublish, LFill l [] => Some (set_recon s (Swap l (mem s)) LIdle)
    | _, _ => None
    end) as E' by (unfold exec; destruct a; try discriminate Ha; by destruct (watch s)).
  rewrite E' in E. clear E'. unfold set_recon in E.
  destruct a; try discriminate Ha; cbn [spec_step]; destruct (recon s) as [|l rest|] eqn:Er; try done.
  1-2: injection E as <- <-; rewrite (spec_same sp); by apply Hkeep.
  - injection E as <- <-. apply Hkeep; [done|]. exists rev, []. split; [done|]. cbn.
    by rewrite lookup_insert_eq.
  - destruct rest as [|e rest]; [done|]. cbn in Hr. destruct Hr as (rev & pre & Hv & Hl).
    unfold deref in E. rewrite Hl in E. cbn in E. injection E as <- <-.
    rewrite (spec_same sp). apply Hkeep; [done|]. exists rev, (pre ++ [e]). cbn.
    rewrite lookup_insert_eq, Hv, <-app_assoc. split; [done|]. unfold load_kvs. by rewrite foldl_app.
  - destruct rest as [|e rest]; [|done]. cbn in Hr. destruct Hr as (rev & pre & Hv & Hl).
    rewrite app_nil_r in Hv. injection E as <- <-.
    apply (sim_publish s sp _ _ l (load_kvs rev pre)); try done.
    + by rewrite Hv.
    + intros [H|H]; [|done]. cbn in H. by apply (Hd l H).
Qed.

Lemma sim_exec s sp a s' : sim s sp → exec s a = Some s' → sim s' (spec_step sp a).
Proof.
  intros Hs E. destruct (watch_label a) eqn:Ew; [by eapply sim_watch_exec|].
  destruct (recon_label a) eqn:Er; [by eapply sim_recon_exec|].
  destruct a; try discriminate; cbn [spec_step].
  - assert (∃ l, Load (mem s) = Some l ∧ s' = mkSys (mem s) (watch s) (recon s) ({[l]} ∪ held s))
      as (l & Hl & ->).
    { unfold exec in E. destruct (watch s), (recon s); apply bind_Some in E as (l & ? & [= <-]); eauto. }
    refine (sim_keep s sp (mkSys _ _ _ ({[l]} ∪ held s)) sp Hs _ eq_refl (sim_wf _ _ Hs) eq_refl _
      (sim_watch _ _ Hs) (sim_recon _ _ Hs) (sim_distinct _ _ Hs)); [by intros ???|].
    cbn. intros k [->%elem_of_singleton|?]%elem_of_union; auto.
  - assert (s' = mkSys (mem s) (watch s) (recon s) (held s ∖ {[l]})) as ->
      by (unfold exec in E; by destruct (watch s), (recon s); injection E as <-).
    refine (sim_keep s sp (mkSys _ _ _ (held s ∖ {[l]})) sp Hs _ eq_refl (sim_wf _ _ Hs) eq_refl _
      (sim_watch _ _ Hs) (sim_recon _ _ Hs) (sim_distinct _ _ Hs)); [by intros ???|].
    cbn. set_solver.
Qed.

(** [loadAll] run alone publishes the loaded mapping in a fresh location. *)
Lemma loadAll_spec rev kvs s :
  mem_wf s →
  mem_wf (loadAll rev kvs s) ∧ ptr (loadAll rev kvs s) = Some (fresh s)
  ∧ heap (loadAll rev kvs s) !! fresh s = Some (load_kvs rev kvs).
Proof.
  intros Hw. unfold loadAll.
  pose proof (alloc_wf (mkMapping rev ∅ ∅) s Hw) as Hw'.
  destruct (alloc (mkMapping rev ∅ ∅) s) as [l s'] eqn:E. cbn [snd] in Hw'.
  assert (l = fresh s ∧ is_Some (heap s' !! l)) as [-> Hl].
  { injection E as <- <-. split; [done|]. cbn [heap]. by rewrite lookup_insert_eq. }
  assert (heap (write (fresh s) (load_kvs rev kvs) s') !! fresh s = Some (load_kvs rev kvs)) as Hl'
    by apply lookup_insert_eq.
  split_and!; [|done|done]. apply Swap_wf; [by apply write_wf|eauto].
Qed.

Lemma sim_started rev kvs : sim (started rev kvs) (spec_started rev kvs).
Proof.
  destruct (loadAll_spec rev kvs NewStore NewStore_wf) as (Hw & Hp & Hl).
  split; [done| |by intros ??|done|done|done].
  exists (fresh NewStore), (load_kvs rev kvs). split_and!; [done|done|done|].
  by intros [?|?].
Qed.

Lemma sim_run ls s sp s' : sim s sp → run s ls = Some s' → sim s' (spec_run sp ls).
Proof.
  revert s sp. induction ls as [|a ls IH]; intros s sp Hs; cbn; [by intros [= <-]|].
  intros (s1 & E & Hrun)%bind_Some. eapply IH; [by eapply sim_exec|done].
Qed.

Lemma sim_reachable s : reachable s → ∃ sp, sim s sp.
Proof.
  intros (rev & kvs & (ls & Hr)%steps_run). eexists. eapply sim_run; [apply sim_started|done].
Qed.

Lemma kept_step s sp s' : sim s sp → sync_step s s' → kept s s'.
Proof.
  intros Hs Hstep. destruct Hstep as [s m' w' Hw|s m' r' Hr|s l Hl|s l].
  - apply kept_watch. by eapply watch_frame; [apply Hs|].
  - apply kept_recon. by eapply recon_frame; [apply Hs|apply Hs|].
  - by intros ???.
  - by intros ???.
Qed.

(** A location in public view keeps its contents for ever. *)
Lemma kept_steps s sp s' l :
  sim s sp → rtc sync_step s s' → is_Some (heap (mem s) !! l) → ¬ private s l →
  heap (mem s') !! l = heap (mem s) !! l.
Proof.
  intros Hs Hr. revert sp Hs. induction Hr as [|s s1 s' Hstep Hr IH]; intros sp Hs Hl Hp; [done|].
  destruct (kept_step _ _ _ Hs Hstep l Hl Hp) as [E Hp'].
  destruct (step_exec _ _ Hstep) as [a Ha]. pose proof (sim_exec _ _ _ _ Hs Ha) as Hs'.
  rewrite <-E. apply (IH (spec_step sp a)); [done|by rewrite E|done].
Qed.

(** What the specification publishes is well-formed. *)
Definition spec_wf (sp : Spec) : Prop :=
  Forall mapping_wf (past sp) ∧ Forall mapping_wf (option_list (updating sp))
  ∧ Forall mapping_wf (option_list (loading sp)).

Lemma spec_step_wf sp a : spec_wf sp → spec_wf (spec_step sp a).
Proof.
  intros (Hp & Hu & Hl). destruct a; cbn [spec_step]; try done; split_and!; cbn; auto.
  - constructor; [|constructor]. apply apply_batch_wf. intros m' Hm.
    eapply Forall_forall in Hp; [exact Hp|]. by apply head_Some_elem_of.
  - by apply Forall_app.
  - constructor; auto with go.
  - by apply Forall_app.
Qed.

Lemma spec_run_wf ls sp : spec_wf sp → spec_wf (spec_run sp ls).
Proof. revert sp. induction ls as [|a ls IH]; intros sp Hs; [done|]. by apply IH, spec_step_wf. Qed.

Lemma spec_started_wf rev kvs : spec_wf (spec_started rev kvs).
Proof. split_and!; [|constructor..]. constructor; auto with go. Qed.

(** ** Properties *)

(** C2: the registry refines the specification in which every update is one step.
    Whatever the interleaving of the watch, the reconciliation and the requests,
    the store holds exactly the mapping the specification has published last on
    the same responses and batches: a whole load of the last response, or the
    whole of the last batch applied to what was published when it arrived; the
    snapshots that requests hold are among those published; the store is never
    empty again and the records are well-formed. Every behaviour of the step
    relation is such a run. *)
Theorem sync_refines_atomic (rev : Z) (kvs : list decodedKV) :
  (∀ s, rtc sync_step (started rev kvs) s → ∃ ls, run (started rev kvs) ls = Some s)
  ∧ ∀ ls s, run (started rev kvs) ls = Some s →
    let sp := spec_run (spec_started rev kvs) ls in
    (∃ m, current (mem s) = Some m ∧ head (past sp) = Some m)
    ∧ (∀ l, l ∈ held s → ∃ m, deref (mem s) l = Some m ∧ m ∈ past sp)
    ∧ Forall mapping_wf (past sp)
    ∧ Ready (mem s) = true.
Proof.
  split; [intros s; apply steps_run|]. intros ls s Hrun sp.
  pose proof (sim_run ls _ _ s (sim_started rev kvs) Hrun) as Hs. fold sp in Hs.
  destruct (sim_current _ _ Hs) as (l & m & Hp & Hl & Hhd & _). split_and!.
  - exists m. unfold current. by rewrite Hp.
  - intros k Hk. destruct (sim_held _ _ Hs k Hk) as (_ & m' & Hm' & Hin). eauto.
  - apply (spec_run_wf ls _ (spec_started_wf rev kvs)).
  - unfold Ready. by rewrite Hp.
Qed.

(** C23: snapshots are immutable: a mapping that a request holds, or that the
    store points to, is never changed by any later step of the watch or of the
    reconciliation, so a request routes on one consistent map. *)
Theorem snapshot_immutable (s s' : Sys) (l : loc) :
  reachable s → rtc sync_step s s' → l ∈ held s ∨ Load (mem s) = Some l →
  deref (mem s') l = deref (mem s) l.
Proof.
  intros Hr Hsteps Hl. destruct (sim_reachable s Hr) as (h & Hs). unfold deref.
  destruct Hl as [Hl|Hl].
  - destruct (sim_held _ _ Hs l Hl) as (Hp & m & Hm & _). eapply kept_steps; eauto.
  - destruct (sim_current _ _ Hs) as (k & m & Hp & Hk & _ & Hpr). unfold Load in Hl.
    rewrite Hp in Hl. injection Hl as ->. eapply kept_steps; eauto.
Qed.

Definition ex_kvs : list decodedKV := [mkKV "/sharding/buckets/0001" (ex_value "s1")].
Definition ex_move : watchBatch :=
  mkBatch 7 [mkEvent "PUT" "/sharding/buckets/0001" (ex_value "s2") 7] false "".

(** The watch publishes the move while a request holds the first snapshot. *)
Definition ex_watch_run : list label := [QLoad; LOpen; LBatch ex_move; LClone; LEvent; LPublish].

(** The same, after the reconciliation has read the key-space at revision 6. *)
Definition ex_overlap_run : list label := RRange 6 ex_kvs :: RApply :: ex_watch_run.

Lemma sync_refines_atomic_witness :
  ∃ s m, run (started 5 ex_kvs) ex_overlap_run = Some s ∧ current (mem s) = Some m
    ∧ m = apply_batch (Some (load_kvs 5 ex_kvs)) ex_move.
Proof.
  destruct (run (started 5 ex_kvs) ex_overlap_run) as [s|] eqn:E; [|by vm_compute in E].
  destruct (sync_refines_atomic 5 ex_kvs) as [_ H].
  destruct (H ex_overlap_run s E) as ((m & Hm & Hh) & _). exists s, m.
  split; [reflexivity|]. split; [exact Hm|].
  change (Some (apply_batch (Some (load_kvs 5 ex_kvs)) ex_move) = Some m) in Hh.
  injection Hh as Hh. symmetry. exact Hh.
Defined.

Lemma snapshot_immutable_witness :
  ∃ s, run (started 5 ex_kvs) ex_overlap_run = Some s
    ∧ deref (mem s) 1 = deref (mem (started 5 ex_kvs)) 1.
Proof.
  destruct (run (started 5 ex_kvs) ex_overlap_run) as [s|] eqn:E; [|by vm_compute in E].
  exists s. split; [done|]. apply (snapshot_immutable (started 5 ex_kvs) s 1).
  - exists 5, ex_kvs. apply rtc_refl.
  - by eapply run_steps.
  - right. by vm_compute.
Defined.

(** The bucket of a state's current snapshot, with its revision. *)
Definition current_bucket (s : Sys) (id : Z) : option (Z * string) :=
  m ← current (mem s); b ← Buckets m !! id; Some (Revision m, BShardID b).

(** A reconciliation can undo an update: bucket 1 is moved to [s2] at
    revision 7 and published by the watch, and a reconciliation that had read
    the key-space at revision 6 then publishes the old record again; the
    watch goes on from revision 8 and is not sent the move a second time. *)
Lemma reconciliation_loses_update :
  ∃ s1 s2, reachable s1 ∧ sync_step s1 s2
    ∧ current_bucket s1 1 = Some (7, "s2") ∧ watch s1 = WStream 8
    ∧ current_bucket s2 1 = Some (6, "s1") ∧ watch s2 = WStream 8.
Proof.
  destruct (run (started 5 ex_kvs) ex_overlap_run) as [s1|] eqn:E1; [|by vm_compute in E1].
  destruct (exec s1 RPublish) as [s2|] eqn:E2; [|by vm_compute in E1; simplify_eq; vm_compute in E2].
  exists s1, s2. split; [exists 5, ex_kvs; by eapply run_steps|]. split; [by eapply exec_step|].
  vm_compute in E1. simplify_eq. vm_compute in E2. simplify_eq. by vm_compute.
Qed.

(** What etcd answers while it is unreachable or refuses the watch. *)
Definition is_outage (a : label) : bool :=
  match a with
  | LOpen | LOpenFailed | LClosed | LCanceled _ | RFailed | QLoad | QDone _ => true
  | _ => false
  end.

Definition watch_rev (w : watcher) : option Z :=
  match w with WIdle r | WStream r | WLoaded r _ _ | WApply r _ _ _ _ => Some r | WStopped => None end.

(** During an outage of etcd the last snapshot keeps serving: failed
    connections, ends of streams, cancellations and failed reconciliations
    never touch the store. The revision the watch asks for does not move
    either: after a cancellation the loop asks for the same one again. *)
Lemma outage_keeps_snapshot (s s' : Sys) (ls : list label) :
  Forall (λ a, is_outage a = true) ls → run s ls = Some s' →
  mem s' = mem s ∧ watch_rev (watch s') = watch_rev (watch s).
Proof.
  intros Hls. revert s. induction Hls as [|a ls Ha Hls IH]; intros s; cbn; [by intros [= ->]|].
  intros (s1 & E & [-> ->]%IH)%bind_Some. unfold exec, set_watch, set_recon in E.
  destruct a; try done; destruct (watch s) eqn:?; destruct (recon s) eqn:?;
    repeat case_match; simplify_eq/=; try done; try congruence;
    by apply bind_Some in E as (l & _ & [= <-]); cbn; split; congruence.
Qed.

Lemma outage_keeps_snapshot_witness :
  let canceled := mkBatch 9 [] true "compacted" in
  ∃ s', run (started 5 ex_kvs) [LOpenFailed; LOpen; LCanceled canceled; RFailed; LOpen] = Some s'
    ∧ watch_rev (watch s') = Some 6.
Proof.
  intros canceled. set (ls := [LOpenFailed; LOpen; LCanceled canceled; RFailed; LOpen]).
  destruct (run (started 5 ex_kvs) ls) as [s'|] eqn:E; [|by vm_compute in E].
  exists s'. split; [done|].
  assert (Forall (λ a, is_outage a = true) ls) as Hls by by repeat constructor.
  by destruct (outage_keeps_snapshot (started 5 ex_kvs) s' ls Hls E) as [_ ->].
Defined.
