(* ===== verification/Lifecycle.v ===== *)
(** * The etcd registry: cancellation, and the end of its goroutines

    [Close] of [internal/registry/etcd.go], and the control flow of
    [watchLoop] and [reconcileLoop] around the accesses of [EtcdSync]: the test
    of the context at the top of the loop, the call that opens the stream, the
    pause of [sleepOrDone], the ticker, and the messages of the stream that have
    arrived and are not consumed yet.

    Of the library the model uses this: a request whose context is done fails,
    the body of its response yields no more bytes than have arrived, and a
    [select] chooses any of its ready cases. *)

From S2P Require Import Prelude GoInt GoString Json Model Cache Keys Etcd EtcdSync.

(** ** State *)

(** Where [watchLoop] is while it has no stream. *)
Inductive place : Type :=
| AtTop            (* before the test of the context *)
| Opening          (* inside [watchPrefix] *)
| Sleeping.        (* inside [sleepOrDone] *)

(** [arrived] holds the batches of the open stream that have been received from
    the network and not by the loop; [tick] whether the channel of the ticker,
    which has room for one, holds a tick. *)
Record Life := mkLife {
  sys : Sys;
  cancelled : bool;
  at_ : place;
  arrived : list watchBatch;
  tick : bool;
}.

(** The registry when [Start] returns. *)
Definition alive (rev : Z) (kvs : list decodedKV) : Life :=
  mkLife (started rev kvs) false AtTop [] false.

(** [EtcdRegistry.Close]: [r.cancel] is [nil] before [Start]. *)
Definition Close (r : option Life) : option Life :=
  option_map (λ l, mkLife (sys l) true (at_ l) (arrived l) (tick l)) r.

Definition with_watch (l : Life) (m : Memory) (w : watcher) (p : place) (bs : list watchBatch) : Life :=
  mkLife (mkSys m w (recon (sys l)) (held (sys l))) (cancelled l) p bs (tick l).
Definition with_recon (l : Life) (m : Memory) (r : loader) (t : bool) : Life :=
  mkLife (mkSys m (watch (sys l)) r (held (sys l))) (cancelled l) (at_ l) (arrived l) t.

(** ** Steps of the goroutines *)

Inductive loop_step (l : Life) : Life → Prop :=
| watch_sees_done rev :
    watch (sys l) = WIdle rev → at_ l = AtTop → cancelled l = true →
    loop_step l (with_watch l (mem (sys l)) WStopped AtTop [])
| watch_goes_on rev :
    watch (sys l) = WIdle rev → at_ l = AtTop → cancelled l = false →
    loop_step l (with_watch l (mem (sys l)) (WIdle rev) Opening [])
| watch_opened rev :
    watch (sys l) = WIdle rev → at_ l = Opening → cancelled l = false →
    loop_step l (with_watch l (mem (sys l)) (WStream rev) AtTop [])
| watch_not_opened rev :
    watch (sys l) = WIdle rev → at_ l = Opening →
    loop_step l (with_watch l (mem (sys l)) (WIdle rev) Sleeping [])
| watch_slept rev :
    watch (sys l) = WIdle rev → at_ l = Sleeping →
    loop_step l (with_watch l (mem (sys l)) (WIdle rev) AtTop [])
| watch_woken rev :
    watch (sys l) = WIdle rev → at_ l = Sleeping → cancelled l = true →
    loop_step l (with_watch l (mem (sys l)) WStopped AtTop [])
| watch_stream_ends rev :
    watch (sys l) = WStream rev →
    loop_step l (with_watch l (mem (sys l)) (WIdle rev) Sleeping [])
| watch_refused rev b bs :
    watch (sys l) = WStream rev → arrived l = b :: bs → Canceled b = true →
    loop_step l (with_watch l (mem (sys l)) (WIdle rev) Sleeping [])
| watch_takes rev b bs :
    watch (sys l) = WStream rev → arrived l = b :: bs → Canceled b = false →
    loop_step l (with_watch l (mem (sys l)) (WLoaded rev b (Load (mem (sys l)))) AtTop bs)
| watch_builds m' w' :
    watch_loc (watch (sys l)) ≠ None ∨ (∃ rev b cur, watch (sys l) = WLoaded rev b cur) →
    watch_step (mem (sys l)) (watch (sys l)) m' w' →
    loop_step l (with_watch l m' w' AtTop (arrived l))
| recon_sees_done :
    recon (sys l) = LIdle → cancelled l = true →
    loop_step l (with_recon l (mem (sys l)) LStopped (tick l))
| recon_fails :
    recon (sys l) = LIdle → tick l = true →
    loop_step l (with_recon l (mem (sys l)) LIdle false)
| recon_loads m' r' :
    recon (sys l) = LIdle → tick l = true → cancelled l = false →
    recon_step (mem (sys l)) LIdle m' r' → is_Some (recon_loc r') →
    loop_step l (with_recon l m' r' false)
| recon_builds m' r' :
    is_Some (recon_loc (recon (sys l))) → recon_step (mem (sys l)) (recon (sys l)) m' r' →
    loop_step l (with_recon l m' r' (tick l)).

(** ** Steps of the world: the signal or [Close], the clock, the network, the
    requests *)

Inductive world_step (l : Life) : Life → Prop :=
| world_cancels l' :
    Close (Some l) = Some l' → world_step l l'
| world_ticks :
    world_step l (mkLife (sys l) (cancelled l) (at_ l) (arrived l) true)
| world_sends rev b :
    watch (sys l) = WStream rev → cancelled l = false →
    world_step l (mkLife (sys l) (cancelled l) (at_ l) (arrived l ++ [b]) (tick l))
| world_request h :
    sync_step (sys l) (mkSys (mem (sys l)) (watch (sys l)) (recon (sys l)) h) →
    world_step l (mkLife (mkSys (mem (sys l)) (watch (sys l)) (recon (sys l)) h)
                    (cancelled l) (at_ l) (arrived l) (tick l)).

Definition life_step (l l' : Life) : Prop := loop_step l l' ∨ world_step l l'.

Definition lives (l : Life) : Prop := ∃ rev kvs, rtc life_step (alive rev kvs) l.

(** ** The accesses to shared memory are those of [EtcdSync] *)

(** The watch or the reconciliation takes a step, or nothing shared changes. *)
Lemma sync_watch l m w p bs :
  watch_step (mem (sys l)) (watch (sys l)) m w → rtc sync_step (sys l) (sys (with_watch l m w p bs)).
Proof. intros Hs. apply rtc_once. by apply step_watch. Qed.

Lemma sync_recon l m r t :
  recon_step (mem (sys l)) (recon (sys l)) m r → rtc sync_step (sys l) (sys (with_recon l m r t)).
Proof. intros Hs. apply rtc_once. by apply step_recon. Qed.

Lemma sync_stutter l p bs :
  rtc sync_step (sys l) (sys (with_watch l (mem (sys l)) (watch (sys l)) p bs)).
Proof. cbn. by destruct (sys l). Qed.

Lemma loop_sync l l' : loop_step l l' → rtc sync_step (sys l) (sys l').
Proof.
  destruct 1 as [rev Hw ? ?|rev Hw ? ?|rev Hw ? ?|rev Hw ?|rev Hw ?|rev Hw ? ?|rev Hw
    |rev b bs Hw ? Hb|rev b bs Hw ? Hb|m' w' _ Hs|Hr ?|Hr ?|m' r' Hr ? ? Hs ?|m' r' ? Hs].
  1, 3, 6, 7, 9: apply sync_watch; rewrite Hw; by constructor.
  1, 2, 3: rewrite <-Hw; apply sync_stutter.
  - apply sync_watch. rewrite Hw. by apply (watch_canceled _ rev b).
  - by apply sync_watch.
  - apply sync_recon. rewrite Hr. constructor.
  - apply sync_recon. rewrite Hr. constructor.
  - apply sync_recon. by rewrite Hr.
  - by apply sync_recon.
Qed.

Lemma life_sync l l' : life_step l l' → rtc sync_step (sys l) (sys l').
Proof.
  intros [Hl|Hw]; [by apply loop_sync|].
  destruct Hw as [l' [= <-]| |rev b Hw Hc|h Hs]; cbn; [done..|by apply rtc_once].
Qed.

Lemma lives_reachable l : lives l → reachable (sys l).
Proof.
  intros (rev & kvs & Hr). exists rev, kvs.
  change (started rev kvs) with (sys (alive rev kvs)).
  induction Hr as [|l1 l2 l3 Hs _ IH]; [done|]. etransitivity; [by apply life_sync|done].
Qed.

Lemma lives_step l l' : lives l → life_step l l' → lives l'.
Proof. intros (rev & kvs & Hr) Hs. exists rev, kvs. by eapply rtc_r. Qed.

Lemma cancelled_stays l l' : loop_step l l' → cancelled l' = cancelled l.
Proof. by destruct 1. Qed.

(** ** Nothing is left to do but to stop *)

(** How many steps a goroutine can take once the context is done. *)
Definition batch_work (b : watchBatch) : nat := length (Events b) + 4.

Definition watch_work (l : Life) : nat :=
  let queue := sum_list (map batch_work (arrived l)) in
  match watch (sys l) with
  | WIdle _ => match at_ l with AtTop => 1 | Sleeping => 2 | Opening => 3 end
  | WStream _ => 4 + queue
  | WLoaded _ b _ => 4 + queue + length (Events b) + 3
  | WApply _ _ _ _ rest => 4 + queue + length rest + 1
  | WStopped => 0
  end.

Definition recon_work (l : Life) : nat :=
  match recon (sys l) with LIdle => 1 | LFill _ rest => length rest + 2 | LStopped => 0 end
  + if tick l then 1 else 0.

Definition work (l : Life) : nat := watch_work l + recon_work l.

Lemma watch_works l m w p bs :
  (watch_work (with_watch l m w p bs) < watch_work l)%nat →
  (work (with_watch l m w p bs) < work l)%nat.
Proof. unfold work. change (recon_work (with_watch l m w p bs)) with (recon_work l). lia. Qed.

Lemma recon_works l m r t :
  (recon_work (with_recon l m r t) < recon_work l)%nat →
  (work (with_recon l m r t) < work l)%nat.
Proof. unfold work. change (watch_work (with_recon l m r t)) with (watch_work l). lia. Qed.

Lemma work_decreases l l' : cancelled l = true → loop_step l l' → (work l' < work l)%nat.
Proof.
  intros Hc Hs. destruct Hs as [rev Hw Ha ?|rev Hw Ha ?|rev Hw Ha ?|rev Hw Ha|rev Hw Ha|rev Hw Ha ?|rev Hw
    |rev b bs Hw Ha Hb|rev b bs Hw Ha Hb|m' w' Hin Hs|Hr ?|Hr Ht|m' r' Hr ? ? Hs ?|m' r' [k Hk] Hs].
  all: try congruence.
  1-5: apply watch_works; unfold watch_work; cbn; rewrite Hw; try rewrite Ha; cbn; lia.
  - apply watch_works. unfold watch_work; cbn. rewrite Hw, Ha. cbn. unfold batch_work. lia.
  - apply watch_works. unfold watch_work; cbn. rewrite Hw, Ha. cbn. unfold batch_work. lia.
  - apply watch_works. unfold watch_work. cbn.
    destruct Hs; cbn in Hin |- *; try lia; destruct Hin as [Hin|(? & ? & ? & Hin)]; done.
  - apply recon_works. unfold recon_work. cbn. rewrite Hr. destruct (tick l); lia.
  - apply recon_works. unfold recon_work. cbn. rewrite Hr, Ht. lia.
  - apply recon_works. unfold recon_work. cbn.
    destruct Hs; cbn in Hk |- *; try done; destruct (tick l); lia.
Qed.

(** A goroutine that has not stopped can always take a step. *)
Lemma watch_not_stuck l :
  lives l → cancelled l = true → watch (sys l) ≠ WStopped → ∃ l', loop_step l l'.
Proof.
  intros Hl Hc Hw. destruct (sim_reachable _ (lives_reachable l Hl)) as (h & Hs).
  pose proof (sim_watch _ _ Hs) as Hok. destruct (watch (sys l)) as [rev|rev|rev b cur|rev b cur k rest|] eqn:Ew.
  - destruct (at_ l) eqn:Ea.
    + eexists. by apply (watch_sees_done l rev).
    + eexists. by apply (watch_not_opened l rev).
    + eexists. by apply (watch_slept l rev).
  - eexists. by apply (watch_stream_ends l rev).
  - destruct Hok as (c & m & -> & _ & Hm & _).
    eexists. apply watch_builds; [right; eauto|]. rewrite Ew. apply (watch_clone _ rev b (Some c) (Clone m)).
    unfold base_mapping, deref. by rewrite Hm.
  - destruct Hok as (m0 & pre & _ & _ & Hm).
    destruct rest as [|ev rest]; eexists; (apply watch_builds; [left; by rewrite Ew|]);
      rewrite Ew; [eapply watch_swap|eapply watch_event]; exact Hm.
  - done.
Qed.

Lemma recon_not_stuck l :
  lives l → cancelled l = true → recon (sys l) ≠ LStopped → ∃ l', loop_step l l'.
Proof.
  intros Hl Hc Hr. destruct (sim_reachable _ (lives_reachable l Hl)) as (h & Hs).
  pose proof (sim_recon _ _ Hs) as Hok. destruct (recon (sys l)) as [|k rest|] eqn:Er; [| |done].
  - eexists. by apply recon_sees_done.
  - destruct Hok as (rev & pre & _ & Hm).
    destruct rest as [|e rest]; eexists; (apply recon_builds; [by rewrite Er|]); rewrite Er;
      [apply recon_swap|eapply recon_apply; exact Hm].
Qed.

(** C14: [Close] ends the goroutines: once the context is cancelled, whatever the
    two loops are doing (in the middle of a batch, of a reconciliation, of a
    pause, with messages still to read), they take at most [work l] more steps
    between two ticks of the clock, they are never stuck, and when neither can
    move both have returned; the store still serves a mapping. *)
Theorem closed_registry_stops (l : Life) :
  lives l → cancelled l = true →
  (∀ n l', nsteps loop_step n l l' → (n ≤ work l)%nat)
  ∧ sn loop_step l
  ∧ ∀ l', rtc loop_step l l' → nf loop_step l' →
      watch (sys l') = WStopped ∧ recon (sys l') = LStopped ∧ is_Some (current (mem (sys l'))).
Proof.
  intros Hl Hc. split_and!.
  - intros n l' Hn. induction Hn as [l|n l l1 l2 Hs Hn IH]; [lia|].
    apply (lives_step _ l1) in Hl as Hl1; [|by left].
    pose proof (work_decreases _ _ Hc Hs). rewrite <-(cancelled_stays _ _ Hs) in Hc.
    specialize (IH Hl1 Hc). lia.
  - clear Hl. remember (work l) as n eqn:En. revert l Hc En.
    induction (lt_wf n) as [n _ IH]. intros l Hc ->. constructor. intros l' Hs.
    eapply IH; [by eapply work_decreases|by rewrite (cancelled_stays _ _ Hs)|done].
  - intros l' Hsteps Hnf.
    assert (lives l' ∧ cancelled l' = true) as [Hl' Hc'].
    { induction Hsteps as [l|l l1 l2 Hs _ IH]; [done|]. apply IH; [|by rewrite (cancelled_stays _ _ Hs)|done].
      eapply lives_step; [done|by left]. }
    split_and!.
    + destruct (watch (sys l')) eqn:E; try done; destruct Hnf; apply watch_not_stuck; congruence.
    + destruct (recon (sys l')) eqn:E; try done; destruct Hnf; apply recon_not_stuck; congruence.
    + destruct (sim_reachable _ (lives_reachable l' Hl')) as (h & Hs).
      destruct (sim_current _ _ Hs) as (k & m & Hp & Hk & _). unfold current. rewrite Hp. eauto.
Qed.

(** The registry closed when it has taken a batch from the stream. *)
Definition ex_closing : option Life :=
  let l := alive 5 ex_kvs in
  let m := mem (sys l) in
  Close (Some (with_watch l m (WLoaded 6 ex_move (Load m)) AtTop [])).

Lemma ex_closing_lives l : ex_closing = Some l → lives l.
Proof.
  unfold ex_closing. intros Hc. exists 5, ex_kvs.
  eapply rtc_l; [left; by apply (watch_goes_on _ 6)|].
  eapply rtc_l; [left; by apply (watch_opened _ 6)|].
  eapply rtc_l; [right; by apply (world_sends _ 6 ex_move)|].
  eapply rtc_l; [left; by apply (watch_takes _ 6 ex_move [])|].
  apply rtc_once. right. by apply world_cancels.
Qed.

Lemma closed_registry_stops_witness :
  ∃ l, ex_closing = Some l ∧ work l = 9%nat ∧ sn loop_step l.
Proof.
  destruct ex_closing as [l|] eqn:E; [|done]. exists l. split; [done|]. split.
  - vm_compute in E. by injection E as <-.
  - apply (closed_registry_stops l); [by apply ex_closing_lives|]. vm_compute in E. by injection E as <-.
Defined.

(** ** A batch that was taken is published

    In the executable form of [EtcdSync], where the labels of the watch are
    told apart from all the others. *)
Definition own_steps (ls : list label) : nat := length (filter (λ a, watch_label a = true) ls).

(** The watch has taken [k] steps on the batch [b], from the snapshot [m0]. *)
Definition building (rev : Z) (b : watchBatch) (c : loc) (m0 : Mapping) (k : nat) (s : Sys) : Prop :=
  match k with
  | O => watch s = WLoaded rev b (Some c) ∧ deref (mem s) c = Some m0
  | S k => ∃ l pre rest, watch s = WApply rev b (Some c) l rest ∧ Events b = pre ++ rest
      ∧ length pre = k ∧ deref (mem s) l = Some (foldl apply_event (Clone m0) pre)
  end.

Lemma exec_other s a s' :
  exec s a = Some s' → watch_label a = false →
  watch s' = watch s
  ∧ (mem s' = mem s ∨ recon_step (mem s) (recon s) (mem s') (recon s')).
Proof.
  intros E Ha. unfold exec, set_recon in E.
  destruct a; try done; repeat (case_match; simplify_eq/=); simplify_option_eq; try done;
    (split; [done|]); first [by left|right; by econstructor].
Qed.

Lemma run_app ls1 ls2 s s' :
  run s (ls1 ++ ls2) = Some s' → ∃ s1, run s ls1 = Some s1 ∧ run s1 ls2 = Some s'.
Proof.
  revert s. induction ls1 as [|a ls1 IH]; intros s; cbn; [by eauto|].
  intros (s0 & E & (s1 & H1 & H2)%IH)%bind_Some. exists s1. split; [|done]. by rewrite E.
Qed.

Lemma building_other rev b c m0 k s a s' :
  reachable s → building rev b c m0 k s → exec s a = Some s' → watch_label a = false →
  building rev b c m0 k s'.
Proof.
  intros Hr Hb E Ha. destruct (sim_reachable s Hr) as (h & Hs).
  destruct (exec_other _ _ _ E Ha) as [Ew Hm]. apply exec_step in E.
  pose proof (sim_watch _ _ Hs) as Hok. destruct k as [|k]; cbn in *.
  - destruct Hb as [Hw Hc]. rewrite Ew. split; [done|]. rewrite Hw in Hok.
    destruct Hok as (c' & m' & [= <-] & Hp & _). unfold deref in *.
    destruct (kept_step _ _ _ Hs E c) as [-> _]; eauto.
  - destruct Hb as (l & pre & rest & Hw & He & Hlen & Hl). exists l, pre, rest. rewrite Ew.
    split_and!; [done..|]. destruct Hm as [->|Hm]; [done|].
    destruct (recon_frame _ _ _ _ _ (sim_wf _ _ Hs) (sim_recon _ _ Hs) Hm) as [_ Hheap _ _].
    unfold deref in *. rewrite Hheap; [done|eauto|]. apply (sim_distinct _ _ Hs). by rewrite Hw.
Qed.

Lemma building_own rev b c m0 k s a s' :
  building rev b c m0 k s → exec s a = Some s' → watch_label a = true →
  building rev b c m0 (S k) s'
  ∨ (k = S (length (Events b)) ∧ current (mem s') = Some (apply_batch (Some m0) b)
     ∧ watch s' = WStream (next_watch_rev rev b)).
Proof.
  intros Hb E Ha. destruct k as [|k]; cbn [building] in Hb.
  - destruct Hb as [Hw Hc]. left. unfold exec in E. rewrite Hw in E.
    destruct a; try done; repeat (case_match; simplify_eq/=).
    unfold base_mapping in E. rewrite Hc in E. injection E as <-.
    eexists _, [], (Events b). split_and!; [done..|]. unfold deref. cbn. by rewrite lookup_insert_eq.
  - destruct Hb as (l & pre & rest & Hw & He & Hlen & Hl). unfold exec in E. rewrite Hw in E.
    destruct a; try done; destruct rest as [|ev rest]; try done; rewrite Hl in E; injection E as <-.
    + left. exists l, (pre ++ [ev]), rest. rewrite He, <-app_assoc, length_app, foldl_app. cbn.
      split_and!; [done|done|lia|]. unfold deref. cbn. by rewrite lookup_insert_eq.
    + right. rewrite app_nil_r in He. rewrite <-He in *. split_and!; [by rewrite Hlen| |done].
      unfold current. cbn. by rewrite lookup_insert_eq.
Qed.

Lemma building_run rev b c m0 ls : ∀ k s s',
  reachable s → building rev b c m0 k s → run s ls = Some s' →
  (k + own_steps ls ≤ S (length (Events b)))%nat → building rev b c m0 (k + own_steps ls) s'.
Proof.
  induction ls as [|a ls IH]; intros k s s' Hr Hb; cbn [run].
  - intros [= <-] _. unfold own_steps. cbn. by rewrite Nat.add_0_r.
  - intros (s1 & E & Hrun)%bind_Some. unfold own_steps. rewrite filter_cons.
    assert (reachable s1) as Hr1.
    { destruct Hr as (rv & kvs & Hst). exists rv, kvs. eapply rtc_r; [done|by eapply exec_step]. }
    case_decide as Ha; cbn [length]; fold (own_steps ls); intros Hle.
    + destruct (building_own _ _ _ _ _ _ _ _ Hb E Ha) as [Hb1|[-> _]]; [|lia].
      rewrite <-Nat.add_succ_comm in *. by eapply IH.
    + apply not_true_is_false in Ha. eapply IH; [done| |done|done]. eapply building_other; [exact Hr|exact Hb|exact E|exact Ha].
Qed.

Lemma building_enabled rev b c m0 k s :
  building rev b c m0 k s → ∃ a s', watch_label a = true ∧ exec s a = Some s'.
Proof.
  destruct k as [|k]; cbn.
  - intros [Hw Hc]. eexists LClone, _. split; [done|]. unfold exec. rewrite Hw. unfold base_mapping.
    by rewrite Hc.
  - intros (l & pre & rest & Hw & _ & _ & Hl). unfold exec.
    destruct rest; [eexists LPublish, _|eexists LEvent, _]; rewrite Hw, Hl; done.
Qed.

(** C18: a batch is published in bounded time: once the watch has taken a batch,
    with the store at the snapshot [m0], it is never blocked, whatever the
    reconciliation and the requests do; and when it has taken as many steps as
    there are events and two more, the store points to [m0] advanced by the
    whole batch, and the watch goes on from the revision of the batch. *)
Theorem batch_published (s s' : Sys) (ls : list label) (rev : Z) (b : watchBatch) (c : loc) (m0 : Mapping) :
  reachable s → watch s = WLoaded rev b (Some c) → deref (mem s) c = Some m0 → run s ls = Some s' →
  ((own_steps ls < length (Events b) + 2)%nat → ∃ a s'', watch_label a = true ∧ exec s' a = Some s'')
  ∧ (own_steps ls = (length (Events b) + 2)%nat → (∃ a, last ls = Some a ∧ watch_label a = true) →
     current (mem s') = Some (apply_batch (Some m0) b) ∧ watch s' = WStream (next_watch_rev rev b)).
Proof.
  intros Hr Hw Hc Hrun.
  assert (building rev b c m0 0 s) as Hb by done. split.
  - intros Hn. apply (building_enabled rev b c m0 (own_steps ls)).
    apply (building_run rev b c m0 ls 0 s); done || lia.
  - intros Hn (a & Hlast & Ha). apply last_Some in Hlast as [ls0 ->].
    unfold own_steps in Hn. rewrite filter_app, length_app, filter_cons, decide_True in Hn by done. cbn in Hn.
    fold (own_steps ls0) in Hn. apply run_app in Hrun as (s1 & H1 & (s2 & E & [= <-])%bind_Some).
    assert (building rev b c m0 (own_steps ls0) s1) as Hb1 by (apply (building_run rev b c m0 ls0 0 s); done || lia).
    destruct (building_own _ _ _ _ _ _ _ _ Hb1 E Ha) as [(l & pre & rest & _ & He & Hlen & _)|(_ & ? & ?)]; [|done].
    apply (f_equal length) in He. rewrite length_app in He. lia.
Qed.

Lemma batch_published_witness :
  ∃ s s', run (started 5 ex_kvs) [LOpen; LBatch ex_move] = Some s
    ∧ run s [RRange 6 ex_kvs; LClone; QLoad; RApply; LEvent; RPublish; LPublish] = Some s'
    ∧ current (mem s') = Some (apply_batch (Some (load_kvs 5 ex_kvs)) ex_move).
Proof.
  destruct (run (started 5 ex_kvs) [LOpen; LBatch ex_move]) as [s|] eqn:E1; [|by vm_compute in E1].
  destruct (run s [RRange 6 ex_kvs; LClone; QLoad; RApply; LEvent; RPublish; LPublish]) as [s'|] eqn:E2;
    [|by vm_compute in E1; simplify_eq; vm_compute in E2].
  exists s, s'. split; [done|]. split; [done|].
  refine (proj1 (proj2 (batch_published s s' _ 6 ex_move 1 (load_kvs 5 ex_kvs) _ _ _ E2) _ _)).
  - exists 5, ex_kvs. by eapply run_steps.
  - vm_compute in E1. by simplify_eq.
  - vm_compute in E1. simplify_eq. by vm_compute.
  - done.
  - by exists LPublish.
Defined.
