(* ===== verification/Convergence.v ===== *)
(** * The shard map against the history of the key-space

    What the loops of [internal/registry/etcd.go] keep, in the executable form of
    [EtcdSync], when etcd answers the way it documents: its key-space goes
    through a sequence of revisions, a Range response is the key-space at one of
    them, and a stream delivers every change from the revision asked for, in order,
    in batches that split no revision. The header of a batch names the revision of
    the store when the batch was sent, which may be beyond its last event; the loop
    takes it as the place to resume from, so a stream that ends between two batches
    of a catch-up loses the changes in between ([partial_batch_skips]).

    The file says how old a record that a request routes by can be, with and
    without such losses. *)

From S2P Require Import Prelude GoInt GoString GoAny Hashing Json Model Cache Router Keys Etcd EtcdSync Lifecycle.

(** ** The history of a key-space *)

(** A change: a key with its new value, or with none. *)
Abbreviation change := (string * option string)%type.

(** The changes of each revision, from the first one on; a revision that changes
    no key under [/sharding/] has none. *)
Abbreviation history := (list (list change)).

Definition state_at (hist : history) (n : nat) : keyspace :=
  foldl ks_update ∅ (concat (take n hist)).

(** The changes after the revision [p], up to [q]. *)
Definition changes (hist : history) (p q : nat) : list change :=
  concat (drop p (take q hist)).

(** The event that reports a change, as the client delivers it. *)
Definition event_of (rev : Z) (u : change) : watchEvent :=
  match u.2 with
  | Some v => mkEvent "PUT" u.1 v rev
  | None => mkEvent "DELETE" u.1 "" rev
  end.

(** Every bucket has one spelling, every value decodes, and the revisions fit. *)
Record history_ok (hist : history) : Prop := {
  one_key : one_spelling (λ k, k ∈ (concat hist).*1);
  values_decode : Forall (λ u : change, ∀ v, u.2 = Some v → well_formed u.1 v) (concat hist);
  revisions_fit : in_int64 (Z.of_nat (length hist) + 1) = true;
}.

Lemma apply_event_of rev u m : apply_event m (event_of rev u) = map_update m u.
Proof. by destruct u as [k [v|]]. Qed.

Lemma apply_events_of rev us m :
  foldl apply_event m (map (event_of rev) us) = foldl map_update m us.
Proof. revert m. induction us as [|u us IH]; intros m; [done|]. cbn. by rewrite apply_event_of, IH. Qed.

Lemma state_changes hist p q :
  (p ≤ q)%nat → state_at hist q = foldl ks_update (state_at hist p) (changes hist p q).
Proof.
  intros Hpq. unfold state_at, changes. rewrite <-foldl_app, <-concat_app. do 2 f_equal.
  rewrite <-(take_drop p (take q hist)) at 1. f_equal. rewrite take_take. f_equal. lia.
Qed.

Lemma changes_split hist p n q :
  (p ≤ n ≤ q)%nat → changes hist p q = changes hist p n ++ changes hist n q.
Proof.
  intros Hn. unfold changes. rewrite <-concat_app. f_equal.
  rewrite <-(take_drop (n - p) (drop p (take q hist))), drop_drop. f_equal; [|f_equal; lia].
  rewrite take_drop_commute, take_take. do 2 f_equal. lia.
Qed.

Lemma changes_sub hist p q u : u ∈ changes hist p q → u ∈ concat hist.
Proof.
  intros Hu. rewrite <-(take_drop q hist), concat_app, <-(take_drop p (take q hist)), concat_app.
  rewrite !elem_of_app. auto.
Qed.

(** ** One record at a time *)

(** A record of a mapping: that of a shard or of a bucket. *)
Abbreviation record_id := (string + Z)%type.

(** The mapping holds the record that the key-space gives. *)
Definition tells (ks : keyspace) (m : Mapping) (i : record_id) : Prop :=
  match i with
  | inl id => Shards m !! id = shard_record ks id
  | inr id => ∀ b, Buckets m !! id = Some b ↔ bucket_record ks id b
  end.

(** The key stores the record. *)
Definition names (key : string) (i : record_id) : Prop :=
  match i with
  | inl id => key = shardsPrefix +:+ id
  | inr id => bucketIDFromKey key = Some id
  end.

#[export] Instance names_decision key i : Decision (names key i).
Proof. destruct i; cbn; apply _. Defined.

Lemma denotes_tells ks m : denotes ks m ↔ ∀ i, tells ks m i.
Proof.
  split; [intros [Hs Hb] [id|id]; [exact (Hs id)|exact (Hb id)]|].
  intros H. split; [intros id; exact (H (inl id))|intros id; exact (H (inr id))].
Qed.

Lemma tells_other_map ks m u i : ¬ names u.1 i → tells ks (map_update m u) i ↔ tells ks m i.
Proof.
  intros Hn. unfold map_update. destruct i as [id|id]; cbn in *.
  - by rewrite apply_opt_shards, decide_False.
  - by setoid_rewrite apply_opt_buckets; setoid_rewrite decide_False.
Qed.

Lemma tells_other_ks ks m u i : ¬ names u.1 i → tells (ks_update ks u) m i ↔ tells ks m i.
Proof.
  intros Hn. unfold ks_update. destruct i as [id|id]; cbn in *.
  - unfold shard_record. by rewrite put_key_ne.
  - assert (∀ b, bucket_record (put_key u.1 u.2 ks) id b ↔ bucket_record ks id b) as E.
    { intros b. unfold bucket_record. split; intros (k & v & def & Hv & Hk & ?);
        exists k, v, def; (split; [|done]); by rewrite put_key_ne in * by congruence. }
    by setoid_rewrite E.
Qed.

(** A write sets the record of its key, whatever it was. *)
Lemma tells_written ks m u i :
  names u.1 i → (∀ v, u.2 = Some v → well_formed u.1 v) →
  one_spelling (λ k, k = u.1 ∨ is_Some (ks !! k)) → tells (ks_update ks u) (map_update m u) i.
Proof.
  intros Hn Hwf Hone. unfold map_update, ks_update.
  destruct u as [key v], i as [id|id]; cbn [fst snd names tells] in *.
  - subst key. unfold shard_record. rewrite apply_opt_shards, decide_True, put_key_eq by done.
    destruct v as [v|]; [|done]. destruct (Hwf v eq_refl) as [H _].
    rewrite shardIDFromKey_prefix in H. destruct (H ltac:(eauto)) as [def E].
    change (Some v ≫= ?f) with (f v). cbv beta. unfold shard_update. by rewrite E.
  - intros b. rewrite apply_opt_buckets, decide_True by done. unfold bucket_record.
    assert (∀ k v', put_key key v ks !! k = Some v' → bucketIDFromKey k = Some id → k = key) as Hu.
    { intros k v' Hk Hid. apply (Hone k key id); [|by left|done|done].
      destruct (decide (key = k)) as [->|N]; [by left|]. rewrite put_key_ne in Hk by done. eauto. }
    split.
    + unfold bucket_update. destruct v as [v|]; [|done]. destruct (Hwf v eq_refl) as [_ H].
      destruct (H ltac:(eauto)) as [def E]. rewrite E. intros [= <-]. exists key, v, def.
      by rewrite put_key_eq.
    + intros (k & v' & def & Hk & Hid & E & ->). rewrite (Hu _ _ Hk Hid), put_key_eq in Hk.
      subst v. unfold bucket_update. by rewrite E.
Qed.

Lemma tells_quiet_map us ks m i :
  Forall (λ u : change, ¬ names u.1 i) us → tells ks (foldl map_update m us) i ↔ tells ks m i.
Proof.
  intros H. revert m. induction H as [|u us Hu _ IH]; intros m; [done|].
  cbn. by rewrite IH, tells_other_map.
Qed.

Lemma tells_quiet_ks us ks m i :
  Forall (λ u : change, ¬ names u.1 i) us → tells (foldl ks_update ks us) m i ↔ tells ks m i.
Proof.
  intros H. revert ks. induction H as [|u us Hu _ IH]; intros ks; [done|].
  cbn. by rewrite IH, tells_other_ks.
Qed.

(** A sequence of writes sets every record it touches. *)
Lemma tells_touched us ks m i :
  one_spelling (λ k, k ∈ us.*1 ∨ is_Some (ks !! k)) →
  Forall (λ u : change, ∀ v, u.2 = Some v → well_formed u.1 v) us →
  Exists (λ u : change, names u.1 i) us →
  tells (foldl ks_update ks us) (foldl map_update m us) i.
Proof.
  revert ks m. induction us as [|u us IH]; intros ks m Hone Hwf He; [by inversion He|].
  apply Forall_cons in Hwf as [Hu Hwf]. cbn [foldl].
  assert (one_spelling (λ k, k ∈ us.*1 ∨ is_Some (ks_update ks u !! k))) as Hone'.
  { intros k1 k2 id H1 H2. apply Hone; [destruct H1 as [?|[->|?]%ks_update_some]
      |destruct H2 as [?|[->|?]%ks_update_some]]; cbn; set_solver. }
  destruct (decide (Exists (λ u : change, names u.1 i) us)) as [He'|Hne]; [by apply IH|].
  apply Exists_cons in He as [Hn|?]; [|done]. apply Forall_Exists_neg in Hne.
  rewrite tells_quiet_map, tells_quiet_ks by done.
  apply tells_written; [done|done|].
  intros k1 k2 id H1 H2. apply Hone; [destruct H1 as [->|]|destruct H2 as [->|]]; cbn; set_solver.
Qed.

(** ** How old the records of a mapping are *)

Lemma ks_updates_some us ks k :
  is_Some (foldl ks_update ks us !! k) → k ∈ us.*1 ∨ is_Some (ks !! k).
Proof.
  revert ks. induction us as [|u us IH]; intros ks H; [by right|].
  cbn in *. apply IH in H as [H|[->|H]%ks_update_some]; set_solver.
Qed.

Lemma state_at_keys hist n k : is_Some (state_at hist n !! k) → k ∈ (concat hist).*1.
Proof.
  intros [H|[? ?]]%ks_updates_some; [|done].
  rewrite <-(take_drop n hist), concat_app, fmap_app. set_solver.
Qed.

(** Each record is that of the key-space at a revision from [lo] to [hi]; not
    always the same one. *)
Definition spans (hist : history) (lo hi : nat) (m : Mapping) : Prop :=
  ∀ i, ∃ n, (lo ≤ n ≤ hi)%nat ∧ tells (state_at hist n) m i.

Lemma spans_weaken hist lo hi lo' hi' m :
  spans hist lo hi m → (lo' ≤ lo)%nat → (hi ≤ hi')%nat → spans hist lo' hi' m.
Proof. intros Hm Hlo Hhi i. destruct (Hm i) as (n & Hn & Ht). exists n. split; [lia|done]. Qed.

Lemma spans_exact hist n m : spans hist n n m → denotes (state_at hist n) m.
Proof.
  intros Hm. apply denotes_tells. intros i. destruct (Hm i) as (k & Hk & Ht).
  by replace n with k by lia.
Qed.

Lemma load_spans hist r kvs :
  history_ok hist → range_of (state_at hist r) kvs → spans hist r r (load_kvs (Z.of_nat r) kvs).
Proof.
  intros Hok Hr i. exists r. split; [lia|].
  revert i. apply denotes_tells, load_denotes; [done|].
  intros k1 k2 id H1%state_at_keys H2%state_at_keys. by apply (one_key _ Hok).
Qed.

(** A batch of a stream that has delivered the changes up to the revision [p]: the
    changes of the revisions after [p] up to some revision [q], none left out and
    no revision split. The header carries the revision of the store when the
    response was made, which may be beyond [q]: a watch that is catching up gets
    the rest in the responses that follow. *)
Definition batch_of (hist : history) (p q : nat) (b : watchBatch) : Prop :=
  (p ≤ q ≤ length hist)%nat ∧ Z.of_nat q ≤ BRevision b ≤ Z.of_nat (length hist)
  ∧ Events b = map (event_of (BRevision b)) (changes hist p q).

Lemma tells_revision ks m rev i : tells ks (set_revision rev m) i ↔ tells ks m i.
Proof. unfold set_revision. by case_match; destruct i. Qed.

(** The oldest revision a record may have when the watch has been told everything
    up to [p], if nothing is skipped and nothing older than the watch is ever
    published ([d]). *)
Definition floor (d : bool) (p : nat) : nat := if d then p else 0.

(** The watch brings a mapping of mixed ages forward: what the batch touches is
    as of [q], and what it does not touch had not changed since [p]. *)
Lemma spans_batch hist d p q B m b :
  history_ok hist → batch_of hist p q b → spans hist (floor d p) (p `max` B) m →
  spans hist (floor d q) (q `max` B) (apply_batch (Some m) b).
Proof.
  intros Hok (Hpq & Hb & He) Hm i. unfold apply_batch. setoid_rewrite tells_revision. rewrite He, apply_events_of, Clone_id.
  set (us := changes hist p q). destruct (decide (Exists (λ u : change, names u.1 i) us)) as [Ht|Hn].
  - exists q. split; [unfold floor; destruct d; lia|]. rewrite (state_changes hist p q) by lia.
    apply tells_touched; [|by apply Forall_forall; intros u Hu%changes_sub;
      apply (proj1 (Forall_forall _ _) (values_decode _ Hok))|done].
    intros k1 k2 id H1 H2. apply (one_key _ Hok).
    + destruct H1 as [(u & -> & Hu%changes_sub)%list_elem_of_fmap|H1%state_at_keys]; [|done].
      by apply list_elem_of_fmap_2.
    + destruct H2 as [(u & -> & Hu%changes_sub)%list_elem_of_fmap|H2%state_at_keys]; [|done].
      by apply list_elem_of_fmap_2.
  - destruct (Hm i) as (n & Hn' & Ht). apply Forall_Exists_neg in Hn.
    destruct (decide (p ≤ n ≤ q)%nat) as [Hin|Hout].
    + exists q. split; [unfold floor; destruct d; lia|]. rewrite (state_changes hist n q) by lia.
      rewrite tells_quiet_map, tells_quiet_ks; [done| |done]. unfold us in Hn.
      rewrite (changes_split hist p n q) in Hn by lia. by apply Forall_app in Hn as [_ ?].
    + exists n. split; [unfold floor in *; destruct d; lia|]. by apply tells_quiet_map.
Qed.

(** ** What etcd answers, along a run

    A run is followed with the revision up to which the open stream has told the
    watch everything. [hears]: this revision before and after a step, when etcd
    answers as its documentation says. A stream that is opened starts at the
    revision asked for; a batch goes on where the stream stands; a Range response
    is the key-space at one revision, which its header names. *)
Definition hears (hist : history) (s : Sys) (p : nat) (a : label) (p' : nat) : Prop :=
  match a, watch s with
  | LOpen, WIdle rev => rev = Z.of_nat p' + 1
  | LBatch b, _ => p' = p ∧ ∃ q, batch_of hist p q b
  | LPublish, WApply _ b _ _ _ => batch_of hist p p' b
  | RRange rev kvs, _ =>
      p' = p ∧ ∃ r, rev = Z.of_nat r ∧ (r ≤ length hist)%nat ∧ range_of (state_at hist r) kvs
  | _, _ => p' = p
  end.

(** A run from the state [s] and the revision [p], along which [P] holds. *)
Inductive listens (hist : history) (P : Sys → nat → label → Prop)
    : Sys → nat → list label → Sys → nat → Prop :=
| listens_nil s p : listens hist P s p [] s p
| listens_cons s p a s1 p1 ls s' p' :
    exec s a = Some s1 → hears hist s p a p1 → P s p a →
    listens hist P s1 p1 ls s' p' → listens hist P s p (a :: ls) s' p'.

Definition always (s : Sys) (p : nat) (a : label) : Prop := True.

(** The reconciliations read no revision after [B]. *)
Definition reads_until (B : nat) (a : label) : Prop :=
  match a with RRange rev _ => rev ≤ Z.of_nat B | _ => True end.

(** When a reconciliation publishes, the watch has not gone beyond the revision
    it had read. *)
Definition not_overtaken (s : Sys) (p : nat) (a : label) : Prop :=
  match a, recon s with
  | RPublish, LFill l _ => ∀ m, deref (mem s) l = Some m → Z.of_nat p ≤ Revision m
  | _, _ => True
  end.

(** When a stream is opened, the last one had not ended between the responses of a
    catch-up: the watch asks for the changes it has not been told. *)
Definition not_cut (s : Sys) (p : nat) (a : label) : Prop :=
  match a, watch s with
  | LOpen, WIdle rev => rev = Z.of_nat p + 1
  | _, _ => True
  end.

Definition orderly (B : nat) (s : Sys) (p : nat) (a : label) : Prop :=
  reads_until B a ∧ not_overtaken s p a ∧ not_cut s p a.

Lemma listens_run hist P s p ls s' p' : listens hist P s p ls s' p' → run s ls = Some s'.
Proof. induction 1 as [|s p a s1 p1 ls s' p' E _ _ _ IH]; [done|]. cbn. by rewrite E. Qed.

Lemma listens_always hist P s p ls s' p' : listens hist P s p ls s' p' → listens hist always s p ls s' p'.
Proof. induction 1; econstructor; done. Qed.

(** ** The invariant *)

(** The watch asks for no change it has been told. *)
Definition position (hist : history) (w : watcher) (p : nat) : Prop :=
  match watch_rev w with
  | Some rev => Z.of_nat p + 1 ≤ rev ≤ Z.of_nat (length hist) + 1
  | None => True
  end.

Definition watch_tracked (hist : history) (d : bool) (B p : nat) (s : Sys) : Prop :=
  match watch s with
  | WLoaded rev b _ | WApply rev b _ _ _ =>
      ∃ c m0 k, building rev b c m0 k s ∧ spans hist (floor d p) (p `max` B) m0
  | _ => True
  end.

Definition recon_tracked (hist : history) (B : nat) (s : Sys) : Prop :=
  match recon s with
  | LFill l rest => ∃ r pre, (r ≤ B)%nat ∧ range_of (state_at hist r) (pre ++ rest)
      ∧ deref (mem s) l = Some (load_kvs (Z.of_nat r) pre)
  | _ => True
  end.

Record tracked (hist : history) (d : bool) (B : nat) (s : Sys) (p : nat) : Prop := {
  t_reachable : reachable s;
  t_length : (p ≤ length hist)%nat;
  t_position : position hist (watch s) p;
  t_current : ∀ m, current (mem s) = Some m → spans hist (floor d p) (p `max` B) m;
  t_held : ∀ l m, l ∈ held s → deref (mem s) l = Some m → spans hist 0 (length hist `max` B) m;
  t_watch : watch_tracked hist d B p s;
  t_recon : recon_tracked hist B s;
}.

Lemma current_kept s s' :
  reachable s → sync_step s s' → ptr (mem s') = ptr (mem s) → current (mem s') = current (mem s).
Proof.
  intros (h & Hs)%sim_reachable Hstep Hp.
  destruct (sim_current _ _ Hs) as (l & m & Hl & Hm & _ & Hpr). unfold current. rewrite Hp, Hl. cbn.
  by apply (kept_step _ _ _ Hs Hstep l).
Qed.

Lemma held_kept s s' l :
  reachable s → sync_step s s' → l ∈ held s → deref (mem s') l = deref (mem s) l.
Proof.
  intros (h & Hs)%sim_reachable Hstep Hl.
  destruct (sim_held _ _ Hs l Hl) as (Hpr & m & Hm & _). by apply (kept_step _ _ _ Hs Hstep l).
Qed.

Lemma reachable_exec s a s' : reachable s → exec s a = Some s' → reachable s'.
Proof. intros (rev & kvs & Hr) E%exec_step. exists rev, kvs. by eapply rtc_r. Qed.

Lemma exec_own s a s' :
  exec s a = Some s' → watch_label a = true →
  recon s' = recon s ∧ held s' = held s ∧ watch_step (mem s) (watch s) (mem s') (watch s').
Proof.
  intros E Ha. unfold exec, set_watch in E.
  destruct a; try done; repeat (case_match; simplify_eq/=); simplify_option_eq; try done;
    (split; [done|split; [done|by econstructor]]).
Qed.

(** A step of the watch leaves the mapping of the reconciliation alone. *)
Lemma recon_tracked_own hist B s a s' :
  reachable s → exec s a = Some s' → watch_label a = true →
  recon_tracked hist B s → recon_tracked hist B s'.
Proof.
  intros (h & Hs)%sim_reachable E Ha. destruct (exec_own _ _ _ E Ha) as (Hr & _ & Hw).
  unfold recon_tracked. rewrite Hr. destruct (recon s) as [|l rest|] eqn:Er; [done| |done].
  intros (r & pre & HB & Hk & Hl). exists r, pre. split_and!; [done|done|].
  destruct (watch_frame _ _ _ _ (sim_wf _ _ Hs) Hw) as [_ Hheap _ _]. unfold deref in *.
  rewrite Hheap; [done|eauto|]. intros El. apply (sim_distinct _ _ Hs _ El). by rewrite Er.
Qed.

(** A step of another goroutine leaves what the watch has read and built alone. *)
Lemma watch_tracked_other hist d B p s a s' :
  reachable s → exec s a = Some s' → watch_label a = false →
  watch_tracked hist d B p s → watch_tracked hist d B p s'.
Proof.
  intros Hr E Ha. destruct (exec_other _ _ _ E Ha) as [Hw _]. unfold watch_tracked. rewrite Hw.
  destruct (watch s) as [| |rev b cur|rev b cur l rest|]; try done.
  all: intros (c & m0 & k & Hb & ?); exists c, m0, k;
    (split; [eapply building_other; [exact Hr|exact Hb|exact E|exact Ha]|done]).
Qed.

(** The steps that publish nothing; the stream may start further on if nothing is
    claimed about what is skipped. *)
Lemma tracked_keep hist d B s a s' p p' :
  tracked hist d B s p → exec s a = Some s' → (p ≤ p' ≤ length hist)%nat → (d = true → p' = p) →
  position hist (watch s') p' → ptr (mem s') = ptr (mem s) →
  (∀ l, l ∈ held s' → l ∈ held s ∨ ptr (mem s) = Some l) →
  watch_tracked hist d B p' s' → recon_tracked hist B s' → tracked hist d B s' p'.
Proof.
  intros [Hr Hn Hp Hc Hh _ _] E Hle Hd Hp' Eptr Hheld Hw Hrec.
  pose proof (exec_step _ _ _ E) as Hstep. pose proof (current_kept _ _ Hr Hstep Eptr) as Ecur.
  split; [by eapply reachable_exec|lia|done| | |done|done].
  - rewrite Ecur. intros m Hm. eapply spans_weaken; [by apply Hc| |lia].
    unfold floor. destruct d; [rewrite Hd by done; lia|lia].
  - intros l m [Hl|Hl]%Hheld Hm; [rewrite (held_kept _ _ l Hr Hstep Hl) in Hm; by eapply Hh|].
    assert (current (mem s) = Some m) as Hm' by (rewrite <-Ecur; unfold current; by rewrite Eptr, Hl).
    eapply spans_weaken; [by apply Hc|lia|lia].
Qed.

(** The steps that publish. *)
Lemma tracked_publish hist d B s a s' p p' m' :
  tracked hist d B s p → exec s a = Some s' → (p' ≤ length hist)%nat → position hist (watch s') p' →
  current (mem s') = Some m' → spans hist (floor d p') (p' `max` B) m' → held s' = held s →
  watch_tracked hist d B p' s' → recon_tracked hist B s' → tracked hist d B s' p'.
Proof.
  intros [Hr Hn Hp Hc Hh _ _] E Hn' Hp' Hcur Hm' Hheld Hw Hrec.
  pose proof (exec_step _ _ _ E) as Hstep.
  split; [by eapply reachable_exec|done|done| | |done|done].
  - intros m. rewrite Hcur. by intros [= <-].
  - intros l m. rewrite Hheld. intros Hl. rewrite (held_kept _ _ l Hr Hstep Hl). by apply Hh.
Qed.

Lemma tracked_other hist d B s a s' p p' :
  history_ok hist → tracked hist d B s p → exec s a = Some s' → watch_label a = false →
  hears hist s p a p' → reads_until B a → (d = true → not_overtaken s p a) →
  tracked hist d B s' p'.
Proof.
  intros Hok Ht E Ha Hans HB Hd. destruct (exec_other _ _ _ E Ha) as [Hw _].
  assert (p' = p) as -> by (destruct a; try done; by destruct Hans).
  assert (position hist (watch s') p) as Hp by (rewrite Hw; apply Ht).
  pose proof (t_length _ _ _ _ _ Ht) as Hlen.
  pose proof (watch_tracked_other _ _ _ _ _ _ _ (t_reachable _ _ _ _ _ Ht) E Ha (t_watch _ _ _ _ _ Ht)) as Hwt.
  pose proof (t_recon _ _ _ _ _ Ht) as Hrt. unfold recon_tracked in Hrt. pose proof E as E0.
  unfold exec, set_recon in E. destruct a; try done; destruct (recon s) as [|own rest|] eqn:Er; try done.
  all: try (destruct rest as [|e rest]; try done).
  all: try (apply bind_Some in E as (k & Hk & E)); injection E as <-.
  all: try (eapply (tracked_keep hist d B s _ _ p p); [exact Ht|exact E0|lia|done|exact Hp|done|cbn; set_solver
    |exact Hwt|]; unfold recon_tracked; cbn; try rewrite Er; try done).
  - destruct Hans as (_ & r & -> & _ & Hr). exists r, []. split_and!; [cbn in HB; lia|done|].
    unfold deref. cbn. by rewrite lookup_insert_eq.
  - destruct Hrt as (r & pre & HBr & Hr & Hl). exists r, (pre ++ [e]). rewrite <-app_assoc.
    split_and!; [done|done|]. unfold deref in *. cbn. rewrite lookup_insert_eq. f_equal.
    unfold load_kvs. rewrite foldl_app. rewrite Hl in Hk. by injection Hk as <-.
  - destruct Hrt as (r & pre & HBr & Hr & Hl). rewrite app_nil_r in Hr.
    eapply (tracked_publish hist d B s _ _ p p (load_kvs (Z.of_nat r) pre));
      [exact Ht|exact E0|apply Ht|exact Hp|exact Hl| |done|exact Hwt|done].
    eapply spans_weaken; [by apply load_spans| |lia]. unfold floor. destruct d; [|lia].
    specialize (Hd eq_refl). unfold not_overtaken in Hd. rewrite Er in Hd.
    specialize (Hd _ Hl). rewrite load_kvs_revision in Hd. lia.
Qed.

(** A step of the watch between two publications. *)
Lemma exec_ptr s a s' :
  exec s a = Some s' → watch_label a = true → ptr (mem s') = ptr (mem s) ∨ ∃ rev, watch s' = WStream rev.
Proof.
  intros E Ha. unfold exec, set_watch in E.
  destruct a; try done; repeat (case_match; simplify_eq/=); simplify_option_eq; try done; by eauto.
Qed.

Lemma tracked_building hist d B s a s' p p' rev b cur :
  history_ok hist → tracked hist d B s p → exec s a = Some s' → watch_label a = true →
  watch s = WLoaded rev b cur ∨ (∃ l rest, watch s = WApply rev b cur l rest) →
  hears hist s p a p' → tracked hist d B s' p'.
Proof.
  intros Hok Ht E Ha Hw Hans. destruct (exec_own _ _ _ E Ha) as (_ & Hheld & _).
  pose proof (t_reachable _ _ _ _ _ Ht) as Hr. pose proof (t_length _ _ _ _ _ Ht) as Hlen.
  pose proof (recon_tracked_own hist B s a s' Hr E Ha (t_recon _ _ _ _ _ Ht)) as Hrt.
  assert (Z.of_nat p + 1 ≤ rev ≤ Z.of_nat (length hist) + 1 ∧ ∃ c m0 k, building rev b c m0 k s
            ∧ spans hist (floor d p) (p `max` B) m0) as (Hrev & c & m0 & k & Hb & Hm0).
  { pose proof (t_watch _ _ _ _ _ Ht) as Hwt. pose proof (t_position _ _ _ _ _ Ht) as Hp.
    unfold watch_tracked, position in *. by destruct Hw as [Ew|(l & rest & Ew)]; rewrite Ew in *. }
  destruct (building_own _ _ _ _ _ _ _ _ Hb E Ha) as [Hb'|(_ & Hcur & Hw')].
  - pose proof Hb' as (l & pre & rest & Ew' & _).
    assert (p' = p) as ->.
    { destruct Hw as [Ew|(l0 & rest0 & Ew)]; unfold hears in Hans; unfold exec, set_watch in E; rewrite Ew in *;
        destruct a; try done. destruct rest0; [|done].
      apply bind_Some in E as (? & _ & [= <-]). done. }
    eapply (tracked_keep hist d B s _ _ p p); [done|done|lia|done| | | | |done].
    + unfold position. by rewrite Ew'.
    + destruct (exec_ptr _ _ _ E Ha) as [?|[rev' Ew2]]; [done|]. by rewrite Ew' in Ew2.
    + rewrite Hheld. auto.
    + unfold watch_tracked. rewrite Ew'. by exists c, m0, (S k).
  - assert (batch_of hist p p' b) as Hq.
    { destruct k as [|k]; cbn in Hb.
      - destruct Hb as [Ew _]. unfold exec, set_watch in E. rewrite Ew in E. destruct a; try done.
        apply bind_Some in E as (? & _ & [= <-]). done.
      - destruct Hb as (l & pre & rest & Ew & _). unfold hears in Hans. rewrite Ew in Hans.
        unfold exec, set_watch in E. rewrite Ew in E. destruct a; try done. destruct rest; [done|].
        apply bind_Some in E as (? & _ & [= <-]). done. }
    pose proof Hq as (Hpq & Hbq & _).
    eapply (tracked_publish hist d B s _ _ p p'); [done|done|lia| |done| |done| |done].
    + unfold position. rewrite Hw'. cbn. unfold next_watch_rev.
      pose proof (revisions_fit _ Hok) as Hfit%in_int64_spec.
      destruct (Z.ltb_spec 0 (BRevision b)); [rewrite wrap64_id by lia; lia|lia].
    + by eapply spans_batch.
    + unfold watch_tracked. by rewrite Hw'.
Qed.

Lemma tracked_own hist d B s a s' p p' :
  history_ok hist → tracked hist d B s p → exec s a = Some s' → watch_label a = true →
  hears hist s p a p' → (d = true → not_cut s p a) → tracked hist d B s' p'.
Proof.
  intros Hok Ht E Ha Hans Hd. pose proof (t_reachable _ _ _ _ _ Ht) as Hr.
  destruct (watch s) as [rev|rev|rev b cur|rev b cur l rest|] eqn:Ew;
    [| |by eapply tracked_building; eauto..|].
  all: pose proof (recon_tracked_own hist B s a s' Hr E Ha (t_recon _ _ _ _ _ Ht)) as Hrt.
  all: pose proof (t_position _ _ _ _ _ Ht) as Hp; pose proof (t_length _ _ _ _ _ Ht) as Hlen; pose proof E as E0.
  all: unfold position in Hp; rewrite Ew in Hp; cbn in Hp.
  all: unfold exec, set_watch in E; unfold hears in Hans; unfold not_cut in Hd;
    rewrite Ew in E, Hans, Hd; destruct a; try done.
  all: try (destruct (Canceled b) eqn:Ec; try done).
  all: injection E as <-.
  all: lazymatch type of Hans with _ ∧ _ => destruct Hans as [-> _] | ?x = ?y :> nat => rewrite Hans in * | _ => idtac end.
  all: apply (tracked_keep hist d B s _ _ p _ Ht E0); try done; try (cbn; by auto); try lia.
  - intros Hd'. specialize (Hd Hd'). lia.
  - unfold position. cbn. lia.
  - destruct (sim_reachable s Hr) as (h & Hs).
    destruct (sim_current _ _ Hs) as (c & m0 & Hc & Hm0 & _).
    assert (current (mem s) = Some m0) as Hcur by (unfold current; by rewrite Hc).
    exists c, m0, 0%nat. split; [|by apply (t_current _ _ _ _ _ Ht)].
    cbn. unfold Load. by rewrite Hc.
Qed.

Lemma tracked_run hist d B P ls s s' p p' :
  history_ok hist → tracked hist d B s p → listens hist P s p ls s' p' →
  (∀ s p a p', hears hist s p a p' → P s p a →
     reads_until B a ∧ (d = true → not_overtaken s p a ∧ not_cut s p a)) →
  tracked hist d B s' p'.
Proof.
  intros Hok Ht Hrun HP. induction Hrun as [|s p a s1 p1 ls s' p' E Hh Ha _ IH]; [done|].
  apply IH. destruct (HP _ _ _ _ Hh Ha) as [HB Hd].
  destruct (watch_label a) eqn:Hl; [eapply tracked_own|eapply tracked_other]; try done; intros Hd'; by apply Hd.
Qed.

(** Nothing supposed: everything is between the first revision and the last. *)
Lemma tracked_always hist P ls s s' p p' :
  history_ok hist → tracked hist false (length hist) s p → listens hist P s p ls s' p' →
  tracked hist false (length hist) s' p'.
Proof.
  intros Hok Ht Hrun. eapply tracked_run; [done|done|done|]. intros s0 p0 a p0' Hh _. split; [|done].
  destruct a; try done. destruct Hh as (_ & r & -> & ? & _). cbn. lia.
Qed.

Lemma tracked_orderly hist B ls s s' p p' :
  history_ok hist → tracked hist true B s p → listens hist (orderly B) s p ls s' p' →
  tracked hist true B s' p'.
Proof. intros Hok Ht Hrun. eapply tracked_run; [done|done|done|]. by intros s0 p0 a p0' _ (? & ? & ?). Qed.

Lemma tracked_started hist d B r kvs :
  history_ok hist → (r ≤ length hist)%nat → range_of (state_at hist r) kvs →
  tracked hist d B (started (Z.of_nat r) kvs) r.
Proof.
  intros Hok Hr Hk. destruct (loadAll_spec (Z.of_nat r) kvs NewStore NewStore_wf) as (_ & Hp & Hl).
  split; [by exists (Z.of_nat r), kvs|done| | |by intros l m ?%elem_of_empty|done|done].
  - unfold position. cbn. pose proof (revisions_fit _ Hok) as Hfit%in_int64_spec. rewrite wrap64_id by lia. lia.
  - intros m Hm. assert (current (mem (started (Z.of_nat r) kvs)) = Some (load_kvs (Z.of_nat r) kvs)) as E
      by (unfold current, started; cbn [mem]; by rewrite Hp).
    rewrite E in Hm. injection Hm as <-.
    eapply spans_weaken; [by apply load_spans| |lia]. unfold floor. destruct d; lia.
Qed.

Lemma current_exists s : reachable s → ∃ m, current (mem s) = Some m.
Proof.
  intros (h & Hs)%sim_reachable. destruct (sim_current _ _ Hs) as (l & m & Hl & Hm & _).
  exists m. unfold current. by rewrite Hl.
Qed.

(** The records of the published map lie between the revision [p] up to which the
    watch has been told everything and the revision [B]; once [p] has reached
    [B], the map is the key-space at [p]. *)
Definition converged (hist : history) (B p : nat) (s : Sys) : Prop :=
  ∃ m, current (mem s) = Some m
    ∧ (∀ i, ∃ n, (p ≤ n ≤ p `max` B)%nat ∧ tells (state_at hist n) m i)
    ∧ ((B ≤ p)%nat → denotes (state_at hist p) m).

Lemma tracked_converged hist B s p : tracked hist true B s p → converged hist B p s.
Proof.
  intros Ht. destruct (current_exists s (t_reachable _ _ _ _ _ Ht)) as [m Hm]. exists m.
  pose proof (t_current _ _ _ _ _ Ht m Hm) as Hspan. split_and!; [done|exact Hspan|].
  intros HBp. apply spans_exact. by eapply spans_weaken; [exact Hspan|cbn; lia|lia].
Qed.

(** ** Properties *)


(** A reconciliation that publishes when the watch is not building anything, and
    has not gone beyond what was read: whatever was published before is gone. *)
Lemma tracked_healed hist B s1 s2 p l m :
  history_ok hist → tracked hist false (length hist) s1 p →
  watch_loc (watch s1) = None → (∀ rev b cur, watch s1 ≠ WLoaded rev b cur) →
  recon s1 = LFill l [] → deref (mem s1) l = Some m → Z.of_nat p ≤ Revision m ≤ Z.of_nat B →
  exec s1 RPublish = Some s2 → tracked hist true B s2 p.
Proof.
  intros Hok Ht Hw Hw' Er Hl Hp E. destruct (exec_other _ _ _ E eq_refl) as [Ew _].
  pose proof (t_reachable _ _ _ _ _ Ht) as Hreach. pose proof (exec_step _ _ _ E) as Hstep.
  assert (s2 = set_recon s1 (Swap l (mem s1)) LIdle) as ->.
  { unfold exec in E. rewrite Er in E. by destruct (watch s1); injection E as <-. }
  pose proof (t_recon _ _ _ _ _ Ht) as Hrt. unfold recon_tracked in Hrt. rewrite Er in Hrt.
  destruct Hrt as (r & pre & _ & Hr & Hl'). rewrite app_nil_r in Hr.
  assert (m = load_kvs (Z.of_nat r) pre) as -> by congruence. rewrite load_kvs_revision in Hp.
  split; [by eapply reachable_exec|by apply Ht|by apply Ht| | | |done].
  - intros m' Hm'. assert (m' = load_kvs (Z.of_nat r) pre) as ->
      by (unfold current in Hm'; cbn in Hm'; unfold deref in Hl; congruence).
    eapply spans_weaken; [by apply load_spans|cbn; lia|lia].
  - intros k m' Hk Hm'. rewrite (held_kept _ _ k Hreach Hstep Hk) in Hm'.
    eapply spans_weaken; [by eapply (t_held _ _ _ _ _ Ht)|lia|lia].
  - unfold watch_tracked. cbn. destruct (watch s1); try done. by destruct (Hw' rev b cur).
Qed.

(** The watch is between two batches. *)
Definition quiet (w : watcher) : Prop :=
  match w with WIdle _ | WStream _ => True | _ => False end.


Lemma tells_clamped hist lo hi m i :
  spans hist lo hi m → ∃ n, (n ≤ length hist)%nat ∧ tells (state_at hist n) m i.
Proof.
  intros Hm. destruct (Hm i) as (n & _ & Ht). exists (n `min` length hist)%nat. split; [lia|].
  replace (state_at hist (n `min` length hist)) with (state_at hist n); [done|].
  unfold state_at. do 2 f_equal. destruct (decide (n ≤ length hist)%nat).
  - f_equal. lia.
  - rewrite !take_ge by lia. done.
Qed.

Lemma routes_named m b rd ws d :
  routes m b rd ws → d ∈ ws → ∃ id, (id = BShardID b ∨ id = DestShardID b) ∧ Shards m !! id = Some d.
Proof. destruct 1; rewrite ?elem_of_cons, elem_of_nil; naive_solver. Qed.

(** No request is routed by a record that never was. When etcd answers as it
    documents, whatever the interleaving of the watch, the reconciliations and
    the requests (a reconciliation that is overtaken included), a decision taken
    on a snapshot that a request holds, or on the one in the store, follows a
    record that the key-space gave its bucket at some revision, and sends the
    statement to active shards this record names, each of them as it was
    registered at some revision. *)
Lemma routes_by_history (hist : history) (r : nat) (kvs : list decodedKV) (ls : list label) (s : Sys)
    (p : nat) (l : loc) (m : Mapping) (rt : Router) (k : go_any) (res : Resolved) :
  history_ok hist → (r ≤ length hist)%nat → range_of (state_at hist r) kvs →
  listens hist always (started (Z.of_nat r) kvs) r ls s p →
  l ∈ held s ∨ Load (mem s) = Some l → deref (mem s) l = Some m → Resolve rt (Some m) k = Ok res →
  ∃ n b, (n ≤ length hist)%nat ∧ bucket_record (state_at hist n) (BucketFor k (bucketCount rt)) b
    ∧ RMigrationState res = State b
    ∧ ∀ d, d ∈ WriteShards res → Status d = ShardActive
        ∧ ∃ n' id, (n' ≤ length hist)%nat ∧ (id = BShardID b ∨ id = DestShardID b)
            ∧ shard_record (state_at hist n') id = Some d.
Proof.
  intros Hok Hr Hk Hrun Hl Hm (mp & b & [= <-] & Hb & Hroute & Hact & _ & Hst)%Resolve_ok.
  assert (tracked hist false (length hist) s p) as Ht
    by (eapply tracked_always; [done|by apply tracked_started|done]).
  assert (∃ lo hi, spans hist lo hi m) as (lo & hi & Hspan).
  { destruct Hl as [Hl|Hl]; eexists _, _; [by eapply (t_held _ _ _ _ _ Ht)|].
    apply (t_current _ _ _ _ _ Ht). unfold Load in Hl. unfold current. by rewrite Hl. }
  destruct (tells_clamped hist lo hi m (inr (BucketFor k (bucketCount rt))) Hspan) as (n & Hn & Htell).
  exists n, b. split_and!; [done|by apply Htell|done|]. intros d Hd.
  split; [by apply (proj1 (Forall_forall _ _) Hact)|].
  destruct (routes_named _ _ _ _ _ Hroute Hd) as (id & Hid & Hs).
  destruct (tells_clamped hist lo hi m (inl id) Hspan) as (n' & Hn' & Htell').
  exists n', id. split_and!; [done|done|by rewrite <-Htell'].
Qed.

(** ** Examples *)

Definition kvs_of (ks : keyspace) : list decodedKV := map (λ kv, mkKV kv.1 kv.2) (map_to_list ks).

Lemma range_of_kvs_of ks : range_of ks (kvs_of ks).
Proof.
  unfold range_of, kvs_of. rewrite map_map. erewrite map_ext; [by rewrite map_id|]. by intros [].
Qed.

Definition ex_bucket_key : string := "/sharding/buckets/0000".
Definition ex_active (id : string) : string := js ("{'shard_id':'" +:+ id +:+ "','status':'ACTIVE'}").

(** Two shards are registered, the bucket 0 is given to the first one, then to the
    second one, and the first one is removed. *)
Definition ex_hist : history :=
  [[("/sharding/shards/s1", Some (ex_active "s1")); ("/sharding/shards/s2", Some (ex_active "s2"))];
   [(ex_bucket_key, Some (ex_value "s1"))];
   [(ex_bucket_key, Some (ex_value "s2"))];
   [("/sharding/shards/s1", None)]].

Definition ex_kvs_at (n : nat) : list decodedKV := kvs_of (state_at ex_hist n).

(** A response of a watch that catches up with the revision 4. *)
Definition ex_part (p q : nat) : watchBatch := mkBatch 4 (map (event_of 4) (changes ex_hist p q)) false "".

(** A run with the revision the watch has been told up to after each step. The
    catch-up from the revision 2 comes in two responses; a reconciliation reads
    the revision 3 and publishes it while the watch builds on the revision 2. *)
Definition ex_heal_steps : list (label * nat) :=
  [(QLoad, 2); (LOpen, 2); (RRange 3 (ex_kvs_at 3), 2); (LBatch (ex_part 2 3), 2); (LClone, 2);
   (RApply, 2); (RApply, 2); (RApply, 2); (LEvent, 2); (RPublish, 2); (LPublish, 3);
   (LBatch (ex_part 3 4), 3); (LClone, 3); (LEvent, 3); (LPublish, 4)]%nat.

Definition ex_heal_run : list label := map fst ex_heal_steps.

Lemma ex_hist_ok : history_ok ex_hist.
Proof.
  split; [| |done].
  - assert (Forall (λ k, bucketIDFromKey k = None ∨ k = ex_bucket_key) (concat ex_hist).*1) as H.
    { repeat (constructor; [first [by left|by right]|]). constructor. }
    intros k1 k2 id H1 H2 E1 E2. rewrite Forall_forall in H.
    destruct (H k1 H1) as [?| ->], (H k2 H2) as [?| ->]; congruence.
  - repeat (constructor; [intros v; first [by intros [= <-]; split; intros _; vm_compute; eauto|done]|]).
    constructor.
Qed.

(** [listens], with the states named by the labels that lead to them. *)
Fixpoint listens_from (hist : history) (P : Sys → nat → label → Prop) (s : Sys) (pre : list label)
    (p : nat) (steps : list (label * nat)) : Prop :=
  match steps with
  | [] => True
  | (a, p1) :: steps =>
      (∀ s', run s pre = Some s' → hears hist s' p a p1 ∧ P s' p a)
      ∧ listens_from hist P s (pre ++ [a]) p1 steps
  end.

Definition last_told (p : nat) (steps : list (label * nat)) : nat := default p (snd <$> last steps).

Lemma run_snoc s pre a s1 : run s pre = Some s1 → run s (pre ++ [a]) = exec s1 a.
Proof.
  revert s. induction pre as [|b pre IH]; intros s; cbn.
  - intros [= ->]. by destruct (exec s1 a).
  - intros (s0 & -> & H)%bind_Some. cbn. by apply IH.
Qed.

Lemma listens_from_listens hist P s p steps s' :
  listens_from hist P s [] p steps → run s (map fst steps) = Some s' →
  listens hist P s p (map fst steps) s' (last_told p steps).
Proof.
  assert (∀ pre s1 p, run s pre = Some s1 → listens_from hist P s pre p steps →
            run s1 (map fst steps) = Some s' → listens hist P s1 p (map fst steps) s' (last_told p steps)) as H;
    [|by apply H].
  induction steps as [|[a p1] steps IH]; intros pre s1 p0 Hr; cbn; [intros _ [= ->]; constructor|].
  intros [Ha Hs] (s2 & E & Hrun)%bind_Some. destruct (Ha s1 Hr) as [Hh HP].
  replace (last_told p0 ((a, p1) :: steps)) with (last_told p1 steps).
  - econstructor; [exact E|exact Hh|exact HP|]. apply (IH (pre ++ [a])); [|done|done].
    by rewrite (run_snoc s pre a s1).
  - unfold last_told. rewrite last_cons. by destruct (last steps).
Qed.

(** Where a run leads, without the mappings. *)
Definition run_watch (s : option Sys) : option watcher := watch <$> s.
Definition run_read (s : option Sys) : option Z :=
  s ← s; match recon s with LFill l _ => Revision <$> deref (mem s) l | _ => None end.

Lemma run_watch_at s s' w : s = Some s' → run_watch s = Some w → watch s' = w.
Proof. intros ->. by intros [= ?]. Qed.

Lemma run_reading s s' z :
  s = Some s' → run_read s = Some z →
  ∃ l rest m, recon s' = LFill l rest ∧ deref (mem s') l = Some m ∧ Revision m = z.
Proof.
  intros ->. cbn. destruct (recon s') as [|l rest|]; [done| |done]. intros (m & ? & ?)%fmap_Some. eauto 7.
Qed.

Lemma not_overtaken_read s s' p z :
  s = Some s' → run_read s = Some z → Z.of_nat p ≤ z → not_overtaken s' p RPublish.
Proof.
  intros Hs Hz Hp. destruct (run_reading _ _ z Hs Hz) as (l & rest & m & Hr & Hm & E).
  unfold not_overtaken. rewrite Hr. intros m' Hm'. rewrite Hm in Hm'. injection Hm' as <-. lia.
Qed.

(** The steps that need no look at the state. *)
Ltac listen_plain := split; [intros ? _; split; [reflexivity|repeat split; exact I]|].
(** Those of the watch that do: opening a stream, and publishing a batch. *)
Ltac listen_watch w :=
  split; [let H := fresh "E" in intros s' H; pose proof (run_watch_at _ _ w H ltac:(vm_compute; reflexivity)) as Hw;
          unfold orderly, always, not_overtaken, not_cut, hears; rewrite Hw|].
Ltac batch_told := split_and!; first [cbn; lia|vm_compute; reflexivity].

Lemma ex_heal_listens s :
  run (started 2 (ex_kvs_at 2)) ex_heal_run = Some s →
  listens ex_hist (orderly 3) (started 2 (ex_kvs_at 2)) 2 ex_heal_run s 4.
Proof.
  intros E. refine (listens_from_listens ex_hist (orderly 3) _ 2 ex_heal_steps s _ E).
  unfold ex_heal_steps. listen_plain.
  listen_watch (WIdle 3). { split; [reflexivity|]. repeat split; reflexivity. }
  split. { intros s' _. split; [|repeat split; cbn; lia]. split; [reflexivity|]. exists 3%nat.
           split_and!; [reflexivity|cbn; lia|apply range_of_kvs_of]. }
  split. { intros s' _. split; [|repeat split]. split; [reflexivity|]. exists 3%nat. batch_told. }
  do 5 listen_plain.
  split. { intros s' E'. split; [reflexivity|]. split_and!; [exact I| |exact I].
           by apply (not_overtaken_read _ s' 2 3 E' ltac:(vm_compute; reflexivity)). }
  listen_watch (WApply 3 (ex_part 2 3) (Some 1%positive) 3%positive []).
  { split; [batch_told|repeat split]. }
  split. { intros s' _. split; [|repeat split]. split; [reflexivity|]. exists 4%nat. batch_told. }
  do 2 listen_plain.
  listen_watch (WApply 5 (ex_part 3 4) (Some 3%positive) 4%positive []).
  { split; [batch_told|repeat split]. }
  exact I.
Qed.


(** The stream ends after the first response of the catch-up. The loop takes the
    revision of its header, so that it asks for the revision 5 when it opens the
    next one, and the removal of the shard at the revision 4 is not sent again;
    a reconciliation is about to publish. *)
Definition ex_cut_steps : list (label * nat) :=
  [(LOpen, 2); (LBatch (ex_part 2 3), 2); (LClone, 2); (LEvent, 2); (LPublish, 3); (LClosed, 3);
   (LOpen, 4)]%nat.
Definition ex_lost_steps : list (label * nat) :=
  ex_cut_steps ++ [(RRange 4 (ex_kvs_at 4), 4); (RApply, 4); (RApply, 4)]%nat.

Definition ex_lost_run : list label := map fst ex_lost_steps.

Lemma ex_lost_listens s :
  run (started 2 (ex_kvs_at 2)) ex_lost_run = Some s →
  listens ex_hist always (started 2 (ex_kvs_at 2)) 2 ex_lost_run s 4.
Proof.
  intros E. refine (listens_from_listens ex_hist always _ 2 ex_lost_steps s _ E).
  unfold ex_lost_steps, ex_cut_steps. cbn [app].
  listen_watch (WIdle 3). { split; [reflexivity|exact I]. }
  split. { intros s' _. split; [|exact I]. split; [reflexivity|]. exists 3%nat. batch_told. }
  do 2 listen_plain.
  listen_watch (WApply 3 (ex_part 2 3) (Some 1%positive) 2%positive []).
  { split; [batch_told|exact I]. }
  listen_plain.
  listen_watch (WIdle 5). { split; [reflexivity|exact I]. }
  split. { intros s' _. split; [|exact I]. split; [reflexivity|]. exists 4%nat.
           split_and!; [reflexivity|cbn; lia|apply range_of_kvs_of]. }
  do 2 listen_plain. exact I.
Qed.

(** What a run leads to, without the mappings. *)
Definition run_view (s : option Sys) : option (watcher * loader * option (loc * Z) * option bool) :=
  s ← s;
  Some (watch s, recon s,
        match recon s with LFill l _ => m ← deref (mem s) l; Some (l, Revision m) | _ => None end,
        m ← current (mem s); Some (bool_decide (is_Some (Shards m !! "s1")))).


Lemma ex_held_snapshot s :
  run (started 2 (ex_kvs_at 2)) ex_heal_run = Some s →
  1%positive ∈ held s ∧ deref (mem s) 1 = Some (load_kvs 2 (ex_kvs_at 2)).
Proof.
  intros E.
  assert ((s ← run (started 2 (ex_kvs_at 2)) ex_heal_run; deref (mem s) 1) = Some (load_kvs 2 (ex_kvs_at 2)))
    as Hm by (vm_compute; reflexivity).
  assert ((λ s, bool_decide (1%positive ∈ held s)) <$> run (started 2 (ex_kvs_at 2)) ex_heal_run = Some true)
    as Hh by (vm_compute; reflexivity).
  rewrite E in Hm, Hh. split; [|exact Hm]. injection Hh as Hh. exact (bool_decide_eq_true_1 _ Hh).
Qed.

(** The request that has loaded the first snapshot routes by it when the watch
    has published the last one. *)
Lemma routes_by_history_witness :
  ∃ s m res, run (started 2 (ex_kvs_at 2)) ex_heal_run = Some s ∧ deref (mem s) 1 = Some m
    ∧ Resolve (New 1) (Some m) (AString "k") = Ok res
    ∧ ∃ n b, (n ≤ 4)%nat ∧ bucket_record (state_at ex_hist n) 0 b ∧ RMigrationState res = State b.
Proof.
  destruct (run (started 2 (ex_kvs_at 2)) ex_heal_run) as [s|] eqn:E; [|by vm_compute in E].
  destruct (ex_held_snapshot s E) as [Hl Em].
  destruct (Resolve (New 1) (Some (load_kvs 2 (ex_kvs_at 2))) (AString "k")) as [res|e] eqn:Er;
    [|by vm_compute in Er].
  exists s, (load_kvs 2 (ex_kvs_at 2)), res. split; [done|]. split; [done|]. split; [exact Er|].
  destruct (routes_by_history ex_hist 2 (ex_kvs_at 2) ex_heal_run s 4 1 (load_kvs 2 (ex_kvs_at 2)) (New 1)
              (AString "k") res ex_hist_ok) as (n & b & Hn & Hb & Hst & _).
  - cbn. lia.
  - apply range_of_kvs_of.
  - exact (listens_always _ _ _ _ _ _ _ (ex_heal_listens s E)).
  - by left.
  - exact Em.
  - exact Er.
  - exists n, b. split; [exact Hn|]. split; [exact Hb|exact Hst].
Defined.

(** The condition on streams matters: in the run above etcd answers as it
    documents, and before the reconciliation the map has lost the removal of the
    shard, with the watch beyond it. *)
Lemma partial_batch_skips :
  ∃ s m d, run (started 2 (ex_kvs_at 2)) (map fst ex_cut_steps) = Some s
    ∧ watch_rev (watch s) = Some 5 ∧ current (mem s) = Some m
    ∧ Shards m !! "s1" = Some d ∧ shard_record (state_at ex_hist 4) "s1" = None.
Proof.
  set (o := run _ _).
  assert ((s ← o; m ← current (mem s); Some (watch_rev (watch s), Shards m !! "s1"))
          = Some (Some 5, Some (mkShardDef "s1" ShardActive zero_endpoint None "" ""))) as H
    by (vm_compute; reflexivity).
  destruct o as [s|]; [|discriminate H]. cbn in H.
  destruct (current (mem s)) as [m|] eqn:Em; [|discriminate H]. injection H as Hw Hs.
  eexists s, m, _. split_and!; [reflexivity|exact Hw|exact Em|exact Hs|vm_compute; reflexivity].
Qed.
