(* ===== verification/EtcdHttp.v ===== *)
(** * The etcd client over HTTP

    [internal/registry/etcdhttp.go]: posting to the endpoints with failover
    and re-authentication, the Range request and its response, the Watch
    request and its stream of messages, and the start of the etcd registry
    ([etcd.go]) on top of them. What the network and etcd answer is a parameter
    of the model: the class [Network] gives the outcome of one HTTP exchange
    and the state of the outside world after it. *)

From S2P Require Import Prelude GoInt GoString GoAny Json JsonPrint Model Cache Keys.
From S2P Require Import Base64 Etcd EtcdSync.
From Stdlib Require Import Ascii.

(** ** The network *)

Record Request := mkRequest { Url : string; Authorization : string; Body : string }.

(** One exchange: the request could not be built, or sent, or its response
    read ([Failed], with the text of the error), or a whole response. *)
Inductive Answer : Type :=
| Failed (msg : string)
| Reply (status : Z) (body : string).

Class Network (W : Type) := { post : Request → W → Answer * W }.

Definition StatusOK : Z := 200.
Definition StatusUnauthorized : Z := 401.

(** ** The client *)

Inductive ClientError : Type :=
| ErrTransport (msg : string)
| ErrStatus (path : string) (status : Z) (body : string)
| ErrNoEndpoints (path : string)
| ErrAuth (e : ClientError)
| ErrAuthDecode
| ErrRangeDecode
| ErrRangeKey
| ErrRangeValue
| ErrWatchNoEndpoints.

Record etcdClient := mkClient {
  endpoints : list string;
  username : string;
  password : string;
  token : string;
}.

Definition set_token (t : string) (c : etcdClient) : etcdClient :=
  mkClient (endpoints c) (username c) (password c) t.

Definition newEtcdClient (eps : list string) (user pass : string) : etcdClient :=
  mkClient eps user pass "".

Definition authPath : string := "/v3/auth/authenticate".
Definition rangePath : string := "/v3/kv/range".
Definition watchPath : string := "/v3/watch".

Definition auth_body (c : etcdClient) : string :=
  encode (JObj [("name", JStr (username c)); ("password", JStr (password c))]).

(** The field [token] of the response. *)
Definition decode_token (body : string) : option string :=
  j ← parse body; decode_struct ["token"] (λ cur _ v, decode_string cur v) "" j.

(** ** Range: the request and the response *)

Definition range_members (prefix : string) : list (string * json) :=
  [("key", JStr (encode64 prefix)); ("range_end", JStr (encode64 (getPrefixRangeEnd prefix)))].

Definition range_body (prefix : string) : string := encode (JObj (range_members prefix)).

(** [kv], [rangeResponse]. *)
Record kv := mkRawKv { RawKey : string; RawValue : string }.

Definition set_kv (e : kv) (name : string) (v : json) : option kv :=
  if decide (name = "key") then x ← decode_string (RawKey e) v; Some (mkRawKv x (RawValue e))
  else x ← decode_string (RawValue e) v; Some (mkRawKv (RawKey e) x).

Definition decode_kv : kv → json → option kv := decode_struct ["key"; "value"] set_kv.

(** The elements of an array, each decoded into the element the slice has at
    its place, or into a zero value. *)
Fixpoint decode_elems {A} (dec : A → json → option A) (zero : A) (cur : list A) (l : list json)
    : option (list A) :=
  match l with
  | [] => Some []
  | v :: l =>
      x ← dec (default zero (head cur)) v;
      xs ← decode_elems dec zero (tail cur) l; Some (x :: xs)
  end.

(** A slice; [null] makes it nil. *)
Definition decode_slice {A} (dec : A → json → option A) (zero : A) (cur : list A) (v : json)
    : option (list A) :=
  match v with
  | JArr l => decode_elems dec zero cur l
  | JNull => Some []
  | _ => None
  end.

Record rangeResponse := mkRangeResponse { HRevision : string; Kvs : list kv; Count : string }.

Definition decode_header : string → json → option string :=
  decode_struct ["revision"] (λ cur _ v, decode_string cur v).

Definition set_range (r : rangeResponse) (name : string) (v : json) : option rangeResponse :=
  if decide (name = "header") then
    x ← decode_header (HRevision r) v; Some (mkRangeResponse x (Kvs r) (Count r))
  else if decide (name = "kvs") then
    x ← decode_slice decode_kv (mkRawKv "" "") (Kvs r) v;
    Some (mkRangeResponse (HRevision r) x (Count r))
  else
    x ← decode_string (Count r) v; Some (mkRangeResponse (HRevision r) (Kvs r) x).

Definition decode_range_response : json → option rangeResponse :=
  decode_struct ["header"; "kvs"; "count"] set_range (mkRangeResponse "" [] "").

(** [fmt.Sscanf(s, "%d", &rev)] with its error ignored. *)
Definition scan_revision (s : string) : Z := default 0 (sscanf_d s).

Fixpoint decode_kvs (l : list kv) : result ClientError (list decodedKV) :=
  match l with
  | [] => Ok []
  | e :: l =>
      match decode64 (RawKey e), decode64 (RawValue e) with
      | (_, true), _ => Err ErrRangeKey
      | (_, false), (_, true) => Err ErrRangeValue
      | (key, false), (val, false) => kvs ← decode_kvs l; Ok (mkKV key val :: kvs)
      end
  end.

(** The body of [rangePrefix] after the response has arrived. *)
Definition decode_range (raw : string) : result ClientError (list decodedKV * Z) :=
  match j ← parse raw; decode_range_response j with
  | None => Err ErrRangeDecode
  | Some resp => kvs ← decode_kvs (Kvs resp); Ok (kvs, scan_revision (HRevision resp))
  end.

(** ** Watch: the request and the stream of messages *)

Definition watch_body (prefix : string) (startRevision : Z) : string :=
  encode (JObj [("create_request",
    JObj (range_members prefix ++ [("start_revision", JStr (format_int startRevision))]))]).

(** The message type of [watchPrefix]. *)
Record watchMsg := mkMsg {
  MRevision : string;
  MCreated : bool;
  MCanceled : bool;
  MReason : string;
  MEvents : list (string * kv);
}.

Definition set_event (e : string * kv) (name : string) (v : json) : option (string * kv) :=
  if decide (name = "type") then x ← decode_string e.1 v; Some (x, e.2)
  else x ← decode_kv e.2 v; Some (e.1, x).

Definition empty_event : string * kv := ("", mkRawKv "" "").

Definition decode_event : string * kv → json → option (string * kv) :=
  decode_struct ["type"; "kv"] set_event.

Definition set_msg (m : watchMsg) (name : string) (v : json) : option watchMsg :=
  let '(mkMsg rev cr ca re evs) := m in
  if decide (name = "header") then x ← decode_header rev v; Some (mkMsg x cr ca re evs)
  else if decide (name = "created") then x ← decode_bool cr v; Some (mkMsg rev x ca re evs)
  else if decide (name = "canceled") then x ← decode_bool ca v; Some (mkMsg rev cr x re evs)
  else if decide (name = "cancel_reason") then x ← decode_string re v; Some (mkMsg rev cr ca x evs)
  else x ← decode_slice decode_event empty_event evs v; Some (mkMsg rev cr ca re x).

Definition empty_msg : watchMsg := mkMsg "" false false "" [].

Definition decode_msg : json → option watchMsg :=
  decode_struct ["result"] (λ m _ v,
    decode_struct ["header"; "created"; "canceled"; "cancel_reason"; "events"] set_msg m v)
    empty_msg.

(** Errors of the base64 decoder are ignored; a missing type means [PUT]. *)
Definition msg_event (rev : Z) (ev : string * kv) : watchEvent :=
  mkEvent (if decide (ev.1 = "") then "PUT" else ev.1)
    (fst (decode64 (RawKey ev.2))) (fst (decode64 (RawValue ev.2))) rev.

Definition msg_batch (m : watchMsg) : watchBatch :=
  let rev := scan_revision (MRevision m) in
  mkBatch rev (map (msg_event rev) (MEvents m)) (MCanceled m) (MReason m).

(** The batches delivered from the bytes of a stream, up to its end, the first
    text that does not decode, or the first batch that cancels the watch.
    [fuel] bounds the number of messages. *)
Fixpoint watch_batches_go (fuel : nat) (s : string) : list watchBatch :=
  match fuel with
  | O => []
  | S fuel =>
      match parse_first s with
      | None => []
      | Some (j, rest) =>
          match decode_msg j with
          | None => []
          | Some m =>
              if MCreated m then watch_batches_go fuel rest
              else let b := msg_batch m in
                   b :: (if Canceled b then [] else watch_batches_go fuel rest)
          end
      end
  end.

(** A message has at least one byte. *)
Definition watch_batches (s : string) : list watchBatch :=
  watch_batches_go (S (String.length s)) s.

Section client.
Context {W : Type} `{Network W}.

(** The outcome, and the client and the world afterwards. *)
Definition call (A : Type) : Type := result ClientError A * etcdClient * W.

(** The loop of [postAny] over the endpoints that are left. [auth] is the
    call to [authenticate]. *)
Fixpoint post_loop (auth : etcdClient → W → call unit) (path body : string)
    (eps : list string) (lastErr : option ClientError) (c : etcdClient) (w : W)
    : call string :=
  match eps with
  | [] => (Err (default (ErrNoEndpoints path) lastErr), c, w)
  | ep :: eps =>
      match post (mkRequest (ep +:+ path) (token c) body) w with
      | (Failed msg, w) => post_loop auth path body eps (Some (ErrTransport msg)) c w
      | (Reply status resp, w) =>
          let check c w :=
            if status =? StatusOK then (Ok resp, c, w)
            else post_loop auth path body eps (Some (ErrStatus path status resp)) c w in
          if (status =? StatusUnauthorized) && bool_decide (username c ≠ "")
             && bool_decide (path ≠ authPath)
          then match auth c w with
               | (Ok _, c, w) => post_loop auth path body eps lastErr c w
               | (Err _, c, w) => check c w
               end
          else check c w
      end
  end.

(** [authenticate], given the [postAny] it calls. *)
Definition authenticate_with (post_any : string → string → etcdClient → W → call string)
    (c : etcdClient) (w : W) : call unit :=
  if decide (username c = "") then (Ok tt, c, w)
  else match post_any authPath (auth_body c) c w with
       | (Err e, c, w) => (Err (ErrAuth e), c, w)
       | (Ok resp, c, w) =>
           match decode_token resp with
           | None => (Err ErrAuthDecode, c, w)
           | Some t => (Ok tt, set_token t c, w)
           end
       end.

(** [postAny] on [authPath] never authenticates, which ends the recursion. *)
Definition authenticate : etcdClient → W → call unit :=
  authenticate_with (λ path body c w,
    post_loop (λ c w, (Ok tt, c, w)) path body (endpoints c) None c w).

Definition postAny (path body : string) (c : etcdClient) (w : W) : call string :=
  post_loop authenticate path body (endpoints c) None c w.

(** On [authPath] the call to [authenticate] is never reached. *)
Lemma post_loop_auth_path auth1 auth2 body eps lastErr c w :
  post_loop auth1 authPath body eps lastErr c w = post_loop auth2 authPath body eps lastErr c w.
Proof.
  revert lastErr c w. induction eps as [|ep eps IH]; intros lastErr c w; [done|].
  cbn [post_loop]. destruct (post _ w) as [[msg|status resp] w']; [apply IH|].
  rewrite (bool_decide_false (authPath ≠ authPath)) by naive_solver.
  rewrite andb_false_r. by destruct (status =? StatusOK).
Qed.

(** The mutual recursion of the source. *)
Lemma authenticate_unfold c w : authenticate c w = authenticate_with postAny c w.
Proof.
  unfold authenticate, authenticate_with, postAny. case_decide; [done|].
  by rewrite (post_loop_auth_path _ authenticate).
Qed.

Definition rangePrefix (prefix : string) (c : etcdClient) (w : W)
    : call (list decodedKV * Z) :=
  match postAny rangePath (range_body prefix) c w with
  | (Err e, c, w) => (Err e, c, w)
  | (Ok raw, c, w) => (decode_range raw, c, w)
  end.

Definition pickEndpoint (c : etcdClient) : result ClientError string :=
  match endpoints c with
  | [] => Err ErrWatchNoEndpoints
  | ep :: _ => Ok ep
  end.

(** Opens the stream; [Body] of the answer is what the stream delivers until
    it ends. *)
Definition watchPrefix (prefix : string) (startRevision : Z) (c : etcdClient) (w : W)
    : call (list watchBatch) :=
  match pickEndpoint c with
  | Err e => (Err e, c, w)
  | Ok url =>
      match post (mkRequest (url +:+ watchPath) (token c) (watch_body prefix startRevision)) w with
      | (Failed msg, w) => (Err (ErrTransport msg), c, w)
      | (Reply status body, w) =>
          if status =? StatusOK then (Ok (watch_batches body), c, w)
          else (Err (ErrStatus watchPath status body), c, w)
      end
  end.

(** The first step of [Start]. *)
Definition login (c : etcdClient) (w : W) : call unit :=
  if decide (username c = "") then (Ok tt, c, w) else authenticate c w.

(** [Start] of the etcd registry, up to the launch of the two loops; the
    memory is the one it started in when the load fails. *)
Definition Start (c : etcdClient) (w : W) (s : Memory)
    : result ClientError Z * etcdClient * W * Memory :=
  match login c w with
  | (Err e, c, w) => (Err e, c, w, s)
  | (Ok _, c, w) =>
      match rangePrefix prefix c w with
      | (Err e, c, w) => (Err e, c, w, s)
      | (Ok (kvs, rev), c, w) => (Ok rev, c, w, loadAll rev kvs s)
      end
  end.
End client.

(** ** A network whose answers depend on the request alone

    The world is the list of requests sent so far. *)
Definition traced (net : Request → Answer) : Network (list Request) :=
  {| post := λ r log, (net r, log ++ [r]) |}.

Definition ok_body (a : Answer) : option string :=
  match a with
  | Reply status body => if status =? StatusOK then Some body else None
  | Failed _ => None
  end.

Definition is_unauthorized (a : Answer) : bool :=
  match a with Reply status _ => status =? StatusUnauthorized | Failed _ => false end.

(** The error an answer that is not a success counts as. *)
Definition answer_error (path : string) (a : Answer) : ClientError :=
  match a with
  | Failed msg => ErrTransport msg
  | Reply status body => ErrStatus path status body
  end.

Definition requests (path body : string) (c : etcdClient) (eps : list string) : list Request :=
  map (λ ep, mkRequest (ep +:+ path) (token c) body) eps.

(** No answer of these endpoints makes the client authenticate. *)
Definition no_reauth (net : Request → Answer) (path body : string) (c : etcdClient)
    (eps : list string) : Prop :=
  username c = "" ∨ path = authPath
  ∨ Forall (λ r, is_unauthorized (net r) = false) (requests path body c eps).

Lemma no_reauth_cons net path body c ep eps :
  no_reauth net path body c (ep :: eps) → no_reauth net path body c eps.
Proof. intros [?|[?|H%Forall_cons]]; unfold no_reauth; naive_solver. Qed.

Lemma no_reauth_guard net path body c ep eps status resp :
  no_reauth net path body c (ep :: eps) →
  net (mkRequest (ep +:+ path) (token c) body) = Reply status resp →
  (status =? StatusUnauthorized) && bool_decide (username c ≠ "") && bool_decide (path ≠ authPath)
  = false.
Proof.
  intros [E|[E|[Hu _]%Forall_cons]] Hn.
  - rewrite (bool_decide_false (username c ≠ "")) by naive_solver. by rewrite andb_false_r.
  - rewrite (bool_decide_false (path ≠ authPath)) by naive_solver. by rewrite andb_false_r.
  - cbn in Hu. rewrite Hn in Hu. cbn in Hu. by rewrite Hu.
Qed.

(** One endpoint tried: the call ends there on a success, else goes on. *)
Lemma post_loop_step net auth path body ep eps lastErr c log :
  let r := mkRequest (ep +:+ path) (token c) body in
  no_reauth net path body c (ep :: eps) →
  post_loop (H := traced net) auth path body (ep :: eps) lastErr c log =
    match ok_body (net r) with
    | Some b => (Ok b, c, log ++ [r])
    | None => post_loop (H := traced net) auth path body eps (Some (answer_error path (net r))) c
                (log ++ [r])
    end.
Proof.
  intros r Hno. cbn [post_loop post traced]. fold r.
  destruct (net r) as [msg|status resp] eqn:En; [done|].
  rewrite (no_reauth_guard _ _ _ _ _ _ _ _ Hno En). cbn [ok_body answer_error].
  by destruct (status =? StatusOK).
Qed.

(** The endpoints that fail are skipped. *)
Lemma post_loop_skip net auth path body pre eps lastErr c log :
  no_reauth net path body c (pre ++ eps) →
  Forall (λ r, ok_body (net r) = None) (requests path body c pre) →
  ∃ err, post_loop (H := traced net) auth path body (pre ++ eps) lastErr c log
         = post_loop (H := traced net) auth path body eps err c (log ++ requests path body c pre)
         ∧ err = match last (requests path body c pre) with
                 | Some r => Some (answer_error path (net r))
                 | None => lastErr
                 end.
Proof.
  revert lastErr log. induction pre as [|ep pre IH]; intros lastErr log Hno Hf.
  { exists lastErr. cbn. by rewrite app_nil_r. }
  cbn [requests map] in Hf. apply Forall_cons in Hf as [Hep Hf].
  change ((ep :: pre) ++ eps) with (ep :: (pre ++ eps)) in *.
  rewrite post_loop_step, Hep by done. apply no_reauth_cons in Hno.
  destruct (IH (Some (answer_error path (net (mkRequest (ep +:+ path) (token c) body))))
              (log ++ [mkRequest (ep +:+ path) (token c) body]) Hno Hf) as (err & E & Herr).
  exists err. rewrite E, <-app_assoc. split; [done|]. rewrite Herr.
  unfold requests. cbn [map]. rewrite last_cons. by destruct (last _).
Qed.

(** Either every endpoint fails, or one is the first to succeed. *)
Lemma first_ok net path body c eps :
  Forall (λ r, ok_body (net r) = None) (requests path body c eps)
  ∨ ∃ pre ep rest b, eps = pre ++ ep :: rest
      ∧ Forall (λ r, ok_body (net r) = None) (requests path body c pre)
      ∧ ok_body (net (mkRequest (ep +:+ path) (token c) body)) = Some b.
Proof.
  induction eps as [|ep eps IH]; [left; constructor|].
  destruct (ok_body (net (mkRequest (ep +:+ path) (token c) body))) as [b|] eqn:E.
  - right. exists [], ep, eps, b. split_and!; [done|constructor|done].
  - destruct IH as [IH|(pre & ep' & rest & b & -> & Hpre & Hb)].
    + left. by constructor.
    + right. exists (ep :: pre), ep', rest, b. split_and!; [done|by constructor|done].
Qed.

Lemma post_loop_first net auth path body pre ep rest b c log :
  no_reauth net path body c (pre ++ ep :: rest) →
  Forall (λ r, ok_body (net r) = None) (requests path body c pre) →
  ok_body (net (mkRequest (ep +:+ path) (token c) body)) = Some b →
  post_loop (H := traced net) auth path body (pre ++ ep :: rest) None c log
  = (Ok b, c, log ++ requests path body c (pre ++ [ep])).
Proof.
  intros Hno Hpre Hb.
  destruct (post_loop_skip net auth path body pre (ep :: rest) None c log Hno Hpre)
    as (err & -> & _).
  assert (no_reauth net path body c (ep :: rest)) as Hno'.
  { destruct Hno as [?|[?|Hno]]; [by left|by right; left|]. right; right.
    unfold requests in *. rewrite map_app in Hno. by apply Forall_app in Hno as [_ ?]. }
  rewrite post_loop_step, Hb by done. unfold requests. by rewrite map_app, app_assoc.
Qed.

(** C27: failover. Suppose that no answer makes the client authenticate again: no
    user name is set, or the call is the authentication itself, or no endpoint
    answers 401. Then the call returns the body of the first endpoint that answers
    200, after having sent the request to the endpoints before it and to no other;
    when there is none, it has tried every endpoint once, in order, and returns the
    error of the last one. *)
Theorem post_failover (net : Request → Answer) (path body : string) (c : etcdClient)
    (log : list Request) :
  let reqs := requests path body c (endpoints c) in
  let outcome := postAny (H := traced net) path body c log in
  no_reauth net path body c (endpoints c) →
  (∃ pre r rest b, reqs = pre ++ r :: rest ∧ Forall (λ r, ok_body (net r) = None) pre
     ∧ ok_body (net r) = Some b ∧ outcome = (Ok b, c, log ++ pre ++ [r]))
  ∨ (Forall (λ r, ok_body (net r) = None) reqs
     ∧ outcome = (Err match last reqs with
                      | Some r => answer_error path (net r)
                      | None => ErrNoEndpoints path
                      end, c, log ++ reqs)).
Proof.
  intros reqs outcome Hno. unfold outcome, postAny, reqs.
  destruct (first_ok net path body c (endpoints c)) as [Hall|(pre & ep & rest & b & E & Hpre & Hb)].
  - right. split; [done|]. rewrite <-(app_nil_r (endpoints c)) in Hno |- * at 1.
    destruct (post_loop_skip net (authenticate (H := traced net)) path body (endpoints c) [] None
                c log Hno Hall) as (err & -> & ->).
    cbn [post_loop]. by destruct (last _).
  - left. rewrite E in *.
    exists (requests path body c pre), (mkRequest (ep +:+ path) (token c) body),
      (requests path body c rest), b.
    split_and!; [|done|done|].
    + unfold requests. by rewrite map_app.
    + rewrite (post_loop_first _ _ _ _ _ _ _ b) by done. unfold requests. by rewrite map_app.
Qed.

(** A network of two endpoints, the first of which is down. *)
Definition ex_net (r : Request) : Answer :=
  if has_prefix (Url r) "http://a" then Failed "connection refused" else Reply 200 "{}".

Definition ex_client : etcdClient :=
  newEtcdClient ["http://a:2379"; "http://b:2379"; "http://c:2379"] "" "".

Example failover_example :
  postAny (H := traced ex_net) rangePath "x" ex_client []
  = (Ok "{}", ex_client,
     [mkRequest "http://a:2379/v3/kv/range" "" "x"; mkRequest "http://b:2379/v3/kv/range" "" "x"]).
Proof. by vm_compute. Qed.

Lemma post_failover_witness :
  let reqs := requests rangePath "x" ex_client (endpoints ex_client) in
  ∃ pre r rest b, reqs = pre ++ r :: rest ∧ Forall (λ r, ok_body (ex_net r) = None) pre
    ∧ ok_body (ex_net r) = Some b
    ∧ postAny (H := traced ex_net) rangePath "x" ex_client [] = (Ok b, ex_client, pre ++ [r]).
Proof.
  destruct (post_failover ex_net rangePath "x" ex_client []) as [H|[H _]]; [by left|exact H|].
  apply Forall_cons in H as [_ [H _]%Forall_cons]. by vm_compute in H.
Defined.

(** C39: an expired token costs one failed call. With a single endpoint that
    answers 401, the client authenticates successfully and then moves on to the
    next endpoint, of which there is none: the call reports that no endpoint is
    configured, although the fresh token is stored and the same call made again
    succeeds. *)
Theorem expired_token_fails_once (net : Request → Answer) (path body ep resp t b : string)
    (user pass tok : string) (log : list Request) (resp401 : string) :
  let c := mkClient [ep] user pass tok in
  let c' := mkClient [ep] user pass t in
  user ≠ "" → path ≠ authPath →
  net (mkRequest (ep +:+ path) tok body) = Reply StatusUnauthorized resp401 →
  net (mkRequest (ep +:+ authPath) tok (auth_body c)) = Reply StatusOK resp →
  decode_token resp = Some t →
  net (mkRequest (ep +:+ path) t body) = Reply StatusOK b →
  let sent := [mkRequest (ep +:+ path) tok body; mkRequest (ep +:+ authPath) tok (auth_body c)] in
  postAny (H := traced net) path body c log = (Err (ErrNoEndpoints path), c', log ++ sent)
  ∧ fst (fst (postAny (H := traced net) path body c' (log ++ sent))) = Ok b.
Proof.
  intros c c' Huser Hpath H401 Hauth Ht Hok sent. split.
  - unfold postAny, c. cbn [post_loop post traced endpoints token]. rewrite H401.
    rewrite !bool_decide_true by done. rewrite Z.eqb_refl. cbn [andb].
    unfold authenticate, authenticate_with. cbn [username]. rewrite decide_False by done.
    cbn [post_loop post traced endpoints token]. fold c. rewrite Hauth.
    rewrite (bool_decide_false (authPath ≠ authPath)) by naive_solver.
    rewrite andb_false_r, Z.eqb_refl, Ht. cbn. unfold sent. by rewrite <-app_assoc.
  - unfold postAny, c'. cbn [post_loop post traced endpoints token]. rewrite Hok.
    by cbn [StatusOK StatusUnauthorized Z.eqb andb].
Qed.

(** An etcd that knows one user, whose token is [fresh]. *)
Definition ex_auth_net (r : Request) : Answer :=
  if decide (Url r = "http://a:2379" +:+ authPath) then Reply 200 (js "{'token':'fresh'}")
  else if decide (Authorization r = "fresh") then Reply 200 "{}"
  else Reply 401 "invalid auth token".

Lemma expired_token_fails_once_witness :
  let c := mkClient ["http://a:2379"] "root" "pw" "stale" in
  let sent := [mkRequest "http://a:2379/v3/kv/range" "stale" "x";
               mkRequest "http://a:2379/v3/auth/authenticate" "stale"
                 (js "{'name':'root','password':'pw'}")] in
  postAny (H := traced ex_auth_net) rangePath "x" c []
  = (Err (ErrNoEndpoints rangePath), mkClient ["http://a:2379"] "root" "pw" "fresh", sent).
Proof.
  apply (expired_token_fails_once ex_auth_net rangePath "x" "http://a:2379"
    (js "{'token':'fresh'}") "fresh" "{}" "root" "pw" "stale" [] "invalid auth token");
    by vm_compute.
Defined.
