(* ===== verification/EtcdWire.v ===== *)
(** * The etcd client against etcd's documented messages

    The JSON that etcd's gateway sends for a Range response and for the
    messages of a watch, as relations on the parsed values, and what the client
    of [EtcdHttp] makes of them: the start of the registry loads exactly the
    key-space, and a stream of messages is delivered batch by batch. *)

From S2P Require Import Prelude GoInt GoString GoAny Json JsonPrint Model Cache Keys.
From S2P Require Import JsonFuel Base64 Etcd EtcdSync EtcdHttp.
From Stdlib Require Import Ascii.

(** ** What etcd documents: the Range request

    The gateway sends an object whose members the client does not name
    (identifiers of the cluster, revisions of keys) may stand among the others;
    an empty value or list is left out. *)

(** The members that are stored into a field are exactly [fields]. *)
Definition carries (names : list string) (kvs fields : list (string * json)) : Prop :=
  filter (λ kv, is_Some (match_field names kv.1)) kvs = fields.

Lemma decode_carries {A} names (set : A → string → json → option A) cur kvs fields :
  carries names kvs fields →
  decode_struct names set cur (JObj kvs) = decode_members names set cur fields.
Proof.
  unfold carries, decode_struct. intros <-. revert cur.
  induction kvs as [|[k v] kvs IH]; intros cur; [done|].
  rewrite filter_cons. cbn [decode_members fst].
  destruct (match_field names k) as [n|] eqn:E.
  - rewrite decide_True by by eexists. cbn [decode_members]. rewrite E.
    destruct (set cur n v); [apply IH|done].
  - rewrite decide_False by by intros [? ?]. apply IH.
Qed.

Definition optional (name : string) (s : string) : list (string * json) :=
  match s with EmptyString => [] | _ => [(name, JStr s)] end.

(** A key-value as the gateway prints it. *)
Definition kv_json (e : decodedKV) (v : json) : Prop :=
  ∃ ms, v = JObj ms
    ∧ carries ["key"; "value"] ms
        (optional "key" (encode64 (Key e)) ++ optional "value" (encode64 (Value e))).

(** A Range response at a revision. *)
Definition range_json (rev : Z) (kvs : list decodedKV) (v : json) : Prop :=
  ∃ ms hdr items count,
    v = JObj ms
    ∧ carries ["revision"] hdr [("revision", JStr (format_int rev))]
    ∧ Forall2 kv_json kvs items
    ∧ carries ["header"; "kvs"; "count"] ms
        (("header", JObj hdr)
         :: match items with [] => [] | _ => [("kvs", JArr items); ("count", JStr count)] end).

Lemma decode_kv_json e v :
  kv_json e v → decode_kv (mkRawKv "" "") v = Some (mkRawKv (encode64 (Key e)) (encode64 (Value e))).
Proof.
  intros (ms & -> & Hms). unfold decode_kv. rewrite (decode_carries _ _ _ _ _ Hms).
  by destruct (encode64 (Key e)), (encode64 (Value e)).
Qed.

Definition raw_kv (e : decodedKV) : kv := mkRawKv (encode64 (Key e)) (encode64 (Value e)).

Lemma decode_elems_map {A B} (dec : A → json → option A) zero (f : B → A) (P : B → json → Prop) bs vs :
  (∀ b v, P b v → dec zero v = Some (f b)) → Forall2 P bs vs →
  decode_elems dec zero [] vs = Some (map f bs).
Proof.
  intros Hdec. induction 1 as [|b v bs vs Hb _ IH]; [done|].
  cbn [decode_elems head default tail]. rewrite (Hdec b v) by done. cbn [mbind option_bind].
  by rewrite IH.
Qed.

Lemma set_range_header r hdr rev :
  carries ["revision"] hdr [("revision", JStr rev)] →
  set_range r "header" (JObj hdr) = Some (mkRangeResponse rev (Kvs r) (Count r)).
Proof.
  intros Hhdr. unfold set_range, decode_header. rewrite decide_True by done.
  by rewrite (decode_carries _ _ _ _ _ Hhdr).
Qed.

Lemma set_range_kvs r kvs items :
  Kvs r = [] → Forall2 kv_json kvs items →
  set_range r "kvs" (JArr items) = Some (mkRangeResponse (HRevision r) (map raw_kv kvs) (Count r)).
Proof.
  intros E Hkvs. unfold set_range. rewrite decide_False, decide_True by done.
  cbn [decode_slice]. rewrite E.
  by rewrite (decode_elems_map decode_kv _ raw_kv kv_json kvs) by (done || apply decode_kv_json).
Qed.

Lemma decode_range_json rev kvs v :
  range_json rev kvs v →
  ∃ count, decode_range_response v = Some (mkRangeResponse (format_int rev) (map raw_kv kvs) count).
Proof.
  intros (ms & hdr & items & count & -> & Hhdr & Hkvs & Hms). unfold decode_range_response.
  rewrite (decode_carries _ _ _ _ _ Hms). cbn [decode_members].
  change (match_field ["header"; "kvs"; "count"] "header") with (Some "header").
  cbn [mbind option_bind]. rewrite (set_range_header _ _ _ Hhdr). cbn [Kvs Count].
  destruct items as [|it items]; [exists ""; by apply Forall2_nil_inv_r in Hkvs as ->|].
  exists count. cbn [mbind option_bind decode_members].
  change (match_field ["header"; "kvs"; "count"] "kvs") with (Some "kvs").
  change (match_field ["header"; "kvs"; "count"] "count") with (Some "count").
  cbn [mbind option_bind]. by rewrite (set_range_kvs _ kvs) by done.
Qed.

Lemma decode_kvs_raw kvs : decode_kvs (map raw_kv kvs) = Ok kvs.
Proof.
  induction kvs as [|[k v] kvs IH]; [done|]. cbn [map decode_kvs raw_kv RawKey RawValue Key Value].
  rewrite !decode64_encode64. by rewrite IH.
Qed.

Lemma scan_revision_format rev : 0 ≤ rev → in_int64 rev = true → scan_revision (format_int rev) = rev.
Proof.
  intros. unfold scan_revision. rewrite <-(string_app_nil_r (format_int rev)).
  by rewrite sscanf_d_format.
Qed.

Lemma decode_range_ok rev kvs raw v :
  0 ≤ rev → in_int64 rev = true → parse raw = Some v → range_json rev kvs v →
  decode_range raw = Ok (kvs, rev).
Proof.
  intros H0 Hr Hp (count & E)%decode_range_json. unfold decode_range. rewrite Hp.
  cbn [mbind option_bind]. rewrite E. cbn [Kvs HRevision]. rewrite decode_kvs_raw, scan_revision_format by done.
  done.
Qed.

(** ** What the server reads of the request *)

Definition string_member (name : string) (v : json) : option string :=
  match v with
  | JObj kvs => head (omap (λ '(k, x), if decide (k = name)
                                        then match x with JStr s => Some s | _ => None end
                                        else None) kvs)
  | _ => None
  end.

Definition base64_member (name : string) (v : json) : option string :=
  s ← string_member name v;
  match decode64 s with (x, false) => Some x | _ => None end.

(** The interval of keys a Range request asks for. *)
Definition range_request (body : string) : option (string * string) :=
  v ← parse body; key ← base64_member "key" v; range_end ← base64_member "range_end" v;
  Some (key, range_end).

Lemma char64_printable v : 0 ≤ v < 64 → plain (char64 v) = true.
Proof.
  intros Hv. assert (v ∈ map Z.of_nat (seq 0 64)) as Hin.
  { apply list_elem_of_fmap. exists (Z.to_nat v). rewrite elem_of_seq. lia. }
  assert (Forall (λ v, plain (char64 v) = true) (map Z.of_nat (seq 0 64))) as HF.
  { by repeat constructor. }
  by eapply Forall_forall in HF.
Qed.

Lemma encode64_plain s : plain_string (encode64 s) = true.
Proof.
  unfold plain_string. induction s as [|a|a b|a b c s IH] using str_ind3; cbn [encode64]; [done|..].
  all: cbn [str_forall]; rewrite !char64_printable by sextets; done.
Qed.

Lemma base64_member_encode name x v :
  string_member name v = Some (encode64 x) → base64_member name v = Some x.
Proof. unfold base64_member. intros ->. cbn [mbind option_bind]. by rewrite decode64_encode64. Qed.

Lemma range_request_body p : range_request (range_body p) = Some (p, getPrefixRangeEnd p).
Proof.
  unfold range_request, range_body.
  rewrite parse_encode by (unfold range_members; cbn; by rewrite !encode64_plain).
  cbn [mbind option_bind]. rewrite (base64_member_encode "key" p) by done.
  cbn [mbind option_bind].
  by rewrite (base64_member_encode "range_end" (getPrefixRangeEnd p)) by done.
Qed.

(** ** The key-space etcd serves *)

Definition with_prefix (p : string) (ks : keyspace) : keyspace :=
  filter (λ kv, has_prefix kv.1 p = true) ks.

(** The server answers a Range request of this client with the pairs of its
    key-space in the requested interval, at one revision. *)
Definition serves (net : Request → Answer) (url tok : string) (ks : keyspace) (rev : Z) : Prop :=
  ∀ body key range_end, range_request body = Some (key, range_end) →
    ∃ raw v kvs, net (mkRequest (url +:+ rangePath) tok body) = Reply StatusOK raw
      ∧ parse raw = Some v ∧ range_json rev kvs v
      ∧ range_of (filter (λ kv, in_range key range_end kv.1 = true) ks) kvs.

Lemma serves_prefix net url tok ks rev p :
  serves net url tok ks rev →
  ∃ raw v kvs, net (mkRequest (url +:+ rangePath) tok (range_body p)) = Reply StatusOK raw
    ∧ parse raw = Some v ∧ range_json rev kvs v ∧ range_of (with_prefix p ks) kvs.
Proof.
  intros Hs. destruct (Hs _ _ _ (range_request_body p)) as (raw & v & kvs & Hn & Hp & Hj & Hr).
  exists raw, v, kvs. split_and!; [done|done|done|].
  replace (with_prefix p ks)
    with (filter (λ kv : string * string, in_range p (getPrefixRangeEnd p) kv.1 = true) ks);
    [done|].
  apply map_filter_ext. intros k x _. cbn. by rewrite in_range_prefix.
Qed.

Lemma rangePrefix_reads net c pre url rest ks rev p log :
  0 ≤ rev → in_int64 rev = true →
  endpoints c = pre ++ url :: rest →
  no_reauth net rangePath (range_body p) c (endpoints c) →
  Forall (λ r, ok_body (net r) = None) (requests rangePath (range_body p) c pre) →
  serves net url (token c) ks rev →
  ∃ kvs, range_of (with_prefix p ks) kvs
    ∧ rangePrefix (H := traced net) p c log
      = (Ok (kvs, rev), c, log ++ requests rangePath (range_body p) c (pre ++ [url])).
Proof.
  intros H0 Hr E Hno Hpre Hs.
  destruct (serves_prefix net url (token c) ks rev p Hs) as (raw & v & kvs & Hn & Hp & Hj & Hk).
  exists kvs. split; [done|]. unfold rangePrefix, postAny. rewrite E in *.
  rewrite (post_loop_first net _ _ _ pre url rest raw) by (done || by rewrite Hn).
  by rewrite (decode_range_ok rev kvs raw v) by done.
Qed.

(** C9: starting the registry loads exactly the key-space. Once logged in, with
    some endpoints down and then one that serves the key-space at a revision,
    [Start] succeeds, publishes a mapping of that revision that holds the
    decoded record of every key under [/sharding/] and nothing else, and asks
    no endpoint after that one. *)
Theorem start_loads_keyspace (net : Request → Answer) (c c' : etcdClient) (pre rest : list string)
    (url : string) (ks : keyspace) (rev : Z) (log log' : list Request) (s : Memory) :
  mem_wf s → 0 ≤ rev → in_int64 rev = true →
  login (H := traced net) c log = (Ok (), c', log') →
  endpoints c' = pre ++ url :: rest →
  no_reauth net rangePath (range_body prefix) c' (endpoints c') →
  Forall (λ r, ok_body (net r) = None) (requests rangePath (range_body prefix) c' pre) →
  serves net url (token c') ks rev →
  one_spelling (λ k, is_Some (with_prefix prefix ks !! k)) →
  ∃ s' m, Start (H := traced net) c log s
          = (Ok rev, c', log' ++ requests rangePath (range_body prefix) c' (pre ++ [url]), s')
    ∧ current s' = Some m ∧ Revision m = rev ∧ denotes (with_prefix prefix ks) m.
Proof.
  intros Hw H0 Hr Hlogin E Hno Hpre Hs Hone.
  destruct (rangePrefix_reads net c' pre url rest ks rev prefix log' H0 Hr E Hno Hpre Hs)
    as (kvs & Hk & Hrange).
  destruct (loadAll_spec rev kvs s Hw) as (_ & Hptr & Hheap).
  exists (loadAll rev kvs s), (load_kvs rev kvs). split_and!.
  - unfold Start. by rewrite Hlogin, Hrange.
  - unfold current. rewrite Hptr. exact Hheap.
  - apply load_kvs_revision.
  - by apply load_denotes.
Qed.

(** ** The messages of a watch *)

(** An event; the type of a [PUT] is left out. *)
Definition event_json (ev : watchEvent) (v : json) : Prop :=
  ∃ ms x, v = JObj ms
    ∧ carries ["type"; "kv"] ms
        ((if decide (EType ev = "PUT") then [] else [("type", JStr (EType ev))]) ++ [("kv", x)])
    ∧ kv_json (mkKV (EKey ev) (EValue ev)) x.

Definition msg_fields : list string := ["header"; "created"; "canceled"; "cancel_reason"; "events"].

Definition message_json (rev : Z) (fields : list (string * json)) (v : json) : Prop :=
  ∃ top ms hdr, v = JObj top
    ∧ carries ["result"] top [("result", JObj ms)]
    ∧ carries msg_fields ms (("header", JObj hdr) :: fields)
    ∧ carries ["revision"] hdr [("revision", JStr (format_int rev))].

(** A message of the stream: the acknowledgement of the creation ([None]) or a
    batch; every event of a batch carries the revision of its header. *)
Definition watch_json (msg : option watchBatch) (v : json) : Prop :=
  match msg with
  | None => ∃ rev, message_json rev [("created", JBool true)] v
  | Some b =>
      0 ≤ BRevision b ∧ in_int64 (BRevision b) = true
      ∧ Forall (λ ev, ERevision ev = BRevision b ∧ EType ev ≠ "") (Events b)
      ∧ ∃ evs, Forall2 event_json (Events b) evs
        ∧ message_json (BRevision b)
            ((if Canceled b then [("canceled", JBool true)] else [])
             ++ optional "cancel_reason" (CancelReason b)
             ++ match evs with [] => [] | _ => [("events", JArr evs)] end) v
  end.

(** A stream of messages, up to its end or to a text that is no message. *)
Inductive stream : list json → string → Prop :=
| stream_end s : parse_first s = None → stream [] s
| stream_message v vs s rest : parse_first s = Some (v, rest) → stream vs rest → stream (v :: vs) s.

(** What reaches the watch loop: nothing of an acknowledgement, and nothing
    after a cancellation. *)
Fixpoint delivered (msgs : list (option watchBatch)) : list watchBatch :=
  match msgs with
  | [] => []
  | None :: msgs => delivered msgs
  | Some b :: msgs => b :: (if Canceled b then [] else delivered msgs)
  end.

Lemma set_msg_header hdr rev :
  carries ["revision"] hdr [("revision", JStr rev)] →
  set_msg empty_msg "header" (JObj hdr) = Some (mkMsg rev false false "" []).
Proof.
  intros Hhdr. unfold set_msg, empty_msg, decode_header. rewrite decide_True by done.
  by rewrite (decode_carries _ _ _ _ _ Hhdr).
Qed.

Lemma decode_message rev fields v :
  message_json rev fields v →
  decode_msg v = decode_members msg_fields set_msg (mkMsg (format_int rev) false false "" []) fields.
Proof.
  intros (top & ms & hdr & -> & Htop & Hms & Hhdr). unfold decode_msg.
  rewrite (decode_carries _ _ _ _ _ Htop). cbn [decode_members].
  change (match_field ["result"] "result") with (Some "result"). cbn [mbind option_bind].
  change ["header"; "created"; "canceled"; "cancel_reason"; "events"] with msg_fields.
  rewrite (decode_carries _ _ _ _ _ Hms). cbn [decode_members].
  change (match_field msg_fields "header") with (Some "header"). cbn [mbind option_bind].
  rewrite (set_msg_header _ _ Hhdr). cbn [mbind option_bind].
  by destruct (decode_members _ _ _ _).
Qed.

Definition raw_event (ev : watchEvent) : string * kv :=
  (if decide (EType ev = "PUT") then "" else EType ev, raw_kv (mkKV (EKey ev) (EValue ev))).

Lemma decode_event_json ev v : event_json ev v → decode_event empty_event v = Some (raw_event ev).
Proof.
  intros (ms & x & -> & Hms & Hx%decode_kv_json). unfold decode_event.
  rewrite (decode_carries _ _ _ _ _ Hms). unfold raw_event.
  assert (∀ t, set_event (t, mkRawKv "" "") "kv" x
               = Some (t, raw_kv (mkKV (EKey ev) (EValue ev)))) as Hkv.
  { intros t. unfold set_event. rewrite decide_False by done. cbn [snd fst]. by rewrite Hx. }
  assert (set_event empty_event "type" (JStr (EType ev)) = Some (EType ev, mkRawKv "" ""))
    as Hty by done.
  case_decide; cbn [app decode_members];
    change (match_field ["type"; "kv"] "kv") with (Some "kv");
    change (match_field ["type"; "kv"] "type") with (Some "type"); cbn [mbind option_bind].
  - unfold empty_event. by rewrite Hkv.
  - rewrite Hty. cbn [mbind option_bind]. by rewrite Hkv.
Qed.

Lemma msg_event_raw rev ev :
  ERevision ev = rev → EType ev ≠ "" → msg_event rev (raw_event ev) = ev.
Proof.
  destruct ev as [ty k v r]. cbn. intros -> Hty. unfold msg_event, raw_event, raw_kv.
  cbn [fst snd RawKey RawValue EKey EValue EType Key Value].
  rewrite !decode64_encode64. cbn [fst]. f_equal. repeat case_decide; congruence.
Qed.

Lemma msg_events_raw rev evs :
  Forall (λ ev, ERevision ev = rev ∧ EType ev ≠ "") evs →
  map (msg_event rev) (map raw_event evs) = evs.
Proof.
  induction 1 as [|ev evs [Hr Ht] _ IH]; [done|]. cbn [map]. rewrite IH. f_equal.
  by apply msg_event_raw.
Qed.

Lemma decode_watch_json msg v :
  watch_json msg v →
  ∃ m, decode_msg v = Some m
    ∧ match msg with
      | None => MCreated m = true
      | Some b => MCreated m = false ∧ msg_batch m = b
      end.
Proof.
  destruct msg as [[rev events ca re]|].
  - intros (H0 & Hr & Hevs & evs & Hj & Hm). cbn in *. apply decode_message in Hm. rewrite Hm.
    exists (mkMsg (format_int rev) false ca re (map raw_event events)). split; cycle 1.
    { split; [done|]. unfold msg_batch. cbn [MRevision MEvents MCanceled MReason].
      rewrite scan_revision_format by done. by rewrite msg_events_raw. }
    assert (∀ c r, decode_members msg_fields set_msg (mkMsg (format_int rev) false c r [])
              match evs with [] => [] | _ => [("events", JArr evs)] end
              = Some (mkMsg (format_int rev) false c r (map raw_event events))) as Hlast.
    { intros c r. destruct evs as [|e evs']; [by apply Forall2_nil_inv_r in Hj as ->|].
      cbn [decode_members].
      change (match_field msg_fields "events") with (Some "events"). cbn [mbind option_bind].
      unfold set_msg. do 4 rewrite decide_False by done. cbn [decode_slice].
      by rewrite (decode_elems_map decode_event _ raw_event event_json events)
        by (done || apply decode_event_json). }
    destruct ca, re as [|c re]; cbn -[match_field]; try apply Hlast.
    all: cbn; apply Hlast.
  - intros [rev Hm]. apply decode_message in Hm. rewrite Hm. by eexists.
Qed.

Lemma watch_batches_stream vs s msgs fuel :
  stream vs s → Forall2 watch_json msgs vs → (String.length s < fuel)%nat →
  watch_batches_go fuel s = delivered msgs.
Proof.
  intros Hs. revert msgs fuel. induction Hs as [s Hp|v vs s rest Hp Hs IH]; intros msgs fuel Hj Hf.
  - apply Forall2_nil_inv_r in Hj as ->. destruct fuel; [lia|]. cbn [watch_batches_go]. by rewrite Hp.
  - apply Forall2_cons_inv_r in Hj as (msg & msgs' & Hmsg & Hj & ->).
    destruct fuel as [|fuel]; [lia|]. cbn [watch_batches_go]. rewrite Hp.
    pose proof (parse_first_len _ _ _ Hp) as Hlen.
    destruct (decode_watch_json _ _ Hmsg) as (m & -> & Hm).
    rewrite (IH msgs') by (done || lia).
    destruct msg as [b|]; [destruct Hm as [-> ->]|rewrite Hm]; done.
Qed.

(** What the server reads of a Watch request: the interval of keys and the
    revision to start from. *)
Definition watch_request (body : string) : option (string * string * Z) :=
  v ← parse body;
  cr ← match v with JObj [(k, x)] => if decide (k = "create_request") then Some x else None
       | _ => None end;
  key ← base64_member "key" cr; range_end ← base64_member "range_end" cr;
  start ← string_member "start_revision" cr;
  match atoi start with Ok rev => Some (key, range_end, rev) | Err _ => None end.

Lemma digits_plain s : str_forall is_digit s = true → plain_string s = true.
Proof.
  apply str_forall_impl. intros c H. unfold is_digit in H. zb. unfold plain. cbn [existsb].
  repeat match goal with |- context [?a =? ?b] => rewrite (proj2 (Z.eqb_neq a b)) by lia end.
  rewrite (proj2 (Z.leb_le _ _)), (proj2 (Z.ltb_lt _ _)) by lia. done.
Qed.

Lemma format_int_plain n : plain_string (format_int n) = true.
Proof.
  pose proof (λ m, digits_plain _ (eq_trans (eq_sym (all_digits_forall _)) (format_uint_digits m)))
    as Hd.
  unfold format_int. destruct (n <? 0); [|apply Hd].
  unfold plain_string in *. cbn [str_forall]. rewrite Hd. by vm_compute.
Qed.

Lemma watch_request_body p rev :
  in_int64 rev = true → watch_request (watch_body p rev) = Some (p, getPrefixRangeEnd p, rev).
Proof.
  intros Hr. unfold watch_request, watch_body.
  rewrite parse_encode by
    (unfold range_members; cbn -[format_int]; by rewrite !encode64_plain, format_int_plain).
  cbn [mbind option_bind]. rewrite decide_True by done. cbn [mbind option_bind].
  rewrite (base64_member_encode "key" p) by done. cbn [mbind option_bind].
  rewrite (base64_member_encode "range_end" (getPrefixRangeEnd p)) by done.
  cbn [mbind option_bind].
  change (string_member "start_revision" _) with (Some (format_int rev)).
  cbn [mbind option_bind]. by rewrite atoi_format_int.
Qed.

(** The server answers a Watch request of this client with the messages [msgs]. *)
Definition watches (net : Request → Answer) (url tok p : string) (rev : Z)
    (msgs : list (option watchBatch)) : Prop :=
  ∀ body, watch_request body = Some (p, getPrefixRangeEnd p, rev) →
    ∃ text vs, net (mkRequest (url +:+ watchPath) tok body) = Reply StatusOK text
      ∧ stream vs text ∧ Forall2 watch_json msgs vs.

(** C26: the watch delivers what etcd sends. The request asks the first endpoint
    for the keys with the prefix from the given revision on; of the messages of
    the answer the loop receives every batch, with its keys and values decoded
    and the types of its events restored, up to and including the first one
    that cancels the watch, and nothing else. *)
Theorem watch_delivers (net : Request → Answer) (c : etcdClient) (url p : string)
    (rest : list string) (rev : Z) (msgs : list (option watchBatch)) (log : list Request) :
  in_int64 rev = true → endpoints c = url :: rest →
  watches net url (token c) p rev msgs →
  watchPrefix (H := traced net) p rev c log
  = (Ok (delivered msgs), c, log ++ [mkRequest (url +:+ watchPath) (token c) (watch_body p rev)]).
Proof.
  intros Hr E Hw. destruct (Hw _ (watch_request_body p rev Hr)) as (text & vs & Hn & Hs & Hj).
  unfold watchPrefix, pickEndpoint. rewrite E. cbn [post traced]. rewrite Hn, Z.eqb_refl.
  unfold watch_batches. by rewrite (watch_batches_stream vs text msgs) by (done || lia).
Qed.

Definition ex_events : list json :=
  [JObj [("kv", JObj [("key", JStr "L3NoYXJkaW5nL3NoYXJkcy9zMQ=="); ("mod_revision", JStr "8"); ("value", JStr "e30=")])];
   JObj [("type", JStr "DELETE"); ("kv", JObj [("key", JStr "L3NoYXJkaW5nL2J1Y2tldHMvNw==")])]].

Definition ex_stream : string :=
  js "{'result':{'header':{'cluster_id':'1','revision':'7'},'watch_id':'0','created':true}} "
  +:+ js "{'result':{'header':{'revision':'8'},'events':" +:+ encode (JArr ex_events) +:+ "}} "
  +:+ js "{'result':{'header':{'revision':'9'},'canceled':true,'cancel_reason':'compacted'}} "
  +:+ js "{'result':{'header':{'revision':'9'}}} ".

Definition ex_msgs : list (option watchBatch) :=
  [None;
   Some (mkBatch 8 [mkEvent "PUT" "/sharding/shards/s1" "{}" 8;
                    mkEvent "DELETE" "/sharding/buckets/7" "" 8] false "");
   Some (mkBatch 9 [] true "compacted");
   Some (mkBatch 9 [] false "")].

Definition ex_watch_net (r : Request) : Answer :=
  if decide (Url r = "http://b/v3/watch") then Reply 200 ex_stream else Failed "no such endpoint".

Ltac by_computing := vm_compute; reflexivity.

Lemma watch_delivers_witness :
  watchPrefix (H := traced ex_watch_net) "/sharding/" 8 (newEtcdClient ["http://b"] "" "") []
  = (Ok (delivered ex_msgs), newEtcdClient ["http://b"] "" "",
     [mkRequest "http://b/v3/watch" "" (watch_body "/sharding/" 8)])
  ∧ length (delivered ex_msgs) = 2%nat.
Proof.
  split; [|done].
  apply (watch_delivers ex_watch_net (newEtcdClient ["http://b"] "" "") "http://b" "/sharding/" []
           8 ex_msgs []); [done|done|].
  intros body _. eexists ex_stream, _. split_and!; [done| |].
  - do 4 (eapply stream_message; [by_computing|]). apply stream_end. by vm_compute.
  - constructor; [by eexists 7, _, _, _; split_and!; [reflexivity|by_computing..]|].
    constructor.
    { split_and!; [done|done|by repeat constructor|].
      exists ex_events. split.
      - repeat constructor; (eexists _, _; split_and!; [reflexivity|by_computing|]);
          (eexists; split; [reflexivity|by_computing]).
      - eexists _, _, _. split_and!; [reflexivity|by_computing..]. }
    constructor; [|constructor; [|constructor]].
    all: (split_and!; [done|done|by repeat constructor|]); exists [];
      (split; [constructor|]); eexists _, _, _; split_and!; [reflexivity|by_computing..].
Defined.

(** ** A server for the examples *)

Definition print_kv (e : decodedKV) : json :=
  JObj (optional "key" (encode64 (Key e)) ++ ("create_revision", JStr "3")
        :: optional "value" (encode64 (Value e))).

Definition print_range (rev : Z) (kvs : list decodedKV) : json :=
  JObj (("header", JObj [("cluster_id", JStr "1"); ("revision", JStr (format_int rev))])
        :: match kvs with
           | [] => []
           | _ => [("kvs", JArr (map print_kv kvs)); ("count", JStr (format_int (Z.of_nat (length kvs))))]
           end).

(** The pairs of a key-space in an interval of keys. *)
Definition ks_range (ks : keyspace) (key range_end : string) : list decodedKV :=
  map (λ kv, mkKV kv.1 kv.2) (map_to_list (filter (λ kv, in_range key range_end kv.1 = true) ks)).

Definition etcd_net (url : string) (ks : keyspace) (rev : Z) (r : Request) : Answer :=
  if decide (Url r = url +:+ rangePath) then
    match range_request (Body r) with
    | Some (key, range_end) => Reply 200 (encode (print_range rev (ks_range ks key range_end)))
    | None => Reply 400 ""
    end
  else Failed "connection refused".

Lemma print_kv_json e : kv_json e (print_kv e).
Proof.
  eexists. split; [done|]. unfold carries.
  by destruct (encode64 (Key e)), (encode64 (Value e)).
Qed.

Lemma print_range_json rev kvs : range_json rev kvs (print_range rev kvs).
Proof.
  eexists _, [("cluster_id", JStr "1"); ("revision", JStr (format_int rev))],
    (map print_kv kvs), _.
  split_and!; [done|done| |].
  - apply Forall2_fmap_r, Forall_Forall2_diag, Forall_true, print_kv_json.
  - by destruct kvs.
Qed.

Lemma optional_printable d name s :
  plain_string name = true → plain_string s = true →
  forallb (λ '(k, v), plain_string k && printable d v) (optional name s) = true.
Proof. intros Hn Hs. destruct s; [done|]. cbn -[plain_string]. by rewrite Hn, Hs. Qed.

Lemma print_range_printable rev kvs : printable max_depth (print_range rev kvs) = true.
Proof.
  change max_depth with (S (S (S (pred (pred (pred max_depth)))))).
  generalize (pred (pred (pred max_depth))) as d. intros d.
  unfold print_range. cbn -[format_int plain_string].
  rewrite format_int_plain. change (plain_string "header" && _) with true. cbn [andb].
  assert (∀ l, forallb (printable (S d)) (map print_kv l) = true) as Hl.
  { induction l as [|e l IH]; [done|]. cbn [map forallb]. rewrite IH, andb_true_r.
    unfold print_kv. cbn -[plain_string optional]. rewrite forallb_app.
    cbn -[plain_string optional].
    by rewrite !optional_printable by (done || apply encode64_plain). }
  destruct kvs as [|e kvs]; [done|]. cbn -[format_int plain_string print_kv map].
  rewrite format_int_plain.
  change (forallb _ (map print_kv (e :: kvs))) with (forallb (printable (S d)) (map print_kv (e :: kvs))).
  by rewrite Hl.
Qed.

Lemma etcd_net_serves url tok ks rev : serves (etcd_net url ks rev) url tok ks rev.
Proof.
  intros body key range_end Hb. eexists _, _, _. split_and!.
  - unfold etcd_net. cbn [Url Body]. by rewrite decide_True, Hb by done.
  - apply parse_encode, print_range_printable.
  - apply print_range_json.
  - unfold range_of, ks_range. rewrite map_map.
    erewrite map_ext; [by rewrite map_id|]. by intros [].
Qed.

Definition ex_keyspace : keyspace :=
  {[ "/sharding/shards/s1" := ex_value "s1"; "/sharding/version" := "3"; "/other" := "x" ]}.

Lemma start_loads_keyspace_witness :
  let c := newEtcdClient ["http://a"; "http://b"] "" "" in
  ∃ s' m, Start (H := traced (etcd_net "http://b" ex_keyspace 7)) c [] NewStore
          = (Ok 7, c, requests rangePath (range_body prefix) c ["http://a"; "http://b"], s')
    ∧ current s' = Some m ∧ Revision m = 7 ∧ denotes (with_prefix prefix ex_keyspace) m.
Proof.
  intros c. apply (start_loads_keyspace (etcd_net "http://b" ex_keyspace 7) c c ["http://a"] []
    "http://b" ex_keyspace 7 [] [] NewStore).
  - apply NewStore_wf.
  - done.
  - done.
  - done.
  - done.
  - by left.
  - by repeat constructor.
  - apply etcd_net_serves.
  - intros k1 k2 id [v1 [H1 _]%map_lookup_filter_Some] [v2 [H2 _]%map_lookup_filter_Some] E1 E2.
    assert (∀ k v, ex_keyspace !! k = Some v → bucketIDFromKey k = None) as Hnone.
    { intros k v Hk. unfold ex_keyspace in Hk.
      rewrite !lookup_insert_Some, lookup_singleton_Some in Hk. naive_solver. }
    by rewrite (Hnone _ _ H1) in E1.
Defined.
