(* ===== verification/StreamSync.v ===== *)
(** * The watch stream: two goroutines and the channel between them

    [watchPrefix] of [internal/registry/etcdhttp.go] starts a goroutine that
    decodes the body of the response and sends each batch on an unbuffered
    channel; [watchLoop] of [internal/registry/etcd.go] ranges over this channel
    and leaves it at a cancellation. [watch_batches] of [EtcdHttp] is the list
    of the batches of a body; this file says that the channel transmits this
    list, and that neither goroutine is left behind by the other.

    The bytes of a state are those the body will still yield, up to the end of
    the response or an error of the connection. Once the context is done the
    body may fail before them, and a [select] with two ready cases takes
    either. *)

From S2P Require Import Prelude GoInt GoString Json.
From S2P Require Import JsonFuel Etcd EtcdSync EtcdHttp EtcdWire.

(** ** One turn of the decoding loop *)

(** [None] when [Decode] fails; otherwise the batch, if the message is not an
    acknowledgement, and the bytes after the message. *)
Definition decode_next (s : string) : option (option watchBatch * string) :=
  match parse_first s with
  | None => None
  | Some (j, rest) =>
      match decode_msg j with
      | None => None
      | Some m => Some (if MCreated m then None else Some (msg_batch m), rest)
      end
  end.

Lemma decode_next_len s b rest :
  decode_next s = Some (b, rest) → (String.length rest < String.length s)%nat.
Proof.
  unfold decode_next. destruct (parse_first s) as [[j r]|] eqn:E; [|done].
  destruct (decode_msg j); [|done]. intros [= _ <-]. by eapply parse_first_len.
Qed.

Lemma watch_batches_fuel fuel fuel' s :
  (String.length s < fuel)%nat → (String.length s < fuel')%nat →
  watch_batches_go fuel s = watch_batches_go fuel' s.
Proof.
  revert fuel' s. induction fuel as [|fuel IH]; intros [|fuel'] s H H'; [lia..|].
  cbn [watch_batches_go]. destruct (parse_first s) as [[j rest]|] eqn:E; [|done].
  pose proof (parse_first_len _ _ _ E). destruct (decode_msg j) as [m|]; [|done].
  by rewrite (IH fuel') by lia.
Qed.

(** What a batch leaves to send: nothing if it cancels the watch. *)
Definition after_batch (b : watchBatch) (rest : string) : list watchBatch :=
  if Canceled b then [] else watch_batches rest.

Lemma watch_batches_next s :
  watch_batches s = match decode_next s with
                    | None => []
                    | Some (None, rest) => watch_batches rest
                    | Some (Some b, rest) => b :: after_batch b rest
                    end.
Proof.
  unfold watch_batches at 1, decode_next, after_batch, watch_batches. cbn [watch_batches_go].
  destruct (parse_first s) as [[j rest]|] eqn:E; [|done].
  pose proof (parse_first_len _ _ _ E). destruct (decode_msg j) as [m|]; [|done].
  rewrite (watch_batches_fuel (String.length s) (S (String.length rest))) by lia.
  by destruct (MCreated m).
Qed.

(** ** The two goroutines *)

(** The goroutine of [watchPrefix]. *)
Inductive decoder : Type :=
| Decoding (s : string)                       (* before [dec.Decode] *)
| Sending (b : watchBatch) (s : string)       (* in the [select] *)
| Returned.                                   (* the channel and the body are closed *)

(** The loop [for batch := range batches] of [watchLoop]. *)
Inductive ranger : Type :=
| Receiving
| Applying (b : watchBatch)
| Left.

(** [taken]: the batches the loop has received, the oldest first. *)
Record Pipe := mkPipe {
  sender : decoder;
  receiver : ranger;
  taken : list watchBatch;
  ctx_done : bool;
}.

(** When [watchPrefix] returns. *)
Definition opened_stream (s : string) : Pipe := mkPipe (Decoding s) Receiving [] false.

Inductive pipe_step (p : Pipe) : Pipe → Prop :=
| decode_fails s :
    sender p = Decoding s → decode_next s = None →
    pipe_step p (mkPipe Returned (receiver p) (taken p) (ctx_done p))
| decode_cut s :
    sender p = Decoding s → ctx_done p = true →
    pipe_step p (mkPipe Returned (receiver p) (taken p) (ctx_done p))
| decode_created s rest :
    sender p = Decoding s → decode_next s = Some (None, rest) →
    pipe_step p (mkPipe (Decoding rest) (receiver p) (taken p) (ctx_done p))
| decode_batch s b rest :
    sender p = Decoding s → decode_next s = Some (Some b, rest) →
    pipe_step p (mkPipe (Sending b rest) (receiver p) (taken p) (ctx_done p))
| channel_send b rest :
    sender p = Sending b rest → receiver p = Receiving →
    pipe_step p (mkPipe (if Canceled b then Returned else Decoding rest) (Applying b)
                   (taken p ++ [b]) (ctx_done p))
| select_done b rest :
    sender p = Sending b rest → ctx_done p = true →
    pipe_step p (mkPipe Returned (receiver p) (taken p) (ctx_done p))
| range_next b :
    receiver p = Applying b → Canceled b = false →
    pipe_step p (mkPipe (sender p) Receiving (taken p) (ctx_done p))
| range_break b :
    receiver p = Applying b → Canceled b = true →
    pipe_step p (mkPipe (sender p) Left (taken p) (ctx_done p))
| range_closed :
    receiver p = Receiving → sender p = Returned →
    pipe_step p (mkPipe Returned Left (taken p) (ctx_done p)).

(** [Close] of the registry. *)
Definition ctx_step (p p' : Pipe) : Prop :=
  ctx_done p = false ∧ p' = mkPipe (sender p) (receiver p) (taken p) true.

Definition pipe_any (p p' : Pipe) : Prop := pipe_step p p' ∨ ctx_step p p'.

(** ** The invariant *)

Definition to_come (d : decoder) : list watchBatch :=
  match d with
  | Decoding s => watch_batches s
  | Sending b rest => b :: after_batch b rest
  | Returned => []
  end.

(** What was taken and what is to come make the batches of the body, less a
    tail given up when the context is done; and the loop leaves the channel only
    when nobody sends any more. *)
Definition piped (s : string) (p : Pipe) : Prop :=
  (∃ lost, watch_batches s = taken p ++ to_come (sender p) ++ lost
     ∧ (ctx_done p = false → lost = []))
  ∧ match receiver p with
    | Receiving => True
    | Applying b => Canceled b = true → sender p = Returned
    | Left => sender p = Returned
    end.

Lemma piped_opened s : piped s (opened_stream s).
Proof. split; [|done]. exists []. by rewrite !app_nil_r. Qed.

(** The bytes that are left account for the batches that are left. *)
Lemma to_come_step p p' :
  pipe_any p p' →
  ∃ lost, taken p ++ to_come (sender p) = taken p' ++ to_come (sender p') ++ lost
    ∧ (ctx_done p' = false → ctx_done p = false ∧ lost = []).
Proof.
  intros [[s1 E Hn|s1 E Hc|s1 rest E Hn|s1 b rest E Hn|b rest E Er|b rest E Hc|b E Eb|b E Eb|E E']|[Hc ->]];
    cbn [sender taken ctx_done].
  2: exists (watch_batches s1). 6: exists (b :: after_batch b rest). 1, 3-5, 7-10: exists [].
  all: split; [|by intros Hd; split; congruence].
  all: rewrite ?E, ?E', ?app_nil_r; cbn [to_come].
  all: rewrite ?(watch_batches_next s1), ?Hn, ?app_nil_r; try done.
  rewrite <-app_assoc. unfold after_batch. by destruct (Canceled b).
Qed.

Lemma receiver_step p p' :
  match receiver p with
  | Receiving => True
  | Applying b => Canceled b = true → sender p = Returned
  | Left => sender p = Returned
  end → pipe_any p p' →
  match receiver p' with
  | Receiving => True
  | Applying b => Canceled b = true → sender p' = Returned
  | Left => sender p' = Returned
  end.
Proof.
  intros Hr [[s1 E Hn|s1 E Hc|s1 rest E Hn|s1 b rest E Hn|b rest E Er|b rest E Hc|b E Eb|b E Eb|E E']|[Hc ->]];
    cbn [sender receiver]; [..|done].
  5: by intros ->. 6: done. 6: by rewrite E in Hr; auto. 6: done.
  all: destruct (receiver p); try done; try congruence.
  all: intros Hb; specialize (Hr Hb); congruence.
Qed.

Lemma piped_step s p p' : piped s p → pipe_any p p' → piped s p'.
Proof.
  intros [(lost & Hs & Hl) Hr] Hp. split; [|by eapply receiver_step].
  destruct (to_come_step p p' Hp) as (lost' & E & Hl'). exists (lost' ++ lost). split.
  - rewrite Hs, app_assoc, E, <-!app_assoc. done.
  - intros Hc. destruct (Hl' Hc) as [H ->]. by rewrite Hl.
Qed.

Lemma piped_reachable s p : rtc pipe_any (opened_stream s) p → piped s p.
Proof.
  pose proof (piped_opened s) as Hi. intros Hp. revert Hi.
  induction Hp as [p|p p1 p2 Hs _ IH]; [done|]. intros Hi. eapply IH, piped_step; done.
Qed.

(** ** Progress *)

(** The steps that are left. *)
Definition decoder_work (d : decoder) : nat :=
  match d with
  | Decoding s => 4 * String.length s + 1
  | Sending _ rest => 4 * String.length rest + 4
  | Returned => 0
  end.

Definition pipe_work (p : Pipe) : nat :=
  decoder_work (sender p)
  + match receiver p with Receiving => 1 | Applying _ => 2 | Left => 0 end
  + (if ctx_done p then 0 else 1).

Lemma pipe_decreases p p' : pipe_any p p' → (pipe_work p' < pipe_work p)%nat.
Proof.
  unfold pipe_work.
  intros [[s1 E Hn|s1 E Hc|s1 rest E Hn|s1 b rest E Hn|b rest E Er|b rest E Hc|b E Eb|b E Eb|E E']|[Hc ->]];
    cbn [sender receiver taken ctx_done]; rewrite ?E, ?E', ?Hc, ?Er; cbn [decoder_work]; try lia.
  - apply decode_next_len in Hn. lia.
  - apply decode_next_len in Hn. lia.
  - destruct (Canceled b); cbn [decoder_work]; lia.
Qed.

Lemma sender_not_stuck p :
  sender p ≠ Returned → receiver p = Receiving → red pipe_step p.
Proof.
  intros Hs Hr. destruct (sender p) as [s|b rest|] eqn:E; [| |done].
  - destruct (decode_next s) as [[[b|] rest]|] eqn:En; eexists.
    + by eapply decode_batch.
    + by eapply decode_created.
    + by eapply decode_fails.
  - eexists. by eapply channel_send.
Qed.

Lemma receiver_not_stuck p b : receiver p = Applying b → red pipe_step p.
Proof.
  intros Hr. destruct (Canceled b) eqn:E; eexists; [by eapply range_break|by eapply range_next].
Qed.

(** C13: The channel loses, repeats and reorders nothing, and no goroutine is
    left behind: whenever the context is cancelled, the decoding goroutine and
    the loop of the watch take at most four steps per byte of the body, and
    three more; the batches the loop has received are at all times the first ones
    of the body, in order; and when neither goroutine can move both are past the
    channel, and the loop has received every batch of the body unless the
    context is done. *)
Theorem stream_handed_over (s : string) :
  (∀ n p, nsteps pipe_any n (opened_stream s) p → (n ≤ 4 * String.length s + 3)%nat)
  ∧ ∀ p, rtc pipe_any (opened_stream s) p →
      taken p `prefix_of` watch_batches s
      ∧ (nf pipe_step p →
         sender p = Returned ∧ receiver p = Left
         ∧ (ctx_done p = false → taken p = watch_batches s)).
Proof.
  split.
  - intros n p Hn. assert (n ≤ pipe_work (opened_stream s))%nat as Hw.
    { induction Hn as [p|n p p1 p2 Hs _ IH]; [lia|]. apply pipe_decreases in Hs. lia. }
    unfold pipe_work in Hw. cbn in Hw. lia.
  - intros p Hp. destruct (piped_reachable s p Hp) as [(lost & Hs & Hl) Hr]. split.
    { rewrite Hs. by apply prefix_app_r. }
    intros Hnf. destruct (receiver p) as [|b|] eqn:Er.
    + destruct Hnf. destruct (sender p) as [|b rest|] eqn:E; cycle 2.
      { eexists. by apply range_closed. }
      all: by apply sender_not_stuck; rewrite ?E.
    + destruct Hnf. by eapply receiver_not_stuck.
    + split_and!; [done|done|]. intros Hc. rewrite Hs, Hr, (Hl Hc). cbn. by rewrite app_nil_r.
Qed.

(** ** One schedule: the loop moves whenever it can *)

Definition pipe_next (p : Pipe) : option Pipe :=
  match receiver p, sender p with
  | Applying b, d =>
      Some (mkPipe d (if Canceled b then Left else Receiving) (taken p) (ctx_done p))
  | Receiving, Returned => Some (mkPipe Returned Left (taken p) (ctx_done p))
  | Receiving, Sending b rest =>
      Some (mkPipe (if Canceled b then Returned else Decoding rest) (Applying b)
              (taken p ++ [b]) (ctx_done p))
  | Receiving, Decoding s =>
      let d := match decode_next s with
               | None => Returned
               | Some (None, rest) => Decoding rest
               | Some (Some b, rest) => Sending b rest
               end in
      Some (mkPipe d Receiving (taken p) (ctx_done p))
  | Left, _ => None
  end.

Lemma pipe_next_step p p' : pipe_next p = Some p' → pipe_step p p'.
Proof.
  unfold pipe_next. destruct (receiver p) as [|b|] eqn:Er; [| |done].
  - destruct (sender p) as [s|b rest|] eqn:E; intros [= <-].
    + destruct (decode_next s) as [[[b|] rest]|] eqn:En; rewrite <-Er.
      * by eapply decode_batch.
      * by eapply decode_created.
      * by eapply decode_fails.
    + by eapply channel_send.
    + by apply range_closed.
  - intros [= <-]. destruct (Canceled b) eqn:Eb; [by eapply range_break|by eapply range_next].
Qed.

Fixpoint pipe_run (fuel : nat) (p : Pipe) : Pipe :=
  match fuel, pipe_next p with
  | S fuel, Some p' => pipe_run fuel p'
  | _, _ => p
  end.

Lemma pipe_run_steps fuel p : rtc pipe_any p (pipe_run fuel p).
Proof.
  revert p. induction fuel as [|fuel IH]; intros p; [done|]. cbn [pipe_run].
  destruct (pipe_next p) as [p'|] eqn:E; [|done].
  eapply rtc_l; [left; by apply pipe_next_step|apply IH].
Qed.

Lemma left_returned_nf p : receiver p = Left → sender p = Returned → nf pipe_step p.
Proof. intros Hr Hs [p' [ ]]; congruence. Qed.

(** The stream of [EtcdWire]: an acknowledgement, a batch, a cancellation, and a
    message nobody reads. *)
Lemma stream_handed_over_witness :
  let p := pipe_run 100 (opened_stream ex_stream) in
  length (taken p) = 2%nat ∧ taken p = watch_batches ex_stream ∧ sender p = Returned.
Proof.
  intros p. assert (receiver p = Left ∧ sender p = Returned ∧ ctx_done p = false) as (Hr & Hs & Hc).
  { split_and!; vm_compute; reflexivity. }
  destruct (stream_handed_over ex_stream) as [_ H].
  destruct (H p (pipe_run_steps 100 _)) as [_ Hnf].
  destruct (Hnf (left_returned_nf p Hr Hs)) as (_ & _ & Ht).
  split_and!; [vm_compute; reflexivity|exact (Ht Hc)|exact Hs].
Defined.

(** The context done while a batch waits for the loop: the batch may be given up,
    and the loop still ends. *)
Example batch_given_up :
  ∃ p, rtc pipe_any (opened_stream ex_stream) p
    ∧ taken p = [] ∧ receiver p = Left ∧ sender p = Returned.
Proof.
  eexists. split.
  - etrans; [apply (pipe_run_steps 2)|].
    eapply rtc_l; [right; split; vm_compute; reflexivity|].
    eapply rtc_l; [left; eapply select_done; vm_compute; reflexivity|].
    apply rtc_once. left. apply range_closed; vm_compute; reflexivity.
  - by vm_compute.
Qed.
