(* ===== verification/FileRegistry.v ===== *)
(** * The file registry

    [internal/registry/file.go]: the shard map read once from a JSON file.
    Reading the file is a parameter ([None] when it fails). Go visits the
    buckets of the document in an unspecified order: the loop takes the order
    as an argument, and the theorems hold for every one of them. *)

From S2P Require Import Prelude GoInt GoString GoAny Json Model Cache Router Keys Etcd.

(** ** The document *)

Record fileDoc := mkFileDoc {
  DocShards : gmap string ShardDef;
  DocBuckets : gmap string BucketDef;
}.

Definition doc_fields : list string := ["shards"; "buckets"].

Definition set_doc (d : fileDoc) (name : string) (v : json) : option fileDoc :=
  if decide (name = "shards") then
    x ← decode_map (decode_shard zero_shard) (DocShards d) v; Some (mkFileDoc x (DocBuckets d))
  else
    x ← decode_map (decode_bucket zero_bucket) (DocBuckets d) v; Some (mkFileDoc (DocShards d) x).

Definition unmarshal_doc (data : string) : option fileDoc :=
  v ← parse data; decode_struct doc_fields set_doc (mkFileDoc ∅ ∅) v.

(** ** Loading it *)

Inductive FileError : Type :=
| ErrRead
| ErrDecodeFile
| ErrBucketKey (idStr : string).

(** [None] stands for a non-nil error. *)
Definition parseBucketID (s : string) : option Z := sscanf_d s.

(** The loop over the buckets, in the order [order]. *)
Fixpoint fill_buckets (order : list (string * BucketDef)) (m : gmap Z BucketDef)
    : result FileError (gmap Z BucketDef) :=
  match order with
  | [] => Ok m
  | (idStr, b) :: order =>
      match parseBucketID idStr with
      | None => Err (ErrBucketKey idStr)
      | Some id => fill_buckets order (<[id := with_bucket_id id b]> m)
      end
  end.

(** [Start], with the result of [os.ReadFile] and the order of the iteration. *)
Definition Start (file : option string) (iterate : gmap string BucketDef → list (string * BucketDef))
    (s : Memory) : result FileError unit * Memory :=
  match file with
  | None => (Err ErrRead, s)
  | Some data =>
      match unmarshal_doc data with
      | None => (Err ErrDecodeFile, s)
      | Some doc =>
          match fill_buckets (iterate (DocBuckets doc)) ∅ with
          | Err e => (Err e, s)
          | Ok buckets =>
              let '(l, s) := alloc (mkMapping 1 (DocShards doc) buckets) s in
              (Ok tt, Swap l s)
          end
      end
  end.

(** An order in which Go may visit the map. *)
Definition visits (iterate : gmap string BucketDef → list (string * BucketDef)) : Prop :=
  ∀ m, iterate m ≡ₚ map_to_list m.

(** ** The loop *)

Lemma fill_buckets_error order m :
  Exists (λ kv, parseBucketID kv.1 = None) order →
  ∃ k, fill_buckets order m = Err (ErrBucketKey k) ∧ k ∈ order.*1 ∧ parseBucketID k = None.
Proof.
  revert m. induction order as [|[k b] order IH]; intros m He; [by apply Exists_nil in He|].
  cbn [fill_buckets]. destruct (parseBucketID k) as [id|] eqn:E.
  - apply Exists_cons in He as [He|He]; [cbn [fst] in He; congruence|].
    destruct (IH (<[id:=with_bucket_id id b]> m) He) as (k' & -> & Hk & Hn).
    exists k'. split_and!; [done|cbn; set_solver|done].
  - exists k. split_and!; [done|cbn; set_solver|done].
Qed.

(** No two keys of the document name one bucket. *)
Definition distinct_buckets (keys : list string) : Prop :=
  ∀ k1 k2 id, k1 ∈ keys → k2 ∈ keys → parseBucketID k1 = Some id → parseBucketID k2 = Some id →
    k1 = k2.

Lemma fill_buckets_ok order m :
  NoDup order.*1 → distinct_buckets order.*1 → Forall (λ kv, is_Some (parseBucketID kv.1)) order →
  ∃ m', fill_buckets order m = Ok m'
    ∧ ∀ id b, m' !! id = Some b ↔
        (∃ k def, (k, def) ∈ order ∧ parseBucketID k = Some id ∧ b = with_bucket_id id def)
        ∨ ((∀ k, k ∈ order.*1 → parseBucketID k ≠ Some id) ∧ m !! id = Some b).
Proof.
  revert m. induction order as [|[k def] order IH]; intros m Hnd Hinj Hall.
  { exists m. split; [done|]. intros id b. cbn. split; [|set_solver].
    intros Hm. right. split; [|done]. intros k Hk. by apply elem_of_nil in Hk. }
  cbn in Hnd. apply NoDup_cons in Hnd as [Hk Hnd]. apply Forall_cons in Hall as [[id Hid] Hall].
  cbn [fst] in Hid. destruct (IH (<[id := with_bucket_id id def]> m)) as (m' & E & Hm'); [done| |done|].
  { intros k1 k2 id' H1 H2. apply Hinj; cbn; set_solver. }
  exists m'. cbn [fill_buckets]. rewrite Hid. split; [done|]. intros id' b. rewrite Hm'. split.
  - intros [(k' & def' & Hin & Hid' & ->)|[Hno Hl]]; [left; exists k', def'; split_and!; set_solver|].
    apply lookup_insert_Some in Hl as [[<- <-]|[Hne Hl]].
    + left. exists k, def. split_and!; [set_solver|done|done].
    + right. split; [|done]. intros k' Hk'. cbn in Hk'.
      apply elem_of_cons in Hk' as [->|Hk']; [congruence|by apply Hno].
  - intros [(k' & def' & Hin & Hid' & ->)|[Hno Hl]].
    + apply elem_of_cons in Hin as [[= -> ->]|Hin].
      * right. assert (id' = id) as -> by congruence. split; [|by rewrite lookup_insert_eq].
        intros k' Hk' Hc. apply Hk. rewrite (Hinj k k' id); [done|cbn; set_solver..|done|done].
      * left. by exists k', def'.
    + right. split; [intros k' Hk'; apply Hno; cbn; set_solver|].
      rewrite lookup_insert_ne; [done|]. intros <-. by apply (Hno k); [cbn; set_solver|].
Qed.

(** ** What [Start] leaves in the store *)

Lemma Start_ok file iterate s s' :
  mem_wf s → Start file iterate s = (Ok tt, s') →
  ∃ data doc buckets, file = Some data ∧ unmarshal_doc data = Some doc
    ∧ fill_buckets (iterate (DocBuckets doc)) ∅ = Ok buckets
    ∧ current s' = Some (mkMapping 1 (DocShards doc) buckets) ∧ mem_wf s'.
Proof.
  unfold Start. intros Hw H. destruct file as [data|]; [|done].
  destruct (unmarshal_doc data) as [doc|] eqn:Ed; [|done].
  destruct (fill_buckets _ _) as [buckets|] eqn:Eb; [|done].
  exists data, doc, buckets. split_and!; [done..| |].
  - cbn in H. injection H as <-. unfold current. cbn. by rewrite lookup_insert_eq.
  - injection H as <-. apply Swap_wf; [by apply alloc_wf|]. cbn. rewrite lookup_insert_eq. by eexists.
Qed.

Lemma Start_error file iterate s s' e : Start file iterate s = (Err e, s') → s' = s.
Proof. unfold Start. intros H. by repeat (case_match; simplify_eq/=). Qed.

(** The mapping of a document. *)
Record doc_mapping (doc : fileDoc) (m : Mapping) : Prop := {
  doc_revision : Revision m = 1;
  doc_shards : Shards m = DocShards doc;
  doc_buckets : ∀ id b, Buckets m !! id = Some b ↔
    ∃ k def, DocBuckets doc !! k = Some def ∧ parseBucketID k = Some id ∧ b = with_bucket_id id def;
}.

Lemma visits_keys iterate m k :
  visits iterate → k ∈ (iterate m).*1 ↔ is_Some (m !! k).
Proof.
  intros Hv. rewrite (Hv m), list_elem_of_fmap. split.
  - intros ([k' b] & -> & H%elem_of_map_to_list). by eexists.
  - intros [b H]. exists (k, b). split; [done|by apply elem_of_map_to_list].
Qed.

Lemma fill_buckets_doc doc iterate :
  visits iterate → distinct_buckets (iterate (DocBuckets doc)).*1 →
  (∀ k, is_Some (DocBuckets doc !! k) → is_Some (parseBucketID k)) →
  ∃ buckets, fill_buckets (iterate (DocBuckets doc)) ∅ = Ok buckets
    ∧ doc_mapping doc (mkMapping 1 (DocShards doc) buckets).
Proof.
  intros Hv Hd Hp.
  destruct (fill_buckets_ok (iterate (DocBuckets doc)) ∅) as (buckets & E & Hb).
  - rewrite (Hv _). apply NoDup_fst_map_to_list.
  - done.
  - apply Forall_forall. intros [k b] Hin. apply Hp. apply (visits_keys iterate); [done|].
    apply list_elem_of_fmap. by exists (k, b).
  - exists buckets. split; [done|]. split; [done|done|]. intros id b. cbn [Buckets]. rewrite Hb.
    split.
    + intros [(k & def & Hin & Hid & ->)|[_ H]]; [|by rewrite lookup_empty in H].
      exists k, def. split_and!; [|done|done]. by rewrite (Hv _), elem_of_map_to_list in Hin.
    + intros (k & def & Hin & Hid & ->). left. exists k, def. split_and!; [|done|done].
      by rewrite (Hv _), elem_of_map_to_list.
Qed.

(** ** Properties *)

(** The file registry loads the document: in whatever order Go visits the
    buckets, a file that decodes, whose bucket keys are read as numbers, no two
    as the same one, is published at revision 1 as exactly its shards and its
    buckets. *)
Lemma file_start_loads (data : string) (doc : fileDoc)
    (iterate : gmap string BucketDef → list (string * BucketDef)) (s : Memory) :
  mem_wf s → visits iterate → unmarshal_doc data = Some doc →
  distinct_buckets (iterate (DocBuckets doc)).*1 →
  (∀ k, is_Some (DocBuckets doc !! k) → is_Some (parseBucketID k)) →
  ∃ s' m, Start (Some data) iterate s = (Ok tt, s') ∧ current s' = Some m ∧ doc_mapping doc m.
Proof.
  intros Hw Hv Hu Hd Hp. destruct (fill_buckets_doc doc iterate Hv Hd Hp) as (buckets & E & Hm).
  destruct (Start (Some data) iterate s) as [r s'] eqn:HS.
  assert (r = Ok tt) as -> by (unfold Start in HS; rewrite Hu, E in HS; cbn in HS; congruence).
  destruct (Start_ok _ _ _ _ Hw HS) as (data' & doc' & buckets' & [= <-] & Hu' & E' & Hc & _).
  assert (doc' = doc) as -> by congruence. assert (buckets' = buckets) as -> by congruence.
  by exists s', (mkMapping 1 (DocShards doc) buckets).
Qed.

(** A document of one shard and one bucket, its text, and the key-space of the
    same records. *)
Definition small_shard : ShardDef :=
  mkShardDef "a" "ACTIVE" zero_endpoint None "" "".
Definition small_doc (key : string) : fileDoc :=
  mkFileDoc {[ "a" := small_shard ]} {[ key := mkBucketDef 0 "a" "" "" 0 ]}.
Definition small_file (key : string) : string :=
  js ("{'shards':{'a':{'shard_id':'a','status':'ACTIVE'}},'buckets':{'"
      +:+ key +:+ "':{'shard_id':'a'}}}").
Definition small_keyspace (key : string) : keyspace :=
  {[ shardsPrefix +:+ "a" := js "{'shard_id':'a','status':'ACTIVE'}";
     bucketsPrefix +:+ key := js "{'shard_id':'a'}" ]}.

Lemma visits_map_to_list : visits map_to_list.
Proof. by intros m. Qed.

Lemma file_start_loads_witness :
  ∃ s' m, Start (Some (small_file "7")) map_to_list NewStore = (Ok tt, s')
    ∧ current s' = Some m ∧ doc_mapping (small_doc "7") m.
Proof.
  apply (file_start_loads (small_file "7") (small_doc "7") map_to_list NewStore).
  - apply NewStore_wf.
  - apply visits_map_to_list.
  - by vm_compute.
  - intros k1 k2 id H1 H2. vm_compute in H1, H2. set_solver.
  - intros k [b Hk]. unfold small_doc in Hk. cbn [DocBuckets] in Hk.
    apply lookup_singleton_Some in Hk as [<- _]. by exists 7.
Defined.

(** A bucket key that is no number stops the start: in whatever order, the
    error names such a key, and the store is left as it was. *)
Lemma file_start_rejects (data : string) (doc : fileDoc) (k : string)
    (iterate : gmap string BucketDef → list (string * BucketDef)) (s : Memory) :
  visits iterate → unmarshal_doc data = Some doc →
  is_Some (DocBuckets doc !! k) → parseBucketID k = None →
  ∃ k', Start (Some data) iterate s = (Err (ErrBucketKey k'), s)
    ∧ is_Some (DocBuckets doc !! k') ∧ parseBucketID k' = None.
Proof.
  intros Hv Hu Hk%(visits_keys iterate) Hn; [|done].
  destruct (fill_buckets_error (iterate (DocBuckets doc)) ∅) as (k' & E & Hk' & Hn').
  { apply list_elem_of_fmap in Hk as ([k0 b] & -> & Hin). apply Exists_exists. by exists (k0, b). }
  exists k'. split_and!; [|by apply (visits_keys iterate)|done].
  unfold Start. by rewrite Hu, E.
Qed.

Lemma file_start_rejects_witness :
  ∃ k', Start (Some (small_file "seven")) map_to_list NewStore = (Err (ErrBucketKey k'), NewStore)
    ∧ is_Some (DocBuckets (small_doc "seven") !! k') ∧ parseBucketID k' = None.
Proof.
  apply (file_start_rejects (small_file "seven") (small_doc "seven") "seven").
  - apply visits_map_to_list.
  - by vm_compute.
  - by eexists.
  - by vm_compute.
Defined.

(** The records of a document are those etcd holds, one key per record. *)
Record same_records (doc : fileDoc) (ks : keyspace) : Prop := {
  same_shards : ∀ id, (v ← ks !! (shardsPrefix +:+ id); unmarshal_shard v) = DocShards doc !! id;
  same_named : ∀ id d, DocShards doc !! id = Some d → ShardID d ≠ "";
  same_buckets : ∀ k, (v ← ks !! (bucketsPrefix +:+ k); unmarshal_bucket v) = DocBuckets doc !! k;
  same_keys : ∀ k, is_Some (DocBuckets doc !! k) → is_ok (atoi k) = true;
}.

Lemma same_records_bucket doc ks id b :
  same_records doc ks →
  bucket_record ks id b ↔
    ∃ k def, DocBuckets doc !! k = Some def ∧ parseBucketID k = Some id ∧ b = with_bucket_id id def.
Proof.
  intros [_ _ Hb Hk]. unfold bucket_record, parseBucketID. split.
  - intros (key & v & def & Hv & (k & -> & Ha)%bucketIDFromKey_some & Hu & ->).
    exists k, def. rewrite <-Hb, Hv. split_and!; [done|by apply sscanf_d_atoi|done].
  - intros (k & def & Hd & Hid & ->).
    specialize (Hk k ltac:(by eexists)). destruct (atoi k) as [id'|] eqn:Ha; [|done].
    assert (id' = id) as -> by (apply sscanf_d_atoi in Ha; congruence).
    rewrite <-Hb in Hd. apply bind_Some in Hd as (v & Hv & Hu).
    exists (bucketsPrefix +:+ k), v, def. split_and!; [done|by rewrite bucketIDFromKey_prefix, Ha|done|done].
Qed.

(** C31: both registries route alike. Suppose that a file and the key-space of
    etcd hold the same records under the same keys, that every shard record carries a
    shard identifier of its own, that every bucket key is a decimal number and that
    no two keys of etcd are spellings of one bucket. Then the mapping the file registry
    publishes answers every request as a mapping that denotes the key-space does. *)
Theorem file_matches_etcd (data : string) (doc : fileDoc) (ks : keyspace)
    (iterate : gmap string BucketDef → list (string * BucketDef)) (s s' : Memory) (m : Mapping)
    (r : Router) (k : go_any) :
  mem_wf s → visits iterate → unmarshal_doc data = Some doc →
  same_records doc ks → one_spelling (λ k, is_Some (ks !! k)) → denotes ks m →
  Start (Some data) iterate s = (Ok tt, s') →
  Resolve r (current s') k = Resolve r (Some m) k.
Proof.
  intros Hw Hv Hu Hsame Hone [Hs Hb] HS.
  destruct (Start_ok _ _ _ _ Hw HS) as (data' & doc' & buckets & [= <-] & Hu' & E & -> & _).
  assert (doc' = doc) as -> by congruence.
  assert (distinct_buckets (iterate (DocBuckets doc)).*1) as Hd.
  { intros k1 k2 id [b1 H1]%(visits_keys iterate) [b2 H2]%(visits_keys iterate) E1 E2; [|done..].
    destruct Hsame as [_ _ Hsb Hsk].
    assert (∀ k b, DocBuckets doc !! k = Some b → parseBucketID k = Some id →
              is_Some (ks !! (bucketsPrefix +:+ k)) ∧ bucketIDFromKey (bucketsPrefix +:+ k) = Some id)
      as Hkey.
    { intros k0 b Hk0 Hid. specialize (Hsk k0 ltac:(by eexists)).
      rewrite <-Hsb in Hk0. apply bind_Some in Hk0 as (v & Hv0 & _).
      split; [by eexists|]. rewrite bucketIDFromKey_prefix. unfold parseBucketID in Hid.
      destruct (atoi k0) as [id'|] eqn:Ha; [|done]. apply sscanf_d_atoi in Ha. congruence. }
    destruct (Hkey _ _ H1 E1), (Hkey _ _ H2 E2).
    apply (string_app_inj_l bucketsPrefix). by apply (Hone _ _ id). }
  assert (∀ k, is_Some (DocBuckets doc !! k) → is_Some (parseBucketID k)) as Hp.
  { intros k0 Hk0%(same_keys _ _ Hsame). destruct (atoi k0) as [id|] eqn:Ha; [|done].
    apply sscanf_d_atoi in Ha. by eexists. }
  destruct (fill_buckets_doc doc iterate Hv Hd Hp) as (buckets' & E' & [_ Hms Hmb]).
  assert (buckets' = buckets) as -> by congruence.
  apply Resolve_proper; [|done]. constructor. split; apply map_eq; intros id.
  - cbn. rewrite Hs. unfold shard_record. rewrite <-(same_shards _ _ Hsame).
    destruct (ks !! (shardsPrefix +:+ id)) as [v|] eqn:Ek; [|done].
    cbn [mbind option_bind]. destruct (unmarshal_shard v) as [d|] eqn:Eu; [|done].
    cbn [mbind option_bind]. unfold default_shard_id.
    rewrite decide_False; [done|]. apply (same_named _ _ Hsame id).
    rewrite <-(same_shards _ _ Hsame), Ek. exact Eu.
  - apply option_eq. intros b. rewrite Hmb, Hb. symmetry. by apply same_records_bucket.
Qed.

Lemma small_keyspace_records : same_records (small_doc "7") (small_keyspace "7").
Proof.
  assert (∀ key v, small_keyspace "7" !! key = Some v →
            (key = shardsPrefix +:+ "a" ∧ v = js "{'shard_id':'a','status':'ACTIVE'}")
            ∨ (key = bucketsPrefix +:+ "7" ∧ v = js "{'shard_id':'a'}")) as Hks.
  { intros key v. unfold small_keyspace.
    rewrite lookup_insert_Some, lookup_singleton_Some. naive_solver. }
  split.
  - intros id. unfold small_doc. cbn [DocShards]. destruct (decide (id = "a")) as [->|N]; [by vm_compute|].
    rewrite lookup_singleton_ne by done.
    destruct (small_keyspace "7" !! (shardsPrefix +:+ id)) as [v|] eqn:E; [|done].
    apply Hks in E as [[E%string_app_inj_l _]|[E _]]; [done|by vm_compute in E].
  - intros id d. unfold small_doc. cbn [DocShards]. by intros [_ <-]%lookup_singleton_Some.
  - intros k. unfold small_doc. cbn [DocBuckets]. destruct (decide (k = "7")) as [->|N]; [by vm_compute|].
    rewrite lookup_singleton_ne by done.
    destruct (small_keyspace "7" !! (bucketsPrefix +:+ k)) as [v|] eqn:E; [|done].
    apply Hks in E as [[E _]|[E%string_app_inj_l _]]; [by vm_compute in E|done].
  - intros k [b Hk]. unfold small_doc in Hk. cbn [DocBuckets] in Hk.
    by apply lookup_singleton_Some in Hk as [<- _].
Qed.

Definition small_kvs : list decodedKV :=
  [mkKV (shardsPrefix +:+ "a") (js "{'shard_id':'a','status':'ACTIVE'}");
   mkKV (bucketsPrefix +:+ "7") (js "{'shard_id':'a'}")].

Lemma small_one_spelling : one_spelling (λ k, is_Some (small_keyspace "7" !! k)).
Proof.
  assert (∀ key id, is_Some (small_keyspace "7" !! key) → bucketIDFromKey key = Some id →
            key = bucketsPrefix +:+ "7") as Hkey.
  { intros key id [v Hv] Hid. unfold small_keyspace in Hv.
    rewrite lookup_insert_Some, lookup_singleton_Some in Hv.
    destruct Hv as [[<- _]|[_ [<- _]]]; [by vm_compute in Hid|done]. }
  intros k1 k2 id H1 H2 E1 E2. by rewrite (Hkey _ _ H1 E1), (Hkey _ _ H2 E2).
Qed.

Lemma file_matches_etcd_witness :
  let s' := snd (Start (Some (small_file "7")) map_to_list NewStore) in
  Resolve (New 8) (current s') (AString "tenant-3")
  = Resolve (New 8) (Some (load_kvs 5 small_kvs)) (AString "tenant-3").
Proof.
  intros s'. apply (file_matches_etcd (small_file "7") (small_doc "7") (small_keyspace "7")
    map_to_list NewStore s' (load_kvs 5 small_kvs) (New 8) (AString "tenant-3")).
  - apply NewStore_wf.
  - apply visits_map_to_list.
  - by vm_compute.
  - apply small_keyspace_records.
  - apply small_one_spelling.
  - apply load_denotes; [vm_compute; solve_range|apply small_one_spelling].
  - by vm_compute.
Defined.

(** Two spellings of one bucket: which record wins is up to the order. *)
Example file_order_matters :
  let l := [("7", mkBucketDef 0 "a" "" "" 0); ("07", mkBucketDef 0 "b" "" "" 0)] in
  fill_buckets l ∅ = Ok {[ 7 := mkBucketDef 7 "b" "" "" 0 ]}
  ∧ fill_buckets (reverse l) ∅ = Ok {[ 7 := mkBucketDef 7 "a" "" "" 0 ]}.
Proof. by vm_compute. Qed.

(** The key ["7 shards"] is bucket 7 in a file and no bucket in etcd, and a
    shard that does not name itself stays without a name in a file only. *)
Example file_etcd_differ :
  parseBucketID "7 shards" = Some 7 ∧ bucketIDFromKey (bucketsPrefix +:+ "7 shards") = None
  ∧ option_map (λ d, ShardID <$> DocShards d !! "a") (unmarshal_doc (js "{'shards':{'a':{}}}"))
    = Some (Some "")
  ∧ (ShardID <$> shard_record {[ shardsPrefix +:+ "a" := "{}" ]} "a") = Some "a".
Proof. by vm_compute. Qed.

(** The example of the repository, [testdata/mapping.example.json]. *)
Definition example_file : string :=
  js ("{'shards': {'shard-01': {'shard_id': 'shard-01','status': 'ACTIVE',"
      +:+ "'writer': { 'host': '127.0.0.1', 'port': 5433, 'database': 'payment' },"
      +:+ "'reader': { 'host': '127.0.0.1', 'port': 5433, 'database': 'payment' },"
      +:+ "'credential_ref': 'secret/payment/postgresql','region': 'jakarta'},'shard-02': {"
      +:+ "'shard_id': 'shard-02','status': 'ACTIVE',"
      +:+ "'writer': { 'host': '127.0.0.1', 'port': 5434, 'database': 'payment' },"
      +:+ "'reader': { 'host': '127.0.0.1', 'port': 5434, 'database': 'payment' },"
      +:+ "'credential_ref': 'secret/payment/postgresql','region': 'jakarta'}},'buckets': {"
      +:+ "'0': { 'shard_id': 'shard-01' },'1': { 'shard_id': 'shard-01' },"
      +:+ "'2': { 'shard_id': 'shard-02' },'3': { 'shard_id': 'shard-02' }}}").

Example example_file_loads :
  let '(r, s) := Start (Some example_file) map_to_list NewStore in
  r = Ok tt
  ∧ option_map (λ m, (size (Shards m), size (Buckets m), BShardID <$> Buckets m !! 2)) (current s)
    = Some (2%nat, 4%nat, Some "shard-02").
Proof. by vm_compute. Qed.
