(* ===== verification/Registry.v ===== *)
(** * The interface [Registry] and its two implementations

    [internal/registry/registry.go]: what the rest of the service relies on.
    The class states the operations and the laws of the interface's comment;
    the instances are the file registry ([file.go]) and the etcd registry
    ([etcd.go], with its two background loops). What is proved about serving
    requests is proved against the class. *)

From S2P Require Import Prelude GoInt GoString GoAny Json Model Cache Router Etcd EtcdSync EtcdHttp.
From S2P Require Import FileRegistry.

(** ** The interface *)

(** [R] is the type of the registry, [W] of the world [Start] talks to, [E] of
    its errors. [background] is one step of the synchronisation that goes on
    after [Start] has returned. *)
Class Registry (R W E : Type) := {
  Store : R → Memory;
  StartRegistry : R → W → result E unit * R * W;
  background : R → R → Prop;
}.

(** [Start] returns once the initial load has succeeded, or fails; from then on
    the store always points to a mapping. [init] holds of a new registry. *)
Class RegistryLaws (R W E : Type) `{Registry R W E} (init : R → Prop) := {
  start_failed r w r' w' e :
    init r → StartRegistry r w = (Err e, r', w') → Store r' = Store r;
  start_serves r w r' w' r'' :
    init r → StartRegistry r w = (Ok tt, r', w') → rtc background r' r'' →
    is_Some (current (Store r''));
}.

(** ** The file registry *)

Record FileRegistry := mkFileRegistry { path : string; fstore : Memory }.

Definition NewFileRegistry (path : string) : FileRegistry := mkFileRegistry path NewStore.

(** The file system, and the order in which Go visits the buckets. *)
Record FileWorld := mkFileWorld {
  ReadFile : string → option string;
  iteration : gmap string BucketDef → list (string * BucketDef);
}.

#[export] Instance file_registry : Registry FileRegistry FileWorld FileError := {|
  Store := fstore;
  StartRegistry r w :=
    let '(res, s) := FileRegistry.Start (ReadFile w (path r)) (iteration w) (fstore r) in
    (res, mkFileRegistry (path r) s, w);
  background r r' := False;
|}.

#[export] Instance file_registry_laws :
  RegistryLaws FileRegistry FileWorld FileError (λ r, r = NewFileRegistry (path r)).
Proof.
  split.
  - intros r w r' w' e _. cbn. destruct (FileRegistry.Start _ _ _) as [res s] eqn:E.
    intros [= -> <- <-]. cbn. by eapply FileRegistry.Start_error.
  - intros r w r' w' r'' -> H Hb. cbn in H.
    destruct (FileRegistry.Start _ _ _) as [res s] eqn:E. injection H as -> <- <-.
    apply FileRegistry.Start_ok in E as (data & doc & buckets & _ & _ & _ & E & _);
      [|apply NewStore_wf].
    inversion Hb as [|? ? ? []]; subst. change (is_Some (current s)). by rewrite E.
Qed.

(** ** The etcd registry *)

Record EtcdConfig := mkEtcdConfig {
  Endpoints : list string;
  DialTimeout : Z;
  Username : string;
  Password : string;
  ReconcileInterval : Z;
}.

(** [sync] holds the store and the states of the two loops. *)
Record EtcdRegistry := mkEtcdRegistry {
  client : etcdClient;
  cfg : EtcdConfig;
  sync : Sys;
}.

Inductive EtcdConfigError : Type := ErrAtLeastOneEndpoint.

Definition idle_sys : Sys := mkSys NewStore WStopped LStopped ∅.

Definition NewEtcdRegistry (c : EtcdConfig) : result EtcdConfigError EtcdRegistry :=
  match Endpoints c with
  | [] => Err ErrAtLeastOneEndpoint
  | _ =>
      let c := if ReconcileInterval c =? 0
               then mkEtcdConfig (Endpoints c) (DialTimeout c) (Username c) (Password c)
                      (60 * 1000000000)
               else c in
      Ok (mkEtcdRegistry (newEtcdClient (Endpoints c) (Username c) (Password c)) c idle_sys)
  end.

(** [time.NewTicker] in [reconcileLoop] panics on an interval that is not
    positive. *)
Definition reconcile_panics (r : EtcdRegistry) : bool := ReconcileInterval (cfg r) <=? 0.

(** A background step may also renew the token of the client. *)
#[export] Instance etcd_registry {W} `{Network W} : Registry EtcdRegistry W ClientError := {|
  Store r := mem (sync r);
  StartRegistry r w :=
    match EtcdHttp.Start (client r) w (mem (sync r)) with
    | (Err e, c, w, s) => (Err e, mkEtcdRegistry c (cfg r) (mkSys s WStopped LStopped ∅), w)
    | (Ok rev, c, w, s) =>
        (Ok tt, mkEtcdRegistry c (cfg r) (mkSys s (WIdle (wrap64 (rev + 1))) LIdle ∅), w)
    end;
  background r r' := sync_step (sync r) (sync r') ∧ cfg r' = cfg r;
|}.

Lemma etcd_start_ok {W} `{Network W} c (w : W) s rev c' w' s' :
  EtcdHttp.Start c w s = (Ok rev, c', w', s') → ∃ kvs, s' = loadAll rev kvs s.
Proof.
  unfold EtcdHttp.Start. intros HS.
  destruct (login c w) as [[[u|e] c1] w1]; [|done].
  destruct (rangePrefix _ _ _) as [[[[kvs rev']|e] c2] w2]; [|done].
  injection HS as <- <- <- <-. by exists kvs.
Qed.

Lemma etcd_start_error {W} `{Network W} c (w : W) s e c' w' s' :
  EtcdHttp.Start c w s = (Err e, c', w', s') → s' = s.
Proof.
  unfold EtcdHttp.Start. intros HS.
  destruct (login c w) as [[[u|e1] c1] w1]; [|by injection HS].
  by destruct (rangePrefix _ _ _) as [[[[kvs rev']|e2] c2] w2]; [|injection HS].
Qed.

Lemma background_sync {W} `{Network W} (r r' : EtcdRegistry) :
  rtc (background (W := W) (E := ClientError)) r r' → rtc sync_step (sync r) (sync r').
Proof. induction 1 as [|r1 r2 r3 [Hs _] _ IH]; [done|by eapply rtc_l]. Qed.

#[export] Instance etcd_registry_laws {W} `{Network W} :
  RegistryLaws EtcdRegistry W ClientError (λ r, sync r = idle_sys).
Proof.
  split.
  - intros r w r' w' e _ HS. cbn in HS.
    destruct (EtcdHttp.Start _ _ _) as [[[[rev|e'] c1] w1] s1] eqn:E; [done|].
    injection HS as -> <- <-. cbn. by eapply etcd_start_error.
  - intros r w r' w' r'' Hi HS Hb. cbn in HS. rewrite Hi in HS.
    destruct (EtcdHttp.Start _ _ _) as [[[[rev|e'] c1] w1] s1] eqn:E; [|done].
    injection HS as <- <-. apply etcd_start_ok in E as [kvs ->].
    apply background_sync in Hb. cbn [sync] in Hb.
    assert (reachable (sync r'')) as Hr by by exists rev, kvs.
    apply sim_reachable in Hr as (h & Hsim).
    destruct (sim_current _ _ Hsim) as (l & m & Hp & Hm & _).
    cbn. unfold current. rewrite Hp. cbn. rewrite Hm. by eexists.
Qed.

(** ** The client of the interface *)

(** Once any registry has started, no request finds the store empty: with
    whatever its background synchronisation has done since, resolving a key
    never answers that no mapping is loaded. *)
Lemma started_registry_serves {R W E} `{RegistryLaws R W E init}
    (r r' r'' : R) (w w' : W) (rt : Router) (k : go_any) :
  init r → StartRegistry r w = (Ok tt, r', w') → rtc background r' r'' →
  Resolve rt (current (Store r'')) k ≠ Err ErrNoMapping.
Proof.
  intros Hi HS Hb. destruct (start_serves r w r' w' r'' Hi HS Hb) as [m ->].
  apply Resolve_has_mapping.
Qed.

Lemma started_registry_serves_witness :
  let w := mkFileWorld (λ _, Some (small_file "7")) map_to_list in
  let r := NewFileRegistry "map.json" in
  let r' := snd (fst (StartRegistry (E := FileError) r w)) in
  Resolve (New 8) (current (Store r')) (AString "tenant-3") ≠ Err ErrNoMapping.
Proof.
  intros w r r'. apply (started_registry_serves r r' r' w w (New 8) (AString "tenant-3")).
  - done.
  - by vm_compute.
  - apply rtc_refl.
Defined.
