(* ===== verification/Tests.v ===== *)
(** * The tests of the repository, on the model

    The functions of [internal/hashing/hash_test.go], [internal/router/router_test.go]
    and [internal/registry/*_test.go], each as the boolean it checks: [false]
    where the test calls [t.Fatalf] or [t.Errorf]. The model passes them all. *)

From S2P Require Import Prelude GoInt GoString GoAny Hashing Json Model Cache Router Keys Etcd FileRegistry Registry.

Definition is_err {E A} (P : E → bool) (r : result E A) : bool :=
  match r with Err e => P e | Ok _ => false end.

Definition eq_str (a b : string) : bool := bool_decide (a = b).

(** ** [hash_test.go] *)

Definition TestDeterministic : bool :=
  forallb (λ k,
    let a := BucketFor k DefaultBucketCount in
    let b := BucketFor k DefaultBucketCount in
    (a =? b) && (0 <=? a) && (a <? DefaultBucketCount))
    [AInt 1; AInt 42; AString "tenant-abc"; AInt 9223372036854775807; AInt 0].

Definition TestGoldenVectors : bool :=
  bool_decide (golden_vectors ≠ [])
  && forallb (λ '(k, count, want), BucketFor (AString k) count =? want) golden_vectors.

(** ** [router_test.go] *)

Definition shard (id status : string) : ShardDef :=
  mkShardDef id status (mkEndpoint ("pg-" +:+ id +:+ "-rw.internal") 6432 "payment")
    (Some (mkEndpoint ("pg-" +:+ id +:+ "-ro.internal") 6432 "payment")) "" "".

Definition storeWith (m : Mapping) : Memory := let '(l, s) := alloc m NewStore in Swap l s.

(** [New(store, 1024)] and then [Resolve("tenant-1")]. *)
Definition resolve_tenant (store : Memory) : result RouterError Resolved :=
  Resolve (New 1024) (current store) (AString "tenant-1").

Definition tenant_bucket : Z := BucketFor (AString "tenant-1") 1024.

Definition TestSameKeySameBucket : bool :=
  forallb (λ k, let first := BucketFor k 1024 in
                forallb (λ _, BucketFor k 1024 =? first) (seq 0 100))
    [AString "tenant-1"; AInt 42; AString "wallet-abc"].

Definition TestResolve_NoMapping : bool :=
  is_err (λ e, match e with ErrNoMapping => true | _ => false end) (resolve_tenant NewStore).

(** A mapping with the given shards, and one record for the bucket of the key. *)
Definition tenant_mapping (shards : gmap string ShardDef) (dest state : string) : Mapping :=
  mkMapping 1 shards {[ tenant_bucket := mkBucketDef tenant_bucket "shard-01" dest state 0 ]}.

Definition TestResolve_NormalRouting : bool :=
  match resolve_tenant (storeWith (tenant_mapping {[ "shard-01" := shard "shard-01" ShardActive ]} "" "")) with
  | Err _ => false
  | Ok res =>
      eq_str (ShardID (ReadShard res)) "shard-01"
      && bool_decide (map ShardID (WriteShards res) = ["shard-01"])
      && eq_str (Host (ReadEndpoint res ReadEventual)) "pg-shard-01-ro.internal"
      && eq_str (Host (ReadEndpoint res ReadStrong)) "pg-shard-01-rw.internal"
  end.

Definition TestResolve_UnknownBucketAssignment : bool :=
  is_err (λ e, match e with ErrUnknownBucket _ => true | _ => false end)
    (resolve_tenant (storeWith (mkMapping 1 {[ "shard-01" := shard "shard-01" ShardActive ]} ∅))).

Definition TestResolve_InactiveShard : bool :=
  is_err (λ e, match e with ErrShardUnavailable _ => true | _ => false end)
    (resolve_tenant (storeWith
       (tenant_mapping {[ "shard-01" := shard "shard-01" ShardMaintenance ]} "" ""))).

Definition migration_cases : list (string * string * list string) := [
  (StateActiveSource, "shard-01", ["shard-01"]);
  (StateCopying, "shard-01", ["shard-01"]);
  (StateDualWrite, "shard-01", ["shard-01"; "shard-05"]);
  (StateCDCCatchup, "shard-01", ["shard-01"; "shard-05"]);
  (StateVerifying, "shard-01", ["shard-01"; "shard-05"]);
  (StateCutover, "shard-05", ["shard-05"]);
  (StateDrainingSrc, "shard-05", ["shard-05"]);
  (StateActiveDest, "shard-05", ["shard-05"])
].

Definition TestResolve_MigrationStates : bool :=
  let shards := <["shard-01" := shard "shard-01" ShardActive]>
                  {[ "shard-05" := shard "shard-05" ShardActive ]} in
  forallb (λ '(state, wantReadShard, wantWrites),
    match resolve_tenant (storeWith (tenant_mapping shards "shard-05" state)) with
    | Err _ => false
    | Ok res => eq_str (ShardID (ReadShard res)) wantReadShard
                && bool_decide (map ShardID (WriteShards res) = wantWrites)
    end) migration_cases.

Definition TestResolve_CutoverMissingDestFails : bool :=
  is_err (λ e, match e with ErrUnknownShard _ _ => true | _ => false end)
    (resolve_tenant (storeWith
       (tenant_mapping {[ "shard-01" := shard "shard-01" ShardActive ]} "shard-05" StateCutover))).

(** ** [apply_test.go] *)

Definition emptyMapping : Mapping := mkMapping 0 ∅ ∅.

Definition TestApplyKV_ShardPutAndDelete : bool :=
  let shardJSON := js "{'shard_id':'shard-01','status':'ACTIVE','writer':{'host':'pg-shard01-rw.internal','port':6432,'database':'payment'},'credential_ref':'secret/payment/postgresql','region':'jakarta'}" in
  let '(r, m) := applyKV emptyMapping "/sharding/shards/shard-01" shardJSON false in
  is_ok r
  && match Shards m !! "shard-01" with
     | None => false
     | Some got => eq_str (Status got) ShardActive && eq_str (Host (Writer got)) "pg-shard01-rw.internal"
     end
  && let '(r, m) := applyKV m "/sharding/shards/shard-01" "" true in
     is_ok r && bool_decide (Shards m !! "shard-01" = None).

Definition TestApplyKV_BucketPutAndDelete : bool :=
  let '(r, m) := applyKV emptyMapping "/sharding/buckets/0527" (js "{'shard_id':'shard-03'}") false in
  is_ok r
  && match Buckets m !! 527 with None => false | Some got => eq_str (BShardID got) "shard-03" end
  && let '(r, m) := applyKV m "/sharding/buckets/0527" "" true in
     is_ok r && bool_decide (Buckets m !! 527 = None).

Definition TestApplyKV_IgnoresUnrelatedKeys : bool :=
  let '(r1, m) := applyKV emptyMapping "/sharding/version" (js "'3'") false in
  let '(r2, m) := applyKV m "/sharding/migrations/mig-1" "{}" false in
  is_ok r1 && is_ok r2 && bool_decide (size (Shards m) = 0%nat) && bool_decide (size (Buckets m) = 0%nat).

Definition TestApplyKV_MalformedJSONReturnsError : bool :=
  negb (is_ok (fst (applyKV emptyMapping "/sharding/shards/shard-01" "not json" false))).

(** ** [etcdhttp_test.go] *)

Definition nul : string := String (chr 0) "".

Definition TestGetPrefixRangeEnd : bool :=
  forallb (λ '(p, want), eq_str (getPrefixRangeEnd p) want)
    [("/sharding/", "/sharding0"); ("a", "b"); ("", nul)].

Definition TestGetPrefixRangeEnd_AllFF : bool :=
  eq_str (getPrefixRangeEnd (String (chr 255) (String (chr 255) ""))) nul.

(** ** [file_test.go] *)

Definition TestFileRegistry_Load : bool :=
  let w := mkFileWorld (λ p, if decide (p = "../../testdata/mapping.example.json")
                             then Some example_file else None) map_to_list in
  let '(r, reg, _) := StartRegistry (NewFileRegistry "../../testdata/mapping.example.json") w in
  is_ok r
  && match current (Store reg) with
     | None => false
     | Some m => bool_decide (size (Shards m) = 2%nat) && bool_decide (size (Buckets m) = 4%nat)
                 && match Buckets m !! 2 with Some b => eq_str (BShardID b) "shard-02" | None => false end
     end.

(** ** All of them *)

Definition go_tests : list (string * bool) := [
  ("TestDeterministic", TestDeterministic);
  ("TestGoldenVectors", TestGoldenVectors);
  ("TestSameKeySameBucket", TestSameKeySameBucket);
  ("TestResolve_NoMapping", TestResolve_NoMapping);
  ("TestResolve_NormalRouting", TestResolve_NormalRouting);
  ("TestResolve_UnknownBucketAssignment", TestResolve_UnknownBucketAssignment);
  ("TestResolve_InactiveShard", TestResolve_InactiveShard);
  ("TestResolve_MigrationStates", TestResolve_MigrationStates);
  ("TestResolve_CutoverMissingDestFails", TestResolve_CutoverMissingDestFails);
  ("TestApplyKV_ShardPutAndDelete", TestApplyKV_ShardPutAndDelete);
  ("TestApplyKV_BucketPutAndDelete", TestApplyKV_BucketPutAndDelete);
  ("TestApplyKV_IgnoresUnrelatedKeys", TestApplyKV_IgnoresUnrelatedKeys);
  ("TestApplyKV_MalformedJSONReturnsError", TestApplyKV_MalformedJSONReturnsError);
  ("TestGetPrefixRangeEnd", TestGetPrefixRangeEnd);
  ("TestGetPrefixRangeEnd_AllFF", TestGetPrefixRangeEnd_AllFF);
  ("TestFileRegistry_Load", TestFileRegistry_Load)
].

(** The model passes the tests of the repository. *)
Lemma go_tests_pass : Forall (λ t, t.2 = true) go_tests.
Proof. repeat (constructor; [vm_compute; reflexivity|]). constructor. Qed.
