(* ===== verification/Secrets.v ===== *)
(** * Package [secrets]: credentials of a shard

    [internal/secrets/provider.go]: the interface [Provider] and the provider
    that reads the environment. The environment is a function from names to
    values, empty when a variable is not set. *)

From S2P Require Import Prelude GoInt GoString.
From Stdlib Require Import Ascii.

Record Credentials := mkCredentials { CredUser : string; CredPassword : string }.

Inductive SecretError : Type := ErrNoUser (key ref : string).

Class Provider (P : Type) := { ResolveRef : P → string → result SecretError Credentials }.

(** ** [EnvProvider] *)

Definition replace_byte (c : ascii) : ascii :=
  if Ascii.eqb c "/" || Ascii.eqb c "-" || Ascii.eqb c "." then "_"%char else c.

Definition envKey `{UnicodeTables} (ref : string) : string := to_upper (str_map replace_byte ref).

Definition EnvResolve `{UnicodeTables} (getenv : string → string) (credentialRef : string)
    : result SecretError Credentials :=
  let key := envKey credentialRef in
  let user := getenv (key +:+ "_USER") in
  let pass := getenv (key +:+ "_PASSWORD") in
  if decide (user = "") then Err (ErrNoUser key credentialRef)
  else Ok (mkCredentials user pass).

(** The provider is stateless: its value is the environment it runs in. *)
Record EnvProvider := mkEnvProvider { Getenv : string → string }.

#[export] Instance env_provider `{UnicodeTables} : Provider EnvProvider :=
  {| ResolveRef p := EnvResolve (Getenv p) |}.

(** ** The names it reads *)

Definition is_lower (c : ascii) : bool := (97 <=? code c) && (code c <=? 122).

(** What a byte of a reference becomes. *)
Definition key_byte (c : ascii) : ascii := upper_byte (replace_byte c).

Definition byte_in_key (c : ascii) : bool :=
  negb (is_lower c || Ascii.eqb c "/" || Ascii.eqb c "-" || Ascii.eqb c ".").

Lemma key_byte_shape c : byte_in_key (key_byte c) = true.
Proof. apply (all_bytes (λ c, byte_in_key (key_byte c))). by vm_compute. Qed.

Lemma key_byte_stable c : Ascii.eqb (key_byte (key_byte c)) (key_byte c) = true.
Proof. apply (all_bytes (λ c, Ascii.eqb (key_byte (key_byte c)) (key_byte c))). by vm_compute. Qed.

Lemma key_byte_ascii c : implb (code c <? 128) (code (key_byte c) <? 128) = true.
Proof. apply (all_bytes (λ c, implb (code c <? 128) (code (key_byte c) <? 128))). by vm_compute. Qed.

Lemma replace_byte_ascii c : implb (code c <? 128) (code (replace_byte c) <? 128) = true.
Proof. apply (all_bytes (λ c, implb (code c <? 128) (code (replace_byte c) <? 128))). by vm_compute. Qed.

Lemma is_ascii_map f s :
  (∀ c, implb (code c <? 128) (code (f c) <? 128) = true) → is_ascii s = true →
  is_ascii (str_map f s) = true.
Proof.
  unfold is_ascii. intros Hf Hs. rewrite str_forall_map. eapply str_forall_impl; [|done].
  intros c Hc. specialize (Hf c). cbn in Hc. by rewrite Hc in Hf.
Qed.

Lemma envKey_map `{UnicodeTables} ref : is_ascii ref = true → envKey ref = str_map key_byte ref.
Proof.
  intros Ha. unfold envKey, to_upper.
  rewrite is_ascii_map by (done || apply replace_byte_ascii).
  by rewrite str_map_map.
Qed.

(** The variables a reference stands for: their common prefix has no slash,
    dash, dot or lower-case letter, and is its own prefix, so that a reference
    and the name derived from it have the same credentials; references that
    differ only in letter case or in which of the separators they use cannot be
    told apart. *)
Lemma env_key_canonical `{UnicodeTables} (ref ref' : string) :
  is_ascii ref = true → is_ascii ref' = true →
  str_forall byte_in_key (envKey ref) = true
  ∧ envKey (envKey ref) = envKey ref
  ∧ (str_map key_byte ref = str_map key_byte ref' →
     ∀ getenv creds, EnvResolve getenv ref = Ok creds ↔ EnvResolve getenv ref' = Ok creds).
Proof.
  intros Ha Ha'. rewrite !(envKey_map ref) by done. split_and!.
  - rewrite str_forall_map. clear. induction ref as [|c s IH]; [done|].
    cbn [str_forall]. by rewrite key_byte_shape, IH.
  - rewrite envKey_map by (apply is_ascii_map; [apply key_byte_ascii|done]).
    rewrite str_map_map. apply str_map_ext. intros c. apply Ascii.eqb_eq, key_byte_stable.
  - intros E getenv creds. unfold EnvResolve. rewrite !(envKey_map ref), !(envKey_map ref'), E by done.
    by case_decide.
Qed.

(** Tables for the examples, which are ASCII. *)
Definition no_unicode : UnicodeTables := {| unicode_to_upper s := s; unicode_quote s := s |}.
#[local] Existing Instance no_unicode.

Lemma env_key_canonical_witness :
  envKey (envKey "secret/payment/postgresql") = envKey "secret/payment/postgresql"
  ∧ ∀ getenv creds, EnvResolve getenv "secret/payment/postgresql" = Ok creds
                    ↔ EnvResolve getenv "secret.payment-PostgreSQL" = Ok creds.
Proof.
  destruct (env_key_canonical "secret/payment/postgresql" "secret.payment-PostgreSQL" eq_refl eq_refl)
    as (_ & H2 & H3). split; [exact H2|exact (H3 eq_refl)].
Defined.

(** The example of the comment in the source. *)
Example env_provider_example :
  EnvResolve (λ name, if decide (name = "SECRET_PAYMENT_POSTGRESQL_USER") then "app"
                      else if decide (name = "SECRET_PAYMENT_POSTGRESQL_PASSWORD") then "pw" else "")
    "secret/payment/postgresql" = Ok (mkCredentials "app" "pw").
Proof. by vm_compute. Qed.
