(* ===== verification/Metrics.v ===== *)
(** * Package [metrics]: request counters

    [internal/metrics/metrics.go]. Every method holds the mutex for its whole
    body, so an execution is a sequence of calls. Counters are 64 bits wide. *)

From S2P Require Import Prelude GoInt.

Record Metrics := mkMetrics { requestsByShard : gmap string Z; routingErrors : Z }.

Definition NewRegistry : Metrics := mkMetrics ∅ 0.

(** [requestsByShard[shardID]++], where a missing counter reads as zero. *)
Definition IncRoutingRequest (shardID : string) (bucketID : Z) (m : Metrics) : Metrics :=
  mkMetrics (<[shardID := wrap64 (default 0 (requestsByShard m !! shardID) + 1)]> (requestsByShard m))
    (routingErrors m).

Definition IncRoutingError (m : Metrics) : Metrics :=
  mkMetrics (requestsByShard m) (wrap64 (routingErrors m + 1)).

(** The copy that [Snapshot] returns. *)
Definition Snapshot (m : Metrics) : Metrics :=
  mkMetrics (map_fold (λ k v cp, <[k := v]> cp) ∅ (requestsByShard m)) (routingErrors m).

Lemma Snapshot_id m : Snapshot m = m.
Proof.
  destruct m as [r e]. unfold Snapshot. cbn. f_equal.
  induction r as [|k v r Hk Hfirst IH] using map_first_key_ind; [done|].
  rewrite map_fold_insert_first_key by done. by rewrite IH.
Qed.

(** ** A history of calls *)

Inductive call : Type :=
| Request (shardID : string) (bucketID : Z)
| RoutingError.

Definition record (m : Metrics) (c : call) : Metrics :=
  match c with
  | Request s b => IncRoutingRequest s b m
  | RoutingError => IncRoutingError m
  end.

Definition recorded (cs : list call) : Metrics := foldl record NewRegistry cs.

Definition routed (shardID : string) (c : call) : bool :=
  match c with Request s _ => bool_decide (s = shardID) | RoutingError => false end.
Definition failed (c : call) : bool := match c with RoutingError => true | _ => false end.

Definition count (P : call → bool) (cs : list call) : Z :=
  Z.of_nat (length (filter (λ c, P c = true) cs)).

Definition requests_of (shardID : string) : list call → Z := count (routed shardID).
Definition errors_of : list call → Z := count failed.

Lemma count_snoc P cs c : count P (cs ++ [c]) = count P cs + (if P c then 1 else 0).
Proof.
  unfold count. rewrite filter_app, length_app, Nat2Z.inj_add, filter_cons, filter_nil.
  destruct (P c); [rewrite decide_True by done|rewrite decide_False by done]; cbn [length]; lia.
Qed.

Lemma count_bound P cs : 0 ≤ count P cs ≤ Z.of_nat (length cs).
Proof. unfold count. pose proof (length_filter (λ c, P c = true) cs). lia. Qed.

Lemma wrap64_succ a b : wrap64 (wrap64 a + b) = wrap64 (a + b).
Proof.
  unfold wrap64, wrap.
  replace ((a + 2 ^ (64 - 1)) mod 2 ^ 64 - 2 ^ (64 - 1) + b + 2 ^ (64 - 1))
    with ((a + 2 ^ (64 - 1)) mod 2 ^ 64 + b) by lia.
  rewrite Z.add_mod_idemp_l by done. do 2 f_equal. lia.
Qed.

Lemma recorded_app cs c : recorded (cs ++ [c]) = record (recorded cs) c.
Proof. unfold recorded. by rewrite foldl_app. Qed.

Lemma recorded_counts cs :
  (∀ s, default 0 (requestsByShard (recorded cs) !! s) = wrap64 (requests_of s cs))
  ∧ (∀ s, is_Some (requestsByShard (recorded cs) !! s) ↔ 0 < requests_of s cs)
  ∧ routingErrors (recorded cs) = wrap64 (errors_of cs).
Proof.
  induction cs as [|c cs (IH1 & IH2 & IH3)] using rev_ind.
  { split_and!; [done| |done]. intros s. cbn. rewrite lookup_empty. unfold requests_of, count. cbn.
    split; [by intros [? ?]|lia]. }
  rewrite recorded_app. unfold requests_of, errors_of in *. rewrite !count_snoc.
  split_and!; [intros s; rewrite count_snoc; specialize (IH1 s) ..|].
  - destruct c as [s' b|]; cbn [record routed]; [|by rewrite Z.add_0_r].
    cbn [requestsByShard IncRoutingRequest]. destruct (decide (s' = s)) as [->|N].
    + rewrite lookup_insert_eq, bool_decide_true by done. cbn [default]. rewrite IH1.
      apply wrap64_succ.
    + by rewrite lookup_insert_ne, bool_decide_false, Z.add_0_r by done.
  - specialize (IH2 s). pose proof (count_bound (routed s) cs).
    destruct c as [s' b|]; cbn [record routed]; [|by rewrite Z.add_0_r].
    cbn [requestsByShard IncRoutingRequest]. destruct (decide (s' = s)) as [->|N].
    + rewrite lookup_insert_eq, bool_decide_true by done. split; [lia|by eexists].
    + by rewrite lookup_insert_ne, bool_decide_false, Z.add_0_r by done.
  - destruct c as [s' b|]; cbn [record failed]; [by rewrite Z.add_0_r|].
    cbn [routingErrors IncRoutingError]. rewrite IH3. apply wrap64_succ.
Qed.

(** The counters count: after any sequence of fewer than 2^63 calls, a
    snapshot has a counter for exactly the shards requests were routed to, each
    holding their number, and the number of routing errors; the snapshot is
    equal to the counters at that moment. *)
Lemma metrics_count (cs : list call) (s : string) :
  Z.of_nat (length cs) < 2 ^ 63 →
  let snap := Snapshot (recorded cs) in
  requestsByShard snap !! s = (if decide (0 < requests_of s cs) then Some (requests_of s cs) else None)
  ∧ routingErrors snap = errors_of cs.
Proof.
  intros Hlen snap. unfold snap. rewrite Snapshot_id.
  destruct (recorded_counts cs) as (H1 & H2 & H3).
  assert (∀ P, wrap64 (count P cs) = count P cs) as Hw.
  { intros P. apply wrap64_id. pose proof (count_bound P cs). lia. }
  split; [|by rewrite H3; apply Hw]. specialize (H1 s). specialize (H2 s).
  unfold requests_of in *. rewrite Hw in H1. case_decide as Hs.
  - apply H2 in Hs as [n Hn]. rewrite Hn in H1 |- *. cbn in H1. by rewrite H1.
  - destruct (requestsByShard (recorded cs) !! s) as [n|]; [|done].
    destruct Hs. apply H2. by eexists.
Qed.

Lemma metrics_count_witness :
  let snap := Snapshot (recorded [Request "s1" 3; RoutingError; Request "s2" 4; Request "s1" 5]) in
  requestsByShard snap !! "s1" = Some 2 ∧ routingErrors snap = 1.
Proof.
  by apply (metrics_count [Request "s1" 3; RoutingError; Request "s2" 4; Request "s1" 5] "s1").
Defined.
