(* ===== verification/Pool.v ===== *)
(** * Package [pool]: connection pools and the breaker in front of them

    [internal/pool/manager.go]. The driver [pgxpool] is a parameter of the
    model, the class [Driver]; a pool is its identity. [poolFor] is split at
    its critical sections: [lookup], [create], [install] and the closing of
    the pool that lost the race. [poolFor] and [Acquire] compose them for one
    caller; [PoolSync] runs them for many callers at once. *)

From S2P Require Import Prelude GoInt GoString Model Breaker Secrets.
From Stdlib Require Import Ascii.

(** ** Configuration *)

Definition minute : Z := 60 * second.

Record PoolConfig := mkPoolConfig {
  MaxConns : Z;
  MinConns : Z;
  MaxConnLifetime : Z;
  MaxConnIdleTime : Z;
  IdlePoolTTL : Z;
}.

Definition DefaultConfig : PoolConfig := mkPoolConfig 10 0 (30 * minute) (5 * minute) (10 * minute).

(** The TTL [reapLoop] uses, and the period of its ticker. *)
Definition reap_ttl (cfg : PoolConfig) : Z :=
  if IdlePoolTTL cfg <=? 0 then 10 * minute else IdlePoolTTL cfg.
Definition reap_period (cfg : PoolConfig) : Z := Z.quot (reap_ttl cfg) 2.

(** ** The driver *)

Abbreviation PoolId := positive.

(** The clock, and the calls of [pgxpool] that can fail, with their errors;
    [NewWithConfig] gets the data source name and the limits set on it. *)
Class Driver (W : Type) := {
  Now : W → Z;
  ParseConfig : string → option string;
  NewWithConfig : string → PoolConfig → W → option string * W;
  AcquireConn : PoolId → W → option string * W;
}.

Inductive PoolError : Type :=
| ErrBreaker (shard : string)
| ErrCredentials (shard : string) (e : SecretError)
| ErrParseConfig (shard : string) (msg : string)
| ErrCreate (shard : string) (ep : Endpoint) (msg : string)
| ErrAcquire (shard : string) (ep : Endpoint) (msg : string).

(** ** The table of pools *)

Record entry := mkEntry { pool : PoolId; lastUsed : Z }.

(** [opened] is the set of pools that exist and are not closed, [fresh] above
    all the identities in use, [stopped] whether [stopReap] is closed. *)
Record Manager := mkManager {
  pools : gmap string entry;
  opened : gset PoolId;
  fresh : PoolId;
  stopped : bool;
}.

Definition NewManager : Manager := mkManager ∅ ∅ 1 false.

Definition set_pools (f : gmap string entry → gmap string entry) (m : Manager) : Manager :=
  mkManager (f (pools m)) (opened m) (fresh m) (stopped m).

Definition poolKey (shardID : string) (ep : Endpoint) : string :=
  shardID +:+ "|" +:+ endpoint_string ep.

Definition dsn (creds : Credentials) (ep : Endpoint) : string :=
  "postgres://" +:+ CredUser creds +:+ ":" +:+ CredPassword creds +:+ "@" +:+ Host ep +:+ ":"
    +:+ format_int (Port ep) +:+ "/" +:+ Database ep.

(** The first critical section: a hit updates the time of use. *)
Definition lookup_pool (now : Z) (key : string) (m : Manager) : option PoolId * Manager :=
  match pools m !! key with
  | Some e => (Some (pool e), set_pools <[key := mkEntry (pool e) now]> m)
  | None => (None, m)
  end.

(** A new pool, not in the table yet. *)
Definition open_pool (m : Manager) : PoolId * Manager :=
  (fresh m, mkManager (pools m) ({[fresh m]} ∪ opened m) (Pos.succ (fresh m)) (stopped m)).

Definition close_pool (p : PoolId) (m : Manager) : Manager :=
  mkManager (pools m) (opened m ∖ {[p]}) (fresh m) (stopped m).

(** The second critical section: the pool to use, and whether the new one lost
    the race and has to be closed. *)
Definition install (now : Z) (key : string) (newPool : PoolId) (m : Manager)
    : PoolId * bool * Manager :=
  match pools m !! key with
  | Some e => (pool e, true, m)
  | None => (newPool, false, set_pools <[key := mkEntry newPool now]> m)
  end.

(** [now.Sub(e.lastUsed) > ttl]. *)
Definition expired (now ttl : Z) (e : entry) : bool := ttl <? time_since now (lastUsed e).

(** The critical section of [reapOnce]: what is removed from the table. *)
Definition reap_section (now ttl : Z) (m : Manager) : list PoolId * Manager :=
  (map (λ kv, pool kv.2) (map_to_list (filter (λ kv, expired now ttl kv.2 = true) (pools m))),
   set_pools (filter (λ kv, expired now ttl kv.2 = false)) m).

Definition reapOnce (now ttl : Z) (m : Manager) : Manager :=
  let '(toClose, m) := reap_section now ttl m in foldl (λ m p, close_pool p m) m toClose.

(** [None]: closing the channel a second time panics. *)
Definition Close (m : Manager) : option Manager :=
  if stopped m then None
  else Some (mkManager ∅ (opened m ∖ list_to_set (map (λ kv, pool kv.2) (map_to_list (pools m))))
               (fresh m) true).

(** ** One caller *)

Section manager.
Context {W P : Type} `{Driver W} `{Provider P}.
Variables (cfg : PoolConfig) (secrets : P).

(** Credentials, data source name, pool: the part without the lock. *)
Definition create (shard : ShardDef) (ep : Endpoint) (w : W) : result PoolError unit * W :=
  match ResolveRef secrets (CredentialRef shard) with
  | Err e => (Err (ErrCredentials (ShardID shard) e), w)
  | Ok creds =>
      match ParseConfig (dsn creds ep) with
      | Some msg => (Err (ErrParseConfig (ShardID shard) msg), w)
      | None =>
          match NewWithConfig (dsn creds ep) cfg w with
          | (Some msg, w) => (Err (ErrCreate (ShardID shard) ep msg), w)
          | (None, w) => (Ok tt, w)
          end
      end
  end.

Definition poolFor (shard : ShardDef) (ep : Endpoint) (m : Manager) (w : W)
    : result PoolError PoolId * Manager * W :=
  let key := poolKey (ShardID shard) ep in
  match lookup_pool (Now w) key m with
  | (Some p, m) => (Ok p, m, w)
  | (None, m) =>
      match create shard ep w with
      | (Err e, w) => (Err e, m, w)
      | (Ok _, w) =>
          let '(newPool, m) := open_pool m in
          let '(p, lost, m) := install (Now w) key newPool m in
          (Ok p, if lost then close_pool newPool m else m, w)
      end
  end.

(** The manager together with the breakers it shares with the API. *)
Record PoolState := mkPoolState { mgr : Manager; breakers : Breaker.Registry }.

Definition use_brk (id : string) (f : Breaker → Breaker) (st : PoolState) : PoolState :=
  mkPoolState (mgr st) (on_breaker id f (breakers st)).

(** [Acquire]; a connection is named by the pool it comes from. *)
Definition Acquire (shard : ShardDef) (ep : Endpoint) (st : PoolState) (w : W)
    : result PoolError PoolId * PoolState * W :=
  let id := ShardID shard in
  let '(b, brk) := For id (breakers st) in
  let allowed := fst (Allow (Now w) b) in
  let st := use_brk id (λ b, snd (Allow (Now w) b)) (mkPoolState (mgr st) brk) in
  match allowed with
  | Err _ => (Err (ErrBreaker id), st, w)
  | Ok _ =>
      let '(r, m, w) := poolFor shard ep (mgr st) w in
      let st := mkPoolState m (breakers st) in
      match r with
      | Err e => (Err e, use_brk id (Failure (Now w)) st, w)
      | Ok p =>
          match AcquireConn p w with
          | (Some msg, w) => (Err (ErrAcquire id ep msg), use_brk id (Failure (Now w)) st, w)
          | (None, w) => (Ok p, use_brk id Success st, w)
          end
      end
  end.
End manager.

(** ** Keys of the table *)

(** No separator of an endpoint's text in its host. *)
Definition plain_host (h : string) : Prop := str_no "/" h = true.

(** Two texts that end in a part without the separator. *)
Lemma str_last_split_inj c s1 s2 t1 t2 :
  str_no c t1 = true → str_no c t2 = true →
  s1 +:+ String c t1 = s2 +:+ String c t2 → s1 = s2 ∧ t1 = t2.
Proof.
  unfold str_no. intros H1 H2. revert s2.
  assert (∀ s t, str_forall (λ d, negb (Ascii.eqb d c)) (s +:+ String c t) = false) as Hc.
  { intros s t. rewrite str_forall_app. cbn. by rewrite Ascii.eqb_refl, andb_false_r. }
  induction s1 as [|d s1 IH]; intros [|e s2]; cbn; intros E.
  - naive_solver.
  - injection E as -> E. rewrite E, Hc in H1. done.
  - injection E as -> E. rewrite <-E, Hc in H2. done.
  - injection E as -> E. by destruct (IH s2 E) as [-> ->].
Qed.

Lemma digits_no c s : is_digit c = false → all_digits s = true → str_no c s = true.
Proof.
  intros Hc. rewrite all_digits_forall. apply str_forall_impl. intros d Hd.
  apply negb_true_iff, Ascii.eqb_neq. congruence.
Qed.

Lemma format_int_no c n : is_digit c = false → Ascii.eqb c "-" = false → str_no c (format_int n) = true.
Proof.
  intros Hc Hm. unfold format_int. destruct (n <? 0); [|by apply digits_no, format_uint_digits].
  change (negb (Ascii.eqb "-" c) && str_no c (format_uint (- n)) = true).
  rewrite Ascii.eqb_sym, Hm. by apply digits_no, format_uint_digits.
Qed.

Lemma endpoint_string_inj e1 e2 :
  plain_host (Host e1) → plain_host (Host e2) →
  in_int64 (Port e1) = true → in_int64 (Port e2) = true →
  endpoint_string e1 = endpoint_string e2 → e1 = e2.
Proof.
  destruct e1 as [h1 p1 d1], e2 as [h2 p2 d2]. unfold plain_host, endpoint_string. cbn [Host Port Database].
  intros H1 H2 P1 P2 E.
  assert (∀ h p d, h +:+ ":" +:+ format_int p +:+ "/" +:+ d
                   = (h +:+ String ":" (format_int p)) +:+ String "/" d) as Hshape.
  { intros h p d. by rewrite string_app_assoc. }
  rewrite !Hshape in E. apply str_split_inj in E as [E ->].
  - apply str_last_split_inj in E as [-> E%format_int_inj]; [by subst|done|done|..];
      by apply format_int_no.
  - unfold str_no in *. rewrite str_forall_app, H1. cbn [str_forall andb]. by apply format_int_no.
  - unfold str_no in *. rewrite str_forall_app, H2. cbn [str_forall andb]. by apply format_int_no.
Qed.

(** Pools are not mixed up: for shard identifiers without a vertical bar
    and hosts without a slash, two uses share a pool exactly when they name the
    same shard and the same host, port and database. *)
Lemma pool_key_injective (s1 s2 : string) (e1 e2 : Endpoint) :
  str_no "|" s1 = true → str_no "|" s2 = true →
  plain_host (Host e1) → plain_host (Host e2) →
  in_int64 (Port e1) = true → in_int64 (Port e2) = true →
  poolKey s1 e1 = poolKey s2 e2 ↔ s1 = s2 ∧ e1 = e2.
Proof.
  intros S1 S2 H1 H2 P1 P2. split; [|by intros [-> ->]]. unfold poolKey. intros E.
  apply str_split_inj in E as [-> E]; [|done|done]. split; [done|]. by apply endpoint_string_inj.
Qed.

Lemma pool_key_injective_witness :
  poolKey "shard-01" (mkEndpoint "db-1" 5432 "a/b") = poolKey "shard-01" (mkEndpoint "db-1" 5432 "a/c")
  ↔ "shard-01" = "shard-01" ∧ mkEndpoint "db-1" 5432 "a/b" = mkEndpoint "db-1" 5432 "a/c".
Proof. by apply (pool_key_injective "shard-01" "shard-01"). Defined.

(** The text of a data source name does not determine what it was built from:
    credentials and host are not escaped. *)
Example dsn_ambiguous :
  dsn (mkCredentials "u" "p") (mkEndpoint "evil@h" 1 "d") = dsn (mkCredentials "u" "p@evil") (mkEndpoint "h" 1 "d").
Proof. by vm_compute. Qed.

(** ** [Acquire] and the breaker *)

Section acquire.
Context {W P : Type} `{Driver W} `{Provider P}.
Variables (cfg : PoolConfig) (secrets : P).

(** The pool that [poolFor] returns is the one in the table. *)
Lemma poolFor_ok shard ep m w p m' w' :
  poolFor cfg secrets shard ep m w = (Ok p, m', w') →
  ∃ e, pools m' !! poolKey (ShardID shard) ep = Some e ∧ pool e = p.
Proof.
  unfold poolFor, lookup_pool. intros E.
  destruct (pools m !! _) as [e|] eqn:Hl.
  - injection E as <- <- <-. exists (mkEntry (pool e) (Now w)). cbn. by rewrite lookup_insert_eq.
  - destruct (create _ _ _ _ _) as [[u|e] w1]; [|done]. cbn in E. unfold install in E. cbn in E.
    rewrite Hl in E. injection E as <- <- <-. eexists. cbn. by rewrite lookup_insert_eq.
Qed.

(** The breaker of a shard, as the calls on it left it; [h] has the latest
    first. *)
Definition breaker_history (st : PoolState) (id : string) (h : list event) : Prop :=
  breakers st !! id = match h with [] => None | _ => Some (after h) end.

Lemma breaker_history_for st id h :
  breaker_history st id h →
  fst (For id (breakers st)) = after h ∧ snd (For id (breakers st)) !! id = Some (after h).
Proof.
  unfold breaker_history, For. destruct h; intros E; rewrite E; cbn [fst snd]; [|done].
  by rewrite lookup_insert_eq.
Qed.

(** One call through the pointer that [For] returned. *)
Lemma use_brk_history st id b f :
  breakers st !! id = Some b → breakers (use_brk id f st) !! id = Some (f b).
Proof. intros E. cbn. by apply on_breaker_lookup. Qed.

(** What an [Acquire] adds to the history of its shard. *)
Definition acquire_events (r : result PoolError PoolId) (start finish : Z) : list event :=
  match r with
  | Err (ErrBreaker _) => [EAllow start]
  | Err _ => [EFailure finish; EAllow start]
  | Ok _ => [ESuccess; EAllow start]
  end.

Lemma create_not_breaker shard ep w e w' :
  create cfg secrets shard ep w = (Err e, w') → ∀ s, e ≠ ErrBreaker s.
Proof. unfold create. intros E. by repeat (case_match; simplify_eq/=). Qed.

Lemma poolFor_not_breaker shard ep m w e m' w' :
  poolFor cfg secrets shard ep m w = (Err e, m', w') → ∀ s, e ≠ ErrBreaker s.
Proof.
  unfold poolFor. intros E. destruct (lookup_pool _ _ _) as [[p|] m1]; [done|].
  destruct (create cfg secrets shard ep w) as [[u|e'] w1] eqn:Ec.
  - by destruct (open_pool m1), (install _ _ _ _) as [[? ?] ?].
  - injection E as <- <- <-. by eapply create_not_breaker.
Qed.

Lemma acquire_events_failure e start finish :
  (∀ s, e ≠ ErrBreaker s) → acquire_events (Err e) start finish = [EFailure finish; EAllow start].
Proof. destruct e; naive_solver. Qed.

Lemma For_step_other id id' f st :
  id ≠ id' → breakers (use_brk id f (mkPoolState (mgr st) (snd (For id (breakers st))))) !! id'
             = breakers st !! id'.
Proof. intros. cbn. by rewrite on_breaker_other, For_other. Qed.

(** C28: every attempt to acquire a connection is reported to the breaker of its
    shard and to no other: a refused attempt changes neither the pools nor the
    world; any other one, failed for want of credentials, of a pool or of a
    connection, or successful, is followed by its outcome; a connection comes
    from the pool of its shard and endpoint. *)
Theorem acquire_reports (shard : ShardDef) (ep : Endpoint) (st st' : PoolState) (w w' : W)
    (r : result PoolError PoolId) (h : list event) :
  let id := ShardID shard in
  breaker_history st id h →
  Acquire cfg secrets shard ep st w = (r, st', w') →
  breaker_history st' id (acquire_events r (Now w) (Now w') ++ h)
  ∧ (∀ id', id ≠ id' → breakers st' !! id' = breakers st !! id')
  ∧ (fst (Allow (Now w) (after h)) = Err ErrOpen ↔ r = Err (ErrBreaker id))
  ∧ (r = Err (ErrBreaker id) → mgr st' = mgr st ∧ w' = w)
  ∧ (∀ p, r = Ok p → ∃ e, pools (mgr st') !! poolKey id ep = Some e ∧ pool e = p).
Proof.
  intros id Hh E. unfold Acquire in E. fold id in E.
  destruct (breaker_history_for st id h Hh) as [Hf Hl].
  pose proof (For_step_other id) as Hother. specialize (λ id' f, Hother id' f st).
  destruct (For id (breakers st)) as [b brk]. cbn [fst snd] in *. subst b.
  pose proof (use_brk_history (mkPoolState (mgr st) brk) id _ (λ b, snd (Allow (Now w) b)) Hl) as H1.
  change (snd (Allow (Now w) (after h))) with (after (EAllow (Now w) :: h)) in H1.
  destruct (fst (Allow (Now w) (after h))) as [u|[]] eqn:Ha.
  2: { injection E as <- <- <-. split_and!; try done. intros id' N. by apply Hother. }
  destruct (poolFor cfg secrets shard ep _ w) as [[r1 m1] w1] eqn:Ep.
  destruct r1 as [p|e].
  - destruct (AcquireConn p w1) as [[msg|] w2]; injection E as <- <- <-.
    + split_and!; [|intros id' N|done|done|done].
      * apply (use_brk_history (mkPoolState _ _) id _ (Failure (Now w2)) H1).
      * cbn. by rewrite on_breaker_other, <-(Hother id' (λ b, snd (Allow (Now w) b)) N) by done.
    + split_and!; [|intros id' N|done|done|intros p' [= <-]].
      * apply (use_brk_history (mkPoolState _ _) id _ Success H1).
      * cbn. by rewrite on_breaker_other, <-(Hother id' (λ b, snd (Allow (Now w) b)) N) by done.
      * by eapply poolFor_ok.
  - injection E as <- <- <-. pose proof (poolFor_not_breaker _ _ _ _ _ _ _ Ep) as Hne.
    rewrite acquire_events_failure by done.
    split_and!; [|intros id' N| | |done].
    + apply (use_brk_history (mkPoolState _ _) id _ (Failure (Now w1)) H1).
    + cbn. by rewrite on_breaker_other, <-(Hother id' (λ b, snd (Allow (Now w) b)) N) by done.
    + split; [done|]. intros [= ->]. by destruct (Hne id).
    + intros [= ->]. by destruct (Hne id).
Qed.

(** A tripped breaker keeps an attempt from everything behind it. *)
Lemma tripped_refused (shard : ShardDef) (ep : Endpoint) (st : PoolState) (w : W)
    (h : list event) (t : Z) :
  let id := ShardID shard in
  breaker_history st id h → Z.of_nat (length h) ≤ int64_max →
  5 ≤ failures h → probed (10 * second) h = false → last_failure h = Some t →
  time_since (Now w) t < 10 * second →
  Acquire cfg secrets shard ep st w = (Err (ErrBreaker id), st, w).
Proof.
  intros id Hh Hlen H5 Hp Ht Hnow.
  destruct (tripped_allow h (Now w) t Hlen H5 Hp Ht) as [Ha _]. specialize (Ha Hnow).
  destruct h as [|ev h]; [done|]. unfold breaker_history in Hh.
  unfold Acquire. fold id. rewrite (For_existing _ _ _ Hh), Ha. cbn [fst].
  do 2 f_equal. destruct st as [m brk]. unfold use_brk. cbn in *. f_equal.
  apply map_eq. intros id'. destruct (decide (id = id')) as [<-|N].
  - rewrite (on_breaker_lookup _ _ _ _ Hh), Hh. by rewrite Ha.
  - by rewrite on_breaker_other.
Qed.

(** A failing shard costs nothing: once five attempts in a row have failed,
    an attempt that comes less than ten seconds after the last failure is
    refused at once, without looking at the pools, the credentials or the
    network, and changes nothing. *)
Lemma tripped_shard_refused (shard : ShardDef) (ep : Endpoint) (st : PoolState) (w : W)
    (h : list event) (t : Z) :
  let id := ShardID shard in
  breaker_history st id h → Z.of_nat (length h) ≤ int64_max →
  5 ≤ failures h → probed (10 * second) h = false → last_failure h = Some t →
  time_since (Now w) t < 10 * second →
  Acquire cfg secrets shard ep st w = (Err (ErrBreaker id), st, w).
Proof. apply tripped_refused. Qed.
End acquire.

(** ** Examples *)

(** A driver whose world is the clock; every call takes a nanosecond, and
    connections are refused before instant 100. *)
Definition ex_driver : Driver Z := {|
  Now w := w;
  ParseConfig _ := None;
  NewWithConfig _ _ w := (None, w + 1);
  AcquireConn _ w := (if w <? 100 then Some "connection refused" else None, w + 1);
|}.
Definition ex_provider : Provider unit := {| ResolveRef _ _ := Ok (mkCredentials "u" "p") |}.
#[local] Existing Instances ex_driver ex_provider.

Definition ex_endpoint : Endpoint := mkEndpoint "h" 5432 "d".
Definition ex_pool_shard : ShardDef := mkShardDef "s1" ShardActive ex_endpoint None "ref" "".
Definition ex_acquire : PoolState → Z → result PoolError PoolId * PoolState * Z :=
  Acquire DefaultConfig tt ex_pool_shard ex_endpoint.

Definition ex_idle : PoolState := mkPoolState NewManager ∅.

(** Five attempts on a shard that refuses connections. *)
Definition ex_tripped : PoolState * Z :=
  Nat.iter 5 (λ '(st, w), let '(_, st, w) := ex_acquire st w in (st, w)) (ex_idle, 0).

Lemma acquire_reports_witness :
  let '(r, st', w') := ex_acquire ex_idle 7 in
  breaker_history st' "s1" (acquire_events r 7 w').
Proof.
  destruct (ex_acquire ex_idle 7) as [[r st'] w'] eqn:E.
  rewrite <-(app_nil_r (acquire_events r 7 w')).
  destruct (acquire_reports DefaultConfig tt ex_pool_shard ex_endpoint ex_idle st' 7 w' r [])
    as [R _]; [by vm_compute|exact E|exact R].
Defined.

Lemma tripped_shard_refused_witness :
  let '(st, w) := ex_tripped in
  w = 6 ∧ size (pools (mgr st)) = 1%nat
  ∧ ex_acquire st 12 = (Err (ErrBreaker "s1"), st, 12)
  ∧ fst (fst (ex_acquire st (11 * second))) = Ok 1%positive.
Proof.
  destruct ex_tripped as [st w] eqn:E. vm_compute in E. injection E as <- <-.
  split_and!; [done|by vm_compute| |by vm_compute].
  apply (tripped_shard_refused DefaultConfig tt ex_pool_shard ex_endpoint _ 12
    [EFailure 6; EAllow 5; EFailure 5; EAllow 4; EFailure 4; EAllow 3; EFailure 3; EAllow 2;
     EFailure 2; EAllow 0] 6); by vm_compute.
Defined.
