(* ===== verification/PoolSync.v ===== *)
(** * Package [pool]: many callers, the reaper and [Close]

    The critical sections of [Pool] as a step relation. A caller inside
    [poolFor], the reaper and [Close] interleave at the mutex; between the two
    sections of [poolFor] a caller owns a pool that nobody else knows. The
    theorems say that no pool is lost or closed twice, and what [Close] leaves
    behind. *)

From S2P Require Import Prelude GoInt GoString Model Breaker Secrets Pool.

(** ** Program counters *)

Inductive caller : Type :=
| CIdle
| CCreating (key : string)                    (* between the sections, no pool yet *)
| CInstalling (key : string) (p : PoolId)     (* [newPool] is open *)
| CClosing (p : PoolId).                      (* [newPool.Close()] is next *)

(** [reapLoop]: waiting for the ticker, or closing what it has taken out. *)
Inductive reaper : Type :=
| RWaiting
| RClosing (toClose : list PoolId)
| RStopped.

Record Sys := mkSys { manager : Manager; callers : gmap nat caller; reap : reaper }.

Definition caller_pc (s : Sys) (t : nat) : caller := default CIdle (callers s !! t).
Definition set_caller (t : nat) (c : caller) (m : Manager) (s : Sys) : Sys :=
  mkSys m (<[t := c]> (callers s)) (reap s).
Definition set_reaper (r : reaper) (m : Manager) (s : Sys) : Sys := mkSys m (callers s) r.

Definition initial : Sys := mkSys NewManager ∅ RWaiting.

(** One step, for the TTL of the configuration; clock readings are arbitrary. *)
Inductive pool_step (ttl : Z) (s : Sys) : Sys → Prop :=
| call_hit t now key p m :
    caller_pc s t = CIdle → lookup_pool now key (manager s) = (Some p, m) →
    pool_step ttl s (set_caller t CIdle m s)
| call_miss t now key m :
    caller_pc s t = CIdle → lookup_pool now key (manager s) = (None, m) →
    pool_step ttl s (set_caller t (CCreating key) m s)
| call_create_failed t key :
    caller_pc s t = CCreating key →
    pool_step ttl s (set_caller t CIdle (manager s) s)
| call_created t key p m :
    caller_pc s t = CCreating key → open_pool (manager s) = (p, m) →
    pool_step ttl s (set_caller t (CInstalling key p) m s)
| call_installed t now key p p' m :
    caller_pc s t = CInstalling key p → install now key p (manager s) = (p', false, m) →
    pool_step ttl s (set_caller t CIdle m s)
| call_lost t now key p p' m :
    caller_pc s t = CInstalling key p → install now key p (manager s) = (p', true, m) →
    pool_step ttl s (set_caller t (CClosing p) m s)
| call_closed t p :
    caller_pc s t = CClosing p →
    pool_step ttl s (set_caller t CIdle (close_pool p (manager s)) s)
| reap_tick now l m :
    reap s = RWaiting → reap_section now ttl (manager s) = (l, m) →
    pool_step ttl s (set_reaper (RClosing l) m s)
| reap_close p l :
    reap s = RClosing (p :: l) →
    pool_step ttl s (set_reaper (RClosing l) (close_pool p (manager s)) s)
| reap_done :
    reap s = RClosing [] →
    pool_step ttl s (set_reaper RWaiting (manager s) s)
| reap_stop :
    reap s = RWaiting → stopped (manager s) = true →
    pool_step ttl s (set_reaper RStopped (manager s) s)
| close_manager m :
    Close (manager s) = Some m →
    pool_step ttl s (mkSys m (callers s) (reap s)).

(** ** Ownership

    Every open pool is in exactly one place: in the table under one key, with
    a caller that has not installed it, or with the reaper. *)
Inductive owner : Type :=
| OTable (key : string)
| OCaller (t : nat)
| OReaper.

Definition caller_pool (c : caller) : option PoolId :=
  match c with CInstalling _ p | CClosing p => Some p | _ => None end.
Definition reaper_pools (r : reaper) : list PoolId :=
  match r with RClosing l => l | _ => [] end.

Definition owns (s : Sys) (o : owner) (p : PoolId) : Prop :=
  match o with
  | OTable key => pool <$> pools (manager s) !! key = Some p
  | OCaller t => caller_pool (caller_pc s t) = Some p
  | OReaper => p ∈ reaper_pools (reap s)
  end.

Record inv (s : Sys) : Prop := {
  inv_opened p : p ∈ opened (manager s) ↔ ∃ o, owns s o p;
  inv_unique o1 o2 p : owns s o1 p → owns s o2 p → o1 = o2;
  inv_nodup : NoDup (reaper_pools (reap s));
  inv_fresh p : p ∈ opened (manager s) → (p < fresh (manager s))%positive;
}.

Lemma owns_set_caller t c m s o p :
  owns (set_caller t c m s) o p ↔
    match o with
    | OTable key => pool <$> pools m !! key = Some p
    | OCaller t' => if decide (t = t') then caller_pool c = Some p else owns s o p
    | OReaper => owns s o p
    end.
Proof.
  destruct o as [key|t'|]; [done| |done]. cbn. unfold caller_pc. cbn.
  case_decide as Ht; [subst; by rewrite lookup_insert_eq|by rewrite lookup_insert_ne].
Qed.

(** ** Four ways a step changes who owns what *)

Lemma inv_same s s' :
  inv s → (∀ o p, owns s' o p ↔ owns s o p) → opened (manager s') = opened (manager s) →
  reaper_pools (reap s') = reaper_pools (reap s) → fresh (manager s') = fresh (manager s) → inv s'.
Proof.
  intros [Ho Hu Hn Hf] Hown Eo Er Ef. split.
  - intros p. rewrite Eo, Ho. by setoid_rewrite Hown.
  - intros o1 o2 p. rewrite !Hown. apply Hu.
  - by rewrite Er.
  - intros p. rewrite Eo, Ef. apply Hf.
Qed.

Lemma inv_add s s' o0 p0 :
  inv s → p0 = fresh (manager s) → fresh (manager s') = Pos.succ p0 →
  (∀ o p, owns s' o p ↔ owns s o p ∨ (o = o0 ∧ p = p0)) →
  opened (manager s') = {[p0]} ∪ opened (manager s) →
  reaper_pools (reap s') = reaper_pools (reap s) → inv s'.
Proof.
  intros [Ho Hu Hn Hf] E0 Ef Hown Eo Er.
  assert (∀ o, ¬ owns s o p0) as Hnew.
  { intros o Hp. assert (p0 ∈ opened (manager s)) as Hin%Hf by (apply Ho; eauto). lia. }
  split.
  - intros p. rewrite Eo, elem_of_union, elem_of_singleton, Ho. setoid_rewrite Hown. naive_solver.
  - intros o1 o2 p. rewrite !Hown. naive_solver.
  - by rewrite Er.
  - intros p. rewrite Eo, Ef, elem_of_union, elem_of_singleton. intros [->|Hp%Hf]; lia.
Qed.

Lemma inv_move s s' o0 o1 p0 :
  inv s → owns s o0 p0 →
  (∀ o p, owns s' o p ↔ (p ≠ p0 ∧ owns s o p) ∨ (p = p0 ∧ o = o1)) →
  opened (manager s') = opened (manager s) →
  reaper_pools (reap s') = reaper_pools (reap s) → fresh (manager s') = fresh (manager s) → inv s'.
Proof.
  intros [Ho Hu Hn Hf] H0 Hown Eo Er Ef. split.
  - intros p. rewrite Eo, Ho. setoid_rewrite Hown. destruct (decide (p = p0)) as [->|]; naive_solver.
  - intros oa ob p. rewrite !Hown. naive_solver.
  - by rewrite Er.
  - intros p. rewrite Eo, Ef. apply Hf.
Qed.

(** Pools closed: they leave their owners, who keep the rest. *)
Lemma inv_remove s s' (gone : PoolId → Prop) :
  inv s → (∀ o p, owns s' o p ↔ owns s o p ∧ ¬ gone p) →
  (∀ p, p ∈ opened (manager s') ↔ p ∈ opened (manager s) ∧ ¬ gone p) →
  NoDup (reaper_pools (reap s')) → fresh (manager s') = fresh (manager s) → inv s'.
Proof.
  intros [Ho Hu Hn Hf] Hown Eo Er Ef. split.
  - intros p. rewrite Eo, Ho. setoid_rewrite Hown. naive_solver.
  - intros oa ob p. rewrite !Hown. naive_solver.
  - done.
  - intros p. rewrite Eo, Ef. intros [? _]. by apply Hf.
Qed.

(** ** Every step preserves the invariant *)

Lemma inv_hit s t now key p m :
  inv s → caller_pc s t = CIdle → lookup_pool now key (manager s) = (Some p, m) →
  inv (set_caller t CIdle m s).
Proof.
  intros Hi Ht Hl. unfold lookup_pool in Hl. destruct (pools (manager s) !! key) as [e|] eqn:Ek; [|done].
  injection Hl as <- <-. apply (inv_same s); [done| |done|done|done].
  intros o q. rewrite owns_set_caller. destruct o as [k|t'|]; [| |done]; cbn.
  - destruct (decide (key = k)) as [<-|N]; [by rewrite lookup_insert_eq, Ek|by rewrite lookup_insert_ne].
  - case_decide as E; [subst t'|done]. by rewrite Ht.
Qed.

(** A step of a caller that touches neither the table nor a pool. *)
Lemma inv_caller s t c :
  inv s → caller_pool c = caller_pool (caller_pc s t) → inv (set_caller t c (manager s) s).
Proof.
  intros Hi Hc. apply (inv_same s); [done| |done|done|done].
  intros o q. rewrite owns_set_caller. destruct o as [k|t'|]; [done| |done]. cbn.
  case_decide as E; [subst t'|done]. by rewrite Hc.
Qed.

Lemma inv_created s t key p m :
  inv s → caller_pc s t = CCreating key → open_pool (manager s) = (p, m) →
  inv (set_caller t (CInstalling key p) m s).
Proof.
  intros Hi Ht [= <- <-]. apply (inv_add s _ (OCaller t) (fresh (manager s))); [done..| |done|done].
  intros o q. rewrite owns_set_caller. destruct o as [k|t'|]; cbn; [naive_solver| |naive_solver].
  case_decide as E; [subst t'; rewrite Ht; cbn|]; naive_solver.
Qed.

Lemma inv_installed s t now key p p' m :
  inv s → caller_pc s t = CInstalling key p → install now key p (manager s) = (p', false, m) →
  inv (set_caller t CIdle m s).
Proof.
  intros Hi Ht Hl. unfold install in Hl. destruct (pools (manager s) !! key) as [e|] eqn:Ek; [done|].
  injection Hl as <- <-.
  assert (owns s (OCaller t) p) as H0 by (cbn; by rewrite Ht).
  apply (inv_move s _ (OCaller t) (OTable key) p); [done|done| |done|done|done].
  intros o q. rewrite owns_set_caller. pose proof (inv_unique _ Hi _ o p H0) as Huniq.
  destruct o as [k|t'|]; cbn in *.
  - destruct (decide (key = k)) as [<-|N].
    + rewrite lookup_insert_eq, Ek. cbn. naive_solver.
    + rewrite lookup_insert_ne by done. split; [|naive_solver].
      intros Hq. left. split; [|done]. intros ->. specialize (Huniq Hq). congruence.
  - case_decide as E; [subst t'; rewrite Ht; cbn; naive_solver|]. split; [|naive_solver].
    intros Hq. left. split; [|done]. intros ->. specialize (Huniq Hq). congruence.
  - split; [|naive_solver]. intros Hq. left. split; [|done]. intros ->. specialize (Huniq Hq). congruence.
Qed.

Lemma install_lost now key p m p' m' : install now key p m = (p', true, m') → m' = m.
Proof. unfold install. by destruct (pools m !! key); intros [=]. Qed.

Lemma lookup_miss now key m m' : lookup_pool now key m = (None, m') → m' = m.
Proof. unfold lookup_pool. by destruct (pools m !! key); intros [=]. Qed.

Lemma inv_closed s t p :
  inv s → caller_pc s t = CClosing p → inv (set_caller t CIdle (close_pool p (manager s)) s).
Proof.
  intros Hi Ht. assert (owns s (OCaller t) p) as H0 by (cbn; by rewrite Ht).
  apply (inv_remove s _ (λ q, q = p)); [done| | |exact (inv_nodup _ Hi)|done].
  - intros o q. rewrite owns_set_caller. pose proof (inv_unique _ Hi (OCaller t) o q) as Huniq.
    destruct o as [k|t'|]; cbn in *.
    + split; [|naive_solver]. intros Hq. split; [done|]. intros ->. by specialize (Huniq H0 Hq).
    + case_decide as E; [subst t'; rewrite Ht; cbn; naive_solver|].
      split; [|naive_solver]. intros Hq. split; [done|]. intros ->.
      specialize (Huniq H0 Hq). congruence.
    + split; [|naive_solver]. intros Hq. split; [done|]. intros ->. by specialize (Huniq H0 Hq).
  - intros q. cbn. set_solver.
Qed.

(** ** The reaper and [Close] *)

Lemma reap_section_elem now ttl m p :
  p ∈ fst (reap_section now ttl m) ↔
    ∃ k e, pools m !! k = Some e ∧ pool e = p ∧ expired now ttl e = true.
Proof.
  cbn. rewrite list_elem_of_fmap. split.
  - intros ([k e] & -> & Hin%elem_of_map_to_list).
    apply map_lookup_filter_Some in Hin as [Hk He]. by exists k, e.
  - intros (k & e & Hk & <- & He). exists (k, e). split; [done|].
    apply elem_of_map_to_list. by apply map_lookup_filter_Some.
Qed.

(** Distinct entries of the table are distinct pools. *)
Lemma table_nodup m (P : string * entry → Prop) `{!∀ x, Decision (P x)} :
  (∀ k1 k2 e1 e2, pools m !! k1 = Some e1 → pools m !! k2 = Some e2 → pool e1 = pool e2 → k1 = k2) →
  NoDup (map (λ kv, pool kv.2) (map_to_list (filter P (pools m)))).
Proof.
  intros Hinj. apply NoDup_fmap_2_strong; [|apply NoDup_map_to_list].
  intros [k1 e1] [k2 e2] H1%elem_of_map_to_list H2%elem_of_map_to_list E.
  apply map_lookup_filter_Some in H1 as [H1 _], H2 as [H2 _].
  assert (k1 = k2) as -> by by eapply Hinj. congruence.
Qed.

Lemma table_injective s : inv s → ∀ k1 k2 e1 e2,
  pools (manager s) !! k1 = Some e1 → pools (manager s) !! k2 = Some e2 → pool e1 = pool e2 →
  k1 = k2.
Proof.
  intros Hi k1 k2 e1 e2 H1 H2 E.
  assert (OTable k1 = OTable k2) as [=]; [|done].
  apply (inv_unique _ Hi _ _ (pool e1)); cbn; rewrite ?H1, ?H2; cbn; congruence.
Qed.

(** The table keeps what the reaper does not take. *)
Lemma owns_tick_table s now ttl l m k p :
  inv s → reap_section now ttl (manager s) = (l, m) →
  owns (set_reaper (RClosing l) m s) (OTable k) p ↔ owns s (OTable k) p ∧ p ∉ l.
Proof.
  intros Hi E. pose proof (reap_section_elem now ttl (manager s) p) as Hl. rewrite E in Hl.
  cbn [fst] in Hl. unfold reap_section in E. injection E as _ <-. cbn.
  rewrite !fmap_Some, Hl. setoid_rewrite map_lookup_filter_Some. split.
  - intros (e & [Hk He] & ->). split; [by exists e|]. intros (k' & e' & Hk' & Ep & He'). cbn in He.
    assert (k' = k) as -> by by eapply (table_injective s). congruence.
  - intros [(e & Hk & ->) Hno]. exists e. split; [|done]. split; [done|]. cbn.
    destruct (expired now ttl e) eqn:He; [|done]. destruct Hno. by exists k, e.
Qed.

Lemma inv_tick s now ttl l m :
  inv s → reap s = RWaiting → reap_section now ttl (manager s) = (l, m) →
  inv (set_reaper (RClosing l) m s).
Proof.
  intros Hi Hr E. pose proof (λ k p, owns_tick_table s now ttl l m k p Hi E) as Htab.
  pose proof (λ p, reap_section_elem now ttl (manager s) p) as Hl.
  assert (NoDup (fst (reap_section now ttl (manager s)))) as Hnd.
  { apply table_nodup, table_injective, Hi. }
  rewrite E in Hl, Hnd. cbn [fst] in Hl, Hnd.
  assert (opened m = opened (manager s) ∧ fresh m = fresh (manager s)) as [Eo Ef].
  { unfold reap_section in E. by injection E as _ <-. }
  set (s' := set_reaper (RClosing l) m s) in *.
  assert (∀ p, p ∈ l → ∃ k, owns s (OTable k) p) as Hin.
  { intros p (k & e & Hk & <- & _)%Hl. exists k. cbn. by rewrite Hk. }
  assert (∀ p, ¬ owns s OReaper p) as Hnone.
  { intros p. cbn. rewrite Hr. apply not_elem_of_nil. }
  destruct Hi as [Ho Hu Hn Hf]. split.
  - intros p. cbn [manager s' set_reaper]. rewrite Eo, Ho. split.
    + intros [o Hp]. destruct (decide (p ∈ l)) as [Hpl|Hpl]; [by exists OReaper|].
      destruct o as [k|t|]; [exists (OTable k); by apply Htab|by exists (OCaller t)|].
      by apply Hnone in Hp.
    + intros [[k|t|] Hp]; [apply Htab in Hp as [Hp _]; by exists (OTable k)|by exists (OCaller t)|].
      apply Hin in Hp as [k Hp]. by exists (OTable k).
  - assert (∀ o p, owns s' o p → ∃ o', owns s o' p ∧ (o' = o ∨ (o = OReaper ∧ p ∈ l))) as Hback.
    { intros [k|t|] p Hp; [apply Htab in Hp as [Hp _]; by eauto|exists (OCaller t); by auto|].
      destruct (Hin p Hp) as [k Hk]. eauto. }
    assert (∀ o p, owns s' o p → p ∈ l → o = OReaper) as Hreap.
    { intros [k|t|] p Hp Hpl; [by apply Htab in Hp as [_ Hp]| |done].
      destruct (Hin p Hpl) as [k Hk]. by pose proof (Hu _ (OCaller t) _ Hk Hp). }
    intros o1 o2 p H1 H2.
    destruct (decide (p ∈ l)) as [Hpl|Hpl]; [by rewrite (Hreap o1 p), (Hreap o2 p)|].
    destruct (Hback o1 p H1) as (o1' & H1' & [->|[_ ?]]); [|done].
    destruct (Hback o2 p H2) as (o2' & H2' & [->|[_ ?]]); [|done]. by eapply Hu.
  - exact Hnd.
  - intros p. cbn [manager s' set_reaper]. rewrite Eo, Ef. apply Hf.
Qed.

Lemma inv_reap_close s p l :
  inv s → reap s = RClosing (p :: l) → inv (set_reaper (RClosing l) (close_pool p (manager s)) s).
Proof.
  intros Hi Hr. pose proof (inv_nodup _ Hi) as Hnd. rewrite Hr in Hnd. cbn in Hnd.
  apply NoDup_cons in Hnd as [Hp Hnd].
  assert (owns s OReaper p) as H0 by (cbn; rewrite Hr; cbn; set_solver).
  apply (inv_remove s _ (λ q, q = p)); [done| | |exact Hnd|done].
  - intros o q. pose proof (inv_unique _ Hi OReaper o q) as Huniq. destruct o as [k|t|]; cbn in *.
    + split; [|naive_solver]. intros Hq. split; [done|]. intros ->. by specialize (Huniq H0 Hq).
    + change (caller_pool (caller_pc s t) = Some q ↔ caller_pool (caller_pc s t) = Some q ∧ q ≠ p).
      split; [|naive_solver]. intros Hq. split; [done|]. intros ->. by specialize (Huniq H0 Hq).
    + rewrite Hr. cbn. rewrite elem_of_cons. split; [|naive_solver]. intros Hq. split; [by right|].
      by intros ->.
  - intros q. cbn. set_solver.
Qed.

Lemma inv_close s m : inv s → Close (manager s) = Some m → inv (mkSys m (callers s) (reap s)).
Proof.
  intros Hi E. unfold Close in E. destruct (stopped (manager s)); [done|]. injection E as <-.
  assert (∀ q, q ∈ map (λ kv, pool kv.2) (map_to_list (pools (manager s))) ↔ ∃ k, owns s (OTable k) q)
    as Hq.
  { intros q. rewrite list_elem_of_fmap. cbn. setoid_rewrite fmap_Some. split.
    - intros ([k e] & -> & Hin%elem_of_map_to_list). by exists k, e.
    - intros (k & e & Hk & ->). exists (k, e). split; [done|]. by apply elem_of_map_to_list. }
  apply (inv_remove s _ (λ q, ∃ k, owns s (OTable k) q)); [done| | |exact (inv_nodup _ Hi)|done].
  - intros o q. destruct o as [k|t|]; cbn [owns manager pools reap].
    + rewrite lookup_empty. split; [done|]. intros [Hk []]. by exists k.
    + change (owns s (OCaller t) q ↔ owns s (OCaller t) q ∧ ¬ ∃ k, owns s (OTable k) q).
      split; [|naive_solver]. intros Hc. split; [done|]. intros [k Hk].
      by pose proof (inv_unique _ Hi _ _ _ Hc Hk).
    + change (owns s OReaper q ↔ owns s OReaper q ∧ ¬ ∃ k, owns s (OTable k) q).
      split; [|naive_solver]. intros Hc. split; [done|]. intros [k Hk].
      by pose proof (inv_unique _ Hi _ _ _ Hc Hk).
  - intros q. cbn [opened manager]. rewrite elem_of_difference, elem_of_list_to_set, Hq. done.
Qed.

Lemma inv_step ttl s s' : inv s → pool_step ttl s s' → inv s'.
Proof.
  intros Hi Hs. destruct Hs.
  - by eapply inv_hit.
  - assert (m = manager s) as -> by by eapply lookup_miss.
    apply inv_caller; [done|]. by rewrite H.
  - apply inv_caller; [done|]. by rewrite H.
  - by eapply inv_created.
  - by eapply inv_installed.
  - assert (m = manager s) as -> by by eapply install_lost.
    apply inv_caller; [done|]. by rewrite H.
  - by apply inv_closed.
  - by eapply inv_tick.
  - by apply inv_reap_close.
  - apply (inv_same s); [done| |done|cbn; by rewrite H|done].
    intros o p. destruct o; cbn; [done|done|]. by rewrite H.
  - apply (inv_same s); [done| |done|cbn; by rewrite H|done].
    intros o p. destruct o; cbn; [done|done|]. by rewrite H.
  - by apply inv_close.
Qed.

Definition reachable (ttl : Z) (s : Sys) : Prop := rtc (pool_step ttl) initial s.

Lemma inv_initial : inv initial.
Proof.
  split.
  - intros p. split; [done|]. intros [[k|t|] H]; cbn in H.
    + by rewrite lookup_empty in H.
    + unfold caller_pc in H. cbn in H. by rewrite lookup_empty in H.
    + by apply elem_of_nil in H.
  - intros [k|t|] o2 p H _; cbn in H.
    + by rewrite lookup_empty in H.
    + unfold caller_pc in H. cbn in H. by rewrite lookup_empty in H.
    + by apply elem_of_nil in H.
  - constructor.
  - done.
Qed.

Lemma inv_steps ttl s s' : inv s → rtc (pool_step ttl) s s' → inv s'.
Proof. intros Hi Hs. induction Hs as [|s1 s2 s3 H _ IH]; [done|]. by apply IH, (inv_step ttl s1). Qed.

Lemma reachable_inv ttl s : reachable ttl s → inv s.
Proof. apply inv_steps, inv_initial. Qed.

(** ** Properties *)

(** Nobody is between two steps with a pool in hand. *)
Definition quiescent (s : Sys) : Prop :=
  (∀ t, caller_pool (caller_pc s t) = None) ∧ reaper_pools (reap s) = [].

(** The pools of the table. *)
Definition table_pools (m : Manager) : gset PoolId :=
  list_to_set (map (λ kv, pool kv.2) (map_to_list (pools m))).

Lemma elem_of_table_pools m p : p ∈ table_pools m ↔ ∃ k e, pools m !! k = Some e ∧ pool e = p.
Proof.
  unfold table_pools. rewrite elem_of_list_to_set, list_elem_of_fmap. split.
  - intros ([k e] & -> & Hin%elem_of_map_to_list). by exists k, e.
  - intros (k & e & Hk & <-). exists (k, e). split; [done|]. by apply elem_of_map_to_list.
Qed.

(** C11: pools are neither lost nor shared nor closed while in use: however the
    callers, the reaper and [Close] interleave, a pool in the table is open, two
    keys never have the same pool, and when nobody is in the middle of an
    operation the open pools are exactly those of the table: the losers of a
    race and the reaped pools are all closed. *)
Theorem pools_owned_once (ttl : Z) (s : Sys) :
  reachable ttl s →
  (∀ k e, pools (manager s) !! k = Some e → pool e ∈ opened (manager s))
  ∧ (∀ k1 k2 e1 e2, pools (manager s) !! k1 = Some e1 → pools (manager s) !! k2 = Some e2 →
       pool e1 = pool e2 → k1 = k2)
  ∧ (quiescent s → opened (manager s) = table_pools (manager s)).
Proof.
  intros Hi%reachable_inv. split_and!.
  - intros k e Hk. apply (inv_opened _ Hi). exists (OTable k). cbn. by rewrite Hk.
  - by apply table_injective.
  - intros [Hc Hr]. apply set_eq. intros p. rewrite (inv_opened _ Hi), elem_of_table_pools. split.
    + intros [[k|t|] Hp]; cbn in Hp.
      * apply fmap_Some in Hp as (e & Hk & ->). by exists k, e.
      * by rewrite Hc in Hp.
      * rewrite Hr in Hp. by apply elem_of_nil in Hp.
    + intros (k & e & Hk & <-). exists (OTable k). cbn. by rewrite Hk.
Qed.

(** Two callers race for one key; the second one loses. *)
Lemma ex_race : ∃ s, reachable 10 s ∧ quiescent s
  ∧ opened (manager s) = {[ 1%positive ]} ∧ fresh (manager s) = 3%positive.
Proof.
  eexists. split.
  - eapply rtc_l; [by apply (call_miss 10 _ 0 100 "k")|].
    eapply rtc_l; [by apply (call_miss 10 _ 1 100 "k")|].
    eapply rtc_l; [by eapply (call_created 10 _ 0 "k")|].
    eapply rtc_l; [by eapply (call_created 10 _ 1 "k")|].
    eapply rtc_l; [by eapply (call_installed 10 _ 0 101 "k")|].
    eapply rtc_l; [by eapply (call_lost 10 _ 1 102 "k")|].
    eapply rtc_l; [by eapply (call_closed 10 _ 1)|].
    apply rtc_refl.
  - split_and!; [split; [|done]|by vm_compute|by vm_compute].
    intros t. unfold caller_pc. cbn.
    do 2 (destruct t as [|t]; [by vm_compute|]).
    rewrite !lookup_insert_ne by done. by rewrite lookup_empty.
Qed.

Lemma pools_owned_once_witness :
  ∃ s, reachable 10 s ∧ fresh (manager s) = 3%positive ∧ opened (manager s) = table_pools (manager s).
Proof.
  destruct ex_race as (s & Hr & Hq & _ & Hf). exists s. split_and!; [done|done|].
  by apply (pools_owned_once 10 s Hr).
Defined.

(** Once the manager is closed and the reaper has stopped, a pool of the table
    stays open for ever. *)
Definition abandoned (s : Sys) (key : string) (p : PoolId) : Prop :=
  inv s ∧ stopped (manager s) = true ∧ reap s = RStopped
  ∧ pool <$> pools (manager s) !! key = Some p.

Lemma abandoned_step ttl s s' key p : abandoned s key p → pool_step ttl s s' → abandoned s' key p.
Proof.
  intros (Hi & Hst & Hr & Hk) Hs. split; [by eapply inv_step|].
  destruct Hs as [t now k q m _ E|t now k m _ E|t k _|t k q m _ E|t now k q q' m _ E
    |t now k q q' m _ E|t q _|now l m E _|q l E|E|E _|m E]; try congruence; cbn.
  - unfold lookup_pool in E. destruct (pools (manager s) !! k) as [e|] eqn:Ek; [|done].
    injection E as _ <-. split_and!; [done..|]. cbn. destruct (decide (k = key)) as [->|N].
    + rewrite lookup_insert_eq. rewrite Ek in Hk. done.
    + by rewrite lookup_insert_ne.
  - by apply lookup_miss in E as ->.
  - done.
  - by injection E as _ <-.
  - unfold install in E. destruct (pools (manager s) !! k) as [e|] eqn:Ek; [done|].
    injection E as _ <-. split_and!; [done..|]. cbn.
    rewrite lookup_insert_ne; [done|]. intros ->. by rewrite Ek in Hk.
  - by apply install_lost in E as ->.
  - done.
  - unfold Close in E. by rewrite Hst in E.
Qed.

Lemma abandoned_steps ttl s s' key p :
  abandoned s key p → rtc (pool_step ttl) s s' → abandoned s' key p.
Proof.
  intros Ha Hs. induction Hs as [|s1 s2 s3 H _ IH]; [done|].
  by apply IH, (abandoned_step ttl s1).
Qed.

(** A caller that creates its pool while [Close] runs. *)
Lemma ex_late ttl : ∃ s, reachable ttl s ∧ quiescent s ∧ abandoned s "k" 1%positive.
Proof.
  assert (∃ s, reachable ttl s ∧ quiescent s ∧ stopped (manager s) = true ∧ reap s = RStopped
            ∧ pool <$> pools (manager s) !! "k" = Some 1%positive) as (s & Hr & Hq & H).
  2: { exists s. split_and!; [done|done|]. split; [by eapply reachable_inv|done]. }
  eexists. split.
  - eapply rtc_l; [by apply (call_miss ttl _ 0 100 "k")|].
    eapply rtc_l; [by eapply (call_created ttl _ 0 "k")|].
    eapply rtc_l; [by eapply (close_manager ttl)|].
    eapply rtc_l; [by apply (reap_stop ttl)|].
    eapply rtc_l; [by eapply (call_installed ttl _ 0 101 "k")|].
    apply rtc_refl.
  - split; [|by vm_compute]. split; [|done]. intros t. unfold caller_pc. cbn.
    destruct t as [|t]; [by vm_compute|]. rewrite !lookup_insert_ne by done. by rewrite lookup_empty.
Qed.

(** [Close] does not close every pool: a caller that is creating its pool
    while [Close] runs installs it afterwards; the reaper is gone, [Close]
    cannot be called again, and the pool stays open whatever happens next. *)
Lemma close_leaks_late_pool (ttl : Z) :
  ∃ s p, reachable ttl s ∧ quiescent s ∧ stopped (manager s) = true
    ∧ ∀ s', rtc (pool_step ttl) s s' → p ∈ opened (manager s') ∧ Close (manager s') = None.
Proof.
  destruct (ex_late ttl) as (s & Hr & Hq & Ha). exists s, 1%positive.
  split_and!; [done|done|apply Ha|]. intros s' Hs'.
  apply (abandoned_steps ttl s s' _ _ Ha) in Hs' as (Hi & Hst & _ & Hk).
  split; [|by unfold Close; rewrite Hst]. apply (inv_opened _ Hi). by exists (OTable "k").
Qed.

Lemma close_pools_opened l m p :
  p ∈ opened (foldl (λ m p, close_pool p m) m l) ↔ p ∈ opened m ∧ p ∉ l.
Proof.
  revert m. induction l as [|q l IH]; intros m; cbn [foldl]; [set_solver|].
  rewrite IH. cbn. set_solver.
Qed.

Lemma close_pools_table l m : pools (foldl (λ m p, close_pool p m) m l) = pools m.
Proof. revert m. induction l as [|q l IH]; intros m; cbn [foldl]; [done|]. by rewrite IH. Qed.

(** A reap closes the pools that have been idle for longer than the TTL and
    no other: the table keeps exactly the entries used within the TTL, and a
    pool is closed exactly when some entry of it is older. *)
Lemma reap_closes_idle (now ttl : Z) (m : Manager) :
  (∀ k e, pools (reapOnce now ttl m) !! k = Some e ↔
     pools m !! k = Some e ∧ time_since now (lastUsed e) ≤ ttl)
  ∧ (∀ p, p ∈ opened (reapOnce now ttl m) ↔
       p ∈ opened m
       ∧ ∀ k e, pools m !! k = Some e → pool e = p → time_since now (lastUsed e) ≤ ttl).
Proof.
  assert (∀ e, expired now ttl e = false ↔ time_since now (lastUsed e) ≤ ttl) as Hexp.
  { intros e. apply Z.ltb_ge. }
  unfold reapOnce. pose proof (reap_section_elem now ttl m) as Hl.
  destruct (reap_section now ttl m) as [l m1] eqn:E. cbn [fst] in Hl. unfold reap_section in E.
  injection E as _ <-. split.
  - intros k e. rewrite close_pools_table. cbn. by rewrite map_lookup_filter_Some, <-Hexp.
  - intros p. rewrite close_pools_opened, Hl. cbn. split; intros [Ho Hp]; (split; [done|]).
    + intros k e Hk He. apply Hexp. destruct (expired now ttl e) eqn:Ee; [|done].
      destruct Hp. by exists k, e.
    + intros (k & e & Hk & He & Hx). specialize (Hp k e Hk He). apply Hexp in Hp. congruence.
Qed.
