(* ===== verification/PoolDrain.v ===== *)
(** * Package [pool]: [Close] against the connections that are out

    [Close] of [internal/pool/manager.go] holds the mutex while it closes the
    pools one after the other, and [Close] of a pool of the driver first refuses
    new acquisitions and then waits until the connections that are out have been
    given back. This file runs it against the goroutines that use the manager:
    each goes through [Acquire] once, holds at most one connection, and gives
    it back. The theorems say when [Close] returns, and what it waits for. *)

From S2P Require Import Prelude GoInt GoString Model Breaker Secrets Pool.

(** ** State *)

(** A goroutine inside [Acquire], or between [Acquire] and [Release]. *)
Inductive user : Type :=
| UWants (key : string)                    (* before the first section of [poolFor] *)
| UCreating (key : string)                 (* without the mutex, no pool yet *)
| UInstalling (key : string) (p : PoolId)  (* before the second section *)
| UHasPool (p : PoolId)                    (* before [p.Acquire] *)
| UHasConn (p : PoolId)                    (* before [Release] *)
| UDone.

#[global] Instance user_eq_dec : EqDecision user.
Proof. solve_decision. Defined.

(** [Close] of the manager; the mutex is held in the two middle states. *)
Inductive closer : Type :=
| CIdle
| CClosing (rest : list (string * PoolId))
| CWaiting (key : string) (p : PoolId) (rest : list (string * PoolId))   (* in [p.Close()] *)
| CDone.

#[global] Instance closer_eq_dec : EqDecision closer.
Proof. solve_decision. Defined.

(** [shut] holds the pools that refuse acquisitions. *)
Record Drain := mkDrain {
  manager : Manager;
  shut : gset PoolId;
  users : list user;
  closing : closer;
}.

Definition locked (s : Drain) : bool :=
  match closing s with CClosing _ | CWaiting _ _ _ => true | _ => false end.

(** A connection of the pool is out. *)
Definition lent (s : Drain) (p : PoolId) : Prop := UHasConn p ∈ users s.

#[global] Instance lent_dec s p : Decision (lent s p).
Proof. unfold lent. apply _. Defined.

Definition set_user (t : nat) (u : user) (m : Manager) (s : Drain) : Drain :=
  mkDrain m (shut s) (<[t := u]> (users s)) (closing s).

Definition delete_key (key : string) : Manager → Manager := set_pools (delete key).

(** ** Steps, labelled by the goroutine that moves; [None] is [Close] *)

Inductive drain_step (s : Drain) : option nat → Drain → Prop :=
| user_hit t now key p m :
    users s !! t = Some (UWants key) → locked s = false →
    lookup_pool now key (manager s) = (Some p, m) →
    drain_step s (Some t) (set_user t (UHasPool p) m s)
| user_miss t now key m :
    users s !! t = Some (UWants key) → locked s = false →
    lookup_pool now key (manager s) = (None, m) →
    drain_step s (Some t) (set_user t (UCreating key) m s)
| user_not_created t key :
    users s !! t = Some (UCreating key) →
    drain_step s (Some t) (set_user t UDone (manager s) s)
| user_created t key p m :
    users s !! t = Some (UCreating key) → open_pool (manager s) = (p, m) →
    drain_step s (Some t) (set_user t (UInstalling key p) m s)
| user_installs t now key p p' (lost : bool) m :
    users s !! t = Some (UInstalling key p) → locked s = false →
    install now key p (manager s) = (p', lost, m) →
    drain_step s (Some t) (set_user t (UHasPool p') (if lost then close_pool p m else m) s)
| user_refused t p :
    users s !! t = Some (UHasPool p) →
    drain_step s (Some t) (set_user t UDone (manager s) s)
| user_acquires t p :
    users s !! t = Some (UHasPool p) → p ∉ shut s →
    drain_step s (Some t) (set_user t (UHasConn p) (manager s) s)
| user_releases t p :
    users s !! t = Some (UHasConn p) →
    drain_step s (Some t) (set_user t UDone (manager s) s)
| close_locks rest :
    closing s = CIdle → rest ≡ₚ map (λ kv, (kv.1, pool kv.2)) (map_to_list (pools (manager s))) →
    drain_step s None (mkDrain (manager s) (shut s) (users s) (CClosing rest))
| close_starts key p rest :
    closing s = CClosing ((key, p) :: rest) →
    drain_step s None (mkDrain (manager s) ({[p]} ∪ shut s) (users s) (CWaiting key p rest))
| close_returns key p rest :
    closing s = CWaiting key p rest → ¬ lent s p →
    drain_step s None (mkDrain (close_pool p (delete_key key (manager s))) (shut s) (users s)
                         (CClosing rest))
| close_unlocks :
    closing s = CClosing [] →
    drain_step s None (mkDrain (manager s) (shut s) (users s) CDone).

Definition any_step (s s' : Drain) : Prop := ∃ who, drain_step s who s'.

(** ** How much is left to do *)

Definition user_work (u : user) : nat :=
  match u with
  | UWants _ => 8 | UCreating _ => 7 | UInstalling _ _ => 6
  | UHasPool _ => 2 | UHasConn _ => 1 | UDone => 0
  end.

(** While [Close] has not started, what it has to do grows with the table. *)
Definition close_work (s : Drain) : nat :=
  match closing s with
  | CIdle => 2 * size (pools (manager s)) + 2
  | CClosing rest => 2 * length rest + 1
  | CWaiting _ _ rest => 2 * length rest + 2
  | CDone => 0
  end.

Definition drain_work (s : Drain) : nat := sum_list (map user_work (users s)) + close_work s.

Lemma sum_update (l : list user) t u u' :
  l !! t = Some u →
  (sum_list (map user_work (<[t := u']> l)) + user_work u
   = sum_list (map user_work l) + user_work u')%nat.
Proof.
  revert t. induction l as [|x l IH]; intros [|t]; cbn; [done|done| |].
  - intros [= ->]. lia.
  - intros Ht. specialize (IH _ Ht). cbn in IH |- *. rewrite <-Nat.add_assoc, <-Nat.add_assoc. f_equal. exact IH.
Qed.

(** A user that works less, with a table that grows by at most one. *)
Lemma user_decreases s t u u' m :
  users s !! t = Some u →
  (user_work u' + 2 * size (pools m) < user_work u + 2 * size (pools (manager s)))%nat →
  (user_work u' < user_work u)%nat →
  (drain_work (set_user t u' m s) < drain_work s)%nat.
Proof.
  intros Hu Hm Hw. pose proof (sum_update _ _ _ u' Hu). unfold drain_work, close_work. cbn.
  destruct (closing s); lia.
Qed.

Lemma lookup_pool_size now key m : size (pools (snd (lookup_pool now key m))) = size (pools m).
Proof.
  unfold lookup_pool. destruct (pools m !! key) as [e|] eqn:E; [|done].
  cbn. by rewrite map_size_insert_Some by eauto.
Qed.

Lemma install_size now key p m :
  (size (pools (snd (install now key p m))) ≤ S (size (pools m)))%nat.
Proof.
  unfold install. destruct (pools m !! key) as [e|] eqn:E; cbn; [lia|].
  rewrite map_size_insert_None by done. lia.
Qed.

Lemma drain_decreases s who s' : drain_step s who s' → (drain_work s' < drain_work s)%nat.
Proof.
  destruct 1 as [t now key p m Hu _ E|t now key m Hu _ E|t key Hu|t key p m Hu E
    |t now key p p' lost m Hu _ E|t p Hu|t p Hu _|t p Hu|rest Hc Hp|key p rest Hc|key p rest Hc _|Hc].
  - apply (user_decreases _ _ _ _ _ Hu); cbn; [|lia].
    pose proof (lookup_pool_size now key (manager s)) as Hs. rewrite E in Hs. cbn in Hs. lia.
  - apply (user_decreases _ _ _ _ _ Hu); cbn; [|lia].
    pose proof (lookup_pool_size now key (manager s)) as Hs. rewrite E in Hs. cbn in Hs. lia.
  - apply (user_decreases _ _ _ _ _ Hu); cbn; lia.
  - injection E as <- <-. apply (user_decreases _ _ _ _ _ Hu); cbn; lia.
  - apply (user_decreases _ _ _ _ _ Hu); cbn; [|lia].
    pose proof (install_size now key p (manager s)) as Hs. rewrite E in Hs. cbn in Hs.
    destruct lost; cbn; lia.
  - apply (user_decreases _ _ _ _ _ Hu); cbn; lia.
  - apply (user_decreases _ _ _ _ _ Hu); cbn; lia.
  - apply (user_decreases _ _ _ _ _ Hu); cbn; lia.
  - unfold drain_work, close_work. cbn. rewrite Hc, Hp, length_map, length_map_to_list. lia.
  - unfold drain_work, close_work. cbn. rewrite Hc. cbn. lia.
  - unfold drain_work, close_work. cbn. rewrite Hc. lia.
  - unfold drain_work, close_work. cbn. rewrite Hc. cbn. lia.
Qed.

(** ** No deadlock *)

(** The goroutine [t] can move. *)
Definition can_move (s : Drain) (who : option nat) : Prop := ∃ s', drain_step s who s'.

Lemma user_can_move s t u :
  users s !! t = Some u → u ≠ UDone → locked s = false → can_move s (Some t).
Proof.
  intros Hu Hd Hl. destruct u as [key|key|key p|p|p|]; [| | | | |done].
  - destruct (lookup_pool 0 key (manager s)) as [[p|] m] eqn:E;
      eexists; [by eapply user_hit|by eapply user_miss].
  - eexists. by eapply user_not_created.
  - destruct (install 0 key p (manager s)) as [[p' lost] m] eqn:E. eexists. by eapply user_installs.
  - eexists. by eapply user_refused.
  - eexists. by eapply user_releases.
Qed.

(** Either [Close] can move, or a goroutine holds a connection it waits for. *)
Lemma close_can_move s :
  closing s ≠ CDone →
  can_move s None ∨ ∃ t key p rest, closing s = CWaiting key p rest
    ∧ users s !! t = Some (UHasConn p) ∧ can_move s (Some t).
Proof.
  intros Hc. destruct (closing s) as [|[|[key p] rest]|key p rest|] eqn:E; [..|done].
  - left. eexists. by eapply close_locks.
  - left. eexists. by eapply close_unlocks.
  - left. eexists. by eapply close_starts.
  - destruct (decide (lent s p)) as [Hp|Hp].
    + right. apply list_elem_of_lookup in Hp as [t Ht]. exists t, key, p, rest.
      split_and!; [done|done|]. eexists. by eapply user_releases.
    + left. eexists. by eapply close_returns.
Qed.

(** C22: [Close] drains the manager without deadlock: whatever the goroutines
    that use it are doing, the steps that they and [Close] take are bounded, some
    goroutine can move as long as one has not finished, and when none can, every
    connection has been given back and [Close] has returned. *)
Theorem close_drains (s : Drain) :
  (∀ n s', nsteps any_step n s s' → (n ≤ drain_work s)%nat)
  ∧ ∀ s', rtc any_step s s' → nf any_step s' →
      closing s' = CDone ∧ Forall (λ u, u = UDone) (users s') ∧ ∀ p, ¬ lent s' p.
Proof.
  split.
  - intros n s' Hn. induction Hn as [s|n s s1 s2 [who Hs] _ IH]; [lia|].
    apply drain_decreases in Hs. lia.
  - intros s' _ Hnf.
    assert (∀ who, ¬ can_move s' who) as Hstuck.
    { intros who [s'' Hs]. apply Hnf. by exists s'', who. }
    assert (closing s' = CDone) as Hc.
    { destruct (decide (closing s' = CDone)) as [|Hc]; [done|].
      destruct (close_can_move s' Hc) as [Hm|(t & _ & _ & _ & _ & _ & Hm)]; by apply Hstuck in Hm. }
    assert (Forall (λ u, u = UDone) (users s')) as Hu.
    { apply Forall_lookup. intros t u Ht. destruct (decide (u = UDone)) as [|Hd]; [done|].
      destruct (Hstuck (Some t)). eapply user_can_move; [done..|]. unfold locked. by rewrite Hc. }
    split_and!; [done|done|]. intros p Hp. by eapply Forall_forall in Hu; [|exact Hp].
Qed.

(** A step of a goroutine other than [t]. *)
Definition without (t : nat) (s s' : Drain) : Prop := ∃ who, who ≠ Some t ∧ drain_step s who s'.

Lemma set_user_keeps s t t' u m : t ≠ t' → users (set_user t u m s) !! t' = users s !! t'.
Proof. intros. cbn. by rewrite list_lookup_insert_ne. Qed.

(** C34: [Close] waits for the statements: while it waits for a pool of which the
    goroutine [t] holds a connection, nothing but [t] can make it go on; it
    keeps the mutex, so that no goroutine gets past the two sections of
    [poolFor] either, and any goroutine that wants a pool waits with it. *)
Theorem close_waits_for_statement (s s' : Drain) (t : nat) (key : string) (p : PoolId)
    (rest : list (string * PoolId)) :
  closing s = CWaiting key p rest → users s !! t = Some (UHasConn p) →
  rtc (without t) s s' →
  closing s' = CWaiting key p rest ∧ users s' !! t = Some (UHasConn p)
  ∧ ∀ t' k, users s !! t' = Some (UWants k) → users s' !! t' = Some (UWants k).
Proof.
  intros Hc Ht Hs. revert Hc Ht.
  induction Hs as [s|s s1 s2 (who & Hw & Hs) _ IH]; intros Hc Ht; [done|].
  assert (locked s = true) as Hl by (unfold locked; by rewrite Hc).
  assert (closing s1 = CWaiting key p rest ∧ users s1 !! t = Some (UHasConn p)
          ∧ ∀ t' k, users s !! t' = Some (UWants k) → users s1 !! t' = Some (UWants k)) as (Hc1 & Ht1 & Hu1).
  { destruct Hs as [| |t' k Hu|t' k q m Hu _| |t' q Hu|t' q Hu _|t' q Hu| | |k q r Hc' Hn|];
      try congruence.
    1-5: split_and!; [done|rewrite set_user_keeps; congruence|];
      intros t1 k1 Hk; rewrite set_user_keeps; congruence.
    rewrite Hc in Hc'. injection Hc' as <- <- <-. destruct Hn. by apply (list_elem_of_lookup_2 _ t). }
  destruct (IH Hc1 Ht1) as (? & ? & Hu). naive_solver.
Qed.

(** A background write holds the only connection of a pool; a request that
    wants the pool, and one whose acquisition is refused. *)
Definition ex_draining : Drain :=
  mkDrain (mkManager {[ "k" := mkEntry 1 0 ]} {[ 1%positive ]} 2 true) {[ 1%positive ]}
    [UHasConn 1; UWants "k"; UHasPool 1] (CWaiting "k" 1 []).

Lemma close_waits_for_statement_witness :
  let s' := set_user 2 UDone (manager ex_draining) ex_draining in
  closing s' = CWaiting "k" 1 [] ∧ users s' !! 1%nat = Some (UWants "k").
Proof.
  intros s'.
  destruct (close_waits_for_statement ex_draining s' 0 "k" 1 []) as (H1 & _ & H2);
    [done|done| |by split; [exact H1|exact (H2 1%nat "k" eq_refl)]].
  apply rtc_once. exists (Some 2%nat). split; [done|]. by apply (user_refused ex_draining 2 1).
Defined.

(** The same manager when the other two have ended: the write ends, and [Close]
    returns. *)
Example close_after_statement :
  ∃ s', rtc any_step (set_user 1 UDone (manager ex_draining)
                        (set_user 2 UDone (manager ex_draining) ex_draining)) s'
    ∧ closing s' = CDone ∧ pools (manager s') = ∅ ∧ opened (manager s') = ∅.
Proof.
  eexists. split.
  - eapply rtc_l; [exists (Some 0%nat); by apply (user_releases _ 0 1)|].
    eapply rtc_l; [exists None; apply (close_returns _ "k" 1 []); [done|]|].
    { unfold lent. cbn. by rewrite !elem_of_cons, elem_of_nil; intros [?|[?|[?|[]]]]. }
    eapply rtc_l; [exists None; by apply close_unlocks|]. apply rtc_refl.
  - by vm_compute.
Qed.

Lemma close_drains_witness :
  drain_work ex_draining = 13%nat ∧ ∀ n s', nsteps any_step n ex_draining s' → (n ≤ 13)%nat.
Proof. split; [done|]. exact (proj1 (close_drains ex_draining)). Defined.
