(* ===== verification/PoolReap.v ===== *)
(** * Package [pool]: the reaper against the connections that are out

    [reapOnce] of [internal/pool/manager.go] takes the idle pools out of the
    table under the mutex and closes them after it has given the mutex back;
    [Close] of a pool of the driver waits for the connections that are out. The
    goroutines that use the manager are those of [PoolDrain], with their steps;
    the manager itself is not being closed. *)

From S2P Require Import Prelude GoInt GoString Model Breaker Secrets Pool.
From S2P Require Import PoolDrain.

(** ** State *)

(** The goroutine of [reapLoop]. *)
Inductive reaping : Type :=
| Ticking                                  (* in the [select] *)
| Taken (toClose : list PoolId)            (* in the second loop of [reapOnce] *)
| InClose (p : PoolId) (toClose : list PoolId).    (* in [p.Close()] *)

Record Reap := mkReap { drain : Drain; reap_at : reaping }.

Definition with_manager (m : Manager) (d : Drain) : Drain :=
  mkDrain m (shut d) (users d) (closing d).

(** ** Steps, labelled by the goroutine that moves; [None] is the reaper *)

Inductive reap_step (ttl : Z) (s : Reap) : option nat → Reap → Prop :=
| reap_user t d :
    drain_step (drain s) (Some t) d → reap_step ttl s (Some t) (mkReap d (reap_at s))
| reap_takes now l toClose m :
    reap_at s = Ticking → reap_section now ttl (manager (drain s)) = (l, m) → toClose ≡ₚ l →
    reap_step ttl s None (mkReap (with_manager m (drain s)) (Taken toClose))
| reap_starts p l :
    reap_at s = Taken (p :: l) →
    reap_step ttl s None
      (mkReap (mkDrain (manager (drain s)) ({[p]} ∪ shut (drain s)) (users (drain s)) (closing (drain s)))
         (InClose p l))
| reap_returns p l :
    reap_at s = InClose p l → ¬ lent (drain s) p →
    reap_step ttl s None (mkReap (with_manager (close_pool p (manager (drain s))) (drain s)) (Taken l))
| reap_ends :
    reap_at s = Taken [] → reap_step ttl s None (mkReap (drain s) Ticking).

(** ** Lemmas *)

Definition keeps_pools (m m' : Manager) : Prop :=
  ∀ key e, pools m !! key = Some e → ∃ e', pools m' !! key = Some e' ∧ pool e' = pool e.

Lemma keeps_refl m : keeps_pools m m.
Proof. intros key e He. eauto. Qed.

Lemma keeps_trans m1 m2 m3 : keeps_pools m1 m2 → keeps_pools m2 m3 → keeps_pools m1 m3.
Proof. intros H1 H2 key e (e1 & E1 & <-)%H1. apply H2 in E1 as (e2 & ? & <-). eauto. Qed.

Lemma lookup_keeps now key m : keeps_pools m (snd (lookup_pool now key m)).
Proof.
  intros key' e He. unfold lookup_pool. destruct (pools m !! key) as [e0|] eqn:E; [|eauto].
  cbn. destruct (decide (key = key')) as [->|Hk].
  - rewrite lookup_insert_eq. eexists. split; [done|]. by simplify_eq.
  - rewrite lookup_insert_ne by done. eauto.
Qed.

Lemma install_keeps now key p m : keeps_pools m (snd (install now key p m)).
Proof.
  intros key' e He. unfold install. destruct (pools m !! key) as [e0|] eqn:E; [eauto|].
  cbn. rewrite lookup_insert_ne by congruence. eauto.
Qed.

(** A goroutine that uses the manager takes no pool out of the table, and does not
    touch the others. *)
Lemma user_step_keeps d t d' :
  drain_step d (Some t) d' →
  keeps_pools (manager d) (manager d') ∧ closing d' = closing d
  ∧ ∀ t', t ≠ t' → users d' !! t' = users d !! t'.
Proof.
  inversion 1 as [? now key p m Hu _ E|? now key m Hu _ E|? key Hu|? key p m Hu E
    |? now key p p' lost m Hu _ E|? p Hu|? p Hu _|? p Hu| | | |]; subst;
    (split; [|split; [done|intros t' Ht; by apply set_user_keeps]]); cbn.
  - pose proof (lookup_keeps now key (manager d)) as Hk. by rewrite E in Hk.
  - pose proof (lookup_keeps now key (manager d)) as Hk. by rewrite E in Hk.
  - apply keeps_refl.
  - injection E as <- <-. intros key' e He. by exists e.
  - pose proof (install_keeps now key p (manager d)) as Hk. rewrite E in Hk. cbn in Hk.
    by destruct lost.
  - apply keeps_refl.
  - apply keeps_refl.
  - apply keeps_refl.
Qed.

(** ** Property *)

(** A step of a goroutine other than [t], the reaper included. *)
Definition reap_without (ttl : Z) (t : nat) (s s' : Reap) : Prop :=
  ∃ who, who ≠ Some t ∧ reap_step ttl s who s'.

(** C35: The reaper waits alone: while it closes an idle pool of which the
    goroutine [t] still holds a connection (a statement longer than the TTL),
    nothing but [t] can make it go on, and until then no idle pool is taken out
    of the table any more; but it does not hold the mutex, so that every other
    goroutine that has not finished can always move, whatever pool it wants. *)
Theorem reaper_waits_alone (ttl : Z) (s s' : Reap) (t : nat) (p : PoolId) (toClose : list PoolId) :
  closing (drain s) = CIdle → reap_at s = InClose p toClose →
  users (drain s) !! t = Some (UHasConn p) → rtc (reap_without ttl t) s s' →
  reap_at s' = InClose p toClose ∧ users (drain s') !! t = Some (UHasConn p)
  ∧ keeps_pools (manager (drain s)) (manager (drain s'))
  ∧ ∀ t' u, users (drain s') !! t' = Some u → u ≠ UDone → ∃ s'', reap_step ttl s' (Some t') s''.
Proof.
  intros Hc Hr Ht Hs. revert Hc Hr Ht.
  induction Hs as [s|s s1 s2 (who & Hw & Hs) _ IH]; intros Hc Hr Ht.
  - split_and!; [done|done|apply keeps_refl|]. intros t' u Hu Hd.
    assert (locked (drain s) = false) as Hl by (unfold locked; by rewrite Hc).
    destruct (user_can_move (drain s) t' u Hu Hd Hl) as [d Hstep]. eexists. by apply reap_user.
  - assert (keeps_pools (manager (drain s)) (manager (drain s1)) ∧ closing (drain s1) = CIdle
            ∧ reap_at s1 = InClose p toClose ∧ users (drain s1) !! t = Some (UHasConn p))
      as (Hk & Hc1 & Hr1 & Ht1).
    { destruct Hs as [t' d Hd|now l l' m E|q l E|q l E Hn|E]; try congruence.
      - destruct (user_step_keeps _ _ _ Hd) as (Hk & Hc' & Hu). cbn.
        rewrite Hc', Hu by congruence. done.
      - rewrite Hr in E. injection E as <- <-. destruct Hn. by apply (list_elem_of_lookup_2 _ t). }
    destruct (IH Hc1 Hr1 Ht1) as (? & ? & Hk' & ?). split_and!; [done|done| |done].
    by eapply keeps_trans.
Qed.

(** A background write holds a connection of the pool that was idle; a request
    wants another one. *)
Definition ex_reaping : Reap :=
  mkReap (mkDrain (mkManager {[ "b" := mkEntry 2 0 ]} {[ 1%positive; 2%positive ]} 3 false) {[ 1%positive ]}
            [UHasConn 1; UWants "b"] CIdle) (InClose 1 []).

Lemma reaper_waits_alone_witness :
  ∃ s', reap_step 600 ex_reaping (Some 1%nat) s' ∧ reap_at s' = InClose 1 []
    ∧ users (drain s') !! 1%nat = Some (UHasPool 2).
Proof.
  set (m := snd (lookup_pool 700 "b" (manager (drain ex_reaping)))).
  exists (mkReap (set_user 1 (UHasPool 2) m (drain ex_reaping)) (InClose 1 [])).
  assert (reap_step 600 ex_reaping (Some 1%nat)
            (mkReap (set_user 1 (UHasPool 2) m (drain ex_reaping)) (InClose 1 []))) as Hs.
  { apply (reap_user 600 ex_reaping), (user_hit _ 1 700 "b"); reflexivity. }
  split; [exact Hs|].
  destruct (reaper_waits_alone 600 ex_reaping
              (mkReap (set_user 1 (UHasPool 2) m (drain ex_reaping)) (InClose 1 [])) 0 1 [])
    as (Hr & _); [reflexivity..| |split; [exact Hr|reflexivity]].
  apply rtc_once. exists (Some 1%nat). split; [discriminate|exact Hs].
Defined.

(** When the statement has ended the reaper goes on to its next tick. *)
Example reaper_goes_on :
  ∃ s', rtc (λ s s', ∃ who, reap_step 600 s who s') ex_reaping s' ∧ reap_at s' = Ticking
    ∧ opened (manager (drain s')) = {[ 2%positive ]}.
Proof.
  eexists. split.
  - eapply rtc_l; [exists (Some 0%nat); eapply reap_user, (user_releases _ 0 1); reflexivity|].
    eapply rtc_l; [exists None; apply (reap_returns _ _ 1 []); [reflexivity|]|].
    { unfold lent. cbn. by rewrite !elem_of_cons, elem_of_nil; intros [?|[?|[]]]. }
    apply rtc_once. exists None. by apply reap_ends.
  - by vm_compute.
Qed.
