(* ===== verification/AcquireSync.v ===== *)
(** * Package [pool]: many [Acquire] at once behind one breaker

    [Acquire] of [internal/pool/manager.go] as the goroutines of the service run
    it: the breaker is asked in one critical section and told the outcome in a
    later one, and the attempts of other goroutines come in between. What an
    attempt does once it is admitted ([poolFor], then [Acquire] of the driver's
    pool) is in [PoolSync]; here it takes any time and ends either way.

    The theorem bounds the load that a dead shard gets. *)

From S2P Require Import Prelude GoInt GoString Breaker.

(** ** The system *)

(** Where the attempt of a goroutine is. *)
Inductive attempt : Type :=
| Checking (id : string)       (* has the breaker of [For], before [Allow] *)
| Passed (id : string).      (* between [Allow] and its report *)

#[export] Instance attempt_eq_dec : EqDecision attempt.
Proof. solve_decision. Defined.

Record Acq := mkAcq { brks : Registry; attempts : gmap nat attempt }.

Definition idle : Acq := mkAcq NewRegistry ∅.

Inductive move : Type :=
| MFor (id : string)           (* [m.breakers.For(shard.ShardID)] *)
| MAllow (now : Z)             (* [b.Allow()], and the return when it refuses *)
| MFailure (now : Z)           (* an error of [poolFor] or of [p.Acquire], [b.Failure()] *)
| MSuccess.                    (* [b.Success()] *)

(** One step of the goroutine [t]. *)
Definition acq_step (s : Acq) (t : nat) (a : move) : option Acq :=
  match a, attempts s !! t with
  | MFor id, None => Some (mkAcq (snd (For id (brks s))) (<[t := Checking id]> (attempts s)))
  | MAllow now, Some (Checking id) =>
      let b := fst (For id (brks s)) in
      let r := on_breaker id (λ b, snd (Allow now b)) (brks s) in
      match fst (Allow now b) with
      | Ok _ => Some (mkAcq r (<[t := Passed id]> (attempts s)))
      | Err _ => Some (mkAcq r (delete t (attempts s)))
      end
  | MFailure now, Some (Passed id) =>
      Some (mkAcq (on_breaker id (Failure now) (brks s)) (delete t (attempts s)))
  | MSuccess, Some (Passed id) =>
      Some (mkAcq (on_breaker id Success (brks s)) (delete t (attempts s)))
  | _, _ => None
  end.

Fixpoint acq_run (s : Acq) (ls : list (nat * move)) : option Acq :=
  match ls with
  | [] => Some s
  | (t, a) :: ls => s ← acq_step s t a; acq_run s ls
  end.

(** ** What is counted *)

(** The attempts on a shard that the step lets through. *)
Definition admits (id : string) (s : Acq) (t : nat) (a : move) : Z :=
  match a, attempts s !! t with
  | MAllow now, Some (Checking id') =>
      if decide (id' = id) then
        match fst (Allow now (fst (For id (brks s)))) with Ok _ => 1 | Err _ => 0 end
      else 0
  | _, _ => 0
  end.

Fixpoint admissions (id : string) (s : Acq) (ls : list (nat * move)) : Z :=
  match ls with
  | [] => 0
  | (t, a) :: ls =>
      admits id s t a + match acq_step s t a with Some s => admissions id s ls | None => 0 end
  end.

(** The step reports no success on the shard. *)
Definition no_success (id : string) (s : Acq) (t : nat) (a : move) : Prop :=
  match a with MSuccess => attempts s !! t ≠ Some (Passed id) | _ => True end.

Fixpoint dead (id : string) (s : Acq) (ls : list (nat * move)) : Prop :=
  match ls with
  | [] => True
  | (t, a) :: ls => no_success id s t a ∧ ∀ s', acq_step s t a = Some s' → dead id s' ls
  end.

(** The readings of the clock go from [t0] to [t1] and never back. *)
Definition reading (a : move) : option Z :=
  match a with MAllow now | MFailure now => Some now | _ => None end.

Fixpoint clocked (t0 t1 : Z) (ls : list (nat * move)) : Prop :=
  match ls with
  | [] => t0 ≤ t1
  | (_, a) :: ls =>
      match reading a with
      | Some now => t0 ≤ now ∧ clocked now t1 ls
      | None => clocked t0 t1 ls
      end
  end.

(** ** Attempts in flight *)

Definition in_flight (id : string) (s : Acq) : Z :=
  Z.of_nat (size (filter (λ kv, kv.2 = Passed id) (attempts s))).

(** At most [n] goroutines: the slots [0] to [n - 1]. *)
Definition slots (n : nat) (s : Acq) : Prop := ∀ t, is_Some (attempts s !! t) → (t < n)%nat.

Lemma size_slots {A} (m : gmap nat A) n : (∀ t, is_Some (m !! t) → (t < n)%nat) → (size m ≤ n)%nat.
Proof.
  intros H. rewrite <-size_dom. transitivity (size (set_seq (C := gset nat) 0 n)).
  - apply subseteq_size. intros t Ht%elem_of_dom%H. apply elem_of_set_seq. lia.
  - rewrite size_set_seq. lia.
Qed.

Lemma in_flight_slots n id s : slots n s → 0 ≤ in_flight id s ≤ Z.of_nat n.
Proof.
  intros Hs. unfold in_flight. split; [lia|]. apply Nat2Z.inj_le, size_slots.
  intros t [x Hx]. apply map_lookup_filter_Some in Hx as [Hx _]. by apply Hs; exists x.
Qed.

Lemma in_flight_enter id r t s :
  attempts s !! t ≠ Some (Passed id) →
  in_flight id (mkAcq r (<[t := Passed id]> (attempts s))) = in_flight id s + 1.
Proof.
  intros Ht. unfold in_flight. cbn. rewrite map_filter_insert_True by done.
  rewrite map_size_insert_None; [lia|]. apply map_lookup_filter_None. right.
  intros x Hx E. cbn in E. congruence.
Qed.

Lemma in_flight_leave id r t s :
  attempts s !! t = Some (Passed id) →
  in_flight id (mkAcq r (delete t (attempts s))) = in_flight id s - 1.
Proof.
  intros Ht. unfold in_flight. cbn. rewrite map_filter_delete.
  assert (filter (λ kv, kv.2 = Passed id) (attempts s) !! t = Some (Passed id)) as Hf
    by by apply map_lookup_filter_Some.
  rewrite map_size_delete_Some by by eexists.
  assert (size (filter (λ kv, kv.2 = Passed id) (attempts s)) ≠ 0%nat) as Hn.
  { intros E%map_size_empty_inv. by rewrite E in Hf. }
  lia.
Qed.

(** The goroutine is at no point of an attempt on the shard that counts. *)
Lemma in_flight_other id r t m s :
  attempts s !! t ≠ Some (Passed id) → (∀ x, m = Some x → x ≠ Passed id) →
  in_flight id (mkAcq r (partial_alter (λ _, m) t (attempts s))) = in_flight id s.
Proof.
  intros Ht Hm. unfold in_flight. do 2 f_equal. cbn. apply map_eq. intros u. apply option_eq. intros x.
  rewrite !map_lookup_filter_Some. cbn. destruct (decide (t = u)) as [<-|N].
  - rewrite lookup_partial_alter_eq. split; intros [E1 E2]; [by destruct (Hm x E1)|congruence].
  - by rewrite lookup_partial_alter_ne.
Qed.

(** ** The breaker of a shard *)

Definition brk (id : string) (s : Acq) : Breaker := default New (brks s !! id).

Lemma For_brk id s : fst (For id (brks s)) = brk id s.
Proof. unfold For, brk. by destruct (brks s !! id). Qed.

Definition reset : Z := 10 * second.

(** What [New] sets and no method changes; a closed breaker has failed less than
    five times since the last success. *)
Record breaker_ok (b : Breaker) : Prop := {
  ok_threshold : FailureThreshold b = 5;
  ok_timeout : ResetTimeout b = reset;
  ok_closed : state b = Closed → 0 ≤ consecutiveFails b < 5;
}.

Lemma New_ok : breaker_ok New.
Proof. by split. Qed.

Lemma Allow_ok now b : breaker_ok b → breaker_ok (snd (Allow now b)).
Proof. intros Hb. unfold Allow. repeat case_match; cbn; try done. by destruct Hb; split. Qed.

Lemma Success_ok b : breaker_ok b → breaker_ok (Success b).
Proof. by intros [Ht Hr Hc]; split. Qed.

(** A failure of a closed breaker is counted; any other one leaves it open. *)
Lemma Failure_spec now b :
  breaker_ok b →
  match state b with
  | Closed =>
      (consecutiveFails b < 4 ∧ state (Failure now b) = Closed
       ∧ consecutiveFails (Failure now b) = consecutiveFails b + 1)
      ∨ (state (Failure now b) = Open ∧ openedAt (Failure now b) = now)
  | HalfOpen => state (Failure now b) = Open ∧ openedAt (Failure now b) = now
  | Open => state (Failure now b) = Open
            ∧ (openedAt (Failure now b) = now ∨ openedAt (Failure now b) = openedAt b)
  end.
Proof.
  intros [Ht Hr Hc]. unfold Failure. rewrite Ht. destruct (state b) eqn:E; cbn [bool_decide].
  - specialize (Hc eq_refl). rewrite (wrap64_id (consecutiveFails b + 1)) by lia.
    destruct (Z.leb_spec 5 (consecutiveFails b + 1)); cbn; [by right|left]. split_and!; [lia|done|done].
  - destruct (5 <=? _); cbn; auto.
  - done.
Qed.

Lemma Failure_ok now b : breaker_ok b → breaker_ok (Failure now b).
Proof.
  intros Hb. pose proof (Failure_spec now b Hb) as Hs. destruct Hb as [Ht Hr Hc].
  split; [unfold Failure; by destruct (_ || _)|unfold Failure; by destruct (_ || _)|].
  intros Hcl. destruct (state b); [|destruct Hs; congruence|destruct Hs; congruence].
  specialize (Hc eq_refl). destruct Hs as [(? & _ & ->)|[? _]]; [lia|congruence].
Qed.

(** ** What every reachable state satisfies *)

Definition shard_of (a : attempt) : string := match a with Checking id | Passed id => id end.

Record acq_ok (n : nat) (s : Acq) : Prop := {
  ok_slots : slots n s;
  ok_known : ∀ t a, attempts s !! t = Some a → is_Some (brks s !! shard_of a);
  ok_breakers : ∀ id b, brks s !! id = Some b → breaker_ok b;
}.

Lemma brk_ok n id s : acq_ok n s → breaker_ok (brk id s).
Proof.
  intros Hs. unfold brk. destruct (brks s !! id) eqn:E; [by eapply ok_breakers|apply New_ok].
Qed.

Lemma idle_ok n : acq_ok n idle.
Proof. split; [intros t [? ?]; done|done|done]. Qed.

(** A step changes one breaker by [f] and the attempt of one goroutine. *)
Lemma acq_ok_update n s t id f m :
  acq_ok n s → (t < n)%nat → is_Some (brks s !! id) → (∀ b, breaker_ok b → breaker_ok (f b)) →
  (∀ a, m = Some a → shard_of a = id) →
  acq_ok n (mkAcq (on_breaker id f (brks s)) (partial_alter (λ _, m) t (attempts s))).
Proof.
  intros [Hsl Hk Hb] Ht Hid Hf Hm. split.
  - intros u. cbn. destruct (decide (t = u)) as [->|N]; [done|]. rewrite lookup_partial_alter_ne by done.
    apply Hsl.
  - intros u a. cbn. intros Hu.
    assert (is_Some (brks s !! shard_of a)) as [b Hb'].
    { destruct (decide (t = u)) as [->|N].
      - rewrite lookup_partial_alter_eq in Hu. by rewrite (Hm a Hu).
      - rewrite lookup_partial_alter_ne in Hu by done. by eapply Hk. }
    destruct (decide (id = shard_of a)) as [->|N].
    + by rewrite (on_breaker_lookup _ _ _ _ Hb').
    + by rewrite on_breaker_other, Hb'.
  - intros id' b. cbn. destruct (decide (id = id')) as [->|N].
    + destruct Hid as [b0 E]. rewrite (on_breaker_lookup _ _ _ _ E). intros [= <-]. eauto.
    + rewrite on_breaker_other by done. apply Hb.
Qed.

Lemma brk_update_eq id f s m :
  is_Some (brks s !! id) → brk id (mkAcq (on_breaker id f (brks s)) m) = f (brk id s).
Proof. intros [b E]. unfold brk. cbn. by rewrite (on_breaker_lookup _ _ _ _ E), E. Qed.

Lemma brk_update_ne id id' f s m :
  id ≠ id' → brk id' (mkAcq (on_breaker id f (brks s)) m) = brk id' s.
Proof. intros N. unfold brk. cbn. by rewrite on_breaker_other. Qed.

Lemma acq_step_ok n s t a s' : acq_ok n s → (t < n)%nat → acq_step s t a = Some s' → acq_ok n s'.
Proof.
  intros Hs Ht E. unfold acq_step in E.
  destruct a as [id|now|now|], (attempts s !! t) as [[id'|id']|] eqn:Ea; try done.
  - injection E as <-. destruct Hs as [Hsl Hk Hb]. split.
    + intros u [x Hx]. cbn in Hx. destruct (decide (t = u)) as [->|N]; [done|].
      rewrite lookup_insert_ne in Hx by done. apply Hsl. eauto.
    + intros u x. cbn. destruct (decide (t = u)) as [->|N].
      * rewrite lookup_insert_eq. intros [= <-]. cbn. rewrite For_lookup. eauto.
      * rewrite lookup_insert_ne by done. intros Hx. specialize (Hk u x Hx).
        destruct (decide (id = shard_of x)) as [->|N']; [rewrite For_lookup; eauto|by rewrite For_other].
    + intros id0 b. cbn. destruct (decide (id = id0)) as [->|N].
      * rewrite For_lookup, For_brk. intros [= <-]. unfold brk.
        destruct (brks s !! id0) eqn:E0; [by eapply Hb|apply New_ok].
      * rewrite For_other by done. apply Hb.
  - pose proof (ok_known _ _ Hs t _ Ea) as Hid. cbn in Hid.
    destruct (fst (Allow now _)); injection E as <-.
    + apply (acq_ok_update n s t id' _ (Some (Passed id'))); [done..| |by intros ? [= <-]].
      intros b. apply Allow_ok.
    + apply (acq_ok_update n s t id' _ None); [done..| |done]. intros b. apply Allow_ok.
  - pose proof (ok_known _ _ Hs t _ Ea) as Hid. injection E as <-.
    apply (acq_ok_update n s t id' _ None); [done..| |done]. intros b. apply Failure_ok.
  - pose proof (ok_known _ _ Hs t _ Ea) as Hid. injection E as <-.
    apply (acq_ok_update n s t id' _ None); [done..| |done]. intros b. apply Success_ok.
Qed.

(** ** The load on a dead shard

    An epoch starts when the breaker, open, lets a probe through. [a] attempts
    have been admitted since [t0], [e] epochs have started, and the clock shows
    [now]. *)
Record load (n : nat) (t0 now e a : Z) (b : Breaker) (f : Z) : Prop := {
  load_epochs : 0 ≤ e;
  load_clock : 1 ≤ e → t0 + (e - 1) * reset ≤ now;
  load_opened : state b = Open → 1 ≤ e → t0 + (e - 1) * reset ≤ openedAt b;
  load_admitted :
    a ≤ match state b with
        | Closed => consecutiveFails b + f
        | Open => 4 + Z.of_nat n * (e + 1)
        | HalfOpen => 4 + Z.of_nat n * e + f
        end;
}.

Lemma load_later n t0 now now' e a b f :
  now ≤ now' → load n t0 now e a b f → load n t0 now' e a b f.
Proof. intros Hn [? ? ? ?]. split; try done. lia. Qed.

Lemma reset_since now t : reset ≤ time_since now t → t + reset ≤ now.
Proof. unfold reset, second, time_since, int64_min, int64_max. lia. Qed.

(** An attempt is let through. *)
Lemma load_admit n t0 now e a b f :
  breaker_ok b → load n t0 now e a b f → t0 ≤ now → 0 ≤ f → fst (Allow now b) = Ok () →
  ∃ e', load n t0 now e' (a + 1) (snd (Allow now b)) (f + 1).
Proof.
  intros Hb [He Hc Ho Ha] Ht Hf Hok. unfold Allow in *. rewrite (ok_timeout _ Hb) in *.
  destruct (state b) eqn:Es.
  - exists e. split; cbn; rewrite ?Es; try done. lia.
  - destruct (Z.leb_spec reset (time_since now (openedAt b))) as [Hr%reset_since|]; [|done].
    exists (e + 1). specialize (Ho eq_refl). split; cbn; [lia| |done|lia].
    intros _. destruct (decide (1 ≤ e)); [specialize (Ho l); lia|]. assert (e = 0) as -> by lia. lia.
  - exists e. split; cbn; rewrite ?Es; try done. lia.
Qed.

(** An attempt is refused: nothing changes. *)
Lemma Allow_refused now b : fst (Allow now b) ≠ Ok () → snd (Allow now b) = b.
Proof. unfold Allow. intros H. by repeat case_match. Qed.

(** An attempt fails. *)
Lemma load_fail n t0 now e a b f :
  breaker_ok b → load n t0 now e a b f → f ≤ Z.of_nat n →
  load n t0 now e a (Failure now b) (f - 1).
Proof.
  intros Hb [He Hc Ho Ha] Hf. pose proof (Failure_spec now b Hb) as Hs.
  pose proof (ok_closed _ Hb) as Hcl. destruct (state b) eqn:Es.
  - specialize (Hcl eq_refl).
    destruct Hs as [(H4 & Hst & Hfails)|[Hst Hop]]; split; try done; rewrite Hst, ?Hop; try done; lia.
  - destruct Hs as [Hst Hop]. split; try done; rewrite Hst; [|done].
    intros _ H1. destruct Hop as [->| ->]; auto.
  - destruct Hs as [Hst Hop]. split; try done; rewrite Hst, ?Hop; [done|lia].
Qed.

Definition loaded (n : nat) (t0 now e a : Z) (id : string) (s : Acq) : Prop :=
  load n t0 now e a (brk id s) (in_flight id s).

(** The clock after a step. *)
Definition tick (now : Z) (a : move) : Z := default now (reading a).

Lemma loaded_step n t0 now e k id s t a s' :
  acq_ok n s → acq_step s t a = Some s' → no_success id s t a →
  t0 ≤ now ≤ tick now a → loaded n t0 now e k id s →
  ∃ e', loaded n t0 (tick now a) e' (k + admits id s t a) id s'.
Proof.
  intros Hs E Hn Hnow Hl. apply (load_later n t0 now (tick now a)) in Hl; [|lia].
  pose proof (brk_ok n id s Hs) as Hb. pose proof (in_flight_slots n id s (ok_slots _ _ Hs)) as Hf.
  unfold acq_step in E. unfold admits, no_success in *. unfold loaded in *.
  destruct a as [id'|now'|now'|], (attempts s !! t) as [[i|i]|] eqn:Ea; try done; cbn [tick reading default] in *.
  - injection E as <-. exists e. rewrite Z.add_0_r. unfold insert, map_insert.
    rewrite in_flight_other by (rewrite ?Ea; naive_solver).
    replace (brk id (mkAcq _ _)) with (brk id s); [done|]. unfold brk. cbn.
    destruct (decide (id' = id)) as [->|N]; [rewrite For_lookup, For_brk; done|by rewrite For_other].
  - pose proof (ok_known _ _ Hs t _ Ea) as Hid. cbn [shard_of] in Hid. rewrite !For_brk in *.
    destruct (decide (i = id)) as [->|N]; cycle 1.
    { exists e. rewrite Z.add_0_r. destruct (fst (Allow now' _)); injection E as <-;
        rewrite brk_update_ne by done; [unfold insert, map_insert|unfold delete, map_delete];
        rewrite in_flight_other by (rewrite ?Ea; naive_solver); done. }
    destruct (fst (Allow now' (brk id s))) as [[]|er] eqn:Eok; injection E as <-.
    + rewrite brk_update_eq, in_flight_enter by (rewrite ?Ea; done). cbn in Hnow. apply (load_admit n t0 now' e); done || lia.
    + exists e. rewrite Z.add_0_r, brk_update_eq by done. unfold delete, map_delete.
      rewrite in_flight_other by (rewrite ?Ea; naive_solver). rewrite Allow_refused by (by rewrite Eok). done.
  - pose proof (ok_known _ _ Hs t _ Ea) as Hid. cbn [shard_of] in Hid. injection E as <-. exists e.
    rewrite Z.add_0_r. destruct (decide (i = id)) as [->|N].
    + rewrite brk_update_eq, in_flight_leave by done. apply load_fail; [done|done|lia].
    + rewrite brk_update_ne by done. unfold delete, map_delete.
      by rewrite in_flight_other by (rewrite ?Ea; naive_solver).
  - injection E as <-. exists e. rewrite Z.add_0_r. assert (i ≠ id) as N by congruence.
    rewrite brk_update_ne by done. unfold delete, map_delete.
    by rewrite in_flight_other by (rewrite ?Ea; naive_solver).
Qed.

Lemma loaded_run n t0 t1 id ls : ∀ now e k s s',
  acq_ok n s → Forall (λ l, (l.1 < n)%nat) ls → acq_run s ls = Some s' → dead id s ls →
  t0 ≤ now → clocked now t1 ls → loaded n t0 now e k id s →
  ∃ e', loaded n t0 t1 e' (k + admissions id s ls) id s'.
Proof.
  induction ls as [|[t a] ls IH]; intros now e k s s' Hs Hls Hrun Hd Ht Hc Hl; cbn in *.
  - injection Hrun as <-. exists e. rewrite Z.add_0_r. by eapply load_later.
  - apply bind_Some in Hrun as (s1 & E & Hrun). apply Forall_cons in Hls as [Hlt Hls].
    destruct Hd as [Hn Hd]. rewrite E.
    assert (now ≤ tick now a ∧ clocked (tick now a) t1 ls) as [Hle Hc'].
    { unfold tick. destruct (reading a); cbn; [done|split; [lia|done]]. }
    destruct (loaded_step n t0 now e k id s t a s1) as [e1 Hl1]; [done|done|done|lia|done|].
    rewrite Z.add_assoc. eapply (IH (tick now a) e1); [by eapply acq_step_ok|done|done|by apply Hd|lia|done|done].
Qed.

(** The start: the breaker is in whatever state it is. *)
Lemma loaded_start n t0 id s : acq_ok n s → loaded n t0 t0 0 0 id s.
Proof.
  intros Hs. pose proof (in_flight_slots n id s (ok_slots _ _ Hs)) as Hf.
  pose proof (ok_closed _ (brk_ok n id s Hs)) as Hc. split; [lia|lia|lia|].
  destruct (state (brk id s)); [specialize (Hc eq_refl)|..]; lia.
Qed.

Lemma acq_run_ok n ls : ∀ s s',
  acq_ok n s → Forall (λ l, (l.1 < n)%nat) ls → acq_run s ls = Some s' → acq_ok n s'.
Proof.
  induction ls as [|[t a] ls IH]; intros s s' Hs Hls; cbn; [by intros [= <-]|].
  intros (s1 & E & Hrun)%bind_Some. apply Forall_cons in Hls as [Hlt Hls].
  eapply IH; [by eapply acq_step_ok|done|done].
Qed.

Lemma load_bound n t0 now e a b f :
  breaker_ok b → 0 ≤ f ≤ Z.of_nat n → load n t0 now e a b f → t0 ≤ now →
  a ≤ 4 + Z.of_nat n * (2 + (now - t0) / reset).
Proof.
  intros Hb Hf [He Hc _ Ha] Ht.
  assert (e ≤ 1 + (now - t0) / reset) as Hep.
  { destruct (decide (1 ≤ e)) as [H1|]; [|pose proof (Z.div_pos (now - t0) reset ltac:(lia) ltac:(done)); lia].
    specialize (Hc H1). assert (e - 1 ≤ (now - t0) / reset); [|lia].
    apply Z.div_le_lower_bound; [done|lia]. }
  pose proof (ok_closed _ Hb) as Hcl. destruct (state b); [specialize (Hcl eq_refl)|..]; nia.
Qed.

Lemma clocked_le ls : ∀ t0 t1, clocked t0 t1 ls → t0 ≤ t1.
Proof.
  induction ls as [|[t a] ls IH]; intros t0 t1; cbn; [done|].
  destruct (reading a); [intros [? ?%IH]; lia|apply IH].
Qed.

(** ** Property *)

(** C20: a dead shard gets a bounded load. From any reachable moment on, while no
    attempt on the shard succeeds, at most [n] goroutines that go on asking for
    connections, however their attempts interleave, have at most [4 + 2 n] of
    them let through to the pools, and [n] more for each ten seconds that pass;
    all the others are refused by the breaker. *)
Theorem dead_shard_bounded (n : nat) (id : string) (ls0 ls : list (nat * move)) (s0 s : Acq) (t0 t1 : Z) :
  acq_run idle ls0 = Some s0 → acq_run s0 ls = Some s →
  Forall (λ l, (l.1 < n)%nat) (ls0 ++ ls) → dead id s0 ls → clocked t0 t1 ls →
  admissions id s0 ls ≤ 4 + Z.of_nat n * (2 + (t1 - t0) / (10 * second)).
Proof.
  intros H0 Hrun [Hn0 Hn]%Forall_app Hd Hc.
  pose proof (acq_run_ok n ls0 idle s0 (idle_ok n) Hn0 H0) as Hs0.
  pose proof (acq_run_ok n ls s0 s Hs0 Hn Hrun) as Hs.
  destruct (loaded_run n t0 t1 id ls t0 0 0 s0 s) as [e Hl]; try done; [by apply loaded_start|].
  eapply load_bound; [by apply (brk_ok n id s)|by apply in_flight_slots, ok_slots|exact Hl|by eapply clocked_le].
Qed.

Lemma dead_no_success id ls : ∀ s, Forall (λ l, l.2 ≠ MSuccess) ls → dead id s ls.
Proof.
  induction ls as [|[t a] ls IH]; intros s H; cbn; [done|]. apply Forall_cons in H as [Ha H].
  split; [by destruct a|]. intros s' _. by apply IH.
Qed.

(** One attempt of the goroutine [t]. *)
Definition failing (t : nat) (start finish : Z) : list (nat * move) :=
  [(t, MFor "s1"); (t, MAllow start); (t, MFailure finish)].
Definition refused (t : nat) (now : Z) : list (nat * move) := [(t, MFor "s1"); (t, MAllow now)].

(** Five failures; two attempts refused; two probes admitted together after the
    pause; one more attempt refused. *)
Definition ex_dead_run : list (nat * move) :=
  failing 0 0 1 ++ failing 1 1 2 ++ failing 0 2 3 ++ failing 1 3 4 ++ failing 0 4 5
  ++ refused 0 6 ++ refused 1 7
  ++ refused 0 (reset + 5) ++ refused 1 (reset + 6) ++ [(0%nat, MFailure (reset + 7)); (1%nat, MFailure (reset + 8))]
  ++ refused 0 (reset + 9).

Lemma dead_shard_bounded_witness :
  admissions "s1" idle ex_dead_run = 7 ∧ admissions "s1" idle ex_dead_run ≤ 10.
Proof.
  split; [vm_compute; reflexivity|].
  destruct (acq_run idle ex_dead_run) as [s|] eqn:E; [|exfalso; vm_compute in E; discriminate E].
  apply (dead_shard_bounded 2 "s1" [] ex_dead_run idle s 0 (reset + 9)).
  - reflexivity.
  - exact E.
  - repeat (constructor; [cbn; lia|]). constructor.
  - apply dead_no_success. repeat (constructor; [discriminate|]). constructor.
  - vm_compute. repeat split; discriminate.
Defined.
