(* ===== verification/Api.v ===== *)
(** * Package [api]: the HTTP handlers

    [internal/api/server.go]. The connections and what the database answers are
    behind the class [Backend]; [PoolBackend] implements it with the pool
    manager. A handler returns its response, the state, and the goroutines it
    has started ([Task]), which run after it in any order. A JSON body is the
    value it is encoded from. *)

From S2P Require Import Prelude GoInt GoString GoSort GoAny Json Model Cache Router Keys Secrets Pool.
From S2P Require Import Hashing.
From S2P Require Breaker Metrics EtcdHttp.
From Stdlib Require Import Ascii.

(** ** Responses *)

Inductive Body : Type :=
| JsonBody (v : json)
| EmptyBody                  (* a value [encoding/json] cannot encode *)
| TextBody (s : string).

Record Response := mkResponse { RStatus : Z; RBody : Body }.

Definition StatusOK : Z := 200.
Definition StatusBadRequest : Z := 400.
Definition StatusInternalServerError : Z := 500.
Definition StatusBadGateway : Z := 502.
Definition StatusServiceUnavailable : Z := 503.

Definition writeJSON (status : Z) (v : json) : Response := mkResponse status (JsonBody v).
Definition writeError (status : Z) (msg : string) : Response :=
  writeJSON status (JObj [("error", JStr msg)]).

Definition jint (n : Z) : json := JNum (format_int n).
Definition jstrings (l : list string) : json := JArr (map JStr l).

(** A string field with [omitempty]. *)
Definition omit_empty (name s : string) : list (string * json) :=
  if decide (s = "") then [] else [(name, JStr s)].

Record routeResponse := mkRouteResponse {
  RouteBucketID : Z;
  ReadShardID : string;
  WriteShardIDs : list string;
  RouteMigrationState : string;
  WriterEndpoint : string;
  ReaderEndpoint : string;
}.

Definition route_json (r : routeResponse) : json :=
  JObj ([("bucket_id", jint (RouteBucketID r)); ("read_shard_id", JStr (ReadShardID r));
         ("write_shard_ids", match WriteShardIDs r with [] => JNull | l => jstrings l end)]
        ++ omit_empty "migration_state" (RouteMigrationState r)
        ++ ("writer_endpoint", JStr (WriterEndpoint r))
        :: omit_empty "reader_endpoint" (ReaderEndpoint r)).

Definition route_of (res : Resolved) : routeResponse :=
  mkRouteResponse (RBucketID res) (ShardID (ReadShard res)) (map ShardID (WriteShards res))
    (RMigrationState res) (endpoint_string (Writer (ReadShard res)))
    (match Reader (ReadShard res) with Some ep => endpoint_string ep | None => "" end).

(** [queryResponse]; a cell that cannot be encoded is [None]. *)
Record queryResponse := mkQueryResponse {
  QueryBucketID : Z;
  QueryShardID : string;
  Columns : list string;
  Rows : list (list (option json));
  RowsAffected : Z;
}.

Definition rows_json (rows : list (list (option json))) : option (list json) :=
  option_all (map (λ row, cells ← option_all row; Some (JArr cells)) rows).

Definition query_json (q : queryResponse) : option json :=
  rows ← rows_json (Rows q);
  Some (JObj ([("bucket_id", jint (QueryBucketID q)); ("shard_id", JStr (QueryShardID q))]
        ++ match Columns q with [] => [] | l => [("columns", jstrings l)] end
        ++ match rows with [] => [] | l => [("rows", JArr l)] end
        ++ if RowsAffected q =? 0 then [] else [("rows_affected", jint (RowsAffected q))])).

(** The encoder's error is dropped: the status is sent with no body. *)
Definition writeQuery (q : queryResponse) : Response :=
  mkResponse StatusOK (match query_json q with Some v => JsonBody v | None => EmptyBody end).

(** ** Requests *)

Record queryRequest := mkQueryRequest {
  ShardKey : go_any;
  SQL : string;
  Args : list go_any;
  Consistency : string;
  Write : bool;
}.

Definition set_query (q : queryRequest) (name : string) (v : json) : option queryRequest :=
  let '(mkQueryRequest k s a c w) := q in
  if decide (name = "shard_key") then x ← decode_any v; Some (mkQueryRequest x s a c w)
  else if decide (name = "sql") then x ← decode_string s v; Some (mkQueryRequest k x a c w)
  else if decide (name = "args") then
    x ← EtcdHttp.decode_slice (λ _, decode_any) ANil a v; Some (mkQueryRequest k s x c w)
  else if decide (name = "consistency") then x ← decode_string c v; Some (mkQueryRequest k s a x w)
  else x ← decode_bool w v; Some (mkQueryRequest k s a c x).

Definition query_fields : list string := ["shard_key"; "sql"; "args"; "consistency"; "write"].

(** [json.NewDecoder(r.Body).Decode(&req)]: text after the value is ignored. *)
Definition decode_query (body : string) : option queryRequest :=
  '(v, _) ← parse_first body; decode_struct query_fields set_query (mkQueryRequest ANil "" [] "" false) v.

(** ** What the handlers rely on *)

(** A row as [rows.Values] returns it, or its error. *)
Record RowSet := mkRowSet {
  Fields : list string;
  Steps : list (result string (list (option json)));
  RowsErr : option string;
}.

(** [CloseRows] is [rows.Close()] on the rows of the last query of a connection,
    [Release] hands a connection back to its pool. *)
Class Backend (S C : Type) := {
  Acquire : ShardDef → Endpoint → S → result PoolError C * S;
  Query : C → string → list go_any → S → result string RowSet * S;
  CloseRows : C → S → S;
  Exec : C → string → list go_any → S → result string Z * S;
  Release : C → S → S;
  BreakerStates : S → gmap string Breaker.BState;
}.

(** Error texts of [encoding/json] for a body that does not decode. *)
Class JsonErrors := { json_error : string → string }.

Definition secret_error_text `{UnicodeTables} (e : SecretError) : string :=
  match e with
  | ErrNoUser key ref =>
      "secrets: no " +:+ key +:+ "_USER set for credential_ref " +:+ quote ref
  end.

Definition pool_error_text `{UnicodeTables} (e : PoolError) : string :=
  match e with
  | ErrBreaker id => "pool: shard " +:+ id +:+ ": breaker: circuit open"
  | ErrCredentials id e =>
      "pool: resolve credentials for shard " +:+ id +:+ ": " +:+ secret_error_text e
  | ErrParseConfig id msg => "pool: parse config for shard " +:+ id +:+ ": " +:+ msg
  | ErrCreate id ep msg =>
      "pool: create pool for shard " +:+ id +:+ " (" +:+ endpoint_string ep +:+ "): " +:+ msg
  | ErrAcquire id ep msg =>
      "pool: acquire from shard " +:+ id +:+ " (" +:+ endpoint_string ep +:+ "): " +:+ msg
  end.

(** A goroutine of [handleWrite]: one statement on one secondary shard. *)
Record Task := mkTask { TShard : ShardDef; TSQL : string; TArgs : list go_any }.

(** The state of the server: its counters, and the state behind [Backend]. *)
Record Server (S : Type) := mkServer { metrics : Metrics.Metrics; backend : S }.
Arguments mkServer {S}.
Arguments metrics {S}.
Arguments backend {S}.

(** ** Errors *)

Definition router_status (e : RouterError) : Z :=
  match e with
  | ErrShardUnavailable _ => StatusServiceUnavailable
  | ErrUnknownBucket _ | ErrUnknownShard _ _ => StatusInternalServerError
  | ErrNoMapping => StatusServiceUnavailable
  end.

Definition writeRouterError `{UnicodeTables} (e : RouterError) : Response :=
  writeError (router_status e) (router_error_text e).

Definition writePoolError `{UnicodeTables} (shardID : string) (e : PoolError) : Response :=
  writeError StatusServiceUnavailable
    ("shard " +:+ shardID +:+ " unavailable: " +:+ pool_error_text e).

(** ** The handlers *)

Section handlers.
Context `{UnicodeTables} `{JsonErrors} {S C : Type} `{Backend S C}.
(** The router, and the mapping the store points to when the handler runs. *)
Variables (r : Router) (m : option Mapping).

Definition inc_request (res : Resolved) (s : Server S) : Server S :=
  mkServer (Metrics.IncRoutingRequest (ShardID (ReadShard res)) (RBucketID res) (metrics s))
    (backend s).
Definition inc_error (s : Server S) : Server S :=
  mkServer (Metrics.IncRoutingError (metrics s)) (backend s).
Definition set_backend (b : S) (s : Server S) : Server S := mkServer (metrics s) b.

Definition probe_key : go_any := AString "healthcheck-probe-key".

Definition handleHealth : Response :=
  match Resolve r m probe_key with
  | Err e =>
      writeJSON StatusServiceUnavailable
        (JObj [("reason", JStr (router_error_text e)); ("status", JStr "not_ready")])
  | Ok _ => writeJSON StatusOK (JObj [("status", JStr "ok")])
  end.

(** [shardKey] is [r.URL.Query().Get("shard_key")]. *)
Definition handleRoute (shardKey : string) (s : Server S) : Response * Server S :=
  if decide (shardKey = "") then
    (writeError StatusBadRequest "shard_key query parameter is required", s)
  else
    match Resolve r m (AString shardKey) with
    | Err e => (writeRouterError e, inc_error s)
    | Ok res =>
        (writeJSON StatusOK (route_json (route_of res)), inc_request res s)
    end.

(** The loop over [rows.Next()]. *)
Fixpoint collect_rows (steps : list (result string (list (option json))))
    : result string (list (list (option json))) :=
  match steps with
  | [] => Ok []
  | Err e :: _ => Err e
  | Ok vals :: steps => out ← collect_rows steps; Ok (vals :: out)
  end.

(** The deferred calls run last to first: the rows are closed, then the
    connection is released. *)
Definition handleRead (res : Resolved) (req : queryRequest) (b : S) : Response * S :=
  let ep := ReadEndpoint res (ParseReadConsistency (Consistency req)) in
  match Acquire (ReadShard res) ep b with
  | (Err e, b) => (writePoolError (ShardID (ReadShard res)) e, b)
  | (Ok conn, b) =>
      match Query conn (SQL req) (Args req) b with
      | (Err msg, b) =>
          (writeError StatusBadGateway
             ("query failed on shard " +:+ ShardID (ReadShard res) +:+ ": " +:+ msg),
           Release conn b)
      | (Ok rows, b) =>
          (match collect_rows (Steps rows) with
           | Err msg => writeError StatusBadGateway ("reading row values: " +:+ msg)
           | Ok out =>
               match RowsErr rows with
               | Some msg => writeError StatusBadGateway ("row iteration error: " +:+ msg)
               | None =>
                   writeQuery (mkQueryResponse (RBucketID res) (ShardID (ReadShard res))
                                 (Fields rows) out 0)
               end
           end, Release conn (CloseRows conn b))
      end
  end.

(** [None] is a panic: the write set is empty. The goroutines are started before
    the deferred release. *)
Definition handleWrite (res : Resolved) (req : queryRequest) (b : S)
    : option (Response * S * list Task) :=
  primary ← PrimaryWriteShard res;
  match Acquire primary (Writer primary) b with
  | (Err e, b) => Some (writePoolError (ShardID primary) e, b, [])
  | (Ok conn, b) =>
      match Exec conn (SQL req) (Args req) b with
      | (Err msg, b) =>
          Some (writeError StatusBadGateway
                  ("write failed on shard " +:+ ShardID primary +:+ ": " +:+ msg),
                Release conn b, [])
      | (Ok affected, b) =>
          Some (writeQuery (mkQueryResponse (RBucketID res) (ShardID primary) [] [] affected),
                Release conn b,
                map (λ shard, mkTask shard (SQL req) (Args req)) (tail (WriteShards res)))
      end
  end.

(** The body of the goroutine; its errors are logged. *)
Definition run_task (t : Task) (b : S) : S :=
  match Acquire (TShard t) (Writer (TShard t)) b with
  | (Err _, b) => b
  | (Ok conn, b) => Release conn (snd (Exec conn (TSQL t) (TArgs t) b))
  end.

Definition handleQuery (body : string) (s : Server S) : option (Response * Server S * list Task) :=
  match decode_query body with
  | None =>
      Some (writeError StatusBadRequest ("invalid JSON body: " +:+ json_error body), s, [])
  | Some req =>
      if is_nil (ShardKey req) || bool_decide (SQL req = "") then
        Some (writeError StatusBadRequest "shard_key and sql are required", s, [])
      else
        match Resolve r m (ShardKey req) with
        | Err e => Some (writeRouterError e, inc_error s, [])
        | Ok res =>
            let s := inc_request res s in
            if Write req then
              '(resp, b, tasks) ← handleWrite res req (backend s);
              Some (resp, set_backend b s, tasks)
            else
              let '(resp, b) := handleRead res req (backend s) in
              Some (resp, set_backend b s, [])
        end
  end.
End handlers.

(** ** The metrics page *)

Definition breakerStateValue (s : Breaker.BState) : Z :=
  match s with Breaker.HalfOpen => 1 | Breaker.Open => 2 | _ => 0 end.

(** [sortedKeys] and [sortedBreakerKeys]: the keys in the order the map is
    visited, then [sort.Strings]. *)
Definition sortedKeys (keys : list string) : list string := sort_strings keys.

Definition newline : string := String (Ascii.ascii_of_nat 10) "".

Definition line (s : string) : string := s +:+ newline.

Fixpoint concat_strings (l : list string) : string :=
  match l with [] => "" | s :: l => s +:+ concat_strings l end.

(** The two arguments list the keys of a map in the order Go visits it. *)
Definition handleMetrics `{UnicodeTables} {S C : Type} `{Backend S C}
    (visitRequests : gmap string Z → list string)
    (visitBreakers : gmap string Breaker.BState → list string) (s : Server S) : Response :=
  let snap := Metrics.Snapshot (metrics s) in
  let states := BreakerStates (backend s) in
  mkResponse StatusOK (TextBody (
    line "# HELP shard_router_routing_requests_total Routing decisions made, by shard_id"
    +:+ line "# TYPE shard_router_routing_requests_total counter"
    +:+ concat_strings (map (λ id,
          line ("shard_router_routing_requests_total{shard_id=" +:+ quote id +:+ "} "
                +:+ format_int (default 0 (Metrics.requestsByShard snap !! id))))
          (sortedKeys (visitRequests (Metrics.requestsByShard snap))))
    +:+ line "# HELP shard_router_routing_errors_total Routing resolution failures"
    +:+ line "# TYPE shard_router_routing_errors_total counter"
    +:+ line ("shard_router_routing_errors_total " +:+ format_int (Metrics.routingErrors snap))
    +:+ line "# HELP shard_router_breaker_state Circuit breaker state by shard_id (0=closed,1=half_open,2=open)"
    +:+ line "# TYPE shard_router_breaker_state gauge"
    +:+ concat_strings (map (λ id,
          line ("shard_router_breaker_state{shard_id=" +:+ quote id +:+ "} "
                +:+ format_int (breakerStateValue (default Breaker.Closed (states !! id)))))
          (sortedKeys (visitBreakers states))))).

(** ** Recording the statements

    Any backend, with the list of the statements sent to a database, in the
    order they were sent. *)
Record Stmt := mkStmt {
  SShard : ShardDef;
  SEndpoint : Endpoint;
  SText : string;
  SArgs : list go_any;
  SWrite : bool;
}.

Definition recorder {S C : Type} (B : Backend S C) : Backend (S * list Stmt) (C * ShardDef * Endpoint) := {|
  Acquire d ep (s : S * list Stmt) :=
    match Acquire d ep s.1 with
    | (Ok c, b) => (Ok (c, d, ep), (b, s.2))
    | (Err e, b) => (Err e, (b, s.2))
    end;
  Query (c : C * ShardDef * Endpoint) sql args (s : S * list Stmt) :=
    let '(c, d, ep) := c in
    let '(res, b) := Query c sql args s.1 in (res, (b, s.2 ++ [mkStmt d ep sql args false]));
  CloseRows (c : C * ShardDef * Endpoint) (s : S * list Stmt) := (CloseRows c.1.1 s.1, s.2);
  Exec (c : C * ShardDef * Endpoint) sql args (s : S * list Stmt) :=
    let '(c, d, ep) := c in
    let '(res, b) := Exec c sql args s.1 in (res, (b, s.2 ++ [mkStmt d ep sql args true]));
  Release (c : C * ShardDef * Endpoint) (s : S * list Stmt) := (Release c.1.1 s.1, s.2);
  BreakerStates (s : S * list Stmt) := BreakerStates s.1;
|}.

Section statements.
Context `{UnicodeTables} `{JsonErrors} {S C : Type} (B : Backend S C).
Variables (r : Router) (m : option Mapping).

Definition write_stmt (req : queryRequest) (d : ShardDef) : Stmt :=
  mkStmt d (Writer d) (SQL req) (Args req) true.

(** A handler with its log: what it adds to the log. *)
Lemma run_task_log (t : Task) (s : S * list Stmt) :
  ∃ b, run_task (H1 := recorder B) t s = (b, s.2)
    ∨ run_task (H1 := recorder B) t s
      = (b, s.2 ++ [mkStmt (TShard t) (Writer (TShard t)) (TSQL t) (TArgs t) true]).
Proof.
  destruct s as [b log]. unfold run_task. cbn.
  destruct (Acquire (TShard t) (Writer (TShard t)) b) as [[c|e] b1]; cbn; [|eauto].
  destruct (Exec c (TSQL t) (TArgs t) b1) as [res b2]. cbn. eauto.
Qed.

Lemma run_tasks_log (ts : list Task) (s : S * list Stmt) :
  ∃ b ts', foldl (λ s t, run_task (H1 := recorder B) t s) s ts
           = (b, s.2 ++ map (λ t, mkStmt (TShard t) (Writer (TShard t)) (TSQL t) (TArgs t) true) ts')
    ∧ sublist ts' ts.
Proof.
  revert s. induction ts as [|t ts IH]; intros s.
  - exists s.1, []. cbn. rewrite app_nil_r. by destruct s.
  - cbn [foldl]. destruct (run_task_log t s) as (b & [E|E]); rewrite E.
    + destruct (IH (b, s.2)) as (b' & ts' & -> & Hs). exists b', ts'. split; [done|by constructor].
    + destruct (IH (b, s.2 ++ [mkStmt (TShard t) (Writer (TShard t)) (TSQL t) (TArgs t) true]))
        as (b' & ts' & -> & Hs).
      exists b', (t :: ts'). split; [cbn; by rewrite <-app_assoc|by constructor].
Qed.

Lemma handleRead_log res req (s : S * list Stmt) :
  let '(resp, s') := handleRead (H1 := recorder B) res req s in
  (s'.2 = s.2 ∧ RStatus resp = StatusServiceUnavailable)
  ∨ (s'.2 = s.2 ++ [mkStmt (ReadShard res)
                      (ReadEndpoint res (ParseReadConsistency (Consistency req)))
                      (SQL req) (Args req) false]
     ∧ (RStatus resp = StatusOK ∨ RStatus resp = StatusBadGateway)).
Proof.
  destruct s as [b log]. unfold handleRead. cbn.
  destruct (Acquire (ReadShard res) (ReadEndpoint res (ParseReadConsistency (Consistency req))) b)
    as [[c|e] b1]; cbn; [|by left].
  destruct (Query c (SQL req) (Args req) b1) as [[rows|msg] b2]; cbn; right; [|by auto].
  split; [done|]. destruct (collect_rows _); cbn; [|by auto]. destruct (RowsErr rows); by auto.
Qed.

Lemma handleWrite_log res req primary rest (s : S * list Stmt) :
  WriteShards res = primary :: rest →
  ∃ resp s' tasks, handleWrite (H1 := recorder B) res req s = Some (resp, s', tasks)
    ∧ ((s'.2 = s.2 ∧ tasks = [] ∧ RStatus resp = StatusServiceUnavailable)
       ∨ (s'.2 = s.2 ++ [write_stmt req primary]
          ∧ ((tasks = [] ∧ RStatus resp = StatusBadGateway)
             ∨ (tasks = map (λ d, mkTask d (SQL req) (Args req)) rest ∧ RStatus resp = StatusOK)))).
Proof.
  intros Hw. destruct s as [b log]. unfold handleWrite, PrimaryWriteShard. rewrite Hw. cbn.
  destruct (Acquire primary (Writer primary) b) as [[c|e] b1]; cbn; [|eauto 10].
  destruct (Exec c (SQL req) (Args req) b1) as [[n|msg] b2]; cbn; eauto 10.
Qed.
End statements.

(** ** Properties *)

Section properties.
Context `{UnicodeTables} `{JsonErrors} {S C : Type} (B : Backend S C).

(** A request that passes the checks of [handleQuery]. *)
Definition accepted (body : string) : option queryRequest :=
  req ← decode_query body;
  if is_nil (ShardKey req) || bool_decide (SQL req = "") then None else Some req.

(** The handler past its checks. *)
Lemma handleQuery_accepted (r : Router) (m : option Mapping) body req (s : Server S) :
  accepted body = Some req →
  handleQuery r m body s
  = match Resolve r m (ShardKey req) with
    | Err e => Some (writeRouterError e, inc_error s, [])
    | Ok res =>
        let s := inc_request res s in
        if Write req then
          '(resp, b, tasks) ← handleWrite res req (backend s);
          Some (resp, set_backend b s, tasks)
        else
          let '(resp, b) := handleRead res req (backend s) in
          Some (resp, set_backend b s, [])
    end.
Proof.
  unfold accepted, handleQuery. destruct (decode_query body) as [q|]; [|done].
  cbn [mbind option_bind]. by destruct (is_nil (ShardKey q) || bool_decide (SQL q = "")); intros [= ->].
Qed.

(** A resolved write has a primary. *)
Lemma handleWrite_total (r : Router) m k res (req : queryRequest) (b : S) :
  Resolve r m k = Ok res → ∃ resp b' tasks, handleWrite res req b = Some (resp, b', tasks).
Proof.
  intros (rest & Hws & _)%Resolve_shape. unfold handleWrite, PrimaryWriteShard. rewrite Hws. cbn.
  destruct (Acquire _ _ b) as [[c|e] b1]; [|by eauto].
  destruct (Exec c _ _ b1) as [[n|msg] b2]; by eauto.
Qed.

Lemma collect_rows_ok steps : forallb is_ok steps = is_ok (collect_rows steps).
Proof. induction steps as [|[vals|e] steps IH]; cbn; [done| |done]. rewrite IH. by destruct (collect_rows steps). Qed.

(** The statements a routed request may send: a read sends at most one, to the
    endpoint its consistency asks for; a write sends one to the primary, and
    then some of the secondaries, each at most once. *)
Definition may_send (res : Resolved) (req : queryRequest) (stmts : list Stmt) : Prop :=
  stmts = []
  ∨ (Write req = false
     ∧ stmts = [mkStmt (ReadShard res) (ReadEndpoint res (ParseReadConsistency (Consistency req)))
                  (SQL req) (Args req) false])
  ∨ (Write req = true ∧ ∃ primary rest secondaries, WriteShards res = primary :: rest
     ∧ secondaries ⊆+ rest
     ∧ stmts = write_stmt req primary :: map (write_stmt req) secondaries).

Definition after_tasks (order : list Task) (s : Server (S * list Stmt)) : list Stmt :=
  (foldl (λ b t, run_task (H1 := recorder B) t b) (backend s) order).2.

Lemma tasks_sublist req shards ts (order : list Task) :
  order ≡ₚ map (λ d, mkTask d (SQL req) (Args req)) shards → sublist ts order →
  ∃ secondaries, secondaries ⊆+ shards
    ∧ map (λ t, mkStmt (TShard t) (Writer (TShard t)) (TSQL t) (TArgs t) true) ts
      = map (write_stmt req) secondaries.
Proof.
  intros Hp Hs. exists (map TShard ts). split.
  - transitivity (map TShard order); [by apply fmap_submseteq, sublist_submseteq|].
    rewrite Hp, map_map. cbn. by rewrite map_id.
  - rewrite map_map. apply map_ext_in. intros t Ht.
    assert (t ∈ map (λ d, mkTask d (SQL req) (Args req)) shards) as Hin.
    { rewrite <-Hp. eapply (sublist_submseteq ts order) in Hs. eapply elem_of_submseteq; [|done].
      by apply list_elem_of_In. }
    by apply list_elem_of_fmap in Hin as (d & -> & _).
Qed.

Lemma may_send_active r m k res req stmts :
  Resolve r m k = Ok res → may_send res req stmts → Forall (λ x, active (SShard x)) stmts.
Proof.
  intros Hres. destruct (Resolve_ok r m k res Hres) as (mp & b & _ & _ & _ & Hact & _).
  destruct (Resolve_shape r m k res Hres) as (rest & Hws & _).
  rewrite Hws in Hact. apply Forall_cons in Hact as [Hp Hrest].
  intros [->|[[_ ->]|(_ & primary & rest' & secs & E & Hsub & ->)]]; [constructor| |].
  - by repeat constructor.
  - rewrite Hws in E. injection E as <- <-. constructor; [done|]. apply Forall_map. cbn.
    apply Forall_forall. intros d Hd. eapply Forall_forall in Hrest; [exact Hrest|].
    by eapply elem_of_submseteq.
Qed.

Lemma write_sends res req primary rest b resp b' tasks order s :
  Write req = true → WriteShards res = primary :: rest →
  handleWrite (H1 := recorder B) res req b = Some (resp, b', tasks) → order ≡ₚ tasks →
  ∃ stmts, after_tasks order (set_backend b' s) = b.2 ++ stmts ∧ may_send res req stmts.
Proof.
  intros Hwr Hws E Hord.
  destruct (handleWrite_log B res req primary rest b Hws) as (resp1 & b1 & tasks1 & E' & Hlog).
  rewrite E' in E. injection E as -> -> ->.
  destruct (run_tasks_log B order b') as (b2 & ts & E2 & Hts).
  assert (after_tasks order (set_backend b' s)
          = b'.2 ++ map (λ t, mkStmt (TShard t) (Writer (TShard t)) (TSQL t) (TArgs t) true) ts)
    as Ha by (unfold after_tasks; cbn; by rewrite E2).
  destruct Hlog as [(El & -> & _)|(El & [[-> _]|[-> _]])].
  - apply Permutation_nil_r in Hord as ->. apply sublist_nil_r in Hts as ->.
    exists []. split; [by rewrite Ha, El|by left].
  - apply Permutation_nil_r in Hord as ->. apply sublist_nil_r in Hts as ->.
    exists [write_stmt req primary]. split; [by rewrite Ha, El, app_nil_r|].
    right; right. split; [done|]. exists primary, rest, [].
    split_and!; [done|apply submseteq_nil_l|done].
  - destruct (tasks_sublist req rest ts order Hord Hts) as (secs & Hsub & Es).
    exists (write_stmt req primary :: map (write_stmt req) secs). split.
    + by rewrite Ha, El, Es, <-app_assoc.
    + right; right. split; [done|]. by exists primary, rest, secs.
Qed.

Lemma read_sends res req b resp b' s :
  Write req = false → handleRead (H1 := recorder B) res req b = (resp, b') →
  ∃ stmts, after_tasks [] (set_backend b' s) = b.2 ++ stmts ∧ may_send res req stmts.
Proof.
  intros Hwr E. pose proof (handleRead_log B res req b) as Hlog. rewrite E in Hlog.
  destruct Hlog as [[El _]|[El _]].
  - exists []. split; [rewrite app_nil_r; exact El|by left].
  - eexists. split; [exact El|]. right; left. by split.
Qed.

Lemma query_sends (r : Router) (m : option Mapping) (body : string)
    (s s' : Server (S * list Stmt)) (resp : Response) (tasks order : list Task) :
  handleQuery (H1 := recorder B) r m body s = Some (resp, s', tasks) →
  order ≡ₚ tasks →
  ∃ stmts, after_tasks order s' = (backend s).2 ++ stmts
    ∧ (stmts = [] ∨ ∃ req res, accepted body = Some req ∧ Resolve r m (ShardKey req) = Ok res
         ∧ may_send res req stmts ∧ Forall (λ x, active (SShard x)) stmts).
Proof.
  intros Hq Hord. unfold handleQuery in Hq. unfold accepted.
  destruct (decode_query body) as [req|]; cbn [mbind option_bind] in *; cycle 1.
  { injection Hq as <- <- <-. apply Permutation_nil_r in Hord as ->. exists [].
    split; [by rewrite app_nil_r|by left]. }
  destruct (is_nil (ShardKey req) || bool_decide (SQL req = "")).
  { injection Hq as <- <- <-. apply Permutation_nil_r in Hord as ->. exists [].
    split; [by rewrite app_nil_r|by left]. }
  destruct (Resolve r m (ShardKey req)) as [res|e] eqn:Hres; cycle 1.
  { injection Hq as <- <- <-. apply Permutation_nil_r in Hord as ->. exists [].
    split; [by rewrite app_nil_r|by left]. }
  destruct (Resolve_shape r m (ShardKey req) res Hres) as (rest & Hws & _).
  assert (∃ stmts, after_tasks order s' = (backend s).2 ++ stmts ∧ may_send res req stmts)
    as (stmts & E & Hm).
  { destruct (Write req) eqn:Hwr.
    - cbn [inc_request backend] in Hq.
      destruct (handleWrite _ _ _) as [[[resp1 b1] tasks1]|] eqn:E; [|done].
      injection Hq as <- <- <-. by eapply write_sends.
    - destruct (handleRead _ _ _) as [resp1 b1] eqn:E. injection Hq as <- <- <-.
      apply Permutation_nil_r in Hord as ->. by eapply (read_sends _ _ (backend s)). }
  exists stmts. split; [done|]. right. exists req, res.
  split_and!; [done|done|done|by eapply may_send_active].
Qed.

(** Every statement a routed request may send: its text, and where it goes. *)
Lemma may_send_elem r m k res req stmts x :
  Resolve r m k = Ok res → may_send res req stmts → x ∈ stmts →
  SText x = SQL req ∧ SArgs x = Args req ∧ SWrite x = Write req
  ∧ SShard x ∈ WriteShards res
  ∧ (SEndpoint x = Writer (SShard x) ∨ (SWrite x = false ∧ Reader (SShard x) = Some (SEndpoint x))).
Proof.
  intros Hres. destruct (Resolve_shape r m k res Hres) as (rest & Hws & _).
  intros [->|[[Hw ->]|(Hw & primary & rest' & secs & E & Hsub & ->)]] Hx; [by apply elem_of_nil in Hx|..].
  - apply list_elem_of_singleton in Hx as ->. cbn. rewrite Hws. split_and!; [done|done|done|by left|].
    unfold ReadEndpoint. case_decide; [destruct (Reader (ReadShard res)); auto|by left].
  - assert (∃ d, x = write_stmt req d ∧ d ∈ WriteShards res) as (d & -> & Hd).
    { rewrite E. apply elem_of_cons in Hx as [->|(d & -> & Hd)%list_elem_of_fmap];
        eexists; (split; [done|]); [by left|right; by eapply elem_of_submseteq]. }
    cbn. rewrite Hw. auto 10.
Qed.

(** C5: statements go where the mapping says, and nowhere else: whatever the
    backend answers and in whatever order the goroutines of the secondaries
    run, a request to [/v1/query] sends no statement unless it is accepted and
    resolves; then it sends its own SQL and arguments, a read at most once, a
    write to the primary first and to each secondary at most once after the
    primary has succeeded; every shard it reaches is [ACTIVE] in the mapping. *)
Theorem query_executes_where_routed (r : Router) (m : option Mapping) (body : string)
    (s s' : Server (S * list Stmt)) (resp : Response) (tasks order : list Task) :
  handleQuery (H1 := recorder B) r m body s = Some (resp, s', tasks) →
  order ≡ₚ tasks →
  ∃ stmts, after_tasks order s' = (backend s).2 ++ stmts
    ∧ (stmts = [] ∨ ∃ req res, accepted body = Some req ∧ Resolve r m (ShardKey req) = Ok res
         ∧ may_send res req stmts ∧ Forall (λ x, active (SShard x)) stmts).
Proof. apply query_sends. Qed.

(** The rows of a read come out to the last one without an error. *)
Definition read_through (rows : RowSet) : bool :=
  forallb is_ok (Steps rows) && bool_decide (RowsErr rows = None).

(** C30: every request is answered and counted once. [/v1/query] never panics. A
    body that is not accepted gets 400 and leaves no trace. A key that does not
    resolve counts as a routing error and nothing is asked of the databases: 503
    when there is no mapping or a shard is not available, 500 when the bucket or
    a shard is unknown. A key that resolves counts as a request to the shard it
    reads from; the answer is 503 when no connection is obtained, 502 when the
    statement fails or its rows cannot be read to the end, and 200 otherwise; only
    a write answered 200 starts goroutines, one for each shard of the write set
    after the first. *)
Theorem query_accounted (r : Router) (m : option Mapping) (body : string) (s : Server S) :
  ∃ resp s' tasks, handleQuery r m body s = Some (resp, s', tasks)
    ∧ match accepted body with
      | None => RStatus resp = 400 ∧ s' = s ∧ tasks = []
      | Some req =>
          match Resolve r m (ShardKey req) with
          | Err e =>
              RStatus resp = match e with
                             | ErrNoMapping | ErrShardUnavailable _ => 503
                             | ErrUnknownBucket _ | ErrUnknownShard _ _ => 500
                             end
              ∧ s' = mkServer (Metrics.IncRoutingError (metrics s)) (backend s) ∧ tasks = []
          | Ok res =>
              metrics s' = Metrics.IncRoutingRequest (ShardID (ReadShard res)) (RBucketID res) (metrics s)
              ∧ let ep := if Write req then Writer (ReadShard res)
                          else ReadEndpoint res (ParseReadConsistency (Consistency req)) in
                match Acquire (ReadShard res) ep (backend s) with
                | (Err _, _) => RStatus resp = 503 ∧ tasks = []
                | (Ok conn, b) =>
                    if Write req then
                      match fst (Exec conn (SQL req) (Args req) b) with
                      | Err _ => RStatus resp = 502 ∧ tasks = []
                      | Ok _ => RStatus resp = 200
                          ∧ tasks = map (λ d, mkTask d (SQL req) (Args req)) (tail (WriteShards res))
                      end
                    else
                      tasks = []
                      ∧ match fst (Query conn (SQL req) (Args req) b) with
                        | Err _ => RStatus resp = 502
                        | Ok rows => RStatus resp = if read_through rows then 200 else 502
                        end
                end
          end
      end.
Proof.
  destruct (accepted body) as [req|] eqn:Hacc.
  2: { unfold accepted in Hacc. unfold handleQuery.
       destruct (decode_query body) as [req|]; cbn [mbind option_bind] in Hacc; [|by eauto 10].
       destruct (is_nil (ShardKey req) || bool_decide (SQL req = "")); [by eauto 10|done]. }
  rewrite (handleQuery_accepted r m body req s Hacc).
  destruct (Resolve r m (ShardKey req)) as [res|e] eqn:Hres; [|destruct e; by eauto 10].
  destruct (Resolve_shape r m (ShardKey req) res Hres) as (rest & Hws & _).
  destruct (Write req).
  - unfold handleWrite, PrimaryWriteShard. rewrite Hws. cbn.
    destruct (Acquire (ReadShard res) (Writer (ReadShard res)) (backend s)) as [[c|e] b1];
      [|cbn; by eauto 10].
    destruct (Exec c (SQL req) (Args req) b1) as [[n|msg] b2]; cbn; by eauto 10.
  - unfold handleRead. cbn.
    destruct (Acquire (ReadShard res) (ReadEndpoint res (ParseReadConsistency (Consistency req)))
                (backend s)) as [[c|e] b1]; [|cbn; by eauto 10].
    destruct (Query c (SQL req) (Args req) b1) as [[rows|msg] b2]; cbn; [|by eauto 10].
    unfold read_through. rewrite (collect_rows_ok (Steps rows)).
    destruct (collect_rows (Steps rows)); cbn; [|by eauto 10].
    destruct (RowsErr rows); cbn; by eauto 10.
Qed.
End properties.

(** *** The order of the metrics page *)

(** An order in which Go may visit the keys of a map. *)
Definition visits_keys {A} (visit : gmap string A → list string) : Prop :=
  ∀ m, visit m ≡ₚ (map_to_list m).*1.

(** The metrics page does not depend on the order in which Go visits the
    maps of counters and of breakers, and has exactly one line for every shard
    that has a counter, in increasing order of the identifiers. *)
Lemma metrics_page_canonical `{UnicodeTables} {S C : Type} `{Backend S C} (s : Server S)
    (vr vr' : gmap string Z → list string) (vb vb' : gmap string Breaker.BState → list string) :
  visits_keys vr → visits_keys vr' → visits_keys vb → visits_keys vb' →
  handleMetrics vr vb s = handleMetrics vr' vb' s
  ∧ let ids := sortedKeys (vr (Metrics.requestsByShard (metrics s))) in
    StronglySorted bytes_le ids ∧ NoDup ids
    ∧ ∀ id, id ∈ ids ↔ is_Some (Metrics.requestsByShard (metrics s) !! id).
Proof.
  intros Hr Hr' Hb Hb'. unfold handleMetrics, sortedKeys. split.
  - rewrite (sort_strings_perm_eq (vr _) (vr' _)) by by rewrite Hr, Hr'.
    by rewrite (sort_strings_perm_eq (vb _) (vb' _)) by by rewrite Hb, Hb'.
  - split_and!; [apply sort_strings_sorted| |].
    + rewrite sort_strings_perm, Hr. apply NoDup_fst_map_to_list.
    + intros id. rewrite sort_strings_perm, Hr, list_elem_of_fmap. split.
      * intros ([k n] & -> & Hin%elem_of_map_to_list). by eexists.
      * intros [n Hn]. exists (id, n). split; [done|by apply elem_of_map_to_list].
Qed.

(** ** The pool manager as a backend *)

(** What [pgxpool] does with a statement on a connection. *)
Class Database (W : Type) := {
  db_query : PoolId → string → list go_any → W → result string RowSet * W;
  db_close_rows : PoolId → W → W;
  db_exec : PoolId → string → list go_any → W → result string Z * W;
  db_release : PoolId → W → W;
}.

Section pool_backend.
Context {W P : Type} `{Driver W} `{Provider P} `{Database W}.

(** The state shared by the requests: pools and breakers, and the world. *)
Definition pool_backend (cfg : PoolConfig) (secrets : P) : Backend (PoolState * W) PoolId := {|
  Acquire d ep '(st, w) :=
    let '(res, st, w) := Pool.Acquire cfg secrets d ep st w in (res, (st, w));
  Query c sql args '(st, w) := let '(res, w) := db_query c sql args w in (res, (st, w));
  CloseRows c '(st, w) := (st, db_close_rows c w);
  Exec c sql args '(st, w) := let '(res, w) := db_exec c sql args w in (res, (st, w));
  Release c '(st, w) := (st, db_release c w);
  BreakerStates '(st, w) := Breaker.Snapshot (breakers st);
|}.

(** C29: a shard that has failed five times in a row stops costing anything: for
    ten seconds after the last failure a request routed to it is answered 503
    without a look at the pools, the credentials or the network; only the
    request is counted. *)
Theorem tripped_shard_answers_503 `{UnicodeTables} `{JsonErrors} (cfg : PoolConfig) (secrets : P)
    (r : Router) (m : option Mapping) (body : string) (req : queryRequest) (res : Resolved)
    (s : Server (PoolState * W)) (h : list Breaker.event) (t : Z) :
  let '(st, w) := backend s in
  accepted body = Some req → Resolve r m (ShardKey req) = Ok res →
  breaker_history st (ShardID (ReadShard res)) h → Z.of_nat (length h) ≤ int64_max →
  5 ≤ Breaker.failures h → Breaker.probed (10 * Breaker.second) h = false →
  Breaker.last_failure h = Some t → Breaker.time_since (Now w) t < 10 * Breaker.second →
  handleQuery (H1 := pool_backend cfg secrets) r m body s
  = Some (writePoolError (ShardID (ReadShard res)) (ErrBreaker (ShardID (ReadShard res))),
          inc_request res s, []).
Proof.
  destruct s as [ms [st w]]. cbn [backend]. intros Hacc Hres Hh Hlen H5 Hp Ht Hnow.
  pose proof (λ ep, tripped_refused cfg secrets (ReadShard res) ep st w h t Hh Hlen H5 Hp Ht Hnow)
    as Hrefused.
  destruct (Resolve_shape r m (ShardKey req) res Hres) as (rest & Hws & _).
  unfold accepted in Hacc. unfold handleQuery.
  destruct (decode_query body) as [req'|]; cbn [mbind option_bind] in Hacc; [|done].
  destruct (is_nil (ShardKey req') || bool_decide (SQL req' = "")); [done|]. injection Hacc as ->.
  rewrite Hres. destruct (Write req).
  - unfold handleWrite, PrimaryWriteShard. rewrite Hws. cbn. by rewrite Hrefused.
  - unfold handleRead. cbn. by rewrite Hrefused.
Qed.
End pool_backend.

(** ** Examples *)

Definition ex_json_errors : JsonErrors := {| json_error _ := "unexpected end of JSON input" |}.
#[local] Existing Instances no_unicode ex_json_errors.

(** A backend that grants everything. *)
Definition ex_backend : Backend unit unit := {|
  Acquire d ep s := (Ok tt, s);
  Query c sql args s := (Ok (mkRowSet ["n"] [Ok [Some (jint 1)]] None), s);
  CloseRows c s := s;
  Exec c sql args s := (Ok 1, s);
  Release c s := s;
  BreakerStates s := {[ "s2" := Breaker.Open; "s1" := Breaker.Closed ]};
|}.

Definition ex_write_body : string :=
  js "{'shard_key':'tenant-1','sql':'UPDATE t SET x = 1','args':[true],'write':true} trailing".

Definition ex_dual : option Mapping := Some (ex_mapping StateDualWrite ShardActive ShardActive).

(** A dual write: the primary, then the destination. *)
Definition ex_dual_run : option (Response * Server (unit * list Stmt) * list Task) :=
  handleQuery (H1 := recorder ex_backend) (New 1) ex_dual ex_write_body
    (mkServer Metrics.NewRegistry (tt, [])).

Example dual_write_statements :
  option_map (λ '(resp, s, tasks), (RStatus resp, map (λ x, ShardID (SShard x)) (after_tasks ex_backend tasks s)))
    ex_dual_run = Some (200, ["s1"; "s2"]).
Proof. by vm_compute. Qed.

Lemma query_executes_where_routed_witness :
  ∃ resp s' tasks, ex_dual_run = Some (resp, s', tasks) ∧ length tasks = 1%nat
    ∧ ∃ stmts, after_tasks ex_backend (reverse tasks) s' = stmts
      ∧ (stmts = [] ∨ ∃ req res, accepted ex_write_body = Some req
         ∧ Resolve (New 1) ex_dual (ShardKey req) = Ok res ∧ may_send res req stmts
         ∧ Forall (λ x, active (SShard x)) stmts).
Proof.
  destruct ex_dual_run as [[[resp s'] tasks]|] eqn:E; [|by vm_compute in E].
  exists resp, s', tasks. split; [done|]. split.
  - vm_compute in E. by injection E as _ _ <-.
  - apply (query_executes_where_routed ex_backend (New 1) ex_dual ex_write_body
             (mkServer Metrics.NewRegistry (tt, [])) s' resp tasks (reverse tasks)); [exact E|].
    apply reverse_Permutation.
Defined.

Lemma metrics_page_canonical_witness :
  let s := mkServer (Metrics.recorded [Metrics.Request "s2" 1; Metrics.Request "s1" 2]) tt in
  handleMetrics (H0 := ex_backend) (λ m, (map_to_list m).*1) (λ m, (map_to_list m).*1) s
  = handleMetrics (H0 := ex_backend) (λ m, reverse (map_to_list m).*1) (λ m, (map_to_list m).*1) s.
Proof.
  intros s. apply (metrics_page_canonical s); intros m; [done|apply reverse_Permutation|done|done].
Defined.

Example metrics_page_example :
  sortedKeys (map fst (map_to_list (Metrics.requestsByShard
    (Metrics.recorded [Metrics.Request "s2" 1; Metrics.Request "s1" 2])))) = ["s1"; "s2"].
Proof. by vm_compute. Qed.

Definition ex_database : Database Z := {|
  db_query _ _ _ w := (Err "down", w);
  db_close_rows _ w := w;
  db_exec _ _ _ w := (Err "down", w);
  db_release _ w := w;
|}.

Lemma tripped_shard_answers_503_witness :
  let m := Some (mkMapping 1 {[ "s1" := ex_pool_shard ]} {[ 0 := mkBucketDef 0 "s1" "" "" 0 ]}) in
  let '(st, w) := ex_tripped in
  option_map (λ '(resp, s, _), (RStatus resp, snd (backend s)))
    (handleQuery (H1 := pool_backend (H := ex_driver) (H0 := ex_provider) (H1 := ex_database)
                          DefaultConfig tt)
       (New 1) m ex_write_body (mkServer Metrics.NewRegistry (st, 12)))
  = Some (503, 12).
Proof.
  intros m. destruct ex_tripped as [st w] eqn:E. vm_compute in E. injection E as <- <-.
  rewrite (tripped_shard_answers_503 (H := ex_driver) (H0 := ex_provider) (H1 := ex_database)
    DefaultConfig tt (New 1) m ex_write_body
    (mkQueryRequest (AString "tenant-1") "UPDATE t SET x = 1" [ABool true] "" true)
    (mkResolved 0 ex_pool_shard [ex_pool_shard] "")
    (mkServer Metrics.NewRegistry (_, 12))
    [Breaker.EFailure 6; Breaker.EAllow 5; Breaker.EFailure 5; Breaker.EAllow 4;
     Breaker.EFailure 4; Breaker.EAllow 3; Breaker.EFailure 3; Breaker.EAllow 2;
     Breaker.EFailure 2; Breaker.EAllow 0] 6); by vm_compute.
Defined.

(** ** The health check *)

Definition without_bucket (id : Z) (m : Mapping) : Mapping :=
  mkMapping (Revision m) (Shards m) (delete id (Buckets m)).

(** The health check watches a single bucket: when the bucket of the probe
    key alone is missing, the server reports that it is not ready, although a
    mapping is loaded and every key of the other buckets is routed as before. *)
Lemma health_watches_one_bucket `{UnicodeTables} (r : Router) (m : Mapping) :
  let probe := BucketFor probe_key (bucketCount r) in
  let m' := without_bucket probe m in
  RStatus (handleHealth r (Some m')) = StatusServiceUnavailable
  ∧ ∀ k, BucketFor k (bucketCount r) ≠ probe → Resolve r (Some m') k = Resolve r (Some m) k.
Proof.
  intros probe m'. split.
  - unfold handleHealth, Resolve. fold probe. cbn [Buckets m' without_bucket].
    by rewrite lookup_delete_eq.
  - intros k Hk. apply route_outcome_Resolve.
    apply (route_outcome_agree _ _ m m'); [done| |apply Resolve_outcome].
    cbn. by rewrite lookup_delete_ne.
Qed.
