(* ===== verification/ApiConns.v ===== *)
(** * Package [api]: connections go back to their pool

    The handlers of [internal/api/server.go] hand back what they take. A
    ledger is put in front of any backend: it numbers the connections it grants,
    remembers which are out and which have rows open, and notes every use of a
    connection that is not out, a release with rows open, a second release. The
    theorem says that a request leaves the ledger as it found it. *)

From S2P Require Import Prelude GoInt GoString GoAny Json Model Cache Router Secrets Pool Api.
From S2P Require Metrics.

(** ** The ledger *)

Record Ledger := mkLedger {
  issued : nat;            (* the number of the next connection *)
  out : gset nat;          (* acquired and not released *)
  reading : gset nat;      (* with rows that are not closed *)
  misused : bool;
}.

Definition note_use (ok : bool) (l : Ledger) : Ledger :=
  mkLedger (issued l) (out l) (reading l) (misused l || negb ok).

Definition grant (l : Ledger) : nat * Ledger :=
  (issued l, mkLedger (S (issued l)) ({[issued l]} ∪ out l) (reading l) (misused l)).

Definition open_rows (n : nat) (l : Ledger) : Ledger :=
  mkLedger (issued l) (out l) ({[n]} ∪ reading l) (misused l).

Definition close_rows (n : nat) (l : Ledger) : Ledger :=
  let l := note_use (bool_decide (n ∈ reading l)) l in
  mkLedger (issued l) (out l) (reading l ∖ {[n]}) (misused l).

Definition take_back (n : nat) (l : Ledger) : Ledger :=
  let l := note_use (bool_decide (n ∈ out l) && bool_decide (n ∉ reading l)) l in
  mkLedger (issued l) (out l ∖ {[n]}) (reading l) (misused l).

(** A backend behind the ledger. *)
Definition leased {S C : Type} (B : Backend S C) : Backend (S * Ledger) (C * nat) := {|
  Acquire d ep (s : S * Ledger) :=
    match Acquire d ep s.1 with
    | (Ok c, b) => let '(n, l) := grant s.2 in (Ok (c, n), (b, l))
    | (Err e, b) => (Err e, (b, s.2))
    end;
  Query (c : C * nat) sql args (s : S * Ledger) :=
    let l := note_use (bool_decide (c.2 ∈ out s.2)) s.2 in
    match Query c.1 sql args s.1 with
    | (Ok rows, b) => (Ok rows, (b, open_rows c.2 l))
    | (Err msg, b) => (Err msg, (b, l))
    end;
  CloseRows (c : C * nat) (s : S * Ledger) := (CloseRows c.1 s.1, close_rows c.2 s.2);
  Exec (c : C * nat) sql args (s : S * Ledger) :=
    let '(res, b) := Exec c.1 sql args s.1 in
    (res, (b, note_use (bool_decide (c.2 ∈ out s.2)) s.2));
  Release (c : C * nat) (s : S * Ledger) := (Release c.1 s.1, take_back c.2 s.2);
  BreakerStates (s : S * Ledger) := BreakerStates s.1;
|}.

(** The connections out, and those with open rows, have been issued. *)
Definition ledger_wf (l : Ledger) : Prop :=
  (∀ n, n ∈ out l → (n < issued l)%nat) ∧ (∀ n, n ∈ reading l → (n < issued l)%nat).

(** The ledger [l'] is [l] after some connections were granted and taken back
    in good order. *)
Definition settled (l l' : Ledger) : Prop :=
  ∃ n, l' = mkLedger (issued l + n) (out l) (reading l) (misused l).

(** ** Lemmas *)

#[export] Instance settled_refl : Reflexive settled.
Proof. intros []. exists 0%nat. cbn. by rewrite Nat.add_0_r. Qed.

#[export] Instance settled_trans : Transitive settled.
Proof.
  intros l1 l2 l3 [n ->] [k ->]. exists (n + k)%nat. cbn. by rewrite Nat.add_assoc.
Qed.

Lemma settled_wf l l' : ledger_wf l → settled l l' → ledger_wf l'.
Proof. intros [Ho Hr] [n ->]. split; cbn; [intros k Hk%Ho|intros k Hk%Hr]; lia. Qed.

Lemma note_ok b l : b = true → note_use b l = l.
Proof. intros ->. destruct l. unfold note_use. cbn. by rewrite orb_false_r. Qed.

Lemma grant_out l : fst (grant l) ∈ out (snd (grant l)).
Proof. cbn. set_solver. Qed.

(** Granted, used while it is out, and taken back. *)
Lemma settle_use l :
  ledger_wf l → settled l (take_back (issued l) (snd (grant l))).
Proof.
  intros [Ho Hr]. exists 1%nat. unfold take_back. rewrite note_ok.
  - cbn. rewrite Nat.add_1_r. f_equal.
    assert (issued l ∉ out l) as Hn by (intros Hin%Ho; lia). set_solver.
  - cbn. rewrite !bool_decide_true; [done|intros Hin%Hr; lia|set_solver].
Qed.

Lemma close_open n l : n ∉ reading l → close_rows n (open_rows n l) = l.
Proof.
  intros Hn. unfold close_rows. rewrite note_ok.
  - destruct l; cbn in *. f_equal. set_solver.
  - cbn. apply bool_decide_true. set_solver.
Qed.

Section handlers.
Context `{UnicodeTables} `{JsonErrors} {S C : Type} (B : Backend S C).

Lemma handleRead_settled res req s :
  ledger_wf s.2 → settled s.2 (handleRead (H1 := leased B) res req s).2.2.
Proof.
  intros Hwf. destruct s as [b l]. unfold handleRead. cbn in Hwf |- *.
  destruct (Acquire (ReadShard res) _ b) as [[c|e] b1]; cbn; [|reflexivity].
  rewrite (note_ok _ _ (bool_decide_true _ (grant_out l))).
  destruct (Query c (SQL req) (Args req) b1) as [[rows|msg] b2]; cbn; [|by apply settle_use].
  rewrite close_open; [by apply settle_use|]. intros Hin%Hwf. lia.
Qed.

Lemma run_task_settled t s :
  ledger_wf s.2 → settled s.2 (run_task (H1 := leased B) t s).2.
Proof.
  intros Hwf. destruct s as [b l]. unfold run_task. cbn in Hwf |- *.
  destruct (Acquire (TShard t) _ b) as [[c|e] b1]; cbn; [|reflexivity].
  rewrite (note_ok _ _ (bool_decide_true _ (grant_out l))).
  destruct (Exec c (TSQL t) (TArgs t) b1) as [res b2]. by apply settle_use.
Qed.

Lemma run_tasks_settled ts s :
  ledger_wf s.2 → settled s.2 (foldl (λ b t, run_task (H1 := leased B) t b) s ts).2.
Proof.
  revert s. induction ts as [|t ts IH]; intros s Hwf; [reflexivity|]. cbn [foldl].
  pose proof (run_task_settled t s Hwf) as Ht. etransitivity; [done|].
  apply IH. by eapply settled_wf.
Qed.

Lemma handleWrite_settled res req s resp s' tasks :
  handleWrite (H1 := leased B) res req s = Some (resp, s', tasks) →
  ledger_wf s.2 → settled s.2 s'.2.
Proof.
  intros E Hwf. destruct s as [b l]. unfold handleWrite in E. cbn in Hwf |- *.
  destruct (PrimaryWriteShard res) as [primary|]; [|done]. cbn in E.
  destruct (Acquire primary _ b) as [[c|e] b1]; cbn in E; [|by simplify_eq].
  rewrite (note_ok _ _ (bool_decide_true _ (grant_out l))) in E.
  destruct (Exec c (SQL req) (Args req) b1) as [[n|msg] b2]; injection E as <- <- <-;
    by apply settle_use.
Qed.

(** C12: no connection leaks: whatever the backend answers, on every branch of a
    request to [/v1/query] and in whatever order the goroutines of its
    secondaries run after it, each connection the request acquires is used
    while it is out, its rows are closed before it is released, and it is
    released exactly once: the connections out and the rows open are the ones
    that were before. *)
Theorem connections_returned (r : Router) (m : option Mapping) (body : string)
    (s s' : Server (S * Ledger)) (resp : Response) (tasks order : list Task) :
  ledger_wf (backend s).2 →
  handleQuery (H1 := leased B) r m body s = Some (resp, s', tasks) →
  order ≡ₚ tasks →
  settled (backend s).2 (backend s').2
  ∧ settled (backend s).2
      (foldl (λ b t, run_task (H1 := leased B) t b) (backend s') order).2.
Proof.
  intros Hwf Hq Hord.
  assert (settled (backend s).2 (backend s').2) as Hs.
  { unfold handleQuery in Hq.
    destruct (decode_query body) as [req|]; [|by simplify_eq].
    destruct (is_nil (ShardKey req) || bool_decide (SQL req = "")); [by simplify_eq|].
    destruct (Resolve r m (ShardKey req)) as [res|e]; [|by simplify_eq].
    destruct (Write req); cbn [inc_request backend] in Hq.
    - destruct (handleWrite _ _ _) as [[[resp1 b1] tasks1]|] eqn:E; [|done].
      injection Hq as <- <- <-. by eapply handleWrite_settled.
    - pose proof (handleRead_settled res req (backend s) Hwf) as Hr.
      destruct (handleRead _ _ _) as [resp1 b1]. injection Hq as <- <- <-. exact Hr. }
  split; [done|]. etransitivity; [done|]. apply run_tasks_settled. by eapply settled_wf.
Qed.
End handlers.

(** ** Examples *)

#[local] Existing Instances no_unicode ex_json_errors.

Definition empty_ledger : Ledger := mkLedger 0 ∅ ∅ false.

Lemma empty_ledger_wf : ledger_wf empty_ledger.
Proof. split; intros n Hn; by apply not_elem_of_empty in Hn. Qed.

Definition ex_leased_run : option (Response * Server (unit * Ledger) * list Task) :=
  handleQuery (H1 := leased ex_backend) (New 1) ex_dual ex_write_body
    (mkServer Metrics.NewRegistry (tt, empty_ledger)).

(** A dual write takes two connections, one after the other. *)
Lemma connections_returned_witness :
  ∃ resp s' tasks, ex_leased_run = Some (resp, s', tasks) ∧ length tasks = 1%nat
    ∧ settled empty_ledger
        (foldl (λ b t, run_task (H1 := leased ex_backend) t b) (backend s') (reverse tasks)).2.
Proof.
  destruct ex_leased_run as [[[resp s'] tasks]|] eqn:E; [|by vm_compute in E].
  exists resp, s', tasks. split; [done|]. split.
  - vm_compute in E. by injection E as _ _ <-.
  - apply (connections_returned ex_backend (New 1) ex_dual ex_write_body
             (mkServer Metrics.NewRegistry (tt, empty_ledger)) s' resp tasks (reverse tasks)).
    + apply empty_ledger_wf.
    + exact E.
    + apply reverse_Permutation.
Defined.

(** The ledger notices: a second release, a release with rows open, a use of
    a connection that is not out. *)
Example ledger_detects :
  let '(n, l) := grant empty_ledger in
  misused (take_back n (take_back n l)) = true
  ∧ misused (take_back n (open_rows n l)) = true
  ∧ misused (note_use (bool_decide (n ∈ out (take_back n l))) (take_back n l)) = true
  ∧ misused (take_back n (close_rows n (open_rows n l))) = false.
Proof. by vm_compute. Qed.
