(* ===== verification/Serve.v ===== *)
(** * Package [api]: from the HTTP request to the reply

    [routes] and [Handler] of [internal/api/server.go]: the table of patterns,
    its dispatch by the mux of [GoHttp], and the handlers of [Api] behind it.
    [ServeHTTP] is what the server does with one request: its reply, the new
    state, and the goroutines it leaves behind. *)

From S2P Require Import Prelude GoInt GoString GoSort GoAny Json JsonPrint GoHttp Model Cache Router Secrets Api.
From S2P Require Breaker Metrics.
From Stdlib Require Import Ascii.

(** ** The routes *)

Inductive Target : Type := THealth | TRoute | TQuery | TMetrics.

Definition routes : list (pattern * Target) := [
  (mkPattern "GET" ["healthz"], THealth);
  (mkPattern "GET" ["v1"; "route"], TRoute);
  (mkPattern "POST" ["v1"; "query"], TQuery);
  (mkPattern "GET" ["metrics"], TMetrics)
].

(** ** Requests and replies *)

(** The path is the escaped path of the URL. *)
Record HttpRequest := mkHttpRequest {
  HMethod : string;
  HPath : string;
  HRawQuery : string;
  HBody : string;
}.

(** What the mux writes itself, or what a handler writes. *)
Inductive Reply : Type :=
| FromHandler (resp : Response)
| Redirect (location : string)
| NotAllowed (allow : string)
| NotFoundPage
| BadStar.

Definition reply_status (r : Reply) : Z :=
  match r with
  | FromHandler resp => RStatus resp
  | Redirect _ => 301
  | NotAllowed _ => 405
  | NotFoundPage => 404
  | BadStar => 400
  end.

(** [strings.Join(l, ", ")]. *)
Fixpoint join_comma (l : list string) : string :=
  match l with [] => "" | [s] => s | s :: l => s +:+ ", " +:+ join_comma l end.

(** ** One request *)

Section serve.
Context `{UnicodeTables} `{JsonErrors} {S C : Type} `{Backend S C}.
(** The router, the mapping the store points to when the handler runs, and the
    orders in which the metrics page visits its maps. *)
Variables (r : Router) (m : option Mapping).
Variables (visitRequests : gmap string Z → list string)
          (visitBreakers : gmap string Breaker.BState → list string).

(** [None] is a panic of a handler. *)
Definition serve_target (e : Target) (req : HttpRequest) (s : Server S)
    : option (Response * Server S * list Task) :=
  match e with
  | THealth => Some (handleHealth r m, s, [])
  | TRoute => let '(resp, s) := handleRoute r m (query_get (HRawQuery req) "shard_key") s in
             Some (resp, s, [])
  | TQuery => handleQuery r m (HBody req) s
  | TMetrics => Some (handleMetrics visitRequests visitBreakers s, s, [])
  end.

Definition ServeHTTP (req : HttpRequest) (s : Server S)
    : option (Reply * Server S * list Task) :=
  match find_handler routes (HMethod req) (HPath req) (HRawQuery req) with
  | Handle e => '(resp, s, tasks) ← serve_target e req s; Some (FromHandler resp, s, tasks)
  | RedirectTo location => Some (Redirect location, s, [])
  | MethodNotAllowed allow => Some (NotAllowed (join_comma allow), s, [])
  | NotFound => Some (NotFoundPage, s, [])
  | BadRequest => Some (BadStar, s, [])
  end.
End serve.

(** ** What the table says *)

Definition method_is (e : Target) (method : string) : Prop :=
  match e with
  | TQuery => method = "POST"
  | _ => method = "GET" ∨ method = "HEAD"
  end.

Definition segments_of (e : Target) : list string :=
  match e with
  | THealth => ["healthz"]
  | TRoute => ["v1"; "route"]
  | TQuery => ["v1"; "query"]
  | TMetrics => ["metrics"]
  end.

#[export] Instance method_is_dec e method : Decision (method_is e method).
Proof. destruct e; unfold method_is; apply _. Defined.

Lemma find_pattern_routes method segs e :
  find_pattern routes method segs = Some e ↔
    method = (match e with TQuery => "POST" | _ => "GET" end) ∧ segs = segments_of e.
Proof.
  unfold find_pattern, routes. cbn.
  split.
  - repeat case_decide; cbn; intros [= <-]; naive_solver.
  - intros [-> ->]. by destruct e.
Qed.

Lemma mux_match_routes method path e :
  mux_match routes method path = Some e ↔ method_is e method ∧ path_segments path = segments_of e.
Proof.
  unfold mux_match. destruct (find_pattern routes method (path_segments path)) as [e'|] eqn:E.
  - apply find_pattern_routes in E as [-> E]. rewrite E. split.
    + intros [= ->]. destruct e; cbn; auto.
    + intros [Hm Hs]. destruct e, e'; cbn in *; naive_solver.
  - assert (∀ e, ¬ (method = (match e with TQuery => "POST" | _ => "GET" end)
                    ∧ path_segments path = segments_of e)) as Hn.
    { intros e' He%find_pattern_routes. congruence. }
    case_decide as Hh; [subst method; rewrite find_pattern_routes|]; specialize (Hn e); destruct e; cbn in *;
      naive_solver.
Qed.

Lemma handled_iff method path q e :
  find_handler routes method path q = Handle e ↔
    cleanPath path = path ∧ method_is e method ∧ path_segments path = segments_of e.
Proof.
  unfold find_handler. case_decide as Hs; [by subst; split; [|intros [E _]; vm_compute in E]|].
  assert (method_is e method → method ≠ "CONNECT") as Hc.
  { destruct e; cbn; intros Hm ->; naive_solver. }
  destruct (decide (method = "CONNECT")) as [->|Hm].
  - rewrite decide_False by tauto. split; [|naive_solver].
    destruct (mux_match routes "CONNECT" path) as [t|] eqn:E; [|by case_match].
    apply mux_match_routes in E as [Hm _]. destruct t; cbn in Hm; naive_solver.
  - case_decide as Hp; [by split; [|intros [? _]]|].
    rewrite Hp, <-mux_match_routes.
    destruct (mux_match routes method path) as [e'|]; [|by split; [case_match|intros [_ [=]]]].
    naive_solver.
Qed.

(** ** Properties *)

Section properties.
Context `{UnicodeTables} `{JsonErrors} {S C : Type} `{Backend S C}.
Variables (r : Router) (m : option Mapping).
Variables (vr : gmap string Z → list string) (vb : gmap string Breaker.BState → list string).

Lemma handleQuery_total body (s : Server S) :
  ∃ resp s' tasks, handleQuery r m body s = Some (resp, s', tasks).
Proof.
  unfold handleQuery. destruct (decode_query body) as [req|]; [|by eauto].
  destruct (is_nil _ || _); [by eauto|]. destruct (Resolve r m (ShardKey req)) as [res|e] eqn:E; [|by eauto].
  destruct (Write req); [|by destruct (handleRead res req _); eauto].
  destruct (Resolve_shape _ _ _ _ E) as (rest & Hw & _).
  unfold handleWrite, PrimaryWriteShard. rewrite Hw. cbn [head mbind option_bind].
  destruct (Acquire _ _ _) as [[c|e] b]; [|by cbn; eauto].
  by destruct (Exec _ _ _ _) as [[n|msg] b']; cbn; eauto.
Qed.

(** C17: only [POST /v1/query] executes anything: every request to the service is
    answered; unless its method is [POST] and its path names [/v1/query], the
    pools, the breakers and the databases are as before and no goroutine is
    left behind; unless it is for [/v1/route] or [/v1/query], the counters are
    as before too. *)
Theorem only_query_executes (req : HttpRequest) (s : Server S) :
  ∃ reply s' tasks, ServeHTTP r m vr vb req s = Some (reply, s', tasks)
    ∧ (HMethod req ≠ "POST" ∨ path_segments (HPath req) ≠ ["v1"; "query"] →
       backend s' = backend s ∧ tasks = [])
    ∧ (path_segments (HPath req) ≠ ["v1"; "query"] → path_segments (HPath req) ≠ ["v1"; "route"] →
       s' = s).
Proof.
  unfold ServeHTTP. destruct (find_handler _ _ _ _) as [e|loc|ms| |] eqn:E; [|by eauto 10..].
  apply handled_iff in E as (_ & Hm & Hs). rewrite Hs. destruct e; cbn in Hm |- *; [by eauto 10| | |by eauto 10].
  - unfold handleRoute. case_decide; [by eauto 10|].
    destruct (Resolve _ _ _); cbn; do 3 eexists; (split; [done|]); naive_solver.
  - destruct (handleQuery_total (HBody req) s) as (resp & s' & tasks & ->). cbn.
    do 3 eexists. split; [done|]. naive_solver.
Qed.

(** Redirects end: a redirected request was for a path that is not clean;
    the target is the clean path, escaped, with the query of the request; and a
    request for that target, whatever its method and query, is never redirected
    again. *)
Lemma redirect_ends (req req' : HttpRequest) (s s1 s' : Server S) (loc : string) (tasks : list Task) :
  ServeHTTP r m vr vb req s = Some (Redirect loc, s', tasks) →
  HPath req' = escape_path (cleanPath (HPath req)) →
  loc = location_of (cleanPath (HPath req)) (HRawQuery req)
  ∧ cleanPath (HPath req) ≠ HPath req
  ∧ ∀ loc' s2 tasks', ServeHTTP r m vr vb req' s1 ≠ Some (Redirect loc', s2, tasks').
Proof.
  intros Hserve Hp'.
  assert (∀ q x y l t, ServeHTTP r m vr vb q x = Some (Redirect l, y, t) →
    cleanPath (HPath q) ≠ HPath q ∧ l = location_of (cleanPath (HPath q)) (HRawQuery q)) as Hred.
  { intros q x y l t. unfold ServeHTTP.
    destruct (find_handler _ _ _ _) as [e|loc0|ms| |] eqn:E; [|intros [= <- <- <-]|done..].
    - by destruct (serve_target _ _ _ _ _ _ _) as [[[? ?] ?]|].
    - unfold find_handler in E. case_decide; [done|].
      case_decide; case_decide; try congruence; repeat case_match; try done;
        injection E as <-; done. }
  destruct (Hred _ _ _ _ _ Hserve) as [Hc ->]. split_and!; [done|done|].
  intros loc' s2 tasks' [Hn _]%Hred. apply Hn. rewrite Hp'.
  apply clean_form_fixed, escape_clean_form, cleanPath_form.
Qed.

(** The requests of the two routes: a query string, and a body. *)
Definition route_request (raw : string) : HttpRequest := mkHttpRequest "GET" "/v1/route" raw "".
Definition query_request (body : string) : HttpRequest := mkHttpRequest "POST" "/v1/query" "" body.

Lemma serve_route raw (s : Server S) :
  ServeHTTP r m vr vb (route_request raw) s
  = let '(resp, s') := handleRoute r m (query_get raw "shard_key") s in Some (FromHandler resp, s', []).
Proof.
  unfold ServeHTTP. rewrite (proj2 (handled_iff _ _ _ TRoute)); [|by vm_compute; auto].
  unfold serve_target. cbn [HRawQuery route_request]. by destruct (handleRoute r m _ s).
Qed.

Lemma serve_query body (s : Server S) :
  ServeHTTP r m vr vb (query_request body) s
  = '(resp, s', tasks) ← handleQuery r m body s; Some (FromHandler resp, s', tasks).
Proof.
  unfold ServeHTTP. by rewrite (proj2 (handled_iff _ _ _ TQuery)); [|by vm_compute; auto].
Qed.

(** What a client writes for the key [k]: escaped in the URL, or as a JSON string. *)
Definition key_query (k : string) : string := "shard_key=" +:+ query_escape k.
Definition key_body (k sql : string) : string :=
  encode (JObj [("shard_key", JStr k); ("sql", JStr sql)]).

Lemma key_query_get k : query_get (key_query k) "shard_key" = k.
Proof.
  unfold key_query. change ("shard_key=" +:+ query_escape k) with ("shard_key" +:+ "=" +:+ query_escape k).
  by apply query_get_escape.
Qed.

Lemma key_body_accepted k sql :
  sql ≠ "" → plain_string k = true → plain_string sql = true →
  accepted (key_body k sql) = Some (mkQueryRequest (AString k) sql [] "" false).
Proof.
  intros Hn Hk Hs. unfold accepted, decode_query, key_body. rewrite parse_first_encode.
  - change (_ ≫= _) with (if is_nil (AString k) || bool_decide (sql = "") then None
                          else Some (mkQueryRequest (AString k) sql [] "" false)).
    by rewrite bool_decide_false by done.
  - assert (printable max_depth (JObj [("shard_key", JStr k); ("sql", JStr sql)])
          = plain_string k && (plain_string sql && true)) as -> by done.
    by rewrite Hk, Hs.
Qed.

(** C24: the two routes agree on a key that is a string. Take any query string
    that gives [shard_key] a value other than the empty string, and any accepted
    body whose [shard_key] is that value as a JSON string, for a read or a write
    at any consistency. Asked one after the other in the same state, both routes
    answer the same error and count it the same way, or both count one request to
    the same shard and bucket; then [/v1/route] reports the routing decision and
    [/v1/query] executes this decision. *)
Theorem route_and_query_agree (raw body : string) (k : string) (q : queryRequest) (s : Server S) :
  query_get raw "shard_key" = k → k ≠ "" → accepted body = Some q → ShardKey q = AString k →
  let get := ServeHTTP r m vr vb (route_request raw) s in
  let post := ServeHTTP r m vr vb (query_request body) s in
  match Resolve r m (AString k) with
  | Err e => get = Some (FromHandler (writeRouterError e), inc_error s, []) ∧ post = get
  | Ok res =>
      get = Some (FromHandler (writeJSON StatusOK (route_json (route_of res))), inc_request res s, [])
      ∧ if Write q then
          ∃ resp b tasks, handleWrite res q (backend s) = Some (resp, b, tasks)
            ∧ post = Some (FromHandler resp, set_backend b (inc_request res s), tasks)
        else
          let '(resp, b) := handleRead res q (backend s) in
          post = Some (FromHandler resp, set_backend b (inc_request res s), [])
  end.
Proof.
  intros Hk Hne Hq Hkey get post. subst get post. rewrite serve_route, serve_query, Hk.
  rewrite (handleQuery_accepted _ r m body q s Hq), Hkey. unfold handleRoute. rewrite decide_False by done.
  destruct (Resolve r m (AString k)) as [res|e] eqn:Hres; [|done]. split; [done|].
  destruct (Write q); [|by destruct (handleRead _ _ _)].
  destruct (handleWrite_total _ r m (AString k) res q (backend s) Hres) as (resp & b & tasks & E).
  exists resp, b, tasks. split; [done|]. cbn. by rewrite E.
Qed.
End properties.

(** ** Examples *)

#[local] Existing Instances no_unicode ex_json_errors.

Definition ex_serve (method path query body : string)
    : option (Reply * Server unit * list Task) :=
  ServeHTTP (H1 := ex_backend) (New 1) ex_dual (λ m, (map_to_list m).*1) (λ m, (map_to_list m).*1)
    (mkHttpRequest method path query body) (mkServer Metrics.NewRegistry tt).

Definition ex_status (method path : string) : option Z :=
  option_map (λ '(reply, _, _), reply_status reply) (ex_serve method path "shard_key=a" "").

Example routes_table :
  map (λ '(me, pa), ex_status me pa)
    [("GET", "/healthz"); ("HEAD", "/metrics"); ("GET", "/v1/%72oute"); ("POST", "/healthz");
     ("GET", "/v1//route"); ("GET", "/v1/route/"); ("GET", "/v1/query"); ("OPTIONS", "*");
     ("POST", "/v1/../v1/query"); ("GET", "")]
  = map Some [200; 200; 200; 405; 301; 404; 405; 400; 301; 301].
Proof. by vm_compute. Qed.

Example query_first_value : query_get "a=1;x&shard_key=%41+b&shard_key=c" "shard_key" = "A b".
Proof. by vm_compute. Qed.

Lemma redirect_ends_witness :
  let req := mkHttpRequest "GET" "/v1/./a%2F//b%20c/../route" "shard_key=a" "" in
  let req' := mkHttpRequest "GET" (escape_path (cleanPath (HPath req))) "" "" in
  location_of (cleanPath (HPath req)) "shard_key=a" = "/v1/a%252F/route?shard_key=a"
  ∧ ∀ loc' s2 tasks', ServeHTTP (H1 := ex_backend) (New 1) ex_dual (λ m, (map_to_list m).*1)
      (λ m, (map_to_list m).*1) req' (mkServer Metrics.NewRegistry tt) ≠ Some (Redirect loc', s2, tasks').
Proof.
  intros req req'. split; [by vm_compute|].
  apply (redirect_ends (H1 := ex_backend) (New 1) ex_dual (λ m, (map_to_list m).*1)
           (λ m, (map_to_list m).*1) req req' (mkServer Metrics.NewRegistry tt)
           (mkServer Metrics.NewRegistry tt) (mkServer Metrics.NewRegistry tt)
           "/v1/a%252F/route?shard_key=a" []); [by vm_compute|done].
Defined.

(** A write of a key with a character that both encodings escape. *)
Lemma route_and_query_agree_witness :
  let s := mkServer Metrics.NewRegistry tt in
  ∃ resp s' tasks, ServeHTTP (H1 := ex_backend) (New 1) ex_dual (λ m, (map_to_list m).*1)
               (λ m, (map_to_list m).*1)
               (query_request (js "{'shard_key':'a\u0026b','sql':'DELETE FROM t','write':true}")) s
             = Some (FromHandler resp, s', tasks) ∧ RStatus resp = StatusOK ∧ length tasks = 1%nat.
Proof.
  intros s. set (body := js _).
  destruct (accepted body) as [q|] eqn:Hq; [|vm_compute in Hq; discriminate Hq].
  pose proof (route_and_query_agree (H1 := ex_backend) (New 1) ex_dual (λ m, (map_to_list m).*1)
                (λ m, (map_to_list m).*1) (key_query "a&b") body "a&b" q s (key_query_get "a&b")) as Hx.
  destruct (Resolve (New 1) ex_dual (AString "a&b")) as [res|e] eqn:E;
    vm_compute in E; [injection E as <-|discriminate E].
  vm_compute in Hq. injection Hq as <-.
  destruct Hx as [_ (resp & b & tasks & Eh & Hx)]; [discriminate|vm_compute; reflexivity|reflexivity|].
  exists resp. eexists _, tasks. split; [exact Hx|]. vm_compute in Eh. injection Eh as <- <- <-.
  split; reflexivity.
Defined.
