(* ===== verification/EndToEnd.v ===== *)
(** * From the key-space to the databases

    The components put together: the loops of the registry ([EtcdSync]) keep the
    shard map while etcd goes through its history ([Convergence]); a request comes
    in ([Serve]), is handled on the snapshot the store points to ([Api], [Router])
    and sends statements through the pools. The theorem relates the two ends: the
    statements that reach a database and what etcd held.

    The backend is any one, so its answers may depend on what the other requests
    of the service do in the meantime. *)

From S2P Require Import Prelude GoInt GoString GoAny Hashing Json Model Cache Router Keys Secrets Etcd EtcdSync Lifecycle.
From S2P Require Import Convergence Api GoHttp Serve.
From S2P Require Metrics.

(** ** One statement *)

(** The statement [x] of the request [q] is justified by the history: some
    revision gave the bucket of the key a record that names a shard, and some
    revision registered this shard, active, with the endpoint the statement is
    sent to. *)
Record justified (hist : history) (count : Z) (q : queryRequest) (x : Stmt) : Prop := {
  just_text : SText x = SQL q ∧ SArgs x = Args q ∧ SWrite x = Write q;
  just_bucket : ∃ n b id n', (n ≤ length hist)%nat ∧ (n' ≤ length hist)%nat
    ∧ bucket_record (state_at hist n) (BucketFor (ShardKey q) count) b
    ∧ (id = BShardID b ∨ id = DestShardID b)
    ∧ shard_record (state_at hist n') id = Some (SShard x);
  just_active : Status (SShard x) = ShardActive;
  just_endpoint : SEndpoint x = Writer (SShard x)
    ∨ (SWrite x = false ∧ Reader (SShard x) = Some (SEndpoint x));
}.

Section end_to_end.
Context `{UnicodeTables} `{JsonErrors} {S C : Type} (B : Backend S C).

(** What one HTTP request sends. *)
Lemma serve_sends (r : Router) (m : option Mapping) vr vb (req : HttpRequest)
    (st st' : Server (S * list Stmt)) (reply : Reply) (tasks order : list Task) :
  ServeHTTP (H1 := recorder B) r m vr vb req st = Some (reply, st', tasks) → order ≡ₚ tasks →
  ∃ stmts, after_tasks B order st' = (backend st).2 ++ stmts
    ∧ (stmts = [] ∨ ∃ q res, HMethod req = "POST" ∧ path_segments (HPath req) = ["v1"; "query"]
         ∧ accepted (HBody req) = Some q ∧ Resolve r m (ShardKey q) = Ok res ∧ may_send res q stmts).
Proof.
  intros E Hord.
  assert (∀ st1, st1.2 = (backend st).2 → tasks = [] →
    after_tasks B order (set_backend st1 st') = (backend st).2 ++ []) as Hnone.
  { intros st1 Hst ->. apply Permutation_nil_r in Hord as ->. by rewrite app_nil_r. }
  unfold ServeHTTP in E.
  destruct (find_handler _ _ _ _) as [e|loc|ms| |] eqn:Ef; [|injection E as <- <- <-;
    exists []; (split; [apply (Hnone (backend st) eq_refl eq_refl)|by left])..].
  apply handled_iff in Ef as (_ & Hm & Hs). destruct e; cbn in Hm, Hs, E.
  - injection E as <- <- <-. exists []. split; [apply (Hnone (backend st) eq_refl eq_refl)|by left].
  - exists []. split; [|by left]. unfold handleRoute in E.
    case_decide; [|destruct (Resolve _ _ _)]; injection E as <- <- <-;
      apply (Hnone (backend st) eq_refl eq_refl).
  - destruct (handleQuery _ _ _ _) as [[[resp s1] ts]|] eqn:Eq; [|done]. injection E as <- <- <-.
    destruct (query_sends B r m (HBody req) st s1 resp ts order Eq Hord) as (stmts & Ha & Hst).
    exists stmts. split; [exact Ha|]. destruct Hst as [->|(q & res & ? & ? & ? & _)]; [by left|].
    right. by exists q, res.
  - injection E as <- <- <-. exists []. split; [apply (Hnone (backend st) eq_refl eq_refl)|by left].
Qed.

(** C3: statements follow the key-space. When etcd answers as it documents,
    every value it stores decodes and no bucket has two keys, then whatever the
    interleaving of the watch, the reconciliations and the other requests (streams
    that end within a catch-up and overtaken reconciliations included), and
    whatever the pools and the databases answer, an HTTP request handled on the
    current snapshot (or on one it still holds) sends statements only if it is an
    accepted [POST /v1/query], and each of them carries its SQL and arguments to an
    active shard that a record of the bucket of its key names in the history of the
    key-space, at an endpoint this shard was registered with. *)
Theorem statements_follow_history (hist : history) (r : nat) (kvs : list decodedKV) (ls : list label)
    (s : Sys) (p : nat) (l : loc) (m : Mapping) (rt : Router) vr vb (req : HttpRequest)
    (st st' : Server (S * list Stmt)) (reply : Reply) (tasks order : list Task) :
  history_ok hist → (r ≤ length hist)%nat → range_of (state_at hist r) kvs →
  listens hist always (started (Z.of_nat r) kvs) r ls s p →
  l ∈ held s ∨ Load (mem s) = Some l → deref (mem s) l = Some m →
  ServeHTTP (H1 := recorder B) rt (Some m) vr vb req st = Some (reply, st', tasks) → order ≡ₚ tasks →
  ∃ stmts, after_tasks B order st' = (backend st).2 ++ stmts
    ∧ (stmts = [] ∨ ∃ q, HMethod req = "POST" ∧ path_segments (HPath req) = ["v1"; "query"]
         ∧ accepted (HBody req) = Some q ∧ Forall (justified hist (bucketCount rt) q) stmts).
Proof.
  intros Hok Hr Hk Hrun Hl Hm E Hord.
  destruct (serve_sends rt (Some m) vr vb req st st' reply tasks order E Hord) as (stmts & Ha & Hst).
  exists stmts. split; [done|]. destruct Hst as [->|(q & res & Hmeth & Hseg & Hq & Hres & Hsend)]; [by left|].
  right. exists q. split_and!; [done|done|done|]. apply Forall_forall. intros x Hx.
  destruct (may_send_elem rt (Some m) _ res q stmts x Hres Hsend Hx) as (Ht & Hargs & Hwr & Hd & Hep).
  destruct (routes_by_history hist r kvs ls s p l m rt (ShardKey q) res Hok Hr Hk Hrun Hl Hm Hres)
    as (n & b & Hn & Hb & _ & Hall).
  destruct (Hall _ Hd) as (Hact & n' & id & Hn' & Hid & Hsh).
  split; [done|by exists n, b, id, n'|done|done].
Qed.
End end_to_end.

(** ** Example *)

#[local] Existing Instances no_unicode ex_json_errors.

Definition ex_request : HttpRequest := query_request (key_body "k" "SELECT 1").

(** A request on the snapshot [m], with a backend that grants everything. *)
Definition ex_serve_on (m : Mapping) : option (Reply * Server (unit * list Stmt) * list Task) :=
  ServeHTTP (H1 := recorder ex_backend) (New 1) (Some m) (λ m, (map_to_list m).*1)
    (λ m, (map_to_list m).*1) ex_request (mkServer Metrics.NewRegistry (tt, [])).

(** The request holds the first snapshot while the watch publishes the last one
    of [ex_heal_run]. *)
Lemma statements_follow_history_witness :
  ∃ reply st' x q, ex_serve_on (load_kvs 2 (ex_kvs_at 2)) = Some (reply, st', [])
    ∧ after_tasks ex_backend [] st' = [x] ∧ SText x = "SELECT 1"
    ∧ accepted (HBody ex_request) = Some q ∧ justified ex_hist 1 q x.
Proof.
  destruct (run (started 2 (ex_kvs_at 2)) ex_heal_run) as [s|] eqn:E; [|by vm_compute in E].
  destruct (ex_held_snapshot s E) as [Hl Em].
  destruct (ex_serve_on (load_kvs 2 (ex_kvs_at 2))) as [[[reply st'] tasks]|] eqn:Es; [|by vm_compute in Es].
  assert ((λ x : Reply * Server (unit * list Stmt) * list Task,
             (x.2, map SText (after_tasks ex_backend [] x.1.2)))
          <$> ex_serve_on (load_kvs 2 (ex_kvs_at 2)) = Some ([], ["SELECT 1"])) as Hv
    by (vm_compute; reflexivity).
  rewrite Es in Hv. cbn in Hv. injection Hv as -> Hv.
  destruct (statements_follow_history ex_backend ex_hist 2 (ex_kvs_at 2) ex_heal_run s 4 1
              (load_kvs 2 (ex_kvs_at 2)) (New 1) (λ m, (map_to_list m).*1) (λ m, (map_to_list m).*1)
              ex_request (mkServer Metrics.NewRegistry (tt, [])) st' reply [] [] ex_hist_ok)
    as (stmts & Ha & Hst).
  - cbn. lia.
  - apply range_of_kvs_of.
  - exact (listens_always _ _ _ _ _ _ _ (ex_heal_listens s E)).
  - by left.
  - exact Em.
  - exact Es.
  - reflexivity.
  - change (after_tasks ex_backend [] st' = stmts) in Ha. rewrite Ha in Hv.
    destruct stmts as [|x [|y stmts]]; [discriminate Hv| |discriminate Hv].
    injection Hv as Hx. destruct Hst as [Hst|(q & _ & _ & Hq & Hj)]; [discriminate Hst|].
    exists reply, st', x, q. split; [reflexivity|]. split; [exact Ha|]. split; [exact Hx|].
    split; [exact Hq|]. exact (proj1 (proj1 (Forall_cons _ _ _) Hj)).
Defined.
