(* ===== verification/DualWrite.v ===== *)
(** * Dual writes: many requests and their goroutines

    [handleQuery] and [handleWrite] of [internal/api/server.go] answer a write
    when the primary shard has executed it; the secondary shards get it from
    goroutines that run at any later time. This file runs any number of requests
    and of these goroutines in any order, over any backend, and counts what each
    shard is sent. *)

From S2P Require Import Prelude GoInt GoString GoAny Json Model Cache Router Secrets Pool.
From S2P Require Import Api.
From S2P Require Metrics.

(** ** The service with the goroutines that have not run yet *)

Record Svc (S : Type) := mkSvc { server : Server (S * list Stmt); pending : list Task }.
Arguments mkSvc {S}.
Arguments server {S}.
Arguments pending {S}.

Inductive svc_event : Type :=
| Arrives (m : option Mapping) (body : string)   (* a query, on the snapshot [m] *)
| Runs (k : nat).                                (* the [k]th goroutine that has not run *)

Section service.
Context `{UnicodeTables} `{JsonErrors} {S C : Type} (B : Backend S C).
Variable r : Router.

Definition svc_step (s : Svc S) (e : svc_event) : option (Svc S) :=
  match e with
  | Arrives m body =>
      '(_, server', tasks) ← handleQuery (H1 := recorder B) r m body (server s);
      Some (mkSvc server' (pending s ++ tasks))
  | Runs k =>
      t ← pending s !! k;
      Some (mkSvc (set_backend (run_task (H1 := recorder B) t (backend (server s))) (server s))
              (delete k (pending s)))
  end.

Fixpoint svc_run (s : Svc S) (es : list svc_event) : option (Svc S) :=
  match es with
  | [] => Some s
  | e :: es => s ← svc_step s e; svc_run s es
  end.

(** ** What is asked, and what is sent *)

(** The routing decision of a write request. *)
Definition write_of (e : svc_event) : option (Resolved * queryRequest) :=
  match e with
  | Arrives m body =>
      req ← accepted body;
      if Write req then
        match Resolve r m (ShardKey req) with Ok res => Some (res, req) | Err _ => None end
      else None
  | Runs _ => None
  end.

(** Its statement, once for each shard of the write set. *)
Definition wanted (e : svc_event) : list Stmt :=
  match write_of e with
  | Some (res, req) => map (write_stmt req) (WriteShards res)
  | None => []
  end.

Definition task_stmt (t : Task) : Stmt :=
  mkStmt (TShard t) (Writer (TShard t)) (TSQL t) (TArgs t) true.

Definition writes (log : list Stmt) : list Stmt := filter (λ x, SWrite x = true) log.

(** The write statements that were sent, and those goroutines are to send. *)
Definition sent (s : Svc S) : list Stmt := writes (backend (server s)).2.
Definition due (s : Svc S) : list Stmt := sent s ++ map task_stmt (pending s).

(** No acquisition and no statement fails. *)
Definition grants : Prop :=
  (∀ d ep b, ∃ c b', Acquire d ep b = (Ok c, b'))
  ∧ ∀ c sql args b, ∃ n b', Exec c sql args b = (Ok n, b').

Lemma writes_app l l' : writes (l ++ l') = writes l ++ writes l'.
Proof. apply filter_app. Qed.

(** ** One event *)

Lemma run_task_sends t (b : S * list Stmt) :
  let log := (run_task (H1 := recorder B) t b).2 in
  (log = b.2 ∨ log = b.2 ++ [task_stmt t]) ∧ (grants → log = b.2 ++ [task_stmt t]).
Proof.
  destruct b as [b log]. unfold run_task. cbn.
  destruct (Acquire (TShard t) (Writer (TShard t)) b) as [[c|e] b1] eqn:E; cbn.
  - destruct (Exec c (TSQL t) (TArgs t) b1) as [x b2]. cbn. auto.
  - split; [by left|]. intros [Ha _].
    destruct (Ha (TShard t) (Writer (TShard t)) b) as (c & b' & E'). congruence.
Qed.

(** A request that is no routed write sends no write and starts no goroutine. *)
Lemma query_without_write m body s resp s' tasks :
  write_of (Arrives m body) = None →
  handleQuery (H1 := recorder B) r m body s = Some (resp, s', tasks) →
  writes (backend s').2 = writes (backend s).2 ∧ tasks = [].
Proof.
  unfold write_of, accepted, handleQuery. intros Hw E.
  destruct (decode_query body) as [req|]; cbn [mbind option_bind] in *; [|by injection E as <- <- <-].
  destruct (is_nil (ShardKey req) || bool_decide (SQL req = "")); cbn [mbind option_bind] in *;
    [by injection E as <- <- <-|].
  destruct (Resolve r m (ShardKey req)) as [res|e]; [|by injection E as <- <- <-].
  destruct (Write req); [done|].
  pose proof (handleRead_log B res req (backend s)) as Hlog.
  unfold inc_request in E. cbn [backend] in E.
  destruct (handleRead (H1 := recorder B) res req (backend s)) as [resp1 b].
  injection E as <- <- <-. split; [|done]. cbn.
  destruct Hlog as [[-> _]|[-> _]]; [done|]. rewrite writes_app. apply app_nil_r.
Qed.

(** A routed write sends to the primary shard, and leaves the others to the
    goroutines. *)
Lemma query_with_write m body s resp s' tasks res req :
  write_of (Arrives m body) = Some (res, req) →
  handleQuery (H1 := recorder B) r m body s = Some (resp, s', tasks) →
  ∃ stmts, writes (backend s').2 ++ map task_stmt tasks = writes (backend s).2 ++ stmts
    ∧ stmts ⊆+ map (write_stmt req) (WriteShards res)
    ∧ (grants → stmts = map (write_stmt req) (WriteShards res)).
Proof.
  unfold write_of, accepted, handleQuery. intros Hw E.
  destruct (decode_query body) as [q|]; cbn [mbind option_bind] in *; [|done].
  destruct (is_nil (ShardKey q) || bool_decide (SQL q = "")); cbn [mbind option_bind] in *; [done|].
  destruct (Write q) eqn:Eq; [|done].
  destruct (Resolve r m (ShardKey q)) as [res1|e] eqn:Er; [|done]. injection Hw as -> ->.
  destruct (Resolve_shape r m _ res Er) as (rest & Hws & _).
  destruct (handleWrite_log B res req (ReadShard res) rest (backend s) Hws)
    as (resp1 & b & ts & Eh & Hlog).
  unfold inc_request in E. cbn [backend] in E. rewrite Eh in E. cbn in E. injection E as <- <- <-.
  cbn [backend set_backend].
  assert (grants → RStatus resp1 = StatusOK) as Hok.
  { intros [Ha Hx]. unfold handleWrite, PrimaryWriteShard in Eh. rewrite Hws in Eh. cbn in Eh.
    destruct (Ha (ReadShard res) (Writer (ReadShard res)) (backend s).1) as (c & b1 & E1).
    rewrite E1 in Eh. cbn in Eh. destruct (Hx c (SQL req) (Args req) b1) as (n & b2 & E2).
    rewrite E2 in Eh. by injection Eh as <- _ _. }
  rewrite Hws. destruct Hlog as [(-> & -> & Hst)|(-> & [(-> & Hst)|(-> & Hst)])].
  - exists []. split_and!; [by rewrite !app_nil_r|apply submseteq_nil_l|].
    intros Hg. rewrite (Hok Hg) in Hst. discriminate Hst.
  - exists [write_stmt req (ReadShard res)]. rewrite writes_app. split_and!; [by rewrite app_nil_r| |].
    + apply submseteq_skip, submseteq_nil_l.
    + intros Hg. rewrite (Hok Hg) in Hst. discriminate Hst.
  - exists (map (write_stmt req) (ReadShard res :: rest)). split_and!; [|done|done].
    rewrite writes_app, map_map, <-app_assoc. done.
Qed.

(** An event adds to what is due at most what is wanted, and all of it when the
    backend grants everything. *)
Lemma svc_step_due s e s' :
  svc_step s e = Some s' →
  due s' ⊆+ due s ++ wanted e ∧ (grants → due s' ≡ₚ due s ++ wanted e).
Proof.
  unfold due, sent, wanted. intros E. destruct e as [m body|k]; cbn [svc_step] in E.
  - destruct (handleQuery (H1 := recorder B) r m body (server s)) as [[[resp sv] ts]|] eqn:Eh; [|done].
    injection E as <-. cbn [server pending].
    assert (∃ stmts, writes (backend sv).2 ++ map task_stmt ts = writes (backend (server s)).2 ++ stmts
              ∧ stmts ⊆+ wanted (Arrives m body) ∧ (grants → stmts = wanted (Arrives m body)))
      as (stmts & Hst & Hsub & Hg).
    { unfold wanted. destruct (write_of (Arrives m body)) as [[res req]|] eqn:Ew.
      - by eapply query_with_write.
      - destruct (query_without_write _ _ _ _ _ _ Ew Eh) as [E ->]. exists [].
        by rewrite E, !app_nil_r. }
    assert (writes (backend sv).2 ++ map task_stmt (pending s ++ ts)
            ≡ₚ (writes (backend (server s)).2 ++ map task_stmt (pending s)) ++ stmts) as Hp.
    { rewrite map_app, Permutation_app_swap_app, Hst. solve_Permutation. }
    split; [rewrite Hp; by apply submseteq_skips_l|]. intros Hgr. by rewrite Hp, (Hg Hgr).
  - destruct (pending s !! k) as [t|] eqn:Ek; [|done]. injection E as <-.
    cbn [server pending backend set_backend write_of]. rewrite app_nil_r.
    apply delete_Permutation in Ek as Hk.
    destruct (run_task_sends t (backend (server s))) as [Hlog Hg].
    assert (writes ((backend (server s)).2 ++ [task_stmt t]) ++ map task_stmt (delete k (pending s))
            ≡ₚ writes (backend (server s)).2 ++ map task_stmt (pending s)) as Hp.
    { rewrite writes_app, <-app_assoc. apply Permutation_app_head.
      by rewrite Hk at 2. }
    split; [|intros Hgr; by rewrite (Hg Hgr)].
    destruct Hlog as [->| ->]; [|by rewrite Hp].
    apply submseteq_skips_l. rewrite Hk at 2. cbn [map]. by apply submseteq_cons.
Qed.

Lemma svc_run_due s es s' :
  svc_run s es = Some s' →
  due s' ⊆+ due s ++ flat_map wanted es ∧ (grants → due s' ≡ₚ due s ++ flat_map wanted es).
Proof.
  revert s. induction es as [|e es IH]; intros s E.
  - injection E as ->. cbn. by rewrite app_nil_r.
  - cbn [svc_run] in E. destruct (svc_step s e) as [s1|] eqn:E1; [|done].
    destruct (svc_step_due _ _ _ E1) as [H1 G1]. destruct (IH s1 E) as [H2 G2].
    cbn [flat_map]. rewrite app_assoc. split.
    + rewrite H2. by apply submseteq_skips_r.
    + intros Hg. by rewrite (G2 Hg), (G1 Hg).
Qed.

(** C7: Whatever the order in which requests arrive and goroutines run, a write
    is sent at most once to each shard of its write set, and nothing else is sent
    as a write; when no acquisition and no statement fails and every goroutine has
    run, each write of a bucket has been sent exactly once to every shard of its
    write set. *)
Theorem writes_exactly_once (srv : Server (S * list Stmt)) (es : list svc_event) (s' : Svc S) :
  (backend srv).2 = [] → svc_run (mkSvc srv []) es = Some s' →
  sent s' ⊆+ flat_map wanted es
  ∧ (grants → pending s' = [] → sent s' ≡ₚ flat_map wanted es).
Proof.
  intros Hlog E. destruct (svc_run_due _ _ _ E) as [Hsub Hg].
  unfold due, sent in *. cbn [server pending] in *. rewrite Hlog in *. cbn [map app writes] in *.
  split.
  - etrans; [|exact Hsub]. apply submseteq_inserts_r. done.
  - intros Hgr Hp. rewrite <-(Hg Hgr), Hp. cbn. by rewrite app_nil_r.
Qed.
End service.

(** ** Two writes of one client *)

Definition ex_second_body : string :=
  js "{'shard_key':'tenant-1','sql':'UPDATE t SET x = 2','args':[true],'write':true}".

Definition ex_quiet : Server (unit * list Stmt) := mkServer Metrics.NewRegistry (tt, []).

Definition ex_two_writes : list svc_event :=
  [Arrives ex_dual ex_write_body; Arrives ex_dual ex_second_body; Runs 1; Runs 0].

#[local] Existing Instances no_unicode ex_json_errors.

Lemma ex_backend_grants : grants ex_backend.
Proof. split; intros; by repeat eexists. Qed.

Lemma writes_exactly_once_witness :
  ∃ s', svc_run ex_backend (New 1) (mkSvc ex_quiet []) ex_two_writes = Some s'
    ∧ sent s' ≡ₚ flat_map (wanted (New 1)) ex_two_writes
    ∧ length (sent s') = 4%nat.
Proof.
  destruct (svc_run ex_backend (New 1) (mkSvc ex_quiet []) ex_two_writes) as [s'|] eqn:E;
    [|vm_compute in E; discriminate E].
  exists s'. split; [reflexivity|].
  destruct (writes_exactly_once ex_backend (New 1) ex_quiet ex_two_writes s' eq_refl E) as [_ H].
  vm_compute in E. injection E as <-. split; [|vm_compute; reflexivity].
  apply (H ex_backend_grants). vm_compute. reflexivity.
Defined.

(** The statements a shard is sent, in order. *)
Definition seen_by {S} (id : string) (s : Svc S) : list string :=
  map SText (filter (λ x, ShardID (SShard x) = id) (sent s)).

(** The goroutines of two writes may run in either order, even when the second
    request was made after the answer to the first: the two shards then execute
    the same statements in opposite orders. *)
Lemma dual_writes_reordered :
  option_map (λ s, (seen_by "s1" s, seen_by "s2" s))
    (svc_run ex_backend (New 1) (mkSvc ex_quiet []) ex_two_writes)
  = Some (["UPDATE t SET x = 1"; "UPDATE t SET x = 2"],
          ["UPDATE t SET x = 2"; "UPDATE t SET x = 1"]).
Proof. vm_compute. reflexivity. Qed.
