(* ===== verification/Fleet.v ===== *)
(** * Several instances of the service on one key-space

    Each instance keeps its own copy of the shard map ([Convergence]) and routes
    by it ([Router], [Api]); nothing but etcd keeps the instances together. This
    file says when the requests one instance has acknowledged are visible to the
    reads of another: when the maps of both lie in a stretch of the history in
    which the bucket keeps its owner. A migration changes the owner once, at the
    step from VERIFYING to CUTOVER. *)

From S2P Require Import Prelude GoInt GoString GoAny Hashing Json Model Cache Router Keys Secrets Etcd EtcdSync Lifecycle.
From S2P Require Import Convergence Api.
From S2P Require Metrics.

(** ** The owner of a bucket *)

(** The identifier of the shard a record reads from, and writes to first. *)
Definition owner_id (b : BucketDef) : string :=
  if is_dest (State b) then DestShardID b else BShardID b.

Lemma routes_owner m b rd ws : routes m b rd ws → Shards m !! owner_id b = Some rd.
Proof.
  unfold owner_id, is_dest. intros [src Hd Hc Hs|src dst Hd Hs Ht|src Hd Hs Ht|src dst Hc Hs Ht];
    case_bool_decide as E; rewrite dest_state_elem in E; try done;
    exfalso; eauto using dual_dest_false.
Qed.

(** From the revision [lo] to [hi] the bucket, whenever it has a record, has the
    same owner, and this shard, whenever it is registered, has the same writer
    endpoint. *)
Definition owned (hist : history) (lo hi : nat) (id : Z) (ep : Endpoint) : Prop :=
  ∃ name, ∀ n, (lo ≤ n ≤ hi)%nat →
    (∀ d, shard_record (state_at hist n) name = Some d → Writer d = ep)
    ∧ ∀ b, bucket_record (state_at hist n) id b → owner_id b = name.

Lemma spans_owner hist lo hi m (rt : Router) (k : go_any) (ep : Endpoint) (res : Resolved) :
  spans hist lo hi m → owned hist lo hi (BucketFor k (bucketCount rt)) ep →
  Resolve rt (Some m) k = Ok res → Writer (ReadShard res) = ep.
Proof.
  intros Hm [name Ho] (mp & b & [= <-] & Hb & Hr & _)%Resolve_ok.
  destruct (Hm (inr (BucketFor k (bucketCount rt)))) as (n & Hn & Ht).
  destruct (Ho n Hn) as [_ Hname]. rewrite <-(Hname b) in Ho by (by apply Ht).
  destruct (Hm (inl (owner_id b))) as (n' & Hn' & Ht').
  destruct (Ho n' Hn') as [Hep _]. cbn in Ht'. apply routes_owner in Hr. apply Hep. congruence.
Qed.

(** ** The instances *)

(** An instance whose loops have run, with an etcd that answers as it documents,
    no overtaken reconciliation and no stream that ended within a catch-up; its
    map is between the revisions [lo] and [hi]: the watch has passed [lo], and
    neither it nor a reconciliation has gone beyond [hi]. *)
Definition instance (hist : history) (lo hi : nat) (s : Sys) : Prop :=
  ∃ r kvs ls p B, (r ≤ length hist)%nat ∧ range_of (state_at hist r) kvs
    ∧ listens hist (orderly B) (started (Z.of_nat r) kvs) r ls s p ∧ (lo ≤ p ∧ p `max` B ≤ hi)%nat.

Lemma instance_spans hist lo hi s m :
  history_ok hist → instance hist lo hi s → current (mem s) = Some m → spans hist lo hi m.
Proof.
  intros Hok (r & kvs & ls & p & B & Hr & Hk & Hrun & Hlo & Hhi) Hm.
  assert (tracked hist true B s p) as Ht by (eapply tracked_orderly; [done|by apply tracked_started|done]).
  eapply spans_weaken; [exact (t_current _ _ _ _ _ Ht m Hm)|cbn; lia|lia].
Qed.

(** An instance that has just started. *)
Lemma instance_started hist lo hi r kvs :
  history_ok hist → (r ≤ length hist)%nat → range_of (state_at hist r) kvs →
  (lo ≤ r ≤ hi)%nat → instance hist lo hi (started (Z.of_nat r) kvs).
Proof.
  intros Hok Hr Hk Hlo. exists r, kvs, [], r, r. split_and!; [done|done|constructor|lia|lia].
Qed.

(** ** What an acknowledged request has sent *)

Section requests.
Context `{UnicodeTables} `{JsonErrors} {S C : Type} (B : Backend S C).
Variables (rt : Router) (m : option Mapping).

(** A request answered 200 was routed, and has sent one statement to the shard
    that serves the reads. *)
Lemma acknowledged body req (srv srv' : Server (S * list Stmt)) resp tasks :
  handleQuery (H1 := recorder B) rt m body srv = Some (resp, srv', tasks) →
  accepted body = Some req → RStatus resp = StatusOK →
  ∃ res, Resolve rt m (ShardKey req) = Ok res
    ∧ (backend srv').2 = (backend srv).2
        ++ [if Write req then write_stmt req (ReadShard res)
            else mkStmt (ReadShard res) (ReadEndpoint res (ParseReadConsistency (Consistency req)))
                   (SQL req) (Args req) false].
Proof.
  intros E Hacc Hst. rewrite (handleQuery_accepted (recorder B) rt m body req srv Hacc) in E.
  destruct (Resolve rt m (ShardKey req)) as [res|e] eqn:Er.
  2: { injection E as <- _ _. by destruct e. }
  exists res. split; [done|]. unfold inc_request in E. cbn [backend] in E.
  destruct (Resolve_shape rt m _ res Er) as (rest & Hws & _). destruct (Write req).
  - destruct (handleWrite_log B res req (ReadShard res) rest (backend srv) Hws)
      as (resp1 & b & ts & Eh & Hlog).
    rewrite Eh in E. cbn in E. injection E as <- <- <-. cbn [backend set_backend].
    destruct Hlog as [(_ & _ & Hs)|[-> _]]; [by rewrite Hst in Hs|done].
  - pose proof (handleRead_log B res req (backend srv)) as Hlog.
    destruct (handleRead (H1 := recorder B) res req (backend srv)) as [resp1 b].
    injection E as <- <- <-. cbn [backend set_backend].
    destruct Hlog as [[_ Hs]|[-> _]]; [by rewrite Hst in Hs|done].
Qed.
End requests.

(** ** Property *)

Section fleet.
Context `{UnicodeTables} `{JsonErrors} {S C : Type} (B : Backend S C).

(** C4: a read sees the writes other instances have acknowledged. Several
    instances follow one key-space whose values decode and in which no bucket has
    two keys; etcd answers each of them as it documents, no reconciliation
    publishes something older than what its watch has applied, and no stream ends
    between the responses of a catch-up. While the maps of all of them lie in a
    stretch of the history in which the bucket keeps its owner and this shard its
    writer endpoint (a whole migration up to its cutover, for instance), whatever
    their loops do and however far apart they are in it, a write that one instance
    answers with 200 has been executed at this endpoint, and a read that another
    one answers with 200, unless it asks for EVENTUAL, is executed there too. *)
Theorem fleet_reads_writes (hist : history) (lo hi : nat) (fleet : list Sys) (rt : Router)
    (id : Z) (ep : Endpoint) (sw sr : Sys) (mw mr : Mapping) (bodyw bodyr : string)
    (w r : queryRequest) (srvw srvw' srvr srvr' : Server (S * list Stmt)) (respw respr : Response)
    (tasksw tasksr : list Task) :
  history_ok hist → Forall (instance hist lo hi) fleet → owned hist lo hi id ep →
  sw ∈ fleet → current (mem sw) = Some mw → sr ∈ fleet → current (mem sr) = Some mr →
  accepted bodyw = Some w → Write w = true → BucketFor (ShardKey w) (bucketCount rt) = id →
  accepted bodyr = Some r → Write r = false → BucketFor (ShardKey r) (bucketCount rt) = id →
  ParseReadConsistency (Consistency r) ≠ ReadEventual →
  handleQuery (H1 := recorder B) rt (Some mw) bodyw srvw = Some (respw, srvw', tasksw) →
  handleQuery (H1 := recorder B) rt (Some mr) bodyr srvr = Some (respr, srvr', tasksr) →
  RStatus respw = StatusOK → RStatus respr = StatusOK →
  (∃ d, (backend srvw').2 = (backend srvw).2 ++ [mkStmt d ep (SQL w) (Args w) true] ∧ Writer d = ep)
  ∧ (∃ d, (backend srvr').2 = (backend srvr).2 ++ [mkStmt d ep (SQL r) (Args r) false] ∧ Writer d = ep).
Proof.
  intros Hok Hfleet Ho Hsw Hmw Hsr Hmr Hw Hww Hwk Hr Hrw Hrk Hc Ew Er Hstw Hstr.
  rewrite Forall_forall in Hfleet.
  pose proof (instance_spans _ _ _ _ _ Hok (Hfleet _ Hsw) Hmw) as Hspw.
  pose proof (instance_spans _ _ _ _ _ Hok (Hfleet _ Hsr) Hmr) as Hspr.
  destruct (acknowledged B rt (Some mw) bodyw w _ _ _ _ Ew Hw Hstw) as (resw & Eresw & ->).
  destruct (acknowledged B rt (Some mr) bodyr r _ _ _ _ Er Hr Hstr) as (resr & Eresr & ->).
  rewrite <-Hwk in Ho. pose proof (spans_owner _ _ _ _ _ _ _ _ Hspw Ho Eresw) as Hepw.
  rewrite Hwk, <-Hrk in Ho. pose proof (spans_owner _ _ _ _ _ _ _ _ Hspr Ho Eresr) as Hepr.
  rewrite Hww, Hrw. unfold write_stmt, ReadEndpoint. rewrite decide_False by done.
  split; [exists (ReadShard resw); by rewrite <-Hepw|exists (ReadShard resr); by rewrite <-Hepr].
Qed.
End fleet.

(** ** Where the owner changes *)

(** Along the order of a migration between two shards the owner changes at one
    step. *)
Lemma owner_changes_at_cutover (b : BucketDef) (st st' : string) :
  BShardID b ≠ DestShardID b → migration_next st st' →
  owner_id (set_state b st) ≠ owner_id (set_state b st') ↔ st = StateVerifying.
Proof.
  intros Hd (i & H1 & H2).
  destruct i as [|[|[|[|[|[|[|[|i]]]]]]]]; simplify_eq/=; unfold owner_id; cbn; split; done.
Qed.

(** A stretch of the history checked on what an instance would load. *)
Lemma owned_loads hist lo hi id name ep :
  history_ok hist →
  (∀ n, (lo ≤ n ≤ hi)%nat →
     let m := load_kvs (Z.of_nat n) (kvs_of (state_at hist n)) in
     (∀ d, Shards m !! name = Some d → Writer d = ep) ∧ ∀ b, Buckets m !! id = Some b → owner_id b = name) →
  owned hist lo hi id ep.
Proof.
  intros Hok H. exists name. intros n Hn.
  destruct (spans_exact hist n _ (load_spans hist n _ Hok (range_of_kvs_of _))) as [Hs Hb].
  destruct (H n Hn) as [Hd Ho]. split; [intros d; rewrite <-Hs; apply Hd|]. intros b Hr. by apply Ho, Hb.
Qed.

(** ** Example: a migration of the bucket 0 *)

Definition ex_moving (st : string) : string :=
  js ("{'shard_id':'s1','dest_shard_id':'s2','state':'" +:+ st +:+ "'}").

Definition ex_placed (id host : string) : string :=
  js ("{'shard_id':'" +:+ id +:+ "','status':'ACTIVE','writer':{'host':'" +:+ host +:+ "','port':5432}}").

Definition ex_migration : history :=
  [("/sharding/shards/s1", Some (ex_placed "s1" "db1")); ("/sharding/shards/s2", Some (ex_placed "s2" "db2"))]
  :: map (λ st, [(ex_bucket_key, Some (ex_moving st))])
       [StateCopying; StateDualWrite; StateVerifying; StateCutover].

Definition ex_loaded (n : nat) : list decodedKV := kvs_of (state_at ex_migration n).
Definition ex_instance (n : nat) : Sys := started (Z.of_nat n) (ex_loaded n).
Definition ex_view (n : nat) : Mapping := load_kvs (Z.of_nat n) (ex_loaded n).

Lemma ex_migration_ok : history_ok ex_migration.
Proof.
  split; [| |done].
  - assert (Forall (λ k, bucketIDFromKey k = None ∨ k = ex_bucket_key) (concat ex_migration).*1) as H.
    { repeat (constructor; [first [by left|by right]|]). constructor. }
    intros k1 k2 id H1 H2 E1 E2. rewrite Forall_forall in H.
    destruct (H k1 H1) as [?| ->], (H k2 H2) as [?| ->]; congruence.
  - repeat (constructor; [intros v; first [by intros [= <-]; split; intros _; vm_compute; eauto|done]|]).
    constructor.
Qed.

Lemma ex_instances lo hi n : (lo ≤ n ≤ hi)%nat → (n ≤ 5)%nat → instance ex_migration lo hi (ex_instance n).
Proof.
  intros Hn H5. apply instance_started; [exact ex_migration_ok|exact H5|apply range_of_kvs_of|exact Hn].
Qed.

Lemma ex_current n : current (mem (ex_instance n)) = Some (ex_view n).
Proof.
  destruct (loadAll_spec (Z.of_nat n) (ex_loaded n) NewStore NewStore_wf) as (_ & Hp & Hl).
  unfold current, ex_instance, started. cbn [mem]. by rewrite Hp.
Qed.

#[local] Existing Instances no_unicode ex_json_errors.

Definition ex_read_body : string := js "{'shard_key':'tenant-1','sql':'SELECT x FROM t'}".

(** A request on an instance at the revision [n]. *)
Definition ex_ask (n : nat) (body : string) : option (Response * Server (unit * list Stmt) * list Task) :=
  handleQuery (H1 := recorder ex_backend) (New 1) (Some (ex_view n)) body
    (mkServer Metrics.NewRegistry (tt, [])).

(** What it sends at once, and what its goroutines are to send. *)
Definition ex_sends (n : nat) (body : string) : option (Z * list string * list string) :=
  '(resp, s, tasks) ← ex_ask n body;
  Some (RStatus resp, map (λ x, ShardID (SShard x)) (backend s).2, map (λ t, ShardID (TShard t)) tasks).

Definition ex_ep1 : Endpoint := mkEndpoint "db1" 5432 "".

Lemma ex_owned : owned ex_migration 2 4 0 ex_ep1.
Proof.
  apply (owned_loads _ _ _ _ "s1"); [exact ex_migration_ok|]. intros n Hn.
  assert (n = 2 ∨ n = 3 ∨ n = 4)%nat as [->|[->| ->]] by lia;
    (split; [intros d Hd; vm_compute in Hd; injection Hd as <-; reflexivity
            |intros b Hb; vm_compute in Hb; injection Hb as <-; reflexivity]).
Qed.

(** The write on an instance that has seen VERIFYING, the read on one that still
    has COPYING. *)
Lemma fleet_reads_writes_witness :
  ∃ respw srvw tasksw respr srvr tasksr w r,
    ex_ask 4 ex_write_body = Some (respw, srvw, tasksw)
    ∧ ex_ask 2 ex_read_body = Some (respr, srvr, tasksr)
    ∧ (∃ d, (backend srvw).2 = [mkStmt d ex_ep1 (SQL w) (Args w) true] ∧ Writer d = ex_ep1)
    ∧ (∃ d, (backend srvr).2 = [mkStmt d ex_ep1 (SQL r) (Args r) false] ∧ Writer d = ex_ep1).
Proof.
  destruct (ex_ask 4 ex_write_body) as [[[respw srvw] tasksw]|] eqn:Ew; [|vm_compute in Ew; discriminate Ew].
  destruct (ex_ask 2 ex_read_body) as [[[respr srvr] tasksr]|] eqn:Er; [|vm_compute in Er; discriminate Er].
  destruct (accepted ex_write_body) as [w|] eqn:Hw; [|vm_compute in Hw; discriminate Hw].
  destruct (accepted ex_read_body) as [r|] eqn:Hr; [|vm_compute in Hr; discriminate Hr].
  exists respw, srvw, tasksw, respr, srvr, tasksr, w, r. split; [reflexivity|]. split; [reflexivity|].
  apply (fleet_reads_writes ex_backend ex_migration 2 4 [ex_instance 4; ex_instance 2] (New 1) 0 ex_ep1
           (ex_instance 4) (ex_instance 2) (ex_view 4) (ex_view 2) ex_write_body ex_read_body w r
           (mkServer Metrics.NewRegistry (tt, [])) srvw (mkServer Metrics.NewRegistry (tt, [])) srvr
           respw respr tasksw tasksr).
  - exact ex_migration_ok.
  - constructor; [apply ex_instances; lia|]. constructor; [apply ex_instances; lia|constructor].
  - exact ex_owned.
  - apply list_elem_of_here.
  - apply ex_current.
  - apply list_elem_of_further, list_elem_of_here.
  - apply ex_current.
  - exact Hw.
  - vm_compute in Hw. injection Hw as <-. reflexivity.
  - vm_compute in Hw. injection Hw as <-. vm_compute. reflexivity.
  - exact Hr.
  - vm_compute in Hr. injection Hr as <-. reflexivity.
  - vm_compute in Hr. injection Hr as <-. vm_compute. reflexivity.
  - vm_compute in Hr. injection Hr as <-. vm_compute. discriminate.
  - exact Ew.
  - exact Er.
  - vm_compute in Ew. injection Ew as <- _ _. reflexivity.
  - vm_compute in Er. injection Er as <- _ _. reflexivity.
Defined.

(** Across the cutover nothing holds the instances together: of two instances one
    revision apart, the one ahead writes to the destination only, and the other
    still reads from the source; and what the one behind writes is executed on the
    source, and by a goroutine on the destination, from which the one ahead reads
    at once. *)
Lemma cutover_not_fenced :
  instance ex_migration 4 5 (ex_instance 5) ∧ instance ex_migration 4 5 (ex_instance 4)
  ∧ ex_sends 5 ex_write_body = Some (200, ["s2"], [])
  ∧ ex_sends 4 ex_read_body = Some (200, ["s1"], [])
  ∧ ex_sends 4 ex_write_body = Some (200, ["s1"], ["s2"])
  ∧ ex_sends 5 ex_read_body = Some (200, ["s2"], []).
Proof. split_and!. 1-2: apply ex_instances; lia. all: vm_compute; reflexivity. Qed.
