(* ===== verification/Config.v ===== *)
(** * Package [config] and the start of the service

    [internal/config/config.go]: the settings read from the environment, and
    the part of [cmd/shard-router/main.go] that builds the registry, the router
    and the pool limits from them. The environment is a function from names to
    values, empty when a variable is not set. *)

From S2P Require Import Prelude GoInt GoString GoDuration GoAny Json Model Cache Router Etcd EtcdSync.
From S2P Require Import EtcdHttp FileRegistry Registry.
From S2P Require Breaker Pool.
From Stdlib Require Import Ascii.

(** ** Reading one variable *)

Section reading.
Variable getenv : string → string.

Definition getEnv (key def : string) : string :=
  if decide (getenv key = "") then def else getenv key.

Definition getInt (key : string) (def : Z) : Z :=
  if decide (getenv key = "") then def
  else match atoi (getenv key) with Ok n => n | Err _ => def end.

Definition getDuration (key : string) (def : Z) : Z :=
  if decide (getenv key = "") then def
  else match ParseDuration (getenv key) with Some d => d | None => def end.
End reading.

(** The parts of a comma-separated list, trimmed, without the empty ones. *)
Definition splitCSV (v : string) : list string :=
  if decide (v = "") then []
  else filter (λ p, p ≠ "") (map trim_space (split_on "," v)).

(** ** The configuration *)

Definition RegistryModeEtcd : string := "etcd".
Definition RegistryModeFile : string := "file".

Record Config := mkConfig {
  HTTPAddr : string;
  RegistryMode : string;
  EtcdEndpoints : list string;
  EtcdDialTimeout : Z;
  EtcdReconcileInterval : Z;
  EtcdUsername : string;
  EtcdPassword : string;
  MappingFile : string;
  ConfigBucketCount : Z;
  PoolMaxConns : Z;
}.

Inductive ConfigError : Type :=
| ErrInvalidMode (mode : string)
| ErrEmptyEndpoints.

Definition second : Z := 1000000000.

(** The literal of [Load], before its checks. *)
Definition read_config (getenv : string → string) : Config := {|
  HTTPAddr := getEnv getenv "HTTP_ADDR" ":8080";
  RegistryMode := getEnv getenv "REGISTRY_MODE" RegistryModeEtcd;
  EtcdEndpoints := splitCSV (getEnv getenv "ETCD_ENDPOINTS" "http://127.0.0.1:2379");
  EtcdDialTimeout := getDuration getenv "ETCD_DIAL_TIMEOUT" (5 * second);
  EtcdReconcileInterval := getDuration getenv "ETCD_RECONCILE_INTERVAL" (60 * second);
  EtcdUsername := getenv "ETCD_USERNAME";
  EtcdPassword := getenv "ETCD_PASSWORD";
  MappingFile := getEnv getenv "MAPPING_FILE" "testdata/mapping.example.json";
  ConfigBucketCount := getInt getenv "BUCKET_COUNT" 1024;
  PoolMaxConns := wrap32 (getInt getenv "POOL_MAX_CONNS" 10);
|}.

Definition Load (getenv : string → string) : result ConfigError Config :=
  let c := read_config getenv in
  if decide (RegistryMode c ≠ RegistryModeEtcd ∧ RegistryMode c ≠ RegistryModeFile)
  then Err (ErrInvalidMode (RegistryMode c))
  else if decide (RegistryMode c = RegistryModeEtcd ∧ EtcdEndpoints c = [])
  then Err ErrEmptyEndpoints
  else Ok c.

(** ** Starting the service: [run], up to the HTTP server *)

Definition etcd_config (c : Config) : EtcdConfig :=
  mkEtcdConfig (EtcdEndpoints c) (EtcdDialTimeout c) (EtcdUsername c) (EtcdPassword c)
    (EtcdReconcileInterval c).

Definition pool_config (c : Config) : Pool.PoolConfig :=
  let d := Pool.DefaultConfig in
  Pool.mkPoolConfig (PoolMaxConns c) (Pool.MinConns d) (Pool.MaxConnLifetime d)
    (Pool.MaxConnIdleTime d) (Pool.IdlePoolTTL d).

Inductive RunError : Type :=
| ErrConfig (e : ConfigError)
| ErrEtcdConfig (e : EtcdConfigError)
| ErrFileStart (e : FileError)
| ErrEtcdStart (e : ClientError).

(** Either registry, with its store. *)
Inductive AnyRegistry : Type :=
| UsesFile (r : FileRegistry)
| UsesEtcd (r : EtcdRegistry).

Record Service := mkService {
  registry : AnyRegistry;
  router : Router;
  poolLimits : Pool.PoolConfig;
}.

(** The registry the mode chooses. *)
Definition new_registry (c : Config) : result RunError AnyRegistry :=
  if decide (RegistryMode c = RegistryModeFile) then Ok (UsesFile (NewFileRegistry (MappingFile c)))
  else match NewEtcdRegistry (etcd_config c) with
       | Err e => Err (ErrEtcdConfig e)
       | Ok r => Ok (UsesEtcd r)
       end.

(** [reg.Start(ctx)]. *)
Definition start_registry {W} `{Network W} (reg : AnyRegistry) (files : FileWorld) (w : W)
    : result RunError AnyRegistry * W :=
  match reg with
  | UsesFile r =>
      match StartRegistry (E := FileError) r files with
      | (Err e, _, _) => (Err (ErrFileStart e), w)
      | (Ok _, r, _) => (Ok (UsesFile r), w)
      end
  | UsesEtcd r =>
      match StartRegistry (E := ClientError) r w with
      | (Err e, _, w) => (Err (ErrEtcdStart e), w)
      | (Ok _, r, w) => (Ok (UsesEtcd r), w)
      end
  end.

Definition new_service (c : Config) (reg : AnyRegistry) : Service :=
  mkService reg (New (ConfigBucketCount c)) (pool_config c).

(** [run] up to the server. *)
Definition run {W} `{Network W} (getenv : string → string) (files : FileWorld) (w : W)
    : result RunError Service * W :=
  match Load getenv with
  | Err e => (Err (ErrConfig e), w)
  | Ok c =>
      match new_registry c with
      | Err e => (Err e, w)
      | Ok reg =>
          match start_registry reg files w with
          | (Err e, w) => (Err e, w)
          | (Ok reg, w) => (Ok (new_service c reg), w)
          end
      end
  end.

(** What the background synchronisation may do to the registry of a service. *)
Inductive registry_steps {W} `{Network W} : AnyRegistry → AnyRegistry → Prop :=
| file_steps r r' :
    rtc (background (W := FileWorld) (E := FileError)) r r' →
    registry_steps (UsesFile r) (UsesFile r')
| etcd_steps r r' :
    rtc (background (W := W) (E := ClientError)) r r' →
    registry_steps (UsesEtcd r) (UsesEtcd r').

Definition any_store (r : AnyRegistry) : Memory :=
  match r with UsesFile r => fstore r | UsesEtcd r => mem (sync r) end.

(** ** Properties *)

(** What the settings are once [Load] accepts them. *)
Lemma Load_ok getenv c :
  Load getenv = Ok c →
  c = read_config getenv
  ∧ (RegistryMode c = RegistryModeEtcd ∨ RegistryMode c = RegistryModeFile)
  ∧ (RegistryMode c = RegistryModeEtcd → EtcdEndpoints c ≠ []).
Proof.
  unfold Load. destruct (decide (_ ∧ _)) as [|N1]; [done|].
  destruct (decide (_ ∧ _)) as [|N2]; [done|].
  intros [= <-]. split; [done|]. split; [|naive_solver].
  destruct (decide (RegistryMode (read_config getenv) = RegistryModeEtcd)); [by left|].
  destruct (decide (RegistryMode (read_config getenv) = RegistryModeFile)); [by right|naive_solver].
Qed.

Lemma splitCSV_nonempty v : Forall (λ p, p ≠ "") (splitCSV v).
Proof.
  unfold splitCSV. case_decide; [constructor|]. apply Forall_forall. intros p.
  rewrite list_elem_of_filter. by intros [? _].
Qed.

(** Accepted settings are usable: the mode is one of the two, no endpoint
    is empty, an etcd registry can be built from them, the number of connections
    is an [int32], and the router has a positive number of buckets. *)
Lemma load_valid (getenv : string → string) (c : Config) :
  Load getenv = Ok c →
  (RegistryMode c = RegistryModeEtcd ∨ RegistryMode c = RegistryModeFile)
  ∧ Forall (λ ep, ep ≠ "") (EtcdEndpoints c)
  ∧ (RegistryMode c = RegistryModeEtcd → is_ok (NewEtcdRegistry (etcd_config c)) = true)
  ∧ - 2 ^ 31 ≤ PoolMaxConns c < 2 ^ 31
  ∧ 0 < bucketCount (New (ConfigBucketCount c)).
Proof.
  intros (-> & Hmode & Heps)%Load_ok. refine (conj Hmode (conj _ (conj _ (conj _ _)))).
  - apply splitCSV_nonempty.
  - intros Hm. specialize (Heps Hm). unfold NewEtcdRegistry, etcd_config. cbn [Endpoints].
    by destruct (EtcdEndpoints (read_config getenv)).
  - apply (wrap_range 32). lia.
  - apply New_positive.
Qed.

(** A negative interval of reconciliation is accepted and crashes the
    service: neither [Load] nor [NewEtcdRegistry] refuses it, and the loop of
    the reconciliation panics on its ticker. *)
Lemma negative_interval_panics (getenv : string → string) (c : Config) :
  Load getenv = Ok c → RegistryMode c = RegistryModeEtcd → EtcdReconcileInterval c < 0 →
  ∃ r, NewEtcdRegistry (etcd_config c) = Ok r ∧ reconcile_panics r = true.
Proof.
  intros (_ & _ & Heps)%Load_ok Hm Hneg. specialize (Heps Hm).
  unfold NewEtcdRegistry, etcd_config. cbn [Endpoints ReconcileInterval].
  destruct (EtcdEndpoints c) as [|ep eps]; [done|].
  rewrite (proj2 (Z.eqb_neq _ _)) by lia. eexists. split; [done|]. apply Z.leb_le. cbn. lia.
Qed.

Lemma negative_interval_panics_witness :
  let getenv := λ name, if decide (name = "ETCD_RECONCILE_INTERVAL") then "-60s" else "" in
  ∃ r, NewEtcdRegistry (etcd_config (read_config getenv)) = Ok r ∧ reconcile_panics r = true.
Proof.
  intros getenv. apply (negative_interval_panics getenv (read_config getenv)); by vm_compute.
Defined.

Lemma load_valid_witness :
  let c := read_config (λ _, "") in
  0 < bucketCount (New (ConfigBucketCount c)).
Proof. apply (load_valid (λ _, "") (read_config (λ _, ""))). by vm_compute. Defined.

(** The number of connections is cut to 32 bits, and the number of buckets
    falls back to the default when it is not positive. *)
Example config_edges :
  let getenv := λ name, if decide (name = "POOL_MAX_CONNS") then "4294967297"
                        else if decide (name = "BUCKET_COUNT") then "-5" else "" in
  option_map (λ c, (PoolMaxConns c, bucketCount (New (ConfigBucketCount c))))
    (match Load getenv with Ok c => Some c | Err _ => None end) = Some (1, 1024).
Proof. by vm_compute. Qed.

(** *** Settings written to the environment *)

Definition environment (c : Config) (name : string) : string :=
  if decide (name = "HTTP_ADDR") then HTTPAddr c
  else if decide (name = "REGISTRY_MODE") then RegistryMode c
  else if decide (name = "ETCD_ENDPOINTS") then join_with "," (EtcdEndpoints c)
  else if decide (name = "ETCD_DIAL_TIMEOUT") then format_int (EtcdDialTimeout c / second) +:+ "s"
  else if decide (name = "ETCD_RECONCILE_INTERVAL")
  then format_int (EtcdReconcileInterval c / second) +:+ "s"
  else if decide (name = "ETCD_USERNAME") then EtcdUsername c
  else if decide (name = "ETCD_PASSWORD") then EtcdPassword c
  else if decide (name = "MAPPING_FILE") then MappingFile c
  else if decide (name = "BUCKET_COUNT") then format_int (ConfigBucketCount c)
  else if decide (name = "POOL_MAX_CONNS") then format_int (PoolMaxConns c)
  else "".

(** A number of whole seconds that a duration can hold. *)
Definition whole_seconds (d : Z) : Prop := ∃ n, d = n * second ∧ 0 ≤ n ≤ 9223372036.

Record expressible (c : Config) : Prop := {
  expr_addr : HTTPAddr c ≠ "";
  expr_mode : RegistryMode c = RegistryModeEtcd ∨ RegistryMode c = RegistryModeFile;
  expr_endpoints : EtcdEndpoints c ≠ []
    ∧ Forall (λ ep, ep ≠ "" ∧ trim_space ep = ep ∧ str_no "," ep = true) (EtcdEndpoints c);
  expr_dial : whole_seconds (EtcdDialTimeout c);
  expr_interval : whole_seconds (EtcdReconcileInterval c);
  expr_file : MappingFile c ≠ "";
  expr_buckets : in_int64 (ConfigBucketCount c) = true;
  expr_conns : - 2 ^ 31 ≤ PoolMaxConns c < 2 ^ 31;
}.

Lemma getEnv_present getenv key def v : getenv key = v → v ≠ "" → getEnv getenv key def = v.
Proof. intros E Hv. unfold getEnv. by rewrite E, decide_False. Qed.

Lemma getInt_present getenv key def n :
  getenv key = format_int n → in_int64 n = true → getInt getenv key def = n.
Proof.
  intros E Hn. unfold getInt. rewrite E, atoi_format_int by done. case_decide as H; [|done].
  assert (atoi (format_int n) = Ok n) as Ha by by apply atoi_format_int. by rewrite H in Ha.
Qed.

Lemma getDuration_present getenv key def d :
  getenv key = format_int (d / second) +:+ "s" → whole_seconds d → getDuration getenv key def = d.
Proof.
  intros E (n & -> & Hn). unfold getDuration. rewrite E, Z.div_mul by done.
  rewrite ParseDuration_seconds by done. case_decide as H; [|done].
  by destruct (format_int n).
Qed.

Lemma splitCSV_join eps :
  eps ≠ [] → Forall (λ ep, ep ≠ "" ∧ trim_space ep = ep ∧ str_no "," ep = true) eps →
  join_with "," eps ≠ "" ∧ splitCSV (join_with "," eps) = eps.
Proof.
  intros Hne Hall.
  assert (join_with "," eps ≠ "") as Hj.
  { destruct eps as [|p [|q eps]]; [done| |]; apply Forall_cons in Hall as [(Hp & _) _]; [done|].
    by destruct p. }
  split; [done|]. unfold splitCSV. rewrite decide_False, split_join; [|done| |done].
  - clear Hne Hj. induction Hall as [|p eps (Hp & Ht & _) _ IH]; [done|].
    cbn [map]. rewrite Ht, filter_cons, decide_True by done. by rewrite IH.
  - eapply Forall_impl; [done|]. by intros p (_ & _ & ?).
Qed.

(** C38: settings survive the environment: any settings with a listen address,
    a mapping file, one of the two modes, trimmed endpoints without commas,
    durations in whole seconds and numbers of their width are what [Load]
    returns when the environment holds their text. *)
Theorem load_reads_back (c : Config) :
  expressible c → Load (environment c) = Ok c.
Proof.
  intros [Ha Hm [Hne Heps] Hd Hi Hf Hb Hc]. destruct (splitCSV_join _ Hne Heps) as [Hj Hs].
  assert (RegistryMode c ≠ "") as Hmode by (destruct Hm as [-> | ->]; done).
  assert (in_int64 (PoolMaxConns c) = true) as Hc64 by (apply in_int64_spec; lia).
  assert (read_config (environment c) = c) as E.
  { destruct c as [addr mode eps dial int user pass file buckets conns]. unfold read_config.
    f_equal; try done.
    - by apply getEnv_present.
    - by apply getEnv_present.
    - by rewrite (getEnv_present _ _ _ (join_with "," eps)).
    - by apply getDuration_present.
    - by apply getDuration_present.
    - by apply getEnv_present.
    - by apply getInt_present.
    - rewrite (getInt_present _ _ _ conns) by done. cbn in Hc. apply wrap_id; lia. }
  unfold Load. rewrite E. rewrite decide_False by naive_solver. by rewrite decide_False by naive_solver.
Qed.

Definition ex_config : Config :=
  mkConfig ":9090" "etcd" ["http://etcd-01:2379"; "http://etcd-02:2379"] (5 * second) (90 * second)
    "root" "" "map.json" 512 20.

Lemma load_reads_back_witness :
  Load (environment ex_config) = Ok ex_config
  ∧ environment ex_config "ETCD_ENDPOINTS" = "http://etcd-01:2379,http://etcd-02:2379".
Proof.
  split; [|done]. apply load_reads_back. split.
  - done.
  - by left.
  - split; [done|]. repeat constructor; by vm_compute.
  - by exists 5.
  - by exists 90.
  - done.
  - done.
  - by vm_compute.
Defined.

(** *** The service that starts *)

Lemma run_ok {W} `{Network W} getenv files (w w' : W) srv :
  run getenv files w = (Ok srv, w') →
  ∃ c, Load getenv = Ok c ∧ router srv = New (ConfigBucketCount c) ∧ poolLimits srv = pool_config c
    ∧ ((∃ r f', StartRegistry (E := FileError) (NewFileRegistry (MappingFile c)) files = (Ok (), r, f')
          ∧ registry srv = UsesFile r)
       ∨ (∃ r0 r, NewEtcdRegistry (etcd_config c) = Ok r0
          ∧ StartRegistry (E := ClientError) r0 w = (Ok (), r, w') ∧ registry srv = UsesEtcd r)).
Proof.
  unfold run. intros E. destruct (Load getenv) as [c|e] eqn:Hl; [|done].
  exists c. split; [done|]. unfold new_registry in E. case_decide as Hmode; cbn in E.
  - destruct (FileRegistry.Start _ _ _) as [[[]|e] s] eqn:Hs; [|done].
    injection E as <- <-. split_and!; [done|done|]. left. cbn. rewrite Hs. eauto.
  - destruct (NewEtcdRegistry (etcd_config c)) as [r0|e] eqn:Hn; [|done].
    unfold start_registry in E.
    destruct (StartRegistry r0 w) as [[[[]|e] r] w1] eqn:Hs; [|done].
    injection E as <- <-. split_and!; [done|done|]. right. by exists r0, r.
Qed.

Lemma NewEtcdRegistry_idle c r : NewEtcdRegistry c = Ok r → sync r = idle_sys.
Proof. unfold NewEtcdRegistry. destruct (Endpoints c); [done|]. by intros [= <-]. Qed.

(** C32: a service that has started can route: whichever registry the settings
    choose, once the start has succeeded and whatever its synchronisation has
    done since, the store holds a mapping, over which the router has a positive
    number of buckets: no request is answered that no mapping is loaded. *)
Theorem started_service_routes {W} `{Network W} (getenv : string → string) (files : FileWorld)
    (w w' : W) (srv : Service) (reg' : AnyRegistry) (k : go_any) :
  run getenv files w = (Ok srv, w') → registry_steps (W := W) (registry srv) reg' →
  (∃ m, current (any_store reg') = Some m)
  ∧ 0 < bucketCount (router srv)
  ∧ Resolve (router srv) (current (any_store reg')) k ≠ Err ErrNoMapping.
Proof.
  intros Hrun Hsteps. apply run_ok in Hrun as (c & _ & -> & _ & Hreg).
  assert (∃ m, current (any_store reg') = Some m) as [m Hm].
  { destruct Hreg as [(r & f' & Hs & Er)|(r0 & r & Hn & Hs & Er)]; rewrite Er in Hsteps;
      inversion Hsteps as [? r' Hb|? r' Hb]; subst.
    - exact (start_serves (init := λ r, r = NewFileRegistry (path r)) _ files r f' r' eq_refl Hs Hb).
    - exact (start_serves (init := λ r, sync r = idle_sys) r0 w r w' r' (NewEtcdRegistry_idle _ _ Hn) Hs Hb). }
  split_and!; [by exists m|apply New_positive|]. rewrite Hm. apply Resolve_has_mapping.
Qed.

Lemma started_service_routes_witness :
  let getenv := λ name, if decide (name = "REGISTRY_MODE") then "file" else "" in
  let files := mkFileWorld (λ _, Some (small_file "7")) map_to_list in
  ∃ srv, run (H := traced (λ _, Failed "")) getenv files [] = (Ok srv, [])
    ∧ 0 < bucketCount (router srv).
Proof.
  intros getenv files.
  destruct (run (H := traced (λ _, Failed "")) getenv files []) as [[srv|e] w'] eqn:E;
    [|by vm_compute in E].
  exists srv. split; [by vm_compute in E |- *; injection E as <- <-|].
  destruct (registry srv) as [r|r] eqn:Er; [|vm_compute in E; by injection E as <- _].
  apply (started_service_routes (H := traced (λ _, Failed "")) getenv files [] w' srv (UsesFile r)
           (AString "k")); [exact E|].
  rewrite Er. by apply file_steps.
Defined.
