(* ===== verification/Main.v ===== *)
(** * The process: start, service, shutdown

    [main] and [run] of [cmd/shard-router/main.go]: what the process acquires,
    in which order, and what its deferred calls give back on every way out.
    The HTTP server and the signals are Go's; how they end is an argument. *)

From S2P Require Import Prelude GoInt GoString GoAny Json Model Cache Router Etcd EtcdSync.
From S2P Require Import EtcdHttp FileRegistry Registry Config.
From S2P Require Pool.

(** ** What is acquired and given back *)

Inductive resource : Type :=
| Signals          (* [signal.NotifyContext] and [stop] *)
| TheRegistry      (* the registry and [reg.Close] *)
| ThePools         (* [pool.NewManager] and [connPool.Close] *)
| TheServer.       (* [ListenAndServe] and [Shutdown] *)

#[global] Instance resource_eq_dec : EqDecision resource.
Proof. solve_decision. Defined.

Inductive event : Type := Opens (r : resource) | Gives (r : resource).

#[global] Instance event_eq_dec : EqDecision event.
Proof. solve_decision. Defined.

(** The calls of the function so far, and its deferred calls, latest first. *)
Record frame := mkFrame { calls : list event; deferred : list event }.

Definition empty_frame : frame := mkFrame [] [].

(** A call followed by [defer]. *)
Definition with_defer (r : resource) (f : frame) : frame :=
  mkFrame (calls f ++ [Opens r]) (Gives r :: deferred f).
Definition call (e : event) (f : frame) : frame := mkFrame (calls f ++ [e]) (deferred f).

(** The function returns: its deferred calls run. *)
Definition returns (f : frame) : list event := calls f ++ deferred f.

(** How the server ends: it cannot listen, or a signal arrives and [Shutdown]
    returns, with an error when its ten seconds have passed. *)
Inductive server_end : Type :=
| ListenFails (msg : string)
| Signalled (shutdown : option string).

Inductive MainError : Type :=
| ErrRun (e : RunError)
| ErrListen (msg : string)
| ErrShutdown (msg : string).

(** From the server on. *)
Definition serve (ends : server_end) (f : frame) : result MainError unit * list event :=
  let f := call (Opens TheServer) f in
  match ends with
  | ListenFails msg => (Err (ErrListen msg), returns f)
  | Signalled res =>
      let f := call (Gives TheServer) f in
      (match res with Some msg => Err (ErrShutdown msg) | None => Ok tt end, returns f)
  end.

(** [run]: its result, the calls it makes, and the service it has served. *)
Definition run_all {W} `{Network W} (getenv : string → string) (files : FileWorld)
    (ends : Service → server_end) (w : W)
    : result MainError unit * list event * option Service * W :=
  match Load getenv with
  | Err e => (Err (ErrRun (ErrConfig e)), returns empty_frame, None, w)
  | Ok c =>
      let f := with_defer Signals empty_frame in
      match new_registry c with
      | Err e => (Err (ErrRun e), returns f, None, w)
      | Ok reg =>
          let f := with_defer TheRegistry f in
          match start_registry reg files w with
          | (Err e, w) => (Err (ErrRun e), returns f, None, w)
          | (Ok reg, w) =>
              let srv := new_service c reg in
              let f := with_defer ThePools f in
              let '(res, calls) := serve (ends srv) f in
              (res, calls, Some srv, w)
          end
      end
  end.

(** [main]: the exit code of the process. *)
Definition exit_code (res : result MainError unit) : Z := match res with Ok _ => 0 | Err _ => 1 end.

(** ** Properties *)

(** A word of calls in which everything opened is given back, last first; the
    stack holds what is open. A server that could not listen is not shut down. *)
Fixpoint nested (stack : list resource) (l : list event) : bool :=
  match l with
  | [] => bool_decide (stack = [])
  | Opens r :: l => nested (r :: stack) l
  | Gives r :: l =>
      match stack with
      | r' :: stack => bool_decide (r = r') && nested stack l
      | [] => false
      end
  end.

(** The calls around a server that has not listened. *)
Definition without_server (l : list event) : list event :=
  filter (λ e, e ≠ Opens TheServer) l.

Lemma absent (e : event) (l : list event) : bool_decide (e ∈ l) = false → e ∉ l.
Proof. apply bool_decide_eq_false_1. Qed.

(** [run] gets to its server exactly when the start succeeds. *)
Lemma run_all_service {W} `{Network W} getenv files ends (w : W) :
  match run getenv files w with
  | (Ok srv, w') =>
      run_all getenv files ends w
      = (let '(res, calls) := serve (ends srv) (with_defer ThePools (with_defer TheRegistry
            (with_defer Signals empty_frame))) in (res, calls, Some srv, w'))
  | (Err e, w') => ∃ calls, run_all getenv files ends w = (Err (ErrRun e), calls, None, w')
      ∧ nested [] calls = true ∧ Opens ThePools ∉ calls ∧ Opens TheServer ∉ calls
  end.
Proof.
  unfold run, run_all. destruct (Load getenv) as [c|e]; cycle 1.
  { eexists. split_and!; [done|done|by apply absent..]. }
  destruct (new_registry c) as [reg|e]; cycle 1.
  { eexists. split_and!; [done|done|by apply absent..]. }
  destruct (start_registry reg files w) as [[reg'|e] w']; [done|].
  eexists. split_and!; [done|done|by apply absent..].
Qed.

(** C33: the process cleans up: whatever happens, at the start or later, what
    [run] has opened it gives back exactly once, last opened first; the pools
    and the server exist only after a successful start; after a signal the
    server is shut down before the pools are closed, and the pools are
    closed before the registry stops updating the shard map; the exit code is 0
    exactly when the service has started, been interrupted by a signal, and
    shut down in time. *)
Theorem main_cleans_up {W} `{Network W} (getenv : string → string) (files : FileWorld)
    (ends : Service → server_end) (w : W) :
  let '(res, calls, srv, w') := run_all getenv files ends w in
  nested [] (match ends <$> srv with
             | Some (ListenFails _) => without_server calls
             | _ => calls
             end) = true
  ∧ (∀ s, srv = Some s ↔ run getenv files w = (Ok s, w'))
  ∧ (∀ s, srv = Some s → match ends s with
       | ListenFails _ => Gives TheServer ∉ calls
       | Signalled _ => calls = [Opens Signals; Opens TheRegistry; Opens ThePools; Opens TheServer;
                                 Gives TheServer; Gives ThePools; Gives TheRegistry; Gives Signals]
       end)
  ∧ (srv = None → Opens ThePools ∉ calls)
  ∧ (exit_code res = 0 ↔ ∃ s, srv = Some s ∧ ends s = Signalled None).
Proof.
  pose proof (run_all_service getenv files ends w) as Hr.
  destruct (run getenv files w) as [[s|e] w'] eqn:E.
  - rewrite Hr. unfold serve. destruct (ends s) as [msg|[msg|]] eqn:Ee; cbn -[nested].
    all: split; [by rewrite Ee|].
    all: split; [intros s'; naive_solver|].
    all: split; [intros s' [= <-]; rewrite Ee; (done || by apply absent)|].
    all: split; [done|]; split; [try done; eauto|].
    all: intros (s' & [= <-] & E'); congruence.
  - destruct Hr as (calls & -> & Hn & Hp & Hs). split_and!; [done|naive_solver|done|done|].
    split; [done|]. by intros (s & ? & _).
Qed.

(** The ways out of a process with the file registry. *)
Example main_ends :
  let getenv := λ name, if decide (name = "REGISTRY_MODE") then "file" else "" in
  let code file ends := let '(res, _, _, _) := run_all (H := traced (λ _, Failed "")) getenv
                          (mkFileWorld (λ _, file) map_to_list) (λ _, ends) [] in exit_code res in
  code (Some (small_file "7")) (Signalled None) = 0
  ∧ code (Some (small_file "7")) (ListenFails "address in use") = 1
  ∧ code (Some (small_file "7")) (Signalled (Some "deadline exceeded")) = 1
  ∧ code None (Signalled None) = 1.
Proof. by vm_compute. Qed.

Lemma main_cleans_up_witness :
  let getenv := λ name, if decide (name = "REGISTRY_MODE") then "file" else "" in
  let '(res, calls, _, _) := run_all (H := traced (λ _, Failed "")) getenv
    (mkFileWorld (λ _, Some (small_file "7")) map_to_list) (λ _, Signalled None) [] in
  exit_code res = 0 ∧ length calls = 8%nat.
Proof.
  intros getenv.
  pose proof (main_cleans_up (H := traced (λ _, Failed "")) getenv
    (mkFileWorld (λ _, Some (small_file "7")) map_to_list) (λ _, Signalled None) []) as Hm.
  destruct (run_all _ _ _ _) as [[[res calls] srv] w'] eqn:E.
  destruct Hm as (_ & _ & Hcalls & _ & Hcode).
  destruct srv as [s|]; [|vm_compute in E; by injection E].
  split; [apply Hcode; by exists s|]. by rewrite (Hcalls s eq_refl).
Defined.
