(* ===== verification/Typing.v ===== *)
(** * Types: the records in the shard map are values of their Go types

    Integers are unbounded in the model. This file proves that the ones the
    service computes with fit the types the code declares for them: whatever
    text etcd or the file holds, every record of every mapping in memory has
    ports, bucket identifiers and versions of 64 bits, each bucket is stored
    under its own identifier, and so is what a request gets from [Resolve].
    (The revision of a mapping is whatever the client of etcd read.) *)

From S2P Require Import Prelude GoInt GoString GoAny Json Model Cache Router Keys Etcd EtcdSync.
From S2P Require Import EtcdHttp FileRegistry Registry Config Hashing.

(** ** The judgment *)

Class Typed (A : Type) := typed : A → Prop.
#[global] Hint Mode Typed ! : typeclass_instances.

#[export] Instance typed_int : Typed Z := λ z, in_int64 z = true.
#[export] Instance typed_endpoint : Typed Endpoint := λ e, typed (Port e).
#[export] Instance typed_option `{Typed A} : Typed (option A) := λ o, ∀ x, o = Some x → typed x.
#[export] Instance typed_shard : Typed ShardDef := λ d, typed (Writer d) ∧ typed (Reader d).
#[export] Instance typed_bucket : Typed BucketDef := λ b, typed (BucketID b) ∧ typed (MappingVersion b).
#[export] Instance typed_map `{Countable K} `{Typed A} : Typed (gmap K A) := map_Forall (λ _, typed).
#[export] Instance typed_list `{Typed A} : Typed (list A) := Forall typed.

#[export] Instance typed_mapping : Typed Mapping := λ m,
  typed (Shards m) ∧ typed (Buckets m) ∧ ∀ id b, Buckets m !! id = Some b → BucketID b = id.

(** Every mapping in memory, published or under construction. *)
#[export] Instance typed_memory : Typed Memory := λ s, typed (heap s).

#[export] Instance typed_resolved : Typed Resolved := λ r,
  typed (RBucketID r) ∧ typed (ReadShard r) ∧ typed (WriteShards r).

(** ** Decoding gives values of the type *)

Lemma atoi_typed s z : atoi s = Ok z → typed z.
Proof. apply atoi_in_range. Qed.

Lemma decode_int_typed cur v z : typed cur → decode_int cur v = Some z → typed z.
Proof.
  unfold decode_int. intros Hc. destruct v as [| |l| | |]; try done; [by intros [= <-]|].
  destruct (atoi l) eqn:E; [|done]. intros [= <-]. by eapply atoi_typed.
Qed.

Lemma decode_members_typed {A} `{Typed A} names (set : A → string → json → option A) kvs :
  (∀ cur n v x, typed cur → set cur n v = Some x → typed x) →
  ∀ cur x, typed cur → decode_members names set cur kvs = Some x → typed x.
Proof.
  intros Hset. induction kvs as [|[k v] kvs IH]; intros cur x Hc; cbn; [by intros [= <-]|].
  intros (y & Hy & Hx)%bind_Some. eapply IH; [|done].
  destruct (match_field names k); [by eapply Hset|by injection Hy as <-].
Qed.

Lemma decode_struct_typed {A} `{Typed A} names (set : A → string → json → option A) cur v x :
  (∀ cur n v x, typed cur → set cur n v = Some x → typed x) →
  typed cur → decode_struct names set cur v = Some x → typed x.
Proof.
  intros Hset Hc. unfold decode_struct. destruct v; try done; [by intros [= <-]|].
  by eapply decode_members_typed.
Qed.

Lemma decode_endpoint_typed e v e' : typed e → decode_endpoint e v = Some e' → typed e'.
Proof.
  apply decode_struct_typed. intros [h p d] n j x Hc. unfold set_endpoint. cbn [Host Port Database].
  repeat case_decide; intros (y & Hy & [= <-])%bind_Some; [done| |done].
  by eapply decode_int_typed.
Qed.

Lemma decode_endpoint_ptr_typed e v e' : typed e → decode_endpoint_ptr e v = Some e' → typed e'.
Proof.
  intros Hc. assert (typed (default zero_endpoint e)) as Hd by (destruct e; [by apply Hc|done]).
  unfold decode_endpoint_ptr. destruct v; [by intros [= <-]|..];
    intros (y & Hy & [= <-])%bind_Some; intros z [= <-]; by eapply decode_endpoint_typed.
Qed.

Lemma decode_shard_typed d v d' : typed d → decode_shard d v = Some d' → typed d'.
Proof.
  apply decode_struct_typed. intros [sid st w r cr rg] n j x [Hw Hr]. unfold set_shard. cbn in Hw, Hr.
  repeat case_decide; intros (y & Hy & [= <-])%bind_Some; split; cbn; try done.
  - by eapply decode_endpoint_typed.
  - by eapply decode_endpoint_ptr_typed.
Qed.

Lemma decode_bucket_typed b v b' : typed b → decode_bucket b v = Some b' → typed b'.
Proof.
  apply decode_struct_typed. intros [id sid dst st mv] n j x [Hi Hm]. unfold set_bucket. cbn in Hi, Hm.
  repeat case_decide; intros (y & Hy & [= <-])%bind_Some; split; cbn; try done;
    by eapply decode_int_typed; [|exact Hy].
Qed.

Lemma unmarshal_shard_typed v d : unmarshal_shard v = Some d → typed d.
Proof. intros (j & _ & H)%bind_Some. by eapply decode_shard_typed; [|exact H]. Qed.

Lemma unmarshal_bucket_typed v b : unmarshal_bucket v = Some b → typed b.
Proof. intros (j & _ & H)%bind_Some. by eapply decode_bucket_typed; [|exact H]. Qed.

Lemma default_shard_id_typed id d : typed d → typed (default_shard_id id d).
Proof. unfold default_shard_id. by case_decide. Qed.

Lemma with_bucket_id_typed id b : typed id → typed b → typed (with_bucket_id id b).
Proof. intros Hi [_ Hm]. by split. Qed.

Lemma bucketIDFromKey_typed key id : bucketIDFromKey key = Some id → typed id.
Proof. by intros (s & _ & Hs%atoi_typed)%bucketIDFromKey_some. Qed.

Lemma sscanf_d_typed s z : sscanf_d s = Some z → typed z.
Proof.
  unfold sscanf_d. intros (t & _ & H)%bind_Some. revert H.
  match goal with |- context [atoi ?tok] => destruct (atoi tok) eqn:E end; [|done].
  intros [= <-]. by eapply atoi_typed.
Qed.

#[export] Hint Resolve unmarshal_shard_typed unmarshal_bucket_typed default_shard_id_typed
  with_bucket_id_typed bucketIDFromKey_typed sscanf_d_typed : go.

(** ** Mappings *)

Lemma empty_typed rev : typed (mkMapping rev ∅ ∅).
Proof. split_and!; [apply map_Forall_empty..|done]. Qed.

Lemma set_shard_typed m id d : typed m → typed d → typed (set_shards <[id := d]> m).
Proof. intros (Hs & Hb & Hi) Hd. split_and!; [by apply map_Forall_insert_2|done..]. Qed.

Lemma delete_shard_typed m id : typed m → typed (set_shards (delete id) m).
Proof. intros (Hs & Hb & Hi). split_and!; [by apply map_Forall_delete|done..]. Qed.

Lemma set_bucket_typed m id b :
  typed m → typed b → BucketID b = id → typed (set_buckets <[id := b]> m).
Proof.
  intros (Hs & Hb & Hi) Hd E. split_and!; [done|by apply map_Forall_insert_2|].
  intros n b'. cbn. intros [[<- <-]|[_ ?]]%lookup_insert_Some; [done|by apply Hi].
Qed.

Lemma delete_bucket_typed m id : typed m → typed (set_buckets (delete id) m).
Proof.
  intros (Hs & Hb & Hi). split_and!; [done|by apply map_Forall_delete|].
  intros n b'. cbn. intros [_ ?]%lookup_delete_Some. by apply Hi.
Qed.

Lemma applyKV_typed m key v deleted : typed m → typed (snd (applyKV m key v deleted)).
Proof.
  intros Hm. unfold applyKV.
  destruct (shardIDFromKey key) as [id|]; [|destruct (bucketIDFromKey key) as [id|] eqn:Ek]; [| |done].
  - destruct deleted; [by apply delete_shard_typed|].
    destruct (unmarshal_shard v) eqn:E; [|done]. apply set_shard_typed; eauto with go.
  - destruct deleted; [by apply delete_bucket_typed|].
    destruct (unmarshal_bucket v) eqn:E; [|done]. apply set_bucket_typed; eauto with go.
Qed.

Lemma apply_event_typed m ev : typed m → typed (apply_event m ev).
Proof. intros Hm. unfold apply_event. repeat case_decide; [by apply applyKV_typed..|done]. Qed.

Lemma load_kvs_typed rev kvs : typed (load_kvs rev kvs).
Proof.
  unfold load_kvs. generalize (empty_typed rev). generalize (mkMapping rev ∅ ∅).
  induction kvs as [|e kvs IH]; intros m Hm; [done|]. apply IH. by apply applyKV_typed.
Qed.

Lemma set_revision_typed rev m : typed m → typed (set_revision rev m).
Proof. unfold set_revision. by case_match. Qed.

Lemma Clone_typed m : typed m → typed (Clone m).
Proof. by rewrite Clone_id. Qed.

#[export] Hint Resolve empty_typed applyKV_typed apply_event_typed load_kvs_typed set_revision_typed
  Clone_typed : go.

(** ** Memories *)

Lemma alloc_typed m s : typed s → typed m → typed (snd (alloc m s)).
Proof. intros Hs Hm. by apply map_Forall_insert_2. Qed.

Lemma write_typed l m s : typed s → typed m → typed (write l m s).
Proof. intros Hs Hm. by apply map_Forall_insert_2. Qed.

Lemma deref_typed s l m : typed s → deref s l = Some m → typed m.
Proof. intros Hs Hl. by apply (Hs l). Qed.

#[export] Hint Resolve alloc_typed write_typed deref_typed : go.

Lemma watch_step_typed s w s' w' : typed s → watch_step s w s' w' → typed s'.
Proof.
  intros Hs Hstep. destruct Hstep as [| | | | | |rev b cur m Hb|rev b cur l ev rest m Hl|rev b cur l m Hl];
    eauto with go.
  - apply alloc_typed; [done|]. unfold base_mapping in Hb. destruct cur as [c|].
    + apply bind_Some in Hb as (m0 & Hm & [= <-]). eauto with go.
    + injection Hb as <-. apply empty_typed.
  - change (typed (write l (set_revision (BRevision b) m) s)). eauto with go.
Qed.

Lemma recon_step_typed s r s' r' : typed s → recon_step s r s' r' → typed s'.
Proof. intros Hs Hstep. destruct Hstep; eauto with go. Qed.

Lemma sync_steps_typed s s' : rtc sync_step s s' → typed (mem s) → typed (mem s').
Proof.
  induction 1 as [|s s1 s2 Hstep _ IH]; [done|]. intros Hs. apply IH.
  destruct Hstep; cbn; eauto using watch_step_typed, recon_step_typed.
Qed.

Lemma loadAll_typed rev kvs s : typed s → typed (loadAll rev kvs s).
Proof.
  intros Hs. unfold loadAll. pose proof (alloc_typed _ s Hs (empty_typed rev)) as Ha.
  destruct (alloc _ s) as [l s']. apply (write_typed l (load_kvs rev kvs) s'); eauto with go.
Qed.

(** ** The file *)

Lemma decode_map_typed {A} `{Typed A} (dec : json → option A) cur v x :
  (∀ j y, dec j = Some y → typed y) → typed cur → decode_map dec cur v = Some x → typed x.
Proof.
  intros Hdec Hc. destruct v as [| | | | |kvs]; try done; cbn.
  - intros [= <-]. apply map_Forall_empty.
  - revert cur Hc. induction kvs as [|[k j] kvs IH]; intros cur Hc; cbn; [by intros [= <-]|].
    intros (y & Hy & Hx)%bind_Some. eapply IH; [|done]. apply map_Forall_insert_2; eauto.
Qed.

#[local] Instance typed_doc : Typed fileDoc := λ d, typed (DocShards d) ∧ typed (DocBuckets d).

Lemma unmarshal_doc_typed data doc : unmarshal_doc data = Some doc → typed doc.
Proof.
  intros (v & _ & H)%bind_Some. revert H. apply decode_struct_typed; [|split; apply map_Forall_empty].
  intros cur n j x [Hs Hb]. unfold set_doc. case_decide; intros (y & Hy & [= <-])%bind_Some; split; try done;
    cbn; (eapply decode_map_typed; [|done|exact Hy]); intros j' z Hz.
  - by eapply decode_shard_typed; [|exact Hz].
  - by eapply decode_bucket_typed; [|exact Hz].
Qed.

Lemma fill_buckets_typed order m m' :
  Forall (λ kv, typed kv.2) order → typed (mkMapping 0 ∅ m) → fill_buckets order m = Ok m' →
  typed (mkMapping 0 ∅ m').
Proof.
  revert m. induction order as [|[k b] order IH]; intros m Ho Hm; cbn [fill_buckets]; [by intros [= <-]|].
  apply Forall_cons in Ho as [Hb Ho]. destruct (parseBucketID k) as [id|] eqn:E; [|done].
  apply IH; [done|]. apply (set_bucket_typed _ id _ Hm); [|done]. apply with_bucket_id_typed; [|done].
  by eapply sscanf_d_typed.
Qed.

Lemma file_start_typed file iterate s res s' :
  visits iterate → typed s → FileRegistry.Start file iterate s = (res, s') → typed s'.
Proof.
  intros Hit Hs. unfold FileRegistry.Start. destruct file as [data|]; [|by intros [= _ <-]].
  destruct (unmarshal_doc data) as [doc|] eqn:Ed; [|by intros [= _ <-]].
  destruct (fill_buckets _ _) as [buckets|] eqn:Eb; [|by intros [= _ <-]].
  intros [= _ <-]. apply unmarshal_doc_typed in Ed as [Hsh Hbu].
  apply (alloc_typed (mkMapping 1 (DocShards doc) buckets) s Hs).
  apply fill_buckets_typed in Eb as (_ & Hb & Hi); [by split_and!| |apply empty_typed].
  rewrite (Hit (DocBuckets doc)). apply Forall_forall. intros [k b] Hkb%elem_of_map_to_list.
  by apply (Hbu k).
Qed.

(** ** What a request gets *)

Lemma Resolve_typed r m k res :
  typed m → Resolve r (Some m) k = Ok res → typed res.
Proof.
  intros (Hs & Hb & Hi) Hres. destruct (Resolve_ok _ _ _ _ Hres) as (mp & b & [= <-] & Hl & Hr & _ & Eb & _).
  assert (∀ d, d ∈ WriteShards res → typed d) as Hw.
  { intros d Hd. destruct (routes_registered _ _ _ _ _ Hr Hd) as [id Hid]. by apply (Hs id). }
  destruct (Resolve_shape _ _ _ _ Hres) as (tl & Hws & _). split_and!.
  - rewrite Eb. rewrite <-(Hi _ _ Hl). apply (Hb _ _ Hl).
  - apply Hw. rewrite Hws. by left.
  - by apply Forall_forall.
Qed.

(** C15: the shard map is well-typed: once a service has started from either
    registry, and after any watch batch, reconciliation or request, every
    mapping in its memory, finished or under construction, holds only ports,
    bucket identifiers and versions of 64 bits, with each bucket under its own
    identifier, and so is every routing decision made on the current one. *)
Theorem service_well_typed {W} `{Network W} (getenv : string → string) (files : FileWorld)
    (w w' : W) (srv : Service) (reg' : AnyRegistry) :
  visits (iteration files) →
  run getenv files w = (Ok srv, w') → registry_steps (W := W) (registry srv) reg' →
  typed (any_store reg')
  ∧ ∀ k res, Resolve (router srv) (current (any_store reg')) k = Ok res → typed res.
Proof.
  intros Hit Hrun Hsteps. apply run_ok in Hrun as (c & Hload & Hrt & _ & Hreg).
  assert (typed NewStore) as H0 by apply map_Forall_empty.
  assert (typed (any_store reg')) as Ht.
  { destruct Hreg as [(r & f' & Hs & Er)|(r0 & r & Hn & Hs & Er)]; rewrite Er in Hsteps;
      inversion Hsteps as [? r' Hb|? r' Hb]; subst.
    - inversion Hb as [|? ? ? []]; subst. cbn in Hs.
      destruct (FileRegistry.Start _ _ _) as [res s] eqn:E. injection Hs as _ <- _.
      by eapply file_start_typed.
    - apply background_sync in Hb. apply (sync_steps_typed _ _ Hb).
      pose proof (NewEtcdRegistry_idle _ _ Hn) as Hi. cbn in Hs.
      destruct (EtcdHttp.Start _ _ _) as [[[[rev|e] cl] w1] s1] eqn:E; [|done].
      injection Hs as <- _. apply etcd_start_ok in E as [kvs ->]. rewrite Hi. by apply loadAll_typed. }
  split; [done|]. intros k res Hres. destruct (current (any_store reg')) as [m|] eqn:Em; [|done].
  eapply Resolve_typed; [|done]. apply bind_Some in Em as (l & _ & Hl). by apply (Ht l).
Qed.

Lemma service_well_typed_witness :
  let getenv := λ name, if decide (name = "REGISTRY_MODE") then "file" else "" in
  let files := mkFileWorld (λ _, Some (small_file "7")) map_to_list in
  ∃ srv, run (H := traced (λ _, Failed "")) getenv files [] = (Ok srv, [])
    ∧ typed (any_store (registry srv)).
Proof.
  intros getenv files.
  destruct (run (H := traced (λ _, Failed "")) getenv files []) as [[srv|e] w'] eqn:E;
    [|by vm_compute in E].
  exists srv. split; [by vm_compute in E |- *; injection E as <- <-|].
  destruct (registry srv) as [r|r] eqn:Er; [|vm_compute in E; by injection E as <- _].
  apply (service_well_typed (H := traced (λ _, Failed "")) getenv files [] w' srv (UsesFile r));
    [by intros m|exact E|]. rewrite Er. by apply file_steps.
Defined.
